(** * TileDB-Vector-Search: the IVF search core, embedded and verified

    A shallow embedding of

    - [experimental/include/tdb_partitioned_matrix.h] (the partitioned
      streamer [tdbPartitionedMatrix]),
    - [experimental/include/detail/ivf/qv.h] (the infinite-RAM and the
      finite-RAM query),
    - [src/include/ivf_index.h] (k-means initialisation and training),
    - [experimental/src/utils.h] (the classification of addresses and file
      names),
    - [src/sift_db.h] (the reader of the corpus files),
    - [experimental/src/linalg.h] (the class [Matrix]),

    followed by the properties of these functions.

    Conventions.  [size_t], [indices_type], [parts_type] and
    [shuffled_ids_type] are 64-bit unsigned integers (the header
    [array_types.h] that names them is not part of the sources); they are
    values of [Z] and every C++ operation on them is followed by [wrap64].
    An [int] is a value of [Z] normalised by [to_int].  A [std::vector] is a
    [list]; reading it out of range is undefined behaviour and ends the
    computation in [Undefined]. *)

From Stdlib Require Import ZArith Lia.
From Stdlib Require Ascii String.
From Stdlib Require SpecFloat.
From stdpp Require Import base tactics option list list_numbers sets sorting.

Local Open Scope Z_scope.

(** ** Machine integers and outcomes *)

Definition wrap64 (z : Z) : Z := z `mod` 2 ^ 64.

Definition to_int (z : Z) : Z := (z + 2 ^ 31) `mod` 2 ^ 32 - 2 ^ 31.

(** [v[i]] for a [std::vector] [v] and an unsigned index [i]. *)
Definition vec_at {A : Type} (v : list A) (i : Z) : option A :=
  if bool_decide (0 ≤ i) then v !! Z.to_nat i else None.

(** The [std::runtime_error]s of the sources, by their message. *)
Inductive exn : Type :=
  | CellOrderMismatch      (* "Cell order and matrix order must match" *)
  | IndicesNotValid        (* "Indices are not valid" *)
  | AttributeTypeMismatch  (* "Attribute type mismatch: ..." *)
  | InvalidPartitioning    (* "Invalid partitioning" *)
  | ColumnCountMismatch    (* "Column count mismatch" *)
  | QueryNotComplete       (* "Query status is not complete -- fix me" *)
  | AssertionFailed.       (* an [assert] that does not hold *)

(** How a call ends: it returns, it throws, or its behaviour is undefined
    (an access outside a vector, a division by zero). *)
Inductive outcome (A : Type) : Type :=
  | Returned (a : A)
  | Thrown (e : exn)
  | Undefined.
Arguments Returned {A} a.
Arguments Thrown {A} e.
Arguments Undefined {A}.

(** Sequencing: an exception or undefined behaviour ends the computation. *)
Definition bind {A B : Type} (o : outcome A) (f : A → outcome B) : outcome B :=
  match o with
  | Returned a => f a
  | Thrown e => Thrown e
  | Undefined => Undefined
  end.

Notation "x ⟵ y ; z" := (bind y (λ x, z))
  (at level 20, y at level 100, z at level 200, only parsing).

(** A vector read inside a computation. *)
Definition read {A : Type} (v : list A) (i : Z) : outcome A :=
  match vec_at v i with
  | Some a => Returned a
  | None => Undefined
  end.

(** [for (x : xs) body], threading the state [s]. *)
Fixpoint for_each {A S : Type} (xs : list A) (body : A → S → outcome S) (s : S) : outcome S :=
  match xs with
  | [] => Returned s
  | x :: xs' => s' ⟵ body x s; for_each xs' body s'
  end.

(** A dense TileDB array seen through the storage adapter: every coordinate
    of the column dimension holds a cell, the schema gives the domain of
    that dimension, and two flags say whether the attribute type is the C++
    element type and whether a submitted read reports [COMPLETE]. *)
Record dense_array (A : Type) : Type := {
  cell : Z → A;
  col_domain : Z * Z;
  order_matches : bool;
  type_matches : bool;
  completes : bool;
}.
Arguments cell {A} d _.
Arguments col_domain {A} d.
Arguments order_matches {A} d.
Arguments type_matches {A} d.
Arguments completes {A} d.

(** One read of a subarray made of the inclusive ranges [ranges] of the
    column dimension: the cells of the ranges, in the order the ranges were
    added. *)
Definition read_ranges {A : Type} (d : dense_array A) (ranges : list (Z * Z)) : list A :=
  concat ((λ r : Z * Z, cell d <$> seqZ r.1 (r.2 - r.1 + 1)) <$> ranges).

(** [set_data_buffer] followed by [submit]: the cells read replace the
    front of the buffer, the rest of the buffer keeps its content. *)
Definition overwrite {A : Type} (new old : list A) : list A :=
  new ++ drop (length new) old.

(** ** The partitioned streamer ([tdb_partitioned_matrix.h]) *)

Module Streamer.
Section Streamer.
(** The type of a database column and the content of freshly allocated,
    not yet written storage ([make_unique_for_overwrite]). *)
Context {T : Type} (junk : T).

Record t : Type := {
  array_ : dense_array T;
  ids_array_ : dense_array Z;
  indices_ : list Z;
  parts_ : list Z;
  ids_ : list Z;
  data_ : list T;                       (* the columns of the Base matrix *)
  num_array_cols_ : Z;
  total_num_parts_ : Z;
  col_view_ : Z * Z;
  col_part_view_ : Z * Z;
  col_offset_ : Z;
  col_part_offset_ : Z;
  max_cols_ : Z;
  num_cols_ : Z;
  num_col_parts_ : Z;
  ranges_ : list (Z * Z);               (* ranges of the last subarray *)
}.

(** [indices_[parts_[i] + 1] - indices_[parts_[i]]] *)
Definition part_size (indices parts : list Z) (i : Z) : option Z :=
  p ← vec_at parts i;
  stop ← vec_at indices (wrap64 (p + 1));
  start ← vec_at indices p;
  Some (wrap64 (stop - start)).

(** The loop [for (size_t i = get<0>(col_part_view_); i < total_num_parts_; ++i)]
    of [advance], over the values [idxs] that [i] still has to take;
    [cv0] is [get<0>(col_view_)], the accumulators are [get<1>(col_view_)]
    and [get<1>(col_part_view_)].  [None] when a vector is read out of
    range. *)
Fixpoint fit (indices parts : list Z) (max_cols cv0 : Z) (idxs : list Z)
    (cv1 cpv1 : Z) : option (Z * Z) :=
  match idxs with
  | [] => Some (cv1, cpv1)
  | i :: idxs' =>
      match part_size indices parts i with
      | None => None
      | Some next_part_size =>
          if bool_decide (wrap64 (cv1 + next_part_size) > wrap64 (cv0 + max_cols))
          then Some (cv1, cpv1)
          else fit indices parts max_cols cv0 idxs'
                 (wrap64 (cv1 + next_part_size)) (wrap64 (i + 1))
      end
  end.

(** The loop [for (size_t j = get<0>(col_part_view_); j < get<1>(col_part_view_); ++j)]
    that counts the columns and adds one range per non-empty partition. *)
Fixpoint gather (indices parts : list Z) (js : list Z)
    (col_count : Z) (ranges : list (Z * Z)) : option (Z * list (Z * Z)) :=
  match js with
  | [] => Some (col_count, ranges)
  | j :: js' =>
      p ← vec_at parts j;
      start ← vec_at indices p;
      stop ← vec_at indices (wrap64 (p + 1));
      let len := wrap64 (stop - start) in
      if bool_decide (len = 0) then gather indices parts js' col_count ranges
      else gather indices parts js' (wrap64 (col_count + len))
             (ranges ++ [(to_int start, to_int stop - 1)])
  end.

(** The assignments to the cursors in [advance], once the window
    [col_view_], [col_part_view_] is known. *)
Definition with_window (s : t) (cv cpv : Z * Z) : t :=
  {| array_ := array_ s; ids_array_ := ids_array_ s;
     indices_ := indices_ s; parts_ := parts_ s;
     ids_ := ids_ s; data_ := data_ s;
     num_array_cols_ := num_array_cols_ s;
     total_num_parts_ := total_num_parts_ s;
     col_view_ := cv;
     col_part_view_ := cpv;
     col_offset_ := cv.1;
     col_part_offset_ := cpv.1;
     max_cols_ := max_cols_ s;
     num_cols_ := wrap64 (cv.2 - cv.1);
     num_col_parts_ := wrap64 (cpv.2 - cpv.1);
     ranges_ := ranges_ s |}.

(** The read of the columns of [ranges] into the matrix. *)
Definition with_data (s : t) (ranges : list (Z * Z)) : t :=
  {| array_ := array_ s; ids_array_ := ids_array_ s;
     indices_ := indices_ s; parts_ := parts_ s;
     ids_ := ids_ s;
     data_ := overwrite (read_ranges (array_ s) ranges) (data_ s);
     num_array_cols_ := num_array_cols_ s;
     total_num_parts_ := total_num_parts_ s;
     col_view_ := col_view_ s;
     col_part_view_ := col_part_view_ s;
     col_offset_ := col_offset_ s;
     col_part_offset_ := col_part_offset_ s;
     max_cols_ := max_cols_ s;
     num_cols_ := num_cols_ s;
     num_col_parts_ := num_col_parts_ s;
     ranges_ := ranges |}.

(** The read of the ids of [ranges] into [ids_]. *)
Definition with_ids (s : t) (ranges : list (Z * Z)) : t :=
  {| array_ := array_ s; ids_array_ := ids_array_ s;
     indices_ := indices_ s; parts_ := parts_ s;
     ids_ := overwrite (read_ranges (ids_array_ s) ranges) (ids_ s);
     data_ := data_ s;
     num_array_cols_ := num_array_cols_ s;
     total_num_parts_ := total_num_parts_ s;
     col_view_ := col_view_ s;
     col_part_view_ := col_part_view_ s;
     col_offset_ := col_offset_ s;
     col_part_offset_ := col_part_offset_ s;
     max_cols_ := max_cols_ s;
     num_cols_ := num_cols_ s;
     num_col_parts_ := num_col_parts_ s;
     ranges_ := ranges_ s |}.

(** [bool advance()] *)
Definition advance (s : t) : t * outcome bool :=
  if negb (type_matches (array_ s)) then (s, Thrown AttributeTypeMismatch) else
  let cv0 := (col_view_ s).2 in
  let cpv0 := (col_part_view_ s).2 in
  match fit (indices_ s) (parts_ s) (max_cols_ s) cv0
          (seqZ cpv0 (total_num_parts_ s - cpv0)) cv0 cpv0 with
  | None => (s, Undefined)
  | Some (cv1, cpv1) =>
      let s1 := with_window s (cv0, cv1) (cpv0, cpv1) in
      if bool_decide (num_cols_ s1 = 0) && negb (bool_decide (num_col_parts_ s1 = 0))
         || negb (bool_decide (num_cols_ s1 = 0)) && bool_decide (num_col_parts_ s1 = 0)
      then (s1, Thrown InvalidPartitioning)
      else if bool_decide (num_cols_ s1 = 0) then (s1, Returned false)
      else
        match gather (indices_ s) (parts_ s) (seqZ cpv0 (cpv1 - cpv0)) 0 [] with
        | None => (s1, Undefined)
        | Some (col_count, ranges) =>
            if negb (bool_decide (col_count = wrap64 (cv1 - cv0)))
            then (s1, Thrown ColumnCountMismatch)
            else
              let s2 := with_data s1 ranges in
              if negb (completes (array_ s)) then (s2, Thrown QueryNotComplete)
              else
                (* "Now deal with ids": the same loop, for the ids array *)
                match gather (indices_ s) (parts_ s) (seqZ cpv0 (cpv1 - cpv0)) 0 [] with
                | None => (s2, Undefined)
                | Some (ids_col_count, ids_ranges) =>
                    if negb (bool_decide (ids_col_count = wrap64 (cv1 - cv0)))
                    then (s2, Thrown ColumnCountMismatch)
                    else
                      let s3 := with_ids s2 ids_ranges in
                      if negb (completes (ids_array_ s)) then (s3, Thrown QueryNotComplete)
                      else (s3, Returned true)
                end
        end
  end.

(** The accessors. *)
Definition num_col_parts (s : t) : Z :=
  wrap64 ((col_part_view_ s).2 - (col_part_view_ s).1).
Definition col_part_offset (s : t) : Z := col_part_offset_ s.
Definition col_offset (s : t) : Z := col_offset_ s.
Definition ids (s : t) : list Z := ids_ s.

(** The loop that sums the sizes of the active partitions into the [int]
    [total_max_cols] ([auto total_max_cols = 0;]). *)
Fixpoint sum_parts (indices parts : list Z) (idxs : list Z) (total_max_cols : Z) : option Z :=
  match idxs with
  | [] => Some total_max_cols
  | i :: idxs' =>
      sz ← part_size indices parts i;
      sum_parts indices parts idxs' (to_int (wrap64 (wrap64 total_max_cols + sz)))
  end.

(** The sentinel repair at the start of the constructor. *)
Definition repair_last (indices : list Z) (num_array_cols : Z) : outcome (list Z) :=
  let n := Z.of_nat (length indices) in
  match vec_at indices (wrap64 (n - 1)), vec_at indices (wrap64 (n - 2)) with
  | Some last, Some before =>
      if bool_decide (last = before) then
        if bool_decide (last > num_array_cols) then Thrown IndicesNotValid
        else Returned (<[Z.to_nat (wrap64 (n - 1)) := num_array_cols]> indices)
      else Returned indices
  | _, _ => Undefined
  end.

(** The object at the end of the constructor's body, before the first
    [advance]. *)
Definition fresh (array : dense_array T) (ids_array : dense_array Z)
    (indices parts : list Z) (num_array_cols max_cols : Z) : t :=
  {| array_ := array; ids_array_ := ids_array;
     indices_ := indices; parts_ := parts;
     ids_ := replicate (Z.to_nat max_cols) 0;
     data_ := replicate (Z.to_nat max_cols) junk;
     num_array_cols_ := num_array_cols;
     total_num_parts_ := Z.of_nat (length parts);
     col_view_ := (0, 0);
     col_part_view_ := (0, 0);
     col_offset_ := 0;
     col_part_offset_ := 0;
     max_cols_ := max_cols;
     num_cols_ := 0;
     num_col_parts_ := 0;
     ranges_ := [] |}.

(** The constructor with an [upper_bound]; it ends with the first
    [advance], whose result it drops. *)
Definition make (array : dense_array T) (ids_array : dense_array Z)
    (in_indices in_parts : list Z) (upper_bound : Z) : outcome t :=
  let total_num_parts := Z.of_nat (length in_parts) in
  let num_array_cols :=
    wrap64 (to_int ((col_domain array).2 - (col_domain array).1 + 1)) in
  if negb (order_matches array) then Thrown CellOrderMismatch else
  match repair_last in_indices num_array_cols with
  | Thrown e => Thrown e
  | Undefined => Undefined
  | Returned indices =>
      match sum_parts indices in_parts (seqZ 0 total_num_parts) 0 with
      | None => Undefined
      | Some total_max_cols =>
          let max_cols :=
            if bool_decide (upper_bound = 0)
               || bool_decide (upper_bound > wrap64 total_max_cols)
            then wrap64 total_max_cols else upper_bound in
          match advance (fresh array ids_array indices in_parts num_array_cols max_cols) with
          | (s, Returned _) => Returned s
          | (_, Thrown e) => Thrown e
          | (_, Undefined) => Undefined
          end
      end
  end.
End Streamer.
Arguments t : clear implicits.
End Streamer.

(** ** The bounded heap of (score, id) pairs ([utils/fixed_min_heap.h]) *)

Module Heap.
(** Modelled from the spec: the header [utils/fixed_min_heap.h], which
    defines [fixed_min_pair_heap], is not among the sources; only its unit
    test and its callers are.  The spec gives a container of capacity [k]
    with an optional score comparator (default: ascending): while fewer
    than [k] pairs are held an insert adds the pair; once [k] pairs are
    held an insert whose score is not below the current maximum is a
    no-op, and otherwise the maximum is displaced.  A score is a value of
    a totally ordered set, here [Z]; an id is a [size_t].  The order of
    the pairs inside the container (a heap order) is not specified, the
    model keeps them in the order of arrival. *)
Record fixed_min_pair_heap : Type := {
  max_size : Z;
  items : list (Z * Z);
}.

Definition empty (k : Z) : fixed_min_pair_heap := {| max_size := k; items := [] |}.

Section Compare.
(** [compare_(a, b)]: the score [a] is strictly before the score [b]. *)
Variable compare_ : Z → Z → bool.

(** The pair that holds the current maximum (the last one in the order
    of [compare_]); among several, the first held. *)
Fixpoint worst (l : list (Z * Z)) : option (Z * Z) :=
  match l with
  | [] => None
  | e :: l' =>
      match worst l' with
      | None => Some e
      | Some m => if compare_ e.1 m.1 then Some m else Some e
      end
  end.

(** Removes the first occurrence of [m]. *)
Fixpoint remove_first (m : Z * Z) (l : list (Z * Z)) : list (Z * Z) :=
  match l with
  | [] => []
  | e :: l' => if bool_decide (e = m) then l' else e :: remove_first m l'
  end.

(** [insert(score, id)] *)
Definition insert (x y : Z) (h : fixed_min_pair_heap) : fixed_min_pair_heap :=
  if bool_decide (Z.of_nat (length (items h)) < max_size h)
  then {| max_size := max_size h; items := items h ++ [(x, y)] |}
  else
    match worst (items h) with
    | Some m =>
        if compare_ x m.1
        then {| max_size := max_size h;
                items := remove_first m (items h) ++ [(x, y)] |}
        else h
    | None => h
    end.

(** The constructor from an initializer list, and a sequence of
    inserts. *)
Definition insert_all (l : list (Z * Z)) (h : fixed_min_pair_heap) : fixed_min_pair_heap :=
  foldl (λ h e, insert e.1 e.2 h) h l.
End Compare.

(** The comparisons used by the callers: tuples ([operator<] of
    [std::tuple]), scores ascending, scores descending. *)
Definition tuple_lt (a b : Z * Z) : bool :=
  bool_decide (a.1 < b.1) || bool_decide (a.1 = b.1) && bool_decide (a.2 < b.2).
Definition score_gt (a b : Z * Z) : bool := bool_decide (a.1 > b.1).

(** [std::sort_heap(begin(h), end(h), lt)] on the pairs that the container
    holds.  The container is a heap in the order of the scores alone, and
    its layout is decided by the header that is not among the sources: the
    order in which [std::sort_heap] leaves pairs of equal score depends on
    that layout, so the sort is a parameter of the model. *)
Class SortHeap : Type :=
  sort_heap : (Z * Z → Z * Z → bool) → list (Z * Z) → list (Z * Z).

(** What the statements use of it: the pairs are rearranged, by
    increasing score under [tuple_lt] and by decreasing score under
    [score_gt]; nothing is said of the order of pairs of equal score.
    [std::sort_heap] moves, pop after pop, the pair at the root to the end
    of the range and sifts the others with [lt]; on a heap in the order of
    the scores the root holds a largest score (a smallest one for a heap
    built with [std::greater]), and a sift with [tuple_lt] or [score_gt]
    keeps the heap in the order of the scores, so that the scores come out
    in order whatever the ids are. *)
Class SortHeapLaws `{SortHeap} : Prop := {
  sort_heap_rearranges : ∀ lt l, sort_heap lt l ≡ₚ l;
  sort_heap_tuple_lt : ∀ l, Sorted (λ a b : Z * Z, a.1 ≤ b.1) (sort_heap tuple_lt l);
  sort_heap_score_gt : ∀ l, Sorted (λ a b : Z * Z, b.1 ≤ a.1) (sort_heap score_gt l);
}.

(** One such sort, a merge sort in the order of [lt], with which the
    closed examples are evaluated. *)
Definition not_after (lt : Z * Z → Z * Z → bool) : relation (Z * Z) :=
  λ a b, lt b a = false.
Global Instance not_after_dec lt a b : Decision (not_after lt a b) :=
  decide (lt b a = false).
Global Instance merge_sorter : SortHeap := λ lt l, merge_sort (not_after lt) l.
End Heap.

(** ** The IVF queries ([detail/ivf/qv.h]) *)

Module Ivf.
Section Query.
(** The type of a vector, the squared distance [L2] with its value
    embedded in [Z] by an order embedding of the floats, and the content
    of unwritten storage. *)
Context {V : Type} (L2 : V → V → Z) (junk : V).
(** The [std::sort_heap] of the heaps. *)
Context {SH : Heap.SortHeap}.

(** [m(p, j)] for a column-major matrix given by its columns. *)
Definition mat_at (m : list (list Z)) (p j : Z) : outcome Z :=
  col ⟵ read m j; read col p.

(** Modelled from the spec: [detail::flat::qv_query_nth] is not among the
    sources.  The spec's [assign_nearest] computes for each query the
    squared distance to every centroid and returns the [nprobe] centroid
    indices with the smallest distances, ascending by score, using a
    bounded heap of capacity [nprobe]. *)
Definition qv_query_nth (centroids q : list V) (nprobe : Z) : list (list Z) :=
  (λ q_vec,
     snd <$> Heap.sort_heap Heap.tuple_lt
       (Heap.items
          (Heap.insert_all Z.ltb
             (zip (L2 q_vec <$> centroids) (seqZ 0 (Z.of_nat (length centroids))))
             (Heap.empty nprobe)))) <$> q.

(** The number of columns that the schema of an array gives. *)
Definition array_cols {A : Type} (d : dense_array A) : Z :=
  wrap64 (to_int ((col_domain d).2 - (col_domain d).1 + 1)).

(** The whole array in memory ([tdbColMajorMatrix], [read_vector]). *)
Definition read_all {A : Type} (d : dense_array A) : list A :=
  cell d <$> seqZ 0 (array_cols d).

(** [min_scores[j].insert(score, id)] *)
Definition insert_at (j : Z) (score id : Z)
    (min_scores : list Heap.fixed_min_pair_heap) : outcome (list Heap.fixed_min_pair_heap) :=
  h ⟵ read min_scores j;
  Returned (<[Z.to_nat j := Heap.insert Z.ltb score id h]> min_scores).

(** The final loop of both queries: column [j] of [top_k] receives the
    ids of the sorted heap [j]; the slots that are not written keep the
    content of the allocation, [None]. *)
Definition top_k_column (k_nn : Z) (h : Heap.fixed_min_pair_heap) : list (option Z) :=
  overwrite (Some <$> (snd <$> Heap.sort_heap Heap.tuple_lt (Heap.items h)))
            (replicate (Z.to_nat k_nn) None).

Definition qv_query_heap_infinite_ram (db : dense_array V) (ids : dense_array Z)
    (centroids q : list V) (indices : list Z) (nprobe k_nn : Z)
    : outcome (list (list (option Z))) :=
  let shuffled_db := read_all db in
  let shuffled_ids := read_all ids in
  if negb (bool_decide (array_cols db = Z.of_nat (length shuffled_ids)))
  then Thrown AssertionFailed else
  let indices :=
    if bool_decide (Z.of_nat (length indices) = Z.of_nat (length centroids))
    then indices ++ [array_cols db] else indices in
  if negb (bool_decide (Z.of_nat (length indices) = wrap64 (Z.of_nat (length centroids) + 1)))
  then Thrown AssertionFailed else
  let top_centroids := qv_query_nth centroids q nprobe in
  let num_queries := Z.of_nat (length q) in
  min_scores ⟵
    for_each (seqZ 0 num_queries) (λ j min_scores,
      q_vec ⟵ read q j;
      for_each (seqZ 0 nprobe) (λ p min_scores,
        c ⟵ mat_at top_centroids p j;
        start ⟵ read indices c;
        stop ⟵ read indices (wrap64 (c + 1));
        for_each (seqZ start (stop - start)) (λ i min_scores,
          x ⟵ read shuffled_db i;
          id ⟵ read shuffled_ids i;
          insert_at j (L2 q_vec x) id min_scores) min_scores) min_scores)
      (replicate (length q) (Heap.empty k_nn));
  Returned (top_k_column k_nn <$> min_scores).

(** [std::multimap::emplace]: after the last entry whose key is not
    greater; [equal_range] then gives the entries of a key in the order
    of their insertion. *)
Fixpoint multimap_emplace (k v : Z) (m : list (Z * Z)) : list (Z * Z) :=
  match m with
  | [] => [(k, v)]
  | e :: m' => if bool_decide (k < e.1) then (k, v) :: e :: m'
               else e :: multimap_emplace k v m'
  end.
Definition equal_range (k : Z) (m : list (Z * Z)) : list (Z * Z) :=
  filter (λ e, e.1 = k) m.

(** [std::set::emplace] on the sorted list of the elements. *)
Fixpoint set_emplace (k : Z) (m : list Z) : list Z :=
  match m with
  | [] => [k]
  | e :: m' => if bool_decide (k < e) then k :: e :: m'
               else if bool_decide (k = e) then e :: m'
               else e :: set_emplace k m'
  end.

(** [min_scores[n][j].insert(score, id)] *)
Definition insert_at2 (n j : Z) (score id : Z)
    (min_scores : list (list Heap.fixed_min_pair_heap))
    : outcome (list (list Heap.fixed_min_pair_heap)) :=
  row ⟵ read min_scores n;
  row' ⟵ insert_at j score id row;
  Returned (<[Z.to_nat n := row']> min_scores).

(** The work of thread [n] on the window of [shuffled_db]: the body of
    the [std::async] task.  A thread writes the heaps [min_scores[n]]
    only and reads data that no thread writes, so the tasks of one window
    are run here one after the other. *)
Definition process_window (shuffled_db : Streamer.t V) (q : list V)
    (new_indices active_partitions : list Z) (centroid_query : list (Z * Z))
    (n first_part last_part : Z)
    (min_scores : list (list Heap.fixed_min_pair_heap))
    : outcome (list (list Heap.fixed_min_pair_heap)) :=
  for_each (seqZ first_part (last_part - first_part)) (λ p min_scores,
    let partno := wrap64 (p + Streamer.col_part_offset shuffled_db) in
    start ⟵ read new_indices partno;
    stop ⟵ read new_indices (wrap64 (partno + 1));
    c ⟵ read active_partitions partno;
    for_each (equal_range c centroid_query) (λ e min_scores,
      let j := e.2 in
      q_vec ⟵ read q j;
      for_each (seqZ start (stop - start)) (λ k min_scores,
        let kp := wrap64 (k - Streamer.col_offset shuffled_db) in
        x ⟵ read (Streamer.data_ shuffled_db) kp;
        id ⟵ read (Streamer.ids shuffled_db) kp;
        insert_at2 n j (L2 q_vec x) id min_scores) min_scores) min_scores)
    min_scores.

(** The loop [for (;;)] over the windows; [fuel] bounds the number of
    windows, [None] when it is used up. *)
Fixpoint windows (fuel : nat) (shuffled_db : Streamer.t V) (q : list V)
    (new_indices active_partitions : list Z) (centroid_query : list (Z * Z))
    (nthreads : Z) (min_scores : list (list Heap.fixed_min_pair_heap))
    : option (outcome (list (list Heap.fixed_min_pair_heap))) :=
  match fuel with
  | O => None
  | S fuel' =>
      if bool_decide (nthreads = 0) then Some Undefined else
      let parts_per_thread :=
        wrap64 (wrap64 (Streamer.num_col_parts shuffled_db + nthreads) - 1) `div` nthreads in
      match
        for_each (seqZ 0 nthreads) (λ n min_scores,
          let first_part :=
            Z.min (wrap64 (n * parts_per_thread)) (Streamer.num_col_parts shuffled_db) in
          let last_part :=
            Z.min (wrap64 ((n + 1) * parts_per_thread)) (Streamer.num_col_parts shuffled_db) in
          if bool_decide (first_part = last_part) then Returned min_scores
          else process_window shuffled_db q new_indices active_partitions centroid_query
                 n first_part last_part min_scores) min_scores
      with
      | Returned min_scores' =>
          match Streamer.advance shuffled_db with
          | (shuffled_db', Returned true) =>
              windows fuel' shuffled_db' q new_indices active_partitions centroid_query
                nthreads min_scores'
          | (_, Returned false) => Some (Returned min_scores')
          | (_, Thrown e) => Some (Thrown e)
          | (_, Undefined) => Some Undefined
          end
      | Thrown e => Some (Thrown e)
      | Undefined => Some Undefined
      end
  end.

Definition qv_query_heap_finite_ram (fuel : nat) (db : dense_array V) (ids : dense_array Z)
    (centroids q : list V) (indices : list Z) (nprobe k_nn upper_bound nthreads : Z)
    : option (outcome (list (list (option Z)))) :=
  let num_queries := Z.of_nat (length q) in
  let top_centroids := qv_query_nth centroids q nprobe in
  match
    for_each (seqZ 0 num_queries) (λ j maps,
      for_each (seqZ 0 nprobe) (λ p (maps : list (Z * Z) * list Z),
        c ⟵ mat_at top_centroids p j;
        Returned (multimap_emplace c j maps.1, set_emplace c maps.2)) maps) ([], [])
  with
  | Thrown e => Some (Thrown e)
  | Undefined => Some Undefined
  | Returned (centroid_query, active_partitions) =>
      let nlist1 := wrap64 (Z.of_nat (length centroids) + 1) in
      let indices_r :=
        if negb (bool_decide (Z.of_nat (length indices) = nlist1))
        then
          let resized := take (Z.to_nat nlist1) indices
                         ++ replicate (Z.to_nat nlist1 - length indices)%nat 0 in
          match vec_at resized (wrap64 (nlist1 - 2)) with
          | Some v => Returned (<[Z.to_nat (wrap64 (nlist1 - 1)) := v]> resized)
          | None => Undefined
          end
        else Returned indices in
      match indices_r with
      | Thrown e => Some (Thrown e)
      | Undefined => Some Undefined
      | Returned indices =>
          let nactive := Z.of_nat (length active_partitions) in
          match
            for_each (seqZ 0 nactive) (λ i new_indices,
              a ⟵ read new_indices i;
              c ⟵ read active_partitions i;
              stop ⟵ read indices (wrap64 (c + 1));
              start ⟵ read indices c;
              Returned (<[Z.to_nat (wrap64 (i + 1)) := wrap64 (wrap64 (a + stop) - start)]> new_indices))
              (replicate (S (length active_partitions)) 0)
          with
          | Thrown e => Some (Thrown e)
          | Undefined => Some Undefined
          | Returned new_indices =>
              match Streamer.make junk db ids indices active_partitions upper_bound with
              | Thrown e => Some (Thrown e)
              | Undefined => Some Undefined
              | Returned shuffled_db =>
                  match
                    windows fuel shuffled_db q new_indices active_partitions centroid_query
                      nthreads
                      (replicate (Z.to_nat nthreads) (replicate (length q) (Heap.empty k_nn)))
                  with
                  | None => None
                  | Some (Thrown e) => Some (Thrown e)
                  | Some Undefined => Some Undefined
                  | Some (Returned min_scores) =>
                      Some (
                        merged ⟵
                          for_each (seqZ 0 num_queries) (λ j min_scores,
                            for_each (seqZ 1 (nthreads - 1)) (λ n min_scores,
                              row ⟵ read min_scores n;
                              h ⟵ read row j;
                              for_each (Heap.items h) (λ e min_scores,
                                insert_at2 0 j e.1 e.2 min_scores) min_scores) min_scores)
                            min_scores;
                        row0 ⟵ read merged 0;
                        Returned (top_k_column k_nn <$> row0))
                  end
              end
          end
      end
  end.
End Query.
End Ivf.

(** ** k-means ([src/include/ivf_index.h]) *)

(** The arithmetic of the element type [T] of the vectors (a template
    parameter of [kmeans_index]) and of [double], [D]: the operations that
    training applies to them. *)
Class Arith (T D : Type) : Type := {
  tzero : T;                 (* [0.0] stored in a [T] *)
  tadd : T → T → T;          (* [a += b] *)
  tsub : T → T → T;          (* [a -= b] *)
  tdiv : T → Z → T;          (* [a /= n] for a degree [n] *)
  sq : T → D;                (* [a * a], added to a [double] *)
  dzero : D;                 (* [0.0] *)
  dadd : D → D → D;
  dmul : D → D → D;
  dmax : D → D → D;          (* [std::max<double>] *)
  dlt : D → D → bool;        (* [a < b] *)
}.

Module KMeans.
Section KMeans.
Context {T D : Type} `{!Arith T D}.

(** [dis n] is the value that the call number [n] of [dis(gen)] returns. *)
Variable dis : nat → Z.

(** [ceil_ratio n] is [std::ceil(reassign_ratio_ * n)]. *)
Variable ceil_ratio : Z → Z.

(** [detail::flat::qv_partition_with_scores(centroids, training_set, nthreads)]
    is not among the sources: for each vector of the training set the
    score and the index of a centroid; the scores are embedded in [Z]. *)
Variable qv_partition_with_scores : list (list T) → list (list T) → list Z * list Z.

(** The [std::sort_heap] of the heaps. *)
Context {SH : Heap.SortHeap}.

(** Modelled from the spec: [sum_of_squares] is not among the sources;
    the spec's scalar kernel is the sum of [(a_i - b_i)^2] over the
    dimension. *)
Definition sum_of_squares (a b : list T) : D :=
  foldl (λ acc x, dadd acc (sq x)) dzero (zip_with tsub a b).

Record kmeans_index : Type := {
  gen : nat;                      (* the number of values drawn so far *)
  dimension_ : Z;
  nlist_ : Z;
  max_iter_ : Z;
  tol_ : D;
  centroids_ : list (list T);     (* the columns of the matrix *)
}.

Definition with_centroids (x : kmeans_index) (g : nat) (c : list (list T)) : kmeans_index :=
  {| gen := g; dimension_ := dimension_ x; nlist_ := nlist_ x;
     max_iter_ := max_iter_ x; tol_ := tol_ x; centroids_ := c |}.

(** [do { index = dis(gen); } while (visited[index]);] with at most
    [fuel] draws; [None] when they are used up. *)
Fixpoint draw_unvisited (fuel : nat) (visited : list bool) (g : nat)
    : option (outcome (Z * nat)) :=
  match fuel with
  | O => None
  | S fuel' =>
      let index := wrap64 (dis g) in
      match vec_at visited index with
      | None => Some Undefined
      | Some true => draw_unvisited fuel' visited (S g)
      | Some false => Some (Returned (index, S g))
      end
  end.

(** The first loop of [kmeans_random_init], over the values [idxs] that
    [i] still has to take. *)
Fixpoint choose (fuel : nat) (idxs : list Z) (indices : list Z) (visited : list bool)
    (g : nat) : option (outcome (list Z * nat)) :=
  match idxs with
  | [] => Some (Returned (indices, g))
  | i :: idxs' =>
      match draw_unvisited fuel visited g with
      | None => None
      | Some (Returned (index, g')) =>
          choose fuel idxs' (<[Z.to_nat i := index]> indices)
            (<[Z.to_nat index := true]> visited) g'
      | Some (Thrown e) => Some (Thrown e)
      | Some Undefined => Some Undefined
      end
  end.

(** [kmeans_random_init(training_set)]; the result also gives the vector
    [indices] of the chosen columns. *)
Definition kmeans_random_init (fuel : nat) (x : kmeans_index) (training_set : list (list T))
    : option (outcome (kmeans_index * list Z)) :=
  let num_cols := Z.of_nat (length training_set) in
  (* [std::uniform_int_distribution<> dis(0, num_cols - 1)] needs [0 <= b] *)
  if bool_decide (to_int (wrap64 (num_cols - 1)) < 0) then Some Undefined else
  match choose fuel (seqZ 0 (nlist_ x)) (replicate (Z.to_nat (nlist_ x)) 0)
          (replicate (length training_set) false) (gen x) with
  | None => None
  | Some (Thrown e) => Some (Thrown e)
  | Some Undefined => Some Undefined
  | Some (Returned (indices, g)) =>
      Some (
        c ⟵ for_each (seqZ 0 (nlist_ x)) (λ i centroids,
               index ⟵ read indices i;
               col ⟵ read training_set index;
               _ ⟵ read centroids i;
               Returned (<[Z.to_nat i := col]> centroids)) (centroids_ x);
        Returned (with_centroids x g c, indices))
  end.

(** The state of one Lloyd iteration. *)
Record sums : Type := {
  new_centroids : list (list T);
  degrees : list Z;
}.

(** The loop over the training set: the sums, the degrees and the heap of
    the highest scores. *)
Definition accumulate (training_set : list (list T)) (scores parts : list Z)
    (st : sums * Heap.fixed_min_pair_heap) : outcome (sums * Heap.fixed_min_pair_heap) :=
  for_each (seqZ 0 (Z.of_nat (length training_set))) (λ i st,
    part ⟵ read parts i;
    centroid ⟵ read (new_centroids st.1) part;
    vector ⟵ read training_set i;
    degree ⟵ read (degrees st.1) part;
    score ⟵ read scores i;
    Returned ({| new_centroids := <[Z.to_nat part := zip_with tadd centroid vector]> (new_centroids st.1);
                 degrees := <[Z.to_nat part := wrap64 (degree + 1)]> (degrees st.1) |},
              Heap.insert Z.gtb score i st.2)) st.

(** The loop over the centroids: the largest degree and the heap of the
    lowest degrees. *)
Definition scan_degrees (nlist : Z) (degrees : list Z)
    (st : Z * Heap.fixed_min_pair_heap) : outcome (Z * Heap.fixed_min_pair_heap) :=
  for_each (seqZ 0 nlist) (λ i st,
    degree ⟵ read degrees i;
    Returned (Z.max st.1 degree, Heap.insert Z.ltb degree i st.2)) st.

(** One step of the reassignment, for the pair [(degree, zero_part)] of
    [low_degrees] and the pair [(score, high_vector_id)] of
    [high_scores]. *)
Definition reassign_step (training_set : list (list T)) (parts : list Z)
    (zero_part high_vector_id : Z) (st : sums) : outcome sums :=
  _ ⟵ read (new_centroids st) zero_part;
  high_vector ⟵ read training_set high_vector_id;
  let nc := <[Z.to_nat zero_part := high_vector]> (new_centroids st) in
  part ⟵ read parts high_vector_id;
  col ⟵ read nc part;
  let nc := <[Z.to_nat part := zip_with tsub col high_vector]> nc in
  dz ⟵ read (degrees st) zero_part;
  let dg := <[Z.to_nat zero_part := wrap64 (dz + 1)]> (degrees st) in
  dp ⟵ read dg part;
  let dg := <[Z.to_nat part := wrap64 (dp - 1)]> dg in
  Returned {| new_centroids := nc; degrees := dg |}.

(** [for (i = 0; i < size(low_degrees) && get<0>(low_degrees[i]) <= lower_degree_bound; ++i)],
    over the values [idxs] of [i] below [size(low_degrees)]. *)
Fixpoint reassign (training_set : list (list T)) (parts : list Z)
    (low_degrees high_scores : list (Z * Z)) (lower_degree_bound : Z)
    (idxs : list Z) (st : sums) : outcome sums :=
  match idxs with
  | [] => Returned st
  | i :: idxs' =>
      match vec_at low_degrees i with
      | None => Undefined
      | Some low =>
          if bool_decide (low.1 ≤ lower_degree_bound) then
            high ⟵ read high_scores i;
            st' ⟵ reassign_step training_set parts low.2 high.2 st;
            reassign training_set parts low_degrees high_scores lower_degree_bound idxs' st'
          else Returned st
      end
  end.

(** The loop "Check for convergence": the division of the sums by the
    degrees, [max_diff] and [total_weight]. *)
Definition finish (nlist : Z) (centroids : list (list T)) (st : sums)
    : outcome (list (list T) * D * D) :=
  for_each (seqZ 0 nlist) (λ j (acc : list (list T) * D * D),
    let '(nc, max_diff, total_weight) := acc in
    degree ⟵ read (degrees st) j;
    r ⟵ (if bool_decide (degree ≠ 0) then
           centroid ⟵ read nc j;
           let centroid' := (λ c, tdiv c degree) <$> centroid in
           Returned (<[Z.to_nat j := centroid']> nc,
                     foldl (λ w c, dadd w (sq c)) total_weight centroid')
         else Returned (nc, total_weight));
    old ⟵ read centroids j;
    new ⟵ read r.1 j;
    Returned (r.1, dmax max_diff (sum_of_squares old new), r.2))
    (new_centroids st, dzero, dzero).

(** What one iteration did, for the statements about a run. *)
Record iteration : Type := {
  it_iter : Z;
  it_reassigned : bool;
  it_low_degrees : list (Z * Z);      (* sorted, when reassigned *)
  it_high_scores : list (Z * Z);      (* sorted, when reassigned *)
  it_lower_degree_bound : Z;
  it_parts : list Z;
  it_before : sums;                   (* before the reassignment *)
  it_after : sums;                    (* after it *)
  it_old_centroids : list (list T);
  it_new_centroids : list (list T);
  it_max_diff : D;
  it_total_weight : D;
  it_converged : bool;
}.

(** The body of [for (size_t iter = 0; iter < max_iter_; ++iter)]. *)
Definition lloyd (x : kmeans_index) (training_set : list (list T)) (iter : Z)
    (centroids : list (list T)) : outcome iteration :=
  let '(scores, parts) := qv_partition_with_scores centroids training_set in
  let zeroed :=
    {| new_centroids := replicate (Z.to_nat (nlist_ x)) (replicate (Z.to_nat (dimension_ x)) tzero);
       degrees := replicate (Z.to_nat (nlist_ x)) 0 |} in
  let heap_size := ceil_ratio (nlist_ x) + 5 in
  acc ⟵ accumulate training_set scores parts (zeroed, Heap.empty heap_size);
  deg ⟵ scan_degrees (nlist_ x) (degrees acc.1) (0, Heap.empty heap_size);
  let lower_degree_bound := ceil_ratio deg.1 in
  let reassigning := negb (bool_decide (iter = wrap64 (max_iter_ x - 1))) in
  let low_degrees := Heap.sort_heap Heap.tuple_lt (Heap.items deg.2) in
  let high_scores := Heap.sort_heap Heap.score_gt (Heap.items acc.2) in
  st ⟵ (if reassigning
        then reassign training_set parts low_degrees high_scores lower_degree_bound
               (seqZ 0 (Z.of_nat (length low_degrees))) acc.1
        else Returned acc.1);
  fin ⟵ finish (nlist_ x) centroids st;
  let '(nc, max_diff, total_weight) := fin in
  Returned {| it_iter := iter; it_reassigned := reassigning;
              it_low_degrees := low_degrees; it_high_scores := high_scores;
              it_lower_degree_bound := lower_degree_bound;
              it_parts := parts;
              it_before := acc.1; it_after := st;
              it_old_centroids := centroids; it_new_centroids := nc;
              it_max_diff := max_diff; it_total_weight := total_weight;
              it_converged := dlt max_diff (dmul (tol_ x) total_weight) |}.

(** The loop of [train_no_init] over the values [iters] that [iter] still
    has to take; the iterations done are collected in order. *)
Fixpoint iterate (x : kmeans_index) (training_set : list (list T)) (iters : list Z)
    (centroids : list (list T)) : outcome (list (list T) * list iteration) :=
  match iters with
  | [] => Returned (centroids, [])
  | iter :: iters' =>
      it ⟵ lloyd x training_set iter centroids;
      if it_converged it then Returned (it_new_centroids it, [it])
      else
        r ⟵ iterate x training_set iters' (it_new_centroids it);
        Returned (r.1, it :: r.2)
  end.

(** [train_no_init(training_set)], with the iterations it ran. *)
Definition train_no_init (x : kmeans_index) (training_set : list (list T))
    : outcome (kmeans_index * list iteration) :=
  r ⟵ iterate x training_set (seqZ 0 (max_iter_ x)) (centroids_ x);
  Returned (with_centroids x (gen x) r.1, r.2).
End KMeans.
Arguments kmeans_index : clear implicits.
Arguments sums : clear implicits.
Arguments iteration : clear implicits.
End KMeans.

(** ** Notions used in the statements *)

(** The number of columns of partition [p], of a list of partitions, and
    the inclusive ranges of the non-empty ones. *)
Definition start_of (indices : list Z) (p : Z) : Z := default 0 (vec_at indices p).
Definition stop_of (indices : list Z) (p : Z) : Z := default 0 (vec_at indices (p + 1)).
Definition size_of (indices : list Z) (p : Z) : Z := stop_of indices p - start_of indices p.
Definition cols_of (indices : list Z) (ps : list Z) : Z :=
  foldr Z.add 0 (size_of indices <$> ps).
Definition ranges_of (indices : list Z) (ps : list Z) : list (Z * Z) :=
  (λ p, (start_of indices p, stop_of indices p - 1))
    <$> filter (λ p, size_of indices p ≠ 0) ps.

(** The number of leading sizes that fit, one after the other, in [room]
    columns. *)
Fixpoint greedy (room : Z) (sizes : list Z) : nat :=
  match sizes with
  | [] => O
  | sz :: sizes' =>
      if bool_decide (sz ≤ room) then S (greedy (room - sz) sizes') else O
  end.

(** The partitions of [parts_] from position [from], [n] of them. *)
Definition slice (parts : list Z) (from : Z) (n : nat) : list Z :=
  take n (drop (Z.to_nat from) parts).

(** The partitions of the current window. *)
Definition window_of {T : Type} (s : Streamer.t T) : list Z :=
  slice (Streamer.parts_ s) (Streamer.col_part_view_ s).1
    (Z.to_nat ((Streamer.col_part_view_ s).2 - (Streamer.col_part_view_ s).1)).

(** The partitions that no window has held yet. *)
Definition unserved {T : Type} (s : Streamer.t T) : list Z :=
  drop (Z.to_nat (Streamer.col_part_view_ s).2) (Streamer.parts_ s).

(** The window that the next [advance] should hold: the longest run of
    unserved partitions that fits in [max_cols_] columns. *)
Definition next_window {T : Type} (s : Streamer.t T) : list Z :=
  take (greedy (Streamer.max_cols_ s) (size_of (Streamer.indices_ s) <$> unserved s))
       (unserved s).

(** Well-formed static data: the vectors are no longer than a [size_t]
    allows, the indices are monotone and fit an [int], the active
    partitions exist. *)
Definition static_wf (indices parts : list Z) : Prop :=
  (Z.of_nat (length indices) < 2 ^ 63 ∧ Z.of_nat (length parts) < 2 ^ 63)
  ∧ StronglySorted Z.le indices
  ∧ Forall (λ a, 0 ≤ a < 2 ^ 31) indices
  ∧ Forall (λ p, 0 ≤ p ∧ p + 1 < Z.of_nat (length indices)) parts.

(** A streamer whose static data is well formed (the indices are monotone
    and fit an [int], the active partitions exist, the types agree) and
    whose cursors are those of a streamer that has served the partitions
    before [get<1>(col_part_view_)]. *)
Record streamer_wf {T : Type} (s : Streamer.t T) : Prop := {
  wf_type : type_matches (Streamer.array_ s) = true;
  wf_total : Streamer.total_num_parts_ s = Z.of_nat (length (Streamer.parts_ s));
  wf_length : Z.of_nat (length (Streamer.indices_ s)) < 2 ^ 63
              ∧ Z.of_nat (length (Streamer.parts_ s)) < 2 ^ 63;
  wf_sorted : StronglySorted Z.le (Streamer.indices_ s);
  wf_bound : Forall (λ a, 0 ≤ a < 2 ^ 31) (Streamer.indices_ s);
  wf_parts : Forall (λ p, 0 ≤ p ∧ p + 1 < Z.of_nat (length (Streamer.indices_ s)))
               (Streamer.parts_ s);
  wf_cols : cols_of (Streamer.indices_ s) (Streamer.parts_ s) < 2 ^ 31;
  wf_max : 0 ≤ Streamer.max_cols_ s < 2 ^ 63;
  wf_served : 0 ≤ (Streamer.col_part_view_ s).2 ≤ Z.of_nat (length (Streamer.parts_ s));
  wf_offset : (Streamer.col_view_ s).2 =
              cols_of (Streamer.indices_ s)
                (take (Z.to_nat (Streamer.col_part_view_ s).2) (Streamer.parts_ s));
}.

(** [m] holds the current maximum score of the pairs [l]. *)
Definition is_max (m : Z * Z) (l : list (Z * Z)) : Prop :=
  m ∈ l ∧ ∀ e, e ∈ l → e.1 ≤ m.1.

(** [held] is a [k]-smallest-by-score subset of the pairs [xs]: a part of
    [xs], of [k] pairs or of all of them when there are fewer, none of
    which has a score above a score of the complement. *)
Definition k_smallest (k : Z) (xs held : list (Z * Z)) : Prop :=
  ∃ rest,
    xs ≡ₚ held ++ rest
    ∧ Z.of_nat (length held) = Z.min k (Z.of_nat (length xs))
    ∧ ∀ a b, a ∈ held → b ∈ rest → a.1 ≤ b.1.

(** The values of [dis(gen)] stay in the range of a training set of [n]
    columns, and every column comes again: the idealisation of a uniform
    distribution. *)
Definition in_range (dis : nat → Z) (n : Z) : Prop := ∀ g, 0 ≤ dis g < n.
Definition fair (dis : nat → Z) (n : Z) : Prop :=
  ∀ (g : nat) v, 0 ≤ v < n → ∃ g', (g ≤ g')%nat ∧ dis g' = v.

(** The vector [visited] marks exactly the columns [chosen]. *)
Definition marks (visited : list bool) (chosen : list Z) : Prop :=
  ∀ v b, vec_at visited v = Some b → (b = true ↔ v ∈ chosen).

(** The pairs of the sorted [low_degrees] that the reassignment visits: the
    first ones, as long as the degree is at most [bound]. *)
Fixpoint eligible (bound : Z) (low_degrees : list (Z * Z)) : list (Z * Z) :=
  match low_degrees with
  | [] => []
  | low :: rest =>
      if bool_decide (low.1 ≤ bound) then low :: eligible bound rest else []
  end.

(** What the claim says of one reassigned pair: the centroid [low.2] is
    overwritten with the training vector [high.2]; that vector is
    subtracted from the sum of the centroid it was assigned to; the degree
    of the overwritten centroid goes up by one and the degree of that
    centroid goes down by one. *)
Definition reassign_pair {T D : Type} `{!Arith T D} (training_set : list (list T))
    (parts : list Z) (st : KMeans.sums T) (low high : Z * Z) : KMeans.sums T :=
  let vector := default [] (vec_at training_set high.2) in
  let assigned := Z.to_nat (default 0 (vec_at parts high.2)) in
  {| KMeans.new_centroids :=
       alter (λ sum, zip_with tsub sum vector) assigned
         (<[Z.to_nat low.2 := vector]> (KMeans.new_centroids st));
     KMeans.degrees :=
       alter (λ d, wrap64 (d - 1)) assigned
         (alter (λ d, wrap64 (d + 1)) (Z.to_nat low.2) (KMeans.degrees st)) |}.

(** The reassignment as the claim states it: the i-th eligible low-degree
    centroid receives the i-th highest-scoring vector. *)
Definition reassign_spec {T D : Type} `{!Arith T D} (training_set : list (list T))
    (parts : list Z) (low_degrees high_scores : list (Z * Z)) (bound : Z)
    (st : KMeans.sums T) : KMeans.sums T :=
  foldl (λ st lh, reassign_pair training_set parts st lh.1 lh.2) st
    (zip (eligible bound low_degrees) high_scores).

(** The laws of exact arithmetic that the statements on sums rely on:
    sums may be reordered, a subtraction undoes an addition, and zero adds
    nothing to [total_weight].  Rounding arithmetic satisfies the last two
    only. *)
Class ArithLaws (T D : Type) `{!Arith T D} : Prop := {
  tadd_swap : ∀ a b c : T, tadd (tadd a b) c = tadd (tadd a c) b;
  tsub_tadd : ∀ a b : T, tsub (tadd a b) b = a;
  sq_tzero : sq tzero = dzero;
  dadd_dzero : ∀ w : D, dadd w dzero = w;
}.

(** The sum of vectors of dimension [dim], as the accumulation loop forms
    it. *)
Definition vsum {T D : Type} `{!Arith T D} (dim : nat) (vs : list (list T)) : list T :=
  foldl (zip_with tadd) (replicate dim tzero) vs.

(** Column [i] of a matrix. *)
Definition column {A : Type} (m : list (list A)) (i : Z) : list A :=
  default [] (vec_at m i).

(** The training vectors assigned to centroid [c] by [parts], among the
    first [m], without those of [taken]. *)
Definition members (parts : list Z) (taken : list Z) (m : Z) (c : Z) : list Z :=
  filter (λ i, vec_at parts i = Some c ∧ i ∉ taken) (seqZ 0 m).

(** The finished centroids: every sum with a non-zero degree is divided by
    its degree. *)
Definition divided {T D : Type} `{!Arith T D} (st : KMeans.sums T) : list (list T) :=
  zip_with (λ sum d, if bool_decide (d ≠ 0) then (λ c, tdiv c d) <$> sum else sum)
    (KMeans.new_centroids st) (KMeans.degrees st).

(** [max_diff] and [total_weight] as the claim defines them: the largest
    squared distance between an old and a new centroid, and the sum of the
    squares of all entries of all new centroids. *)
Definition max_diff_of {T D : Type} `{!Arith T D} (old new : list (list T)) : D :=
  foldl dmax dzero (zip_with KMeans.sum_of_squares old new).
Definition total_weight_of {T D : Type} `{!Arith T D} (new : list (list T)) : D :=
  foldl (λ w c, dadd w (sq c)) dzero (concat new).

(** The sums and the degrees account for the members of every centroid:
    the degree of a centroid is the number of its members, plus one when
    it has been overwritten (it is in [over]); the column of a centroid
    that has not been overwritten is the sum of its members. *)
Definition accounts {T D : Type} `{!Arith T D} (dim : nat) (nlist : Z)
    (training_set : list (list T)) (parts taken over : list Z) (m : Z)
    (st : KMeans.sums T) : Prop :=
  length (KMeans.new_centroids st) = Z.to_nat nlist
  ∧ length (KMeans.degrees st) = Z.to_nat nlist
  ∧ ∀ c, 0 ≤ c < nlist →
      vec_at (KMeans.degrees st) c
      = Some (Z.of_nat (length (members parts taken m c))
              + (if bool_decide (c ∈ over) then 1 else 0))
      ∧ ∃ col, vec_at (KMeans.new_centroids st) c = Some col
               ∧ length col = dim
               ∧ (c ∉ over →
                  col = vsum dim (column training_set <$> members parts taken m c)).

(** The iterations of a run follow one another: each starts from the
    centroids that the one before has produced, the first from [c]. *)
Fixpoint chained {T D : Type} (c : list (list T)) (trace : list (KMeans.iteration T D)) : Prop :=
  match trace with
  | [] => True
  | it :: trace' =>
      KMeans.it_old_centroids it = c ∧ chained (KMeans.it_new_centroids it) trace'
  end.

(** The candidates that partition [c] gives to the query vector [q_vec]:
    the pairs (score, id) of its columns, in the order of the database;
    and those of the partitions [col], one partition after the other. *)
Definition candidates {V : Type} (L2 : V → V → Z) (db : dense_array V) (ids : dense_array Z)
    (indices : list Z) (q_vec : V) (c : Z) : list (Z * Z) :=
  (λ i, (L2 q_vec (cell db i), cell ids i))
    <$> seqZ (start_of indices c) (size_of indices c).
Definition probed_candidates {V : Type} (L2 : V → V → Z) (db : dense_array V)
    (ids : dense_array Z) (indices : list Z) (q_vec : V) (col : list Z) : list (Z * Z) :=
  concat (candidates L2 db ids indices q_vec <$> col).

(** The input of a query is well formed: the arrays have [N] columns,
    [N] fits an [int], the reads succeed; there is a centroid, and the
    number of probes is at most the number of centroids; the indices are
    monotone, between 0 and [N]. *)
Record query_wf {V : Type} (db : dense_array V) (ids : dense_array Z)
    (centroids q : list V) (indices : list Z) (nprobe : Z) : Prop := {
  qwf_cols : (col_domain db).2 - (col_domain db).1 + 1
             = (col_domain ids).2 - (col_domain ids).1 + 1;
  qwf_int : 0 ≤ (col_domain db).2 - (col_domain db).1 + 1 < 2 ^ 31;
  qwf_flags : order_matches db = true ∧ type_matches db = true
              ∧ completes db = true ∧ completes ids = true;
  qwf_centroids : (0 < length centroids)%nat ∧ Z.of_nat (length centroids) < 2 ^ 31;
  qwf_queries : Z.of_nat (length q) < 2 ^ 31;
  qwf_nprobe : 0 ≤ nprobe ≤ Z.of_nat (length centroids);
  qwf_sorted : StronglySorted Z.le indices;
  qwf_range : Forall (λ a, 0 ≤ a ≤ Ivf.array_cols db) indices;
}.

(** The queries that probe the partition [c], in ascending order. *)
Definition probes_of (top : list (list Z)) (c : Z) : list Z :=
  filter (λ j, c ∈ default [] (top !! Z.to_nat j)) (seqZ 0 (Z.of_nat (length top))).

(** The position of every active partition in the sequence of the columns
    of all the active partitions, with the total number at the end:
    [new_indices]. *)
Definition offsets (indices parts : list Z) : list Z :=
  (λ i : nat, cols_of indices (take i parts)) <$> seq 0 (S (length parts)).

(** The heap [h] has the capacity [k] and holds the [k] smallest of the
    candidates [C]. *)
Definition holds (k : Z) (C : list (Z * Z)) (h : Heap.fixed_min_pair_heap) : Prop :=
  Heap.max_size h = k ∧ k_smallest k C (Heap.items h).

(** The streamer [s] holds the window of the active partitions from
    position [a] to position [b]: its static data is that of the query,
    its cursors are those of the window, and its buffers hold the columns
    and the ids of the partitions of the window, one partition after the
    other. *)
Record window_inv {T : Type} (db : dense_array T) (ids : dense_array Z)
    (indices parts : list Z) (max_cols : Z) (a b : nat) (s : Streamer.t T) : Prop := {
  wi_wf : streamer_wf s;
  wi_array : Streamer.array_ s = db;
  wi_ids_array : Streamer.ids_array_ s = ids;
  wi_indices : Streamer.indices_ s = indices;
  wi_parts : Streamer.parts_ s = parts;
  wi_max : Streamer.max_cols_ s = max_cols;
  wi_bounds : (a ≤ b ≤ length parts)%nat;
  wi_part_view : Streamer.col_part_view_ s = (Z.of_nat a, Z.of_nat b);
  wi_view : Streamer.col_view_ s
            = (cols_of indices (take a parts), cols_of indices (take b parts));
  wi_offset : Streamer.col_offset_ s = cols_of indices (take a parts);
  wi_part_offset : Streamer.col_part_offset_ s = Z.of_nat a;
  wi_fit : cols_of indices (take b parts) - cols_of indices (take a parts) ≤ max_cols;
  wi_length : length (Streamer.data_ s) = Z.to_nat max_cols
              ∧ length (Streamer.ids_ s) = Z.to_nat max_cols;
  wi_data : ∀ (i : nat) c t,
    (a ≤ i < b)%nat → parts !! i = Some c → 0 ≤ t < size_of indices c →
    vec_at (Streamer.data_ s)
      (cols_of indices (take i parts) - cols_of indices (take a parts) + t)
    = Some (cell db (start_of indices c + t))
    ∧ vec_at (Streamer.ids_ s)
        (cols_of indices (take i parts) - cols_of indices (take a parts) + t)
      = Some (cell ids (start_of indices c + t));
}.

(** The window that [advance] loads when the partitions before position
    [e] have been served. *)
Definition window_at (indices parts : list Z) (max_cols : Z) (e : nat) : list Z :=
  take (greedy max_cols (size_of indices <$> drop e parts)) (drop e parts).

(** The position at which the stream of windows ends when it is at
    position [e]: [None] when a window of empty partitions only makes
    [advance] throw, or when more than [fuel] windows are needed. *)
Fixpoint serve (indices parts : list Z) (max_cols : Z) (fuel : nat) (e : nat) : option nat :=
  match fuel with
  | O => None
  | S fuel' =>
      let w := window_at indices parts max_cols e in
      if bool_decide (w = []) then Some e
      else if bool_decide (cols_of indices w = 0) then None
      else serve indices parts max_cols fuel' (e + length w)
  end.

(** The candidates that the active partition at position [p] gives to
    the query number [j]: those of the partition, when the query probes
    it. *)
Definition served_candidates {V : Type} (L2 : V → V → Z) (db : dense_array V)
    (ids : dense_array Z) (indices : list Z) (q : list V) (top : list (list Z))
    (parts : list Z) (j : nat) (p : Z) : list (Z * Z) :=
  match vec_at parts p, q !! j with
  | Some c, Some q_vec =>
      if bool_decide (c ∈ default [] (top !! j))
      then candidates L2 db ids indices q_vec c else []
  | _, _ => []
  end.

(** The candidates that the active partitions at the positions [ps] give
    to the query number [j]. *)
Definition served_all {V : Type} (L2 : V → V → Z) (db : dense_array V)
    (ids : dense_array Z) (indices : list Z) (q : list V) (top : list (list Z))
    (parts : list Z) (ps : list Z) (j : nat) : list (Z * Z) :=
  concat (served_candidates L2 db ids indices q top parts j <$> ps).

(** The heaps of query [j], one per thread, hold the smallest of the
    candidates [Cs], one list per thread. *)
Definition family (k : Z) (j : nat) (Cs : list (list (Z * Z)))
    (ms : list (list Heap.fixed_min_pair_heap)) : Prop :=
  length Cs = length ms
  ∧ ∀ n C, Cs !! n = Some C →
      ∃ row h, ms !! n = Some row ∧ row !! j = Some h ∧ holds k C h.

(** The heaps [min_scores] of [nthreads] threads and [nq] queries hold,
    for every query [j], the smallest candidates of [D j], each thread a
    part of them. *)
Definition heaps_hold (k : Z) (nthreads nq : nat) (D : nat → list (Z * Z))
    (ms : list (list Heap.fixed_min_pair_heap)) : Prop :=
  length ms = nthreads
  ∧ Forall (λ row, length row = nq) ms
  ∧ ∀ j, (j < nq)%nat → ∃ Cs, family k j Cs ms ∧ concat Cs ≡ₚ D j.

(** The indices [indices_q] that the query uses for its offsets and the
    indices [indices_s] of the streamer, which has repaired the last
    slot, agree on the active partitions [parts]: on where a partition
    starts, and on the offsets of all of them; the streamer may hold more
    columns of a partition than the query uses. *)
Definition agree (indices_q indices_s parts : list Z) : Prop :=
  (∀ c, c ∈ parts →
     start_of indices_q c = start_of indices_s c
     ∧ 0 ≤ size_of indices_q c ≤ size_of indices_s c)
  ∧ ∀ i : nat, (i < length parts)%nat →
      cols_of indices_q (take i parts) = cols_of indices_s (take i parts).

(** The pairs that the heaps of query [j] of the threads after the first
    hold: they are inserted into the heap of the first thread. *)
Global Instance heap_inhabited : Inhabited Heap.fixed_min_pair_heap :=
  populate (Heap.empty 0).
Definition merged_items (j : nat) (rows : list (list Heap.fixed_min_pair_heap))
    : list (Z * Z) :=
  concat ((λ row, Heap.items (row !!! j)) <$> rows).

(** The capacity [max_cols_] that the constructor of the streamer chooses
    for an [upper_bound]. *)
Definition capacity (indices parts : list Z) (upper_bound : Z) : Z :=
  if bool_decide (upper_bound = 0)
     || bool_decide (upper_bound > wrap64 (cols_of indices parts))
  then wrap64 (cols_of indices parts) else upper_bound.

(** The indices that the streamer holds: the last slot becomes the number
    [N] of columns of the array when it repeats the slot before it. *)
Definition repaired (indices : list Z) (N : Z) : list Z :=
  let n := (length indices - 1)%nat in
  if bool_decide (indices !! n = indices !! (n - 1)%nat)
  then take n indices ++ [N] else indices.

(** The active partitions of a query call: the centroids that some query
    probes, each once, in ascending order. *)
Definition active_partitions (top : list (list Z)) : list Z :=
  foldr Ivf.set_emplace [] (concat top).

(** A column of [top_k]: the ids of the pairs [held], then the slots that
    the final loop does not write. *)
Definition id_column (k_nn : Z) (held : list (Z * Z)) : list (option Z) :=
  (Some <$> held.*2) ++ replicate (Z.to_nat k_nn - length held) None.

(** [held] is a [k]-largest-by-score subset of the pairs [xs]: what a
    heap built with [std::greater] holds. *)
Definition k_largest (k : Z) (xs held : list (Z * Z)) : Prop :=
  ∃ rest,
    xs ≡ₚ held ++ rest
    ∧ Z.of_nat (length held) = Z.min k (Z.of_nat (length xs))
    ∧ ∀ a b, a ∈ held → b ∈ rest → b.1 ≤ a.1.

(** A pair with its score negated: a heap of the largest scores is a heap
    of the smallest negated scores. *)
Definition negated (e : Z * Z) : Z * Z := (- e.1, e.2).

(** ** The nearest centroid of every vector ([kmeans_index::predict]) *)

Section Predict.
(** The elements [T], the value [D] of [sum_of_squares], and the [float]s
    [F] that the vector [distances] stores: the conversion [to_float] of a
    value into it, its zero and its order. *)
Context {T D F : Type} `{!Arith T D}.
Variables (to_float : D → F) (fzero : F) (flt : F → F → bool).

(** [std::min_element(first, last) - first]: the position of the first
    element that no earlier element is below; [smallest] is the position
    of the smallest so far, [m] its value, [i] the position of the head of
    [l]. *)
Fixpoint min_element_from (smallest : Z) (m : F) (i : Z) (l : list F) : Z :=
  match l with
  | [] => smallest
  | d :: l' =>
      if flt d m then min_element_from i d (i + 1) l'
      else min_element_from smallest m (i + 1) l'
  end.

(** For an empty range [std::min_element] returns [last], which is
    [first]: the difference is 0. *)
Definition min_element (l : list F) : Z :=
  match l with
  | [] => 0
  | d :: l' => min_element_from 0 d 1 l'
  end.

(** [predict(centroids, vectors)] *)
Definition predict (centroids vectors : list (list T)) : outcome (list Z) :=
  let nClusters := Z.of_nat (length centroids) in
  r ⟵ for_each (seqZ 0 (Z.of_nat (length vectors))) (λ i (st : list Z * list F),
        distances ⟵ for_each (seqZ 0 nClusters) (λ j distances,
            vector ⟵ read vectors i;
            centroid ⟵ read centroids j;
            _ ⟵ read distances j;
            Returned (<[Z.to_nat j := to_float (KMeans.sum_of_squares vector centroid)]>
                        distances)) st.2;
        _ ⟵ read st.1 i;
        Returned (<[Z.to_nat i := min_element distances]> st.1, distances))
      (replicate (length vectors) 0, replicate (length centroids) fzero);
  Returned r.1.
End Predict.

(** ** The initialisations of k-means and [train] ([src/include/ivf_index.h]) *)

(** [enum class kmeans_init] *)
Inductive kmeans_init : Type := none | kmeanspp | random.

Section Init.
Context {T D : Type} `{!Arith T D}.

(** [dis g] is the value that the call number [g] of the generator
    returns through the uniform distribution, [pick g w] the value that it
    returns through [std::discrete_distribution] built on the weights [w];
    [far] is [std::numeric_limits<double>::max() / 8192]. *)
Variables (dis : nat → Z) (pick : nat → list D → Z) (far : D).
Variable ceil_ratio : Z → Z.
Variable qv_partition_with_scores : list (list T) → list (list T) → list Z * list Z.
Context {SH : Heap.SortHeap}.

(** The parallel loop of [kmeans_pp] over the training set: the distance
    of every vector to its nearest centroid so far.  The tasks write
    distinct entries of [distances], they are run one after the other. *)
Definition nearest_distances (training_set : list (list T)) (newest : list T)
    (distances : list D) : outcome (list D) :=
  for_each (seqZ 0 (Z.of_nat (length training_set))) (λ j distances,
    vec ⟵ read training_set j;
    dj ⟵ read distances j;
    let distance := KMeans.sum_of_squares vec newest in
    (* [std::min(distances[j], distance)] *)
    Returned (<[Z.to_nat j := if dlt distance dj then distance else dj]> distances))
    distances.

(** [kmeans_pp(training_set)] *)
Definition kmeans_pp (x : KMeans.kmeans_index T D) (training_set : list (list T))
    : outcome (KMeans.kmeans_index T D) :=
  let num_cols := Z.of_nat (length training_set) in
  (* [std::uniform_int_distribution<> dis(0, num_cols - 1)] needs [0 <= b] *)
  if bool_decide (to_int (wrap64 (num_cols - 1)) < 0) then Undefined else
  let choice := dis (KMeans.gen x) in
  col ⟵ read training_set (wrap64 choice);
  _ ⟵ read (KMeans.centroids_ x) 0;
  r ⟵ for_each (seqZ 1 (KMeans.nlist_ x - 1))
        (λ i (st : list (list T) * list D * nat),
           newest ⟵ read st.1.1 (i - 1);
           distances ⟵ nearest_distances training_set newest st.1.2;
           (* [std::discrete_distribution] needs weights, none below zero,
              whose sum is above zero: one of them is above zero *)
           if negb (existsb (dlt dzero) distances) then Undefined else
           let nextIndex := pick st.2 distances in
           col ⟵ read training_set nextIndex;
           _ ⟵ read st.1.1 i;
           _ ⟵ read distances nextIndex;
           Returned (<[Z.to_nat i := col]> st.1.1,
                     <[Z.to_nat nextIndex := dzero]> distances, S st.2))
        (<[0%nat := col]> (KMeans.centroids_ x),
         replicate (length training_set) far, S (KMeans.gen x));
  Returned (KMeans.with_centroids x r.2 r.1.1).

(** [train(training_set, init)]; the fuel bounds the draws of the random
    initialisation. *)
Definition train (fuel : nat) (x : KMeans.kmeans_index T D) (training_set : list (list T))
    (init : kmeans_init)
    : option (outcome (KMeans.kmeans_index T D * list (KMeans.iteration T D))) :=
  match init with
  | none =>
      Some (KMeans.train_no_init ceil_ratio qv_partition_with_scores x training_set)
  | kmeanspp =>
      Some (x' ⟵ kmeans_pp x training_set;
            KMeans.train_no_init ceil_ratio qv_partition_with_scores x' training_set)
  | random =>
      match KMeans.kmeans_random_init dis fuel x training_set with
      | None => None
      | Some o =>
          Some (r ⟵ o;
                KMeans.train_no_init ceil_ratio qv_partition_with_scores r.1 training_set)
      end
  end.
End Init.

(** ** Addresses and file names ([experimental/src/utils.h]) *)

Module Utils.
Import Ascii String.

(** The regular expressions of the file, in the ECMAScript grammar that
    [std::regex] uses by default. *)
Inductive regex : Type :=
  | Chr (c : ascii)                        (* a character, or an escaped one *)
  | Dot                                    (* [.] *)
  | Class (ranges : list (ascii * ascii))  (* a bracket expression of ranges *)
  | Bol                                    (* [^] *)
  | Cat (r1 r2 : regex)
  | Opt (r : regex)                        (* [r?] *)
  | Star (r : regex)                       (* [r*] *)
  | Plus (r : regex)                       (* [r+] *)
  | Group (n : nat) (r : regex).           (* [(r)], the [n]-th marked group *)

(** [.] matches every character but the line terminators, for [char]
    the line feed and the carriage return. *)
Definition line_terminator (c : ascii) : bool :=
  Ascii.eqb c "010" || Ascii.eqb c "013".

Definition in_class (ranges : list (ascii * ascii)) (c : ascii) : bool :=
  existsb (λ r : ascii * ascii,
             (N_of_ascii r.1 <=? N_of_ascii c)%N && (N_of_ascii c <=? N_of_ascii r.2)%N)
    ranges.

(** The sub-matches of a [std::smatch]: the whole match at 0, then the
    marked groups; [None] for a group that took no part in the match. *)
Definition smatch : Type := list (option string).

(** The backtracking matcher: [r] is matched at the position [pos], where
    [s] is what is left of the input, and [k] matches what follows [r].
    The quantifiers are greedy; an iteration of [*] that consumes nothing
    is refused.  The fuel bounds the depth of the search. *)
Fixpoint run (fuel : nat) (r : regex) (pos : nat) (s : string) (caps : smatch)
    (k : nat → string → smatch → option smatch) : option smatch :=
  match fuel with
  | O => None
  | S fuel =>
      match r with
      | Chr c =>
          match s with
          | String c' s' => if Ascii.eqb c c' then k (S pos) s' caps else None
          | EmptyString => None
          end
      | Dot =>
          match s with
          | String c' s' => if line_terminator c' then None else k (S pos) s' caps
          | EmptyString => None
          end
      | Class ranges =>
          match s with
          | String c' s' => if in_class ranges c' then k (S pos) s' caps else None
          | EmptyString => None
          end
      | Bol => if Nat.eqb pos 0 then k pos s caps else None
      | Cat r1 r2 =>
          run fuel r1 pos s caps (λ pos' s' caps', run fuel r2 pos' s' caps' k)
      | Opt r' =>
          match run fuel r' pos s caps k with
          | Some m => Some m
          | None => k pos s caps
          end
      | Star r' =>
          match run fuel r' pos s caps
                  (λ pos' s' caps',
                     if Nat.eqb pos' pos then None
                     else run fuel (Star r') pos' s' caps' k) with
          | Some m => Some m
          | None => k pos s caps
          end
      | Plus r' =>
          run fuel r' pos s caps (λ pos' s' caps', run fuel (Star r') pos' s' caps' k)
      | Group n r' =>
          run fuel r' pos s caps
            (λ pos' s' caps',
               k pos' s' (<[n := Some (substring 0 (pos' - pos) s)]> caps'))
      end
  end.

Fixpoint regex_size (r : regex) : nat :=
  match r with
  | Chr _ | Dot | Class _ | Bol => 1
  | Cat r1 r2 => S (regex_size r1 + regex_size r2)
  | Opt r' | Star r' | Plus r' | Group _ r' => S (regex_size r')
  end.

(** [mark_count()]: the number of marked groups. *)
Fixpoint mark_count (r : regex) : nat :=
  match r with
  | Chr _ | Dot | Class _ | Bol => 0
  | Cat r1 r2 => mark_count r1 + mark_count r2
  | Opt r' | Star r' | Plus r' => mark_count r'
  | Group _ r' => S (mark_count r')
  end.

(** The end of the pattern: the match succeeds when nothing is left of the
    input [s], and the sub-match 0 is [s]. *)
Definition at_end (s : string) : nat → string → smatch → option smatch :=
  λ _ rest caps,
    match rest with
    | EmptyString => Some (<[0%nat := Some s]> caps)
    | String _ _ => None
    end.

(** [std::regex_match(s, m, r)]: the whole of [s] has to match. *)
Definition regex_match (r : regex) (s : string) : option smatch :=
  run (regex_size r + String.length s) r 0 s (replicate (S (mark_count r)) None)
    (at_end s).

(** [m.str(n)] *)
Definition str (m : smatch) (n : nat) : string :=
  match m !! n with
  | Some (Some sub) => sub
  | _ => EmptyString
  end.

(** The characters of [s], then [last]. *)
Definition chars (s : string) : list regex := Chr <$> list_ascii_of_string s.
Definition cat (rs : list regex) (last : regex) : regex := foldr Cat last rs.

(** The pattern [^https?://.*] *)
Definition httpRegex : regex :=
  cat ([Bol] ++ chars "http" ++ [Opt (Chr "s")] ++ chars "://") (Star Dot).

(** The pattern [^[a-zA-Z0-9]+\.s3\.amazonaws\.com.*] *)
Definition awsRegex : regex :=
  cat ([Bol; Plus (Class [("a", "z"); ("A", "Z"); ("0", "9")]%char)]
       ++ chars ".s3.amazonaws.com") (Star Dot).

(** The pattern [^s3://.*] *)
Definition s3Regex : regex := cat ([Bol] ++ chars "s3://") (Star Dot).

(** The pattern [^file://] followed by the marked group 1 around [.*] *)
Definition fileRegex : regex := cat ([Bol] ++ chars "file://") (Group 1 (Star Dot)).

Definition is_http_address (filename : string) : bool :=
  bool_decide (is_Some (regex_match httpRegex filename)).

(** [awsRegex] is built and never used: [s3Regex] is tried twice. *)
Definition is_s3_container (filename : string) : bool :=
  bool_decide (is_Some (regex_match s3Regex filename))
  || bool_decide (is_Some (regex_match s3Regex filename)).

Definition get_filename (filename : string) : string :=
  match regex_match fileRegex filename with
  | Some m => if bool_decide (1 < List.length m)%nat then str m 1 else filename
  | None => filename
  end.

(** What is left of [s] after the characters [p]. *)
Fixpoint strip_prefix (p : list ascii) (s : string) : option string :=
  match p with
  | [] => Some s
  | c :: p' =>
      match s with
      | String c' s' => if Ascii.eqb c c' then strip_prefix p' s' else None
      | EmptyString => None
      end
  end.

(** No character of [s] is a line terminator. *)
Fixpoint one_line (s : string) : bool :=
  match s with
  | EmptyString => true
  | String c s' => negb (line_terminator c) && one_line s'
  end.
End Utils.

(** ** The reader of the corpus files ([src/sift_db.h]) *)

Module SiftDb.
(** How the constructor ends: with the vectors, with one of its three
    [std::runtime_error]s, with the [std::length_error] of [resize], or
    with undefined behaviour (a division by zero, a read outside the
    mapping). *)
Inductive result (A : Type) : Type :=
  | Ok (a : A)
  | FileDoesNotExist               (* "file ... does not exist" *)
  | MmapFailed                     (* "mmap failed" *)
  | DimensionMismatch (dim : Z)    (* "dimension mismatch: dim != dimension" *)
  | LengthError
  | UndefinedBehaviour.
Arguments Ok {A} a.
Arguments FileDoesNotExist {A}.
Arguments MmapFailed {A}.
Arguments DimensionMismatch {A} dim.
Arguments LengthError {A}.
Arguments UndefinedBehaviour {A}.

Section SiftDb.
(** The element type [T], its size in bytes, and the value of an object
    of [T] given its bytes.  A byte is a [Z] in [[0, 256)]. *)
Context {T : Type}.
Variables (sizeof : Z) (decode : list Z → T).

(** The [len] bytes of the mapping at the offset [off]; [None] when they
    are not all inside the mapping. *)
Definition bytes_at (mapped : list Z) (off len : Z) : option (list Z) :=
  if bool_decide (0 ≤ off ∧ 0 ≤ len ∧ off + len ≤ Z.of_nat (length mapped))
  then Some (take (Z.to_nat len) (drop (Z.to_nat off) mapped))
  else None.

(** [*reinterpret_cast<int*>(p)] on a little-endian machine that loads an
    [int] from any address. *)
Definition int_at (mapped : list Z) (off : Z) : option Z :=
  match bytes_at mapped off 4 with
  | Some [b0; b1; b2; b3] => Some (to_int (b0 + 2 ^ 8 * b1 + 2 ^ 16 * b2 + 2 ^ 24 * b3))
  | _ => None
  end.

(** The bytes of [count] consecutive objects of [w] bytes. *)
Fixpoint chunks (w count : nat) (bytes : list Z) : list (list Z) :=
  match count with
  | O => []
  | S count' => take w bytes :: chunks w count' (drop w bytes)
  end.

(** [std::copy(p, p + count, ...)]: the [count] objects at the offset
    [off]. *)
Definition objects_at (mapped : list Z) (off count : Z) : option (list T) :=
  bytes ← bytes_at mapped off (count * sizeof);
  Some (decode <$> chunks (Z.to_nat sizeof) (Z.to_nat count) bytes).

(** The loop over the [num_vectors] records; [off] is the offset of
    [sift_ptr] in the mapping and [out] is [*this]. *)
Fixpoint records (mapped : list Z) (dimension : Z) (num_vectors : nat) (off : Z)
    (out : list (list T)) : result (list (list T)) :=
  match num_vectors with
  | O => Ok out
  | S rest =>
      match int_at mapped off with
      | None => UndefinedBehaviour
      | Some dim =>
          (* [sift_ptr++] moves by one object *)
          let off := off + sizeof in
          if bool_decide (wrap64 dim ≠ dimension) then DimensionMismatch dim else
          match objects_at mapped off dimension with
          | None => UndefinedBehaviour
          | Some v => records mapped dimension rest (off + dimension * sizeof) (out ++ [v])
          end
      end
  end.

(** [sift_db(bin_file, dimension)]; [file] is the content of [bin_file],
    [None] when it does not exist.  [mmap] fails on a length of 0; an
    allocation that [max_size()] allows is taken to succeed. *)
Definition sift_db (file : option (list Z)) (dimension : Z) : result (list (list T)) :=
  match file with
  | None => FileDoesNotExist
  | Some mapped =>
      let file_size := Z.of_nat (length mapped) in
      let record_size := wrap64 (4 + wrap64 (dimension * sizeof)) in
      if bool_decide (record_size = 0) then UndefinedBehaviour else
      let num_vectors := file_size `div` record_size in
      if bool_decide (file_size = 0) then MmapFailed else
      if bool_decide (wrap64 (num_vectors * dimension) > (2 ^ 63 - 1) `div` sizeof)
      then LengthError else
      records mapped dimension (Z.to_nat num_vectors) 0 []
  end.
End SiftDb.

(** The layout of the corpus files, for the statements: a record is the
    dimension as a little-endian [int], then the components. *)
Definition le32 (d : Z) : list Z :=
  [d `mod` 256; (d `div` 256) `mod` 256; ((d `div` 256) `div` 256) `mod` 256;
   (((d `div` 256) `div` 256) `div` 256) `mod` 256].

Definition record {T : Type} (encode : T → list Z) (header : Z) (v : list T) : list Z :=
  le32 header ++ concat (encode <$> v).

Definition layout {T : Type} (encode : T → list Z) (dimension : Z) (vs : list (list T))
    : list Z :=
  concat (record encode dimension <$> vs).
End SiftDb.

(** ** Matrices over a flat storage ([experimental/src/linalg.h]) *)

Module Linalg.
(** [Kokkos::layout_right] (row-major) and [Kokkos::layout_left]
    (column-major). *)
Inductive layout : Type := layout_right | layout_left.

(** [Matrix<T, LayoutPolicy>]: the extents and the storage that the
    [mdspan] views. *)
Record Matrix (T : Type) : Type := {
  nrows_ : Z;
  ncols_ : Z;
  storage_ : list T;
}.
Arguments nrows_ {T} m.
Arguments ncols_ {T} m.
Arguments storage_ {T} m.

Section Matrix.
Context {T : Type}.

(** [Matrix(nrows, ncols)]: [new T[nrows * ncols]], whose content [junk]
    is not initialised. *)
Definition make (junk : T) (nrows ncols : Z) : Matrix T :=
  {| nrows_ := nrows; ncols_ := ncols;
     storage_ := replicate (Z.to_nat (wrap64 (nrows * ncols))) junk |}.

(** The mapping of the layout: the offset of the element [(i, j)]. *)
Definition offset (L : layout) (m : Matrix T) (i j : Z) : Z :=
  match L with
  | layout_right => i * ncols_ m + j
  | layout_left => i + j * nrows_ m
  end.

(** [m(i, j)], the [operator()] of [mdspan]: an index outside the extents
    is undefined behaviour. *)
Definition operator_call (L : layout) (m : Matrix T) (i j : Z) : outcome T :=
  if bool_decide (0 ≤ i < nrows_ m ∧ 0 ≤ j < ncols_ m)
  then read (storage_ m) (offset L m i j)
  else Undefined.

(** The [std::span] of [len] elements that starts at the element
    [(i, j)]. *)
Definition span_at (L : layout) (m : Matrix T) (i j len : Z) : outcome (list T) :=
  if bool_decide (0 ≤ i < nrows_ m ∧ 0 ≤ j < ncols_ m)
  then
    if bool_decide (offset L m i j + len ≤ Z.of_nat (length (storage_ m)))
    then Returned (take (Z.to_nat len) (drop (Z.to_nat (offset L m i j)) (storage_ m)))
    else Undefined
  else Undefined.

(** [m[i]]: a row of a row-major matrix, a column of a column-major one. *)
Definition operator_index (L : layout) (m : Matrix T) (i : Z) : outcome (list T) :=
  match L with
  | layout_right => span_at L m i 0 (ncols_ m)
  | layout_left => span_at L m 0 i (nrows_ m)
  end.

(** [m.raveled()] *)
Definition raveled (m : Matrix T) : outcome (list T) :=
  if bool_decide (wrap64 (nrows_ m * ncols_ m) ≤ Z.of_nat (length (storage_ m)))
  then Returned (take (Z.to_nat (wrap64 (nrows_ m * ncols_ m))) (storage_ m))
  else Undefined.

(** [m.span()]: the length of the spans that [m[i]] returns. *)
Definition span (L : layout) (m : Matrix T) : Z :=
  match L with
  | layout_right => ncols_ m
  | layout_left => nrows_ m
  end.

Definition num_rows (m : Matrix T) : Z := nrows_ m.
Definition num_cols (m : Matrix T) : Z := ncols_ m.

(** The number of rows of a row-major matrix, of columns of a
    column-major one: the number of its vectors. *)
Definition num_vectors (L : layout) (m : Matrix T) : Z :=
  match L with
  | layout_right => nrows_ m
  | layout_left => ncols_ m
  end.

(** The element [e] of the vector [k]. *)
Definition element (L : layout) (m : Matrix T) (k e : Z) : outcome T :=
  match L with
  | layout_right => operator_call L m k e
  | layout_left => operator_call L m e k
  end.
End Matrix.
End Linalg.

(** The new centroids that count in [total_weight]: those whose degree is
    not zero; the loop skips the others, which contribute no entry. *)
Definition populated {A : Type} (new : list (list A)) (degrees : list Z) : list (list A) :=
  zip_with (λ col d, if bool_decide (d ≠ 0) then col else []) new degrees.

(** ** The data of the closed statements *)

(** A database of ten columns, the column at coordinate [c] being the
    vector [[c]], and its ids, [1000 + c]. *)
Definition example_db : dense_array (list Z) :=
  {| cell := λ c, [c]; col_domain := (0, 9);
     order_matches := true; type_matches := true; completes := true |}.
Definition example_ids : dense_array Z :=
  {| cell := λ c, 1000 + c; col_domain := (0, 9);
     order_matches := true; type_matches := true; completes := true |}.

(** The streamer of the spec's scenario, before its first [advance], with
    the active partitions [parts] and the capacity [max_cols]. *)
Definition example_streamer (parts : list Z) (max_cols : Z) : Streamer.t (list Z) :=
  Streamer.fresh [] example_db example_ids [0; 3; 3; 7; 10] parts 10 max_cols.

(** An index over integer vectors with two centroids, a training set of
    three columns and a generator that returns 0, 1, 2, 0, 1, 2, ... *)
Definition example_index (nlist max_iter : Z) : KMeans.kmeans_index Z Z :=
  {| KMeans.gen := 0; KMeans.dimension_ := 1; KMeans.nlist_ := nlist;
     KMeans.max_iter_ := max_iter; KMeans.tol_ := 1;
     KMeans.centroids_ := replicate (Z.to_nat nlist) [0] |}.
Definition example_training_set : list (list Z) := [[1]; [3]; [20]].
Definition example_dis (g : nat) : Z := Z.of_nat g `mod` 3.

(** Exact integer arithmetic for the elements and for [double]. *)
Global Instance Z_arith : Arith Z Z :=
  {| tzero := 0; tadd := Z.add; tsub := Z.sub; tdiv := Z.div; sq := λ a, a * a;
     dzero := 0; dadd := Z.add; dmul := Z.mul; dmax := Z.max; dlt := Z.ltb |}.

(** [reassign_ratio_ = 0.075 = 3/40]. *)
Definition example_ceil_ratio (n : Z) : Z := (3 * n + 39) `div` 40.

(** The nearest centroid of every vector, with its squared distance; among
    equally near centroids the first. *)
Definition example_nearest (centroids : list (list Z)) (v : list Z) : Z * Z :=
  foldr (λ c best,
           if bool_decide (KMeans.sum_of_squares v c.2 ≤ best.1)
           then (KMeans.sum_of_squares v c.2, c.1) else best)
        (2 ^ 62, 0) (zip (seqZ 0 (Z.of_nat (length centroids))) centroids).
Definition example_partition (centroids training_set : list (list Z)) : list Z * list Z :=
  (fst <$> (example_nearest centroids <$> training_set),
   snd <$> (example_nearest centroids <$> training_set)).

(** The squared distance of integer vectors. *)
Definition example_L2 (a b : list Z) : Z :=
  foldr Z.add 0 (zip_with (λ x y, (x - y) * (x - y)) a b).

(** Objects of four bytes: unsigned little-endian numbers, encoded by
    [SiftDb.le32]; objects of one byte. *)
Definition example_decode4 (bytes : list Z) : Z :=
  match bytes with
  | [b0; b1; b2; b3] => b0 + 2 ^ 8 * b1 + 2 ^ 16 * b2 + 2 ^ 24 * b3
  | _ => 0
  end.
Definition example_encode1 (b : Z) : list Z := [b].
Definition example_decode1 (bytes : list Z) : Z := default 0 (head bytes).

(** A column-major matrix of 2 rows and 3 columns. *)
Definition example_matrix : Linalg.Matrix Z :=
  {| Linalg.nrows_ := 2; Linalg.ncols_ := 3;
     Linalg.storage_ := [11; 21; 12; 22; 13; 23] |}.

(** IEEE 754 arithmetic for a [kmeans_index<float>]: the elements are
    binary32 numbers and the values binary64 numbers, both rounded to the
    nearest, ties to even. *)
Definition float_of_Z (z : Z) : SpecFloat.spec_float :=
  SpecFloat.binary_normalize 24 128 z 0 false.
Definition double_of_Z (z : Z) : SpecFloat.spec_float :=
  SpecFloat.binary_normalize 53 1024 z 0 false.
Definition double_of_float (a : SpecFloat.spec_float) : SpecFloat.spec_float :=
  match a with
  | SpecFloat.S754_finite s m e =>
      SpecFloat.binary_normalize 53 1024 (SpecFloat.cond_Zopp s (Z.pos m)) e s
  | _ => a
  end.
Global Instance float_arith : Arith SpecFloat.spec_float SpecFloat.spec_float :=
  {| tzero := SpecFloat.S754_zero false;
     tadd := SpecFloat.SFadd 24 128;
     tsub := SpecFloat.SFsub 24 128;
     tdiv := λ a n, SpecFloat.SFdiv 24 128 a (float_of_Z n);
     sq := λ a, double_of_float (SpecFloat.SFmul 24 128 a a);
     dzero := SpecFloat.S754_zero false;
     dadd := SpecFloat.SFadd 53 1024;
     dmul := SpecFloat.SFmul 53 1024;
     dmax := λ a b, if SpecFloat.SFltb a b then b else a;
     dlt := SpecFloat.SFltb |}.

(** The value of a float that holds an integer. *)
Definition Z_of_float (a : SpecFloat.spec_float) : Z :=
  match a with
  | SpecFloat.S754_finite s m e => SpecFloat.cond_Zopp s (Z.shiftl (Z.pos m) e)
  | _ => 0
  end.

(** The nearest centroid of vectors of integers. *)
Definition float_partition (centroids training_set : list (list SpecFloat.spec_float))
    : list Z * list Z :=
  example_partition (map (map Z_of_float) centroids) (map (map Z_of_float) training_set).

(** Three centroids and three vectors of one entry; [tol = 2^-13]. *)
Definition float_index : KMeans.kmeans_index SpecFloat.spec_float SpecFloat.spec_float :=
  {| KMeans.gen := 0; KMeans.dimension_ := 1; KMeans.nlist_ := 3;
     KMeans.max_iter_ := 2; KMeans.tol_ := SpecFloat.binary_normalize 53 1024 1 (-13) false;
     KMeans.centroids_ := [[float_of_Z 0]; [float_of_Z (-1000)]; [float_of_Z (-5000)]] |}.
Definition float_training_set : list (list SpecFloat.spec_float) :=
  [[float_of_Z (2 ^ 25)]; [float_of_Z 2]; [float_of_Z (-1000)]].

(** * Properties *)

(** ** Machine integers and vectors *)

Lemma wrap64_small z : 0 ≤ z < 2 ^ 64 → wrap64 z = z.
Proof. intros. unfold wrap64. by apply Z.mod_small. Qed.

Lemma wrap64_range z : 0 ≤ wrap64 z < 2 ^ 64.
Proof. unfold wrap64. apply Z.mod_pos_bound. lia. Qed.

Lemma to_int_small z : - 2 ^ 31 ≤ z < 2 ^ 31 → to_int z = z.
Proof. intros. unfold to_int. rewrite Z.mod_small; lia. Qed.

Lemma vec_at_Some {A} (v : list A) i a :
  vec_at v i = Some a ↔ 0 ≤ i ∧ v !! Z.to_nat i = Some a.
Proof.
  unfold vec_at. case_bool_decide.
  - split; [by intros; split|by intros [_ ?]].
  - split; [done|intros [? _]; lia].
Qed.

Lemma vec_at_lookup {A} (v : list A) i :
  0 ≤ i → vec_at v i = v !! Z.to_nat i.
Proof. intros. unfold vec_at. by rewrite bool_decide_eq_true_2. Qed.

Lemma vec_at_of_nat {A} (v : list A) (n : nat) : vec_at v (Z.of_nat n) = v !! n.
Proof. rewrite vec_at_lookup by lia. by rewrite Nat2Z.id. Qed.

Lemma StronglySorted_lookup_le (l : list Z) (i j : nat) a b :
  StronglySorted Z.le l → (i ≤ j)%nat → l !! i = Some a → l !! j = Some b → a ≤ b.
Proof.
  intros Hs. revert i j. induction Hs as [|x l Hs IH Hx]; intros i j Hij Hi Hj.
  - by rewrite lookup_nil in Hi.
  - destruct i as [|i], j as [|j]; simplify_eq/=; try lia.
    + rewrite Forall_forall in Hx. apply Hx. by eapply list_elem_of_lookup_2.
    + eapply IH; [|done..]. lia.
Qed.

(** ** The streamer: sizes, the greedy window, the ranges *)

Section StreamerFacts.
Context {T : Type}.
Implicit Types (s : Streamer.t T) (indices parts ps : list Z).

Lemma wf_static s : streamer_wf s → static_wf (Streamer.indices_ s) (Streamer.parts_ s).
Proof. intros []. unfold static_wf. auto. Qed.

Lemma part_in_range indices parts p :
  static_wf indices parts → p ∈ parts →
  ∃ start stop,
    vec_at indices p = Some start ∧ vec_at indices (p + 1) = Some stop
    ∧ 0 ≤ start ≤ stop ∧ stop < 2 ^ 31 ∧ 0 ≤ p ∧ p + 1 < 2 ^ 63.
Proof.
  intros ([Hl _] & Hs & Hb & Hp) Hin.
  rewrite Forall_forall in Hp. destruct (Hp _ Hin) as [Hp0 Hp1].
  destruct (lookup_lt_is_Some_2 indices (Z.to_nat p)) as [start Hstart]; [lia|].
  destruct (lookup_lt_is_Some_2 indices (Z.to_nat (p + 1))) as [stop Hstop]; [lia|].
  exists start, stop. rewrite !vec_at_lookup by lia.
  rewrite Forall_forall in Hb.
  pose proof (Hb _ (list_elem_of_lookup_2 _ _ _ Hstart)).
  pose proof (Hb _ (list_elem_of_lookup_2 _ _ _ Hstop)).
  assert (start ≤ stop)
    by (eapply (StronglySorted_lookup_le indices (Z.to_nat p) (Z.to_nat (p + 1))); [done|lia|done..]).
  repeat split; auto; lia.
Qed.

Lemma size_of_range indices parts p :
  static_wf indices parts → p ∈ parts → 0 ≤ size_of indices p < 2 ^ 31.
Proof.
  intros Hwf Hin. destruct (part_in_range _ _ _ Hwf Hin) as (a & b & Ha & Hb & ?).
  unfold size_of, start_of, stop_of. rewrite Ha, Hb. simpl. lia.
Qed.

Lemma cols_of_cons indices p ps :
  cols_of indices (p :: ps) = size_of indices p + cols_of indices ps.
Proof. reflexivity. Qed.

Lemma cols_of_nonneg indices parts ps :
  static_wf indices parts → ps ⊆ parts → 0 ≤ cols_of indices ps.
Proof.
  intros Hwf. induction ps as [|p ps IH]; intros Hsub; [done|].
  assert (0 ≤ size_of indices p < 2 ^ 31)
    by (apply (size_of_range _ parts); [done|apply Hsub; left]).
  assert (0 ≤ cols_of indices ps)
    by (apply IH; intros x Hx; apply Hsub; by right).
  rewrite cols_of_cons. lia.
Qed.

Lemma cols_of_app indices ps1 ps2 :
  cols_of indices (ps1 ++ ps2) = cols_of indices ps1 + cols_of indices ps2.
Proof.
  induction ps1 as [|p ps1 IH]; [done|].
  rewrite <- app_comm_cons, !cols_of_cons, IH. lia.
Qed.

Lemma part_size_eq indices parts i p :
  static_wf indices parts → 0 ≤ i → parts !! Z.to_nat i = Some p →
  Streamer.part_size indices parts i = Some (size_of indices p).
Proof.
  intros Hwf Hi Hp.
  destruct (part_in_range _ _ p Hwf) as (a & b & Ha & Hb & ?);
    [by eapply list_elem_of_lookup_2|].
  unfold Streamer.part_size. rewrite vec_at_lookup, Hp by done. simpl.
  rewrite wrap64_small by lia. rewrite Hb. simpl. rewrite Ha. simpl.
  unfold size_of, start_of, stop_of. rewrite Ha, Hb. simpl.
  by rewrite wrap64_small by lia.
Qed.

Lemma slice_S parts i n p :
  0 ≤ i → parts !! Z.to_nat i = Some p →
  slice parts i (S n) = p :: slice parts (i + 1) n.
Proof.
  intros Hi Hp. unfold slice.
  rewrite (drop_S _ _ _ Hp). simpl. do 3 f_equal. lia.
Qed.

Lemma slice_subseteq parts i n : slice parts i n ⊆ parts.
Proof.
  unfold slice. etrans; [apply subseteq_take|apply subseteq_drop].
Qed.

(** The loop of [advance] absorbs the longest run of partitions that
    fits. *)
Lemma fit_greedy indices parts max_cols cv0 (n : nat) i cv1 :
  static_wf indices parts →
  0 ≤ i → (Z.to_nat i + n ≤ length parts)%nat →
  0 ≤ cv0 ≤ cv1 → 0 ≤ max_cols < 2 ^ 63 → cv0 < 2 ^ 63 →
  cv1 + cols_of indices (slice parts i n) < 2 ^ 63 →
  let m := greedy (cv0 + max_cols - cv1) (size_of indices <$> slice parts i n) in
  Streamer.fit indices parts max_cols cv0 (seqZ i (Z.of_nat n)) cv1 i
  = Some (cv1 + cols_of indices (take m (slice parts i n)), i + Z.of_nat m).
Proof.
  intros Hwf. revert i cv1. induction n as [|n IH]; intros i cv1 Hi Hn Hcv Hmax Hcv0 Hsum m.
  { subst m. unfold slice. rewrite take_0. simpl.
    do 2 f_equal; [unfold cols_of; simpl|]; lia. }
  destruct (lookup_lt_is_Some_2 parts (Z.to_nat i)) as [p Hp]; [lia|].
  assert (Hin : p ∈ parts) by (by eapply list_elem_of_lookup_2).
  pose proof (size_of_range _ _ _ Hwf Hin) as Hsz.
  destruct Hwf as ([Hl1 Hl2] & Hwf'). pose proof (conj (conj Hl1 Hl2) Hwf') as Hwf.
  subst m. rewrite (slice_S _ _ _ _ Hi Hp) in *. rewrite cols_of_cons in Hsum.
  assert (0 ≤ cols_of indices (slice parts (i + 1) n))
    by (eapply cols_of_nonneg; [done|apply slice_subseteq]).
  rewrite seqZ_cons by lia. rewrite fmap_cons. cbn [Streamer.fit greedy].
  rewrite (part_size_eq _ _ _ _ Hwf Hi Hp).
  rewrite !wrap64_small by lia.
  destruct (decide (size_of indices p ≤ cv0 + max_cols - cv1)) as [Hroom|Hroom].
  - rewrite (bool_decide_eq_true_2 _ Hroom), bool_decide_eq_false_2 by lia.
    replace (Z.succ i) with (i + 1) by lia.
    replace (Z.pred (Z.of_nat (S n))) with (Z.of_nat n) by lia.
    rewrite IH; try lia.
    rewrite firstn_cons, cols_of_cons.
    replace (cv0 + max_cols - (cv1 + size_of indices p))
      with (cv0 + max_cols - cv1 - size_of indices p) by lia.
    do 2 f_equal; lia.
  - rewrite (bool_decide_eq_false_2 _ Hroom), bool_decide_eq_true_2 by lia.
    rewrite take_0. do 2 f_equal; [unfold cols_of; simpl|]; lia.
Qed.

Lemma greedy_le room sizes : (greedy room sizes ≤ length sizes)%nat.
Proof.
  revert room. induction sizes as [|sz sizes IH]; intros room; simpl; [lia|].
  case_bool_decide; [|lia]. specialize (IH (room - sz)). lia.
Qed.

(** What was absorbed fits, and the next partition, if any, does not. *)
Lemma greedy_fits room sizes :
  Forall (λ sz, 0 ≤ sz) sizes →
  foldr Z.add 0 (take (greedy room sizes) sizes) ≤ room ∨ greedy room sizes = O.
Proof.
  intros Hpos. revert room. induction Hpos as [|sz sizes Hsz Hpos IH]; intros room; simpl.
  - by right.
  - case_bool_decide; [|by right]. left. simpl.
    destruct (IH (room - sz)) as [?|Heq]; [lia|]. rewrite Heq. simpl. lia.
Qed.

Lemma greedy_stops room sizes sz :
  sizes !! greedy room sizes = Some sz →
  foldr Z.add 0 (take (greedy room sizes) sizes) + sz > room.
Proof.
  revert room. induction sizes as [|sz' sizes IH]; intros room; simpl; [done|].
  case_bool_decide.
  - simpl. intros Hl. specialize (IH _ Hl). lia.
  - simpl. intros [= ->]. lia.
Qed.

(** The loops that add the ranges of a window. *)
Lemma gather_ranges indices parts (n : nat) j cc rs :
  static_wf indices parts →
  0 ≤ j → (Z.to_nat j + n ≤ length parts)%nat →
  0 ≤ cc → cc + cols_of indices (slice parts j n) < 2 ^ 63 →
  Streamer.gather indices parts (seqZ j (Z.of_nat n)) cc rs
  = Some (cc + cols_of indices (slice parts j n),
          rs ++ ranges_of indices (slice parts j n)).
Proof.
  intros Hwf. revert j cc rs. induction n as [|n IH]; intros j cc rs Hj Hn Hcc Hsum.
  { unfold slice. rewrite take_0. simpl.
    rewrite app_nil_r. do 2 f_equal. unfold cols_of. simpl. lia. }
  destruct (lookup_lt_is_Some_2 parts (Z.to_nat j)) as [p Hp]; [lia|].
  assert (Hin : p ∈ parts) by (by eapply list_elem_of_lookup_2).
  destruct (part_in_range _ _ _ Hwf Hin) as (a & b & Ha & Hb & ?).
  destruct Hwf as ([Hl1 Hl2] & Hwf'). pose proof (conj (conj Hl1 Hl2) Hwf') as Hwf.
  rewrite (slice_S _ _ _ _ Hj Hp) in *. rewrite cols_of_cons in *.
  assert (0 ≤ cols_of indices (slice parts (j + 1) n))
    by (eapply cols_of_nonneg; [done|apply slice_subseteq]).
  assert (Hsz : size_of indices p = b - a)
    by (unfold size_of, start_of, stop_of; by rewrite Ha, Hb).
  rewrite seqZ_cons by lia. simpl.
  rewrite vec_at_lookup, Hp by done. simpl. rewrite Ha. simpl.
  rewrite wrap64_small by lia. rewrite Hb. simpl.
  rewrite (wrap64_small (b - a)) by lia.
  replace (Z.succ j) with (j + 1) by lia.
  replace (Z.pred (Z.of_nat (S n))) with (Z.of_nat n) by lia.
  unfold ranges_of. rewrite filter_cons. rewrite Hsz in *.
  case_bool_decide as Hlen; case_decide as Hlen'; try lia.
  - rewrite IH; try lia. do 2 f_equal. lia.
  - rewrite wrap64_small, IH by lia; try lia.
    rewrite !to_int_small by lia. rewrite fmap_cons.
    unfold start_of, stop_of. rewrite Ha, Hb. simpl.
    rewrite <- app_assoc. simpl. do 2 f_equal. lia.
Qed.

Lemma wf_view_bounds s :
  streamer_wf s →
  0 ≤ (Streamer.col_view_ s).2
  ∧ (Streamer.col_view_ s).2 + cols_of (Streamer.indices_ s) (unserved s) < 2 ^ 31
  ∧ 0 ≤ cols_of (Streamer.indices_ s) (unserved s).
Proof.
  intros Hwf. pose proof (wf_static _ Hwf) as Hst. destruct Hwf.
  rewrite wf_offset0.
  pose proof (cols_of_app (Streamer.indices_ s)
    (take (Z.to_nat (Streamer.col_part_view_ s).2) (Streamer.parts_ s)) (unserved s)) as Happ.
  unfold unserved in *. rewrite take_drop in Happ.
  pose proof (cols_of_nonneg _ _ _ Hst
    (subseteq_take (Z.to_nat (Streamer.col_part_view_ s).2) (Streamer.parts_ s))).
  pose proof (cols_of_nonneg _ _ _ Hst
    (subseteq_drop (Z.to_nat (Streamer.col_part_view_ s).2) (Streamer.parts_ s))).
  lia.
Qed.

(** [advance] as an equation: the window is [next_window], an empty
    window ends the stream, a window without columns is an invalid
    partitioning, any other window is read. *)
Lemma advance_spec s :
  streamer_wf s →
  let w := next_window s in
  let cv0 := (Streamer.col_view_ s).2 in
  let cpv0 := (Streamer.col_part_view_ s).2 in
  let s1 := Streamer.with_window s (cv0, cv0 + cols_of (Streamer.indices_ s) w)
              (cpv0, cpv0 + Z.of_nat (length w)) in
  Streamer.advance s =
    if bool_decide (cols_of (Streamer.indices_ s) w = 0) then
      (s1, if bool_decide (w = []) then Returned false else Thrown InvalidPartitioning)
    else
      let s2 := Streamer.with_data s1 (ranges_of (Streamer.indices_ s) w) in
      if negb (completes (Streamer.array_ s)) then (s2, Thrown QueryNotComplete) else
      let s3 := Streamer.with_ids s2 (ranges_of (Streamer.indices_ s) w) in
      if negb (completes (Streamer.ids_array_ s)) then (s3, Thrown QueryNotComplete)
      else (s3, Returned true).
Proof.
  intros Hwf. cbv zeta.
  pose proof (wf_static _ Hwf) as Hst.
  pose proof (wf_view_bounds _ Hwf) as (Hcv0 & Hcv1 & Hun).
  destruct Hwf as [wf_type0 wf_total0 _ _ _ _ _ wf_max0 wf_served0 _].
  set (w := next_window s) in *.
  set (cv0 := (Streamer.col_view_ s).2) in *.
  set (cpv0 := (Streamer.col_part_view_ s).2) in *.
  set (s1 := Streamer.with_window s _ _).
  set (n := (length (Streamer.parts_ s) - Z.to_nat cpv0)%nat).
  assert (Hslice : slice (Streamer.parts_ s) cpv0 n = unserved s).
  { unfold slice, unserved. apply take_ge. rewrite length_drop. fold cpv0. lia. }
  unfold Streamer.advance. rewrite wf_type0. simpl negb. cbv iota zeta.
  fold cv0 cpv0. rewrite wf_total0.
  replace (Z.of_nat (length (Streamer.parts_ s)) - cpv0) with (Z.of_nat n) by lia.
  rewrite fit_greedy; [|done|lia|lia|lia|lia|lia|rewrite Hslice; lia].
  rewrite Hslice. replace (cv0 + Streamer.max_cols_ s - cv0) with (Streamer.max_cols_ s) by lia.
  fold (next_window s). fold w.
  assert (Hlen : length w = greedy (Streamer.max_cols_ s)
                   (size_of (Streamer.indices_ s) <$> unserved s)).
  { unfold w, next_window. rewrite length_take.
    pose proof (greedy_le (Streamer.max_cols_ s) (size_of (Streamer.indices_ s) <$> unserved s)) as Hle.
    rewrite length_fmap in Hle. lia. }
  rewrite <- Hlen. fold s1.
  assert (Hsub : w ⊆ Streamer.parts_ s).
  { unfold w, next_window, unserved. etrans; [apply subseteq_take|apply subseteq_drop]. }
  assert (Hw0 : 0 ≤ cols_of (Streamer.indices_ s) w) by (by eapply cols_of_nonneg).
  assert (Htake : take (length w) (unserved s) = w) by (by rewrite Hlen).
  assert (Hw1 : cols_of (Streamer.indices_ s) w ≤ cols_of (Streamer.indices_ s) (unserved s)).
  { rewrite <- (take_drop (length w) (unserved s)) at 1. rewrite cols_of_app, Htake.
    assert (0 ≤ cols_of (Streamer.indices_ s) (drop (length w) (unserved s))); [|lia].
    eapply cols_of_nonneg; [done|]. unfold unserved.
    etrans; [apply subseteq_drop|apply subseteq_drop]. }
  assert (Hwl : Z.of_nat (length w) ≤ Z.of_nat n).
  { rewrite <- Htake, length_take. unfold unserved. rewrite length_drop.
    fold cpv0. unfold n. lia. }
  assert (Hc : wrap64 (cv0 + cols_of (Streamer.indices_ s) w - cv0)
               = cols_of (Streamer.indices_ s) w).
  { rewrite wrap64_small by lia. lia. }
  assert (Hp : wrap64 (cpv0 + Z.of_nat (length w) - cpv0) = Z.of_nat (length w)).
  { pose proof Hst as ([_ Hl2] & _). rewrite wrap64_small by lia. lia. }
  assert (Hnc : Streamer.num_cols_ s1 = cols_of (Streamer.indices_ s) w) by done.
  assert (Hnp : Streamer.num_col_parts_ s1 = Z.of_nat (length w)) by done.
  rewrite ?Hnc, ?Hnp, ?Hc, ?Hp.
  destruct (decide (cols_of (Streamer.indices_ s) w = 0)) as [Hz|Hnz].
  - rewrite !(bool_decide_eq_true_2 _ Hz). simpl.
    destruct (decide (w = [])) as [Hnil|Hnil].
    + rewrite Hnil. simpl. by rewrite ?bool_decide_eq_true_2 by done.
    + assert (Z.of_nat (length w) ≠ 0) by (destruct w; [done|simpl; lia]).
      by rewrite ?bool_decide_eq_false_2 by done.
  - rewrite !(bool_decide_eq_false_2 _ Hnz). simpl.
    assert (Hwne : Z.of_nat (length w) ≠ 0).
    { destruct w; [|simpl; lia]. by unfold cols_of in Hnz. }
    rewrite (bool_decide_eq_false_2 _ Hwne). simpl.
    replace (cpv0 + Z.of_nat (length w) - cpv0) with (Z.of_nat (length w)) by lia.
    assert (Hsl : slice (Streamer.parts_ s) cpv0 (length w) = w).
    { unfold slice. by fold (unserved s). }
    rewrite gather_ranges; [|done|lia|lia|lia|rewrite Hsl; lia].
    rewrite Hsl. simpl.
    rewrite bool_decide_eq_true_2 by lia. simpl.
    destruct (completes (Streamer.array_ s)); simpl; [|done].
    destruct (completes (Streamer.ids_array_ s)); simpl; done.
Qed.
End StreamerFacts.

(** ** The streamer: the claims *)

(** Well-formedness of a concrete streamer, by computation. *)
Ltac solve_wf :=
  split; simpl; try done; try lia;
  repeat first [apply SSorted_nil | apply SSorted_cons | apply Forall_nil_2
               | apply Forall_cons_2 | split ]; lia.

Lemma cols_of_zero indices parts ps :
  static_wf indices parts → ps ⊆ parts →
  cols_of indices ps = 0 ↔ Forall (λ p, size_of indices p = 0) ps.
Proof.
  intros Hwf. induction ps as [|p ps IH]; intros Hsub.
  - by split.
  - assert (0 ≤ size_of indices p < 2 ^ 31)
      by (apply (size_of_range _ parts); [done|apply Hsub; left]).
    assert (Hps : ps ⊆ parts) by (intros x Hx; apply Hsub; by right).
    pose proof (cols_of_nonneg _ _ _ Hwf Hps).
    rewrite cols_of_cons, Forall_cons, <- (IH Hps). lia.
Qed.

Lemma cols_of_take indices parts ps n :
  static_wf indices parts → ps ⊆ parts →
  0 ≤ cols_of indices (take n ps) ≤ cols_of indices ps.
Proof.
  intros Hwf Hsub.
  assert (0 ≤ cols_of indices (take n ps))
    by (eapply cols_of_nonneg; [done|]; etrans; [apply subseteq_take|done]).
  assert (0 ≤ cols_of indices (drop n ps))
    by (eapply cols_of_nonneg; [done|]; etrans; [apply subseteq_drop|done]).
  pose proof (cols_of_app indices (take n ps) (drop n ps)) as Happ.
  rewrite take_drop in Happ. lia.
Qed.

Lemma cols_of_filter indices ps :
  cols_of indices (filter (λ p, size_of indices p ≠ 0) ps) = cols_of indices ps.
Proof.
  induction ps as [|p ps IH]; [done|].
  rewrite filter_cons. case_decide.
  - by rewrite !cols_of_cons, IH.
  - rewrite cols_of_cons, IH.
    destruct (decide (size_of indices p = 0)); [lia|done].
Qed.

(** C3, the code at the failing input: with the indices [0, 3, 3, 7, 10],
    the active partitions [0, 2, 3] and [upper_bound = 3], the constructor
    loads partition 0 and the next [advance] returns [false] although the
    partitions 2 (four columns, more than the capacity) and 3 have not been
    served; nothing is raised and partition 2 is not admitted. *)
Theorem oversize_partition_ends_the_stream :
  match Streamer.make [] example_db example_ids [0; 3; 3; 7; 10] [0; 2; 3] 3 with
  | Returned s =>
      Streamer.max_cols_ s = 3
      ∧ window_of s = [0]
      ∧ (Streamer.advance s).2 = Returned false
      ∧ window_of (Streamer.advance s).1 = []
      ∧ unserved (Streamer.advance s).1 = [2; 3]
  | _ => False
  end.
Proof. vm_compute. by repeat split. Qed.

(** C4, the defect in general: in a well-formed streamer whose first
    unserved partition has more columns than [max_cols_], [advance] returns
    [false] and that partition, with all that follow it, stays unserved. *)
Theorem advance_false_with_unserved_partitions {T : Type} (s : Streamer.t T) (p : Z) :
  streamer_wf s →
  unserved s !! O = Some p →
  size_of (Streamer.indices_ s) p > Streamer.max_cols_ s →
  (Streamer.advance s).2 = Returned false
  ∧ unserved (Streamer.advance s).1 = unserved s
  ∧ p ∈ unserved (Streamer.advance s).1.
Proof.
  intros Hwf Hp Hsz.
  assert (Hw : next_window s = []).
  { unfold next_window. destruct (unserved s) as [|p' ps]; [done|].
    simpl in Hp. simplify_eq. simpl.
    by rewrite bool_decide_eq_false_2 by lia. }
  rewrite (advance_spec s Hwf). rewrite Hw. simpl.
  split; [done|]. unfold unserved at 1 2. simpl.
  rewrite Z.add_0_r. fold (unserved s). split; [done|].
  by eapply list_elem_of_lookup_2.
Qed.

Lemma advance_false_with_unserved_partitions_witness :
  (Streamer.advance (example_streamer [2; 3] 3)).2 = Returned false
  ∧ unserved (Streamer.advance (example_streamer [2; 3] 3)).1
    = unserved (example_streamer [2; 3] 3)
  ∧ 2 ∈ unserved (Streamer.advance (example_streamer [2; 3] 3)).1.
Proof.
  apply (advance_false_with_unserved_partitions (example_streamer [2; 3] 3) 2).
  - solve_wf.
  - reflexivity.
  - by vm_compute.
Defined.

(** C5, a counterexample: after the constructor has served the only active
    partition (three columns), the terminating [advance] moves
    [col_offset()] from 0 to 3 and [col_part_offset()] from 0 to 1. *)
Lemma terminating_advance_moves_the_cursors :
  match Streamer.make [] example_db example_ids [0; 3; 3; 7; 10] [0] 0 with
  | Returned s =>
      (Streamer.col_part_view_ s).2 = Streamer.total_num_parts_ s
      ∧ (Streamer.advance s).2 = Returned false
      ∧ Streamer.col_offset s = 0
      ∧ Streamer.col_offset (Streamer.advance s).1 = 3
      ∧ Streamer.col_part_offset s = 0
      ∧ Streamer.col_part_offset (Streamer.advance s).1 = 1
  | _ => False
  end.
Proof. vm_compute. by repeat split. Qed.

(** C5, amended: when all active partitions have been served, [advance]
    returns [false] and keeps the columns and the ids of the buffers; both
    views become the empty window that starts where the previous one
    ended, so that [col_offset()] is the end column of the previous window
    and [col_part_offset()] is the number of active partitions; after it
    [num_col_parts()] is 0. *)
Theorem terminating_advance {T : Type} (s : Streamer.t T) :
  type_matches (Streamer.array_ s) = true →
  (Streamer.col_part_view_ s).2 = Streamer.total_num_parts_ s →
  (Streamer.advance s).2 = Returned false
  ∧ Streamer.col_view_ (Streamer.advance s).1
    = ((Streamer.col_view_ s).2, (Streamer.col_view_ s).2)
  ∧ Streamer.col_part_view_ (Streamer.advance s).1
    = (Streamer.total_num_parts_ s, Streamer.total_num_parts_ s)
  ∧ Streamer.col_offset (Streamer.advance s).1 = (Streamer.col_view_ s).2
  ∧ Streamer.col_part_offset (Streamer.advance s).1 = Streamer.total_num_parts_ s
  ∧ Streamer.num_col_parts (Streamer.advance s).1 = 0
  ∧ Streamer.data_ (Streamer.advance s).1 = Streamer.data_ s
  ∧ Streamer.ids (Streamer.advance s).1 = Streamer.ids s.
Proof.
  intros Htype Hserved. unfold Streamer.advance, Streamer.num_col_parts.
  rewrite Htype, Hserved, Z.sub_diag. simpl.
  rewrite !Z.sub_diag. by vm_compute.
Qed.

Lemma terminating_advance_witness :
  let s := (Streamer.advance (example_streamer [0; 2] 10)).1 in
  (Streamer.advance s).2 = Returned false
  ∧ Streamer.col_view_ (Streamer.advance s).1
    = ((Streamer.col_view_ s).2, (Streamer.col_view_ s).2)
  ∧ Streamer.col_part_view_ (Streamer.advance s).1
    = (Streamer.total_num_parts_ s, Streamer.total_num_parts_ s)
  ∧ Streamer.col_offset (Streamer.advance s).1 = (Streamer.col_view_ s).2
  ∧ Streamer.col_part_offset (Streamer.advance s).1 = Streamer.total_num_parts_ s
  ∧ Streamer.num_col_parts (Streamer.advance s).1 = 0
  ∧ Streamer.data_ (Streamer.advance s).1 = Streamer.data_ s
  ∧ Streamer.ids (Streamer.advance s).1 = Streamer.ids s.
Proof.
  apply (terminating_advance (Streamer.advance (example_streamer [0; 2] 10)).1);
    reflexivity.
Defined.

(** C6, a counterexample: the indices [0, 3, 3, 7, 10] are well formed and
    partition 1 is empty; with the active list [1] the first [advance],
    the one of the constructor, raises [InvalidPartitioning]. *)
Lemma empty_active_partition_is_invalid :
  Streamer.make [] example_db example_ids [0; 3; 3; 7; 10] [1] 0
  = Thrown InvalidPartitioning
  ∧ (Streamer.advance (example_streamer [1] 0)).2 = Thrown InvalidPartitioning.
Proof. by vm_compute. Qed.

(** C6, amended: on a well-formed streamer [advance] raises
    [InvalidPartitioning] exactly when the window it absorbs holds at least
    one partition and all its partitions are empty; when it returns [true]
    the window is the greedy one, the ranges read are those of its
    non-empty partitions, in order, and its columns are the columns of
    these partitions: an empty partition adds no range and no column. *)
Theorem advance_invalid_partitioning {T : Type} (s : Streamer.t T) :
  streamer_wf s →
  ((Streamer.advance s).2 = Thrown InvalidPartitioning
   ↔ next_window s ≠ []
     ∧ Forall (λ p, size_of (Streamer.indices_ s) p = 0) (next_window s))
  ∧ ((Streamer.advance s).2 = Returned true →
     window_of (Streamer.advance s).1 = next_window s
     ∧ Streamer.ranges_ (Streamer.advance s).1
       = ranges_of (Streamer.indices_ s) (next_window s)
     ∧ Streamer.num_cols_ (Streamer.advance s).1
       = cols_of (Streamer.indices_ s)
           (filter (λ p, size_of (Streamer.indices_ s) p ≠ 0) (next_window s))
     ∧ Streamer.data_ (Streamer.advance s).1
       = overwrite (read_ranges (Streamer.array_ s)
                      (ranges_of (Streamer.indices_ s) (next_window s)))
                   (Streamer.data_ s)
     ∧ Streamer.ids (Streamer.advance s).1
       = overwrite (read_ranges (Streamer.ids_array_ s)
                      (ranges_of (Streamer.indices_ s) (next_window s)))
                   (Streamer.ids s)).
Proof.
  intros Hwf. pose proof (wf_static _ Hwf) as Hst.
  pose proof (wf_view_bounds _ Hwf) as (Hcv0 & Hcv1 & Hun).
  assert (Hsub : next_window s ⊆ Streamer.parts_ s).
  { unfold next_window, unserved. etrans; [apply subseteq_take|apply subseteq_drop]. }
  pose proof (cols_of_zero _ _ _ Hst Hsub) as Hzero.
  pose proof (cols_of_nonneg _ _ _ Hst Hsub) as Hnonneg.
  assert (Hle : cols_of (Streamer.indices_ s) (next_window s)
                ≤ cols_of (Streamer.indices_ s) (unserved s)).
  { unfold next_window. eapply cols_of_take; [done|]. apply subseteq_drop. }
  rewrite (advance_spec s Hwf).
  destruct (decide (cols_of (Streamer.indices_ s) (next_window s) = 0)) as [Hz|Hnz].
  - rewrite (bool_decide_eq_true_2 _ Hz). simpl. split.
    + case_bool_decide as Hnil; split; try done.
      * by intros [? _].
      * intros _. split; [done|]. by apply Hzero.
    + by case_bool_decide.
  - rewrite (bool_decide_eq_false_2 _ Hnz). simpl. split.
    + split.
      * destruct (completes (Streamer.array_ s)), (completes (Streamer.ids_array_ s)); done.
      * intros [_ Hall]. by apply Hzero in Hall.
    + destruct (completes (Streamer.array_ s)); simpl; [|done].
      destruct (completes (Streamer.ids_array_ s)); simpl; [|done].
      intros _. split; [|split; [done|split; [|done]]].
      * unfold window_of, slice. simpl.
        replace ((Streamer.col_part_view_ s).2 + Z.of_nat (length (next_window s))
                 - (Streamer.col_part_view_ s).2)
          with (Z.of_nat (length (next_window s))) by lia.
        rewrite Nat2Z.id. fold (unserved s).
        unfold next_window. rewrite length_take, <- take_take. f_equal.
        by apply take_ge.
      * rewrite cols_of_filter. rewrite wrap64_small by lia. lia.
Qed.

Lemma advance_invalid_partitioning_witness :
  let s := example_streamer [0; 1; 2; 3] 4 in
  ((Streamer.advance s).2 = Thrown InvalidPartitioning
   ↔ next_window s ≠ []
     ∧ Forall (λ p, size_of (Streamer.indices_ s) p = 0) (next_window s))
  ∧ ((Streamer.advance s).2 = Returned true →
     window_of (Streamer.advance s).1 = next_window s
     ∧ Streamer.ranges_ (Streamer.advance s).1
       = ranges_of (Streamer.indices_ s) (next_window s)
     ∧ Streamer.num_cols_ (Streamer.advance s).1
       = cols_of (Streamer.indices_ s)
           (filter (λ p, size_of (Streamer.indices_ s) p ≠ 0) (next_window s))
     ∧ Streamer.data_ (Streamer.advance s).1
       = overwrite (read_ranges (Streamer.array_ s)
                      (ranges_of (Streamer.indices_ s) (next_window s)))
                   (Streamer.data_ s)
     ∧ Streamer.ids (Streamer.advance s).1
       = overwrite (read_ranges (Streamer.ids_array_ s)
                      (ranges_of (Streamer.indices_ s) (next_window s)))
                   (Streamer.ids s)).
Proof.
  apply (advance_invalid_partitioning (example_streamer [0; 1; 2; 3] 4)).
  solve_wf.
Defined.

(** ** The bounded heap *)

Lemma worst_is_max (l : list (Z * Z)) :
  l ≠ [] → ∃ m, Heap.worst Z.ltb l = Some m ∧ is_max m l.
Proof.
  induction l as [|e l IH]; [done|]. intros _. simpl.
  destruct l as [|e' l'].
  - exists e. split; [done|]. split; [by left|].
    intros e0 He0. apply list_elem_of_singleton in He0. by subst.
  - destruct IH as (m & -> & Hin & Hmax); [done|].
    destruct (Z.ltb_spec e.1 m.1).
    + exists m. split; [done|]. split; [by right|].
      intros e0 [->|He0]%elem_of_cons; [lia|by apply Hmax].
    + exists e. split; [done|]. split; [by left|].
      intros e0 [->|He0]%elem_of_cons; [lia|]. specialize (Hmax _ He0). lia.
Qed.

Lemma remove_first_Permutation (m : Z * Z) (l : list (Z * Z)) :
  m ∈ l → l ≡ₚ m :: Heap.remove_first m l.
Proof.
  induction l as [|e l IH]; [by intros ?%elem_of_nil|].
  intros Hin. simpl. case_bool_decide as Heq; [by subst|].
  apply elem_of_cons in Hin as [->|Hin]; [done|].
  rewrite (IH Hin) at 1. apply perm_swap.
Qed.

(** One insert keeps the invariant of the container: it has the capacity
    [k] and holds a [k]-smallest subset of what was inserted. *)
Lemma insert_k_smallest k seen h x y :
  1 ≤ k → Heap.max_size h = k → k_smallest k seen (Heap.items h) →
  Heap.max_size (Heap.insert Z.ltb x y h) = k
  ∧ k_smallest k (seen ++ [(x, y)]) (Heap.items (Heap.insert Z.ltb x y h)).
Proof.
  intros Hk Hcap (rest & Hperm & Hlen & Hord).
  pose proof (Permutation_length Hperm) as Hl. rewrite length_app in Hl.
  unfold Heap.insert. rewrite Hcap. case_bool_decide as Hroom.
  - split; [done|]. simpl. exists rest. rewrite !length_app. simpl.
    assert (rest = []) as -> by (destruct rest; [done|simpl in *; lia]).
    split; [by rewrite Hperm, !app_nil_r|]. split; [simpl in *; lia|].
    by intros a b _ ?%elem_of_nil.
  - destruct (worst_is_max (Heap.items h)) as (m & -> & Hin & Hmax).
    { destruct (Heap.items h); [simpl in *; lia|done]. }
    pose proof (remove_first_Permutation _ _ Hin) as Hrm.
    pose proof (Permutation_length Hrm) as Hrl. simpl in Hrl.
    destruct (Z.ltb_spec x m.1) as [Hlt|Hge].
    + split; [done|]. simpl. exists (m :: rest).
      split; [|split].
      * rewrite Hperm.
        etrans; [apply Permutation_app_tail, Permutation_app_tail, Hrm|]. simpl.
        apply Permutation_cons_app. rewrite <- !app_assoc.
        apply Permutation_app_head, Permutation_app_comm.
      * rewrite !length_app. simpl. lia.
      * intros a b Ha Hb.
        assert (a.1 ≤ m.1).
        { apply elem_of_app in Ha as [Ha|Ha].
          - apply Hmax. rewrite Hrm. by right.
          - apply list_elem_of_singleton in Ha. subst. simpl. lia. }
        apply elem_of_cons in Hb as [->|Hb]; [done|].
        specialize (Hord _ _ Hin Hb). lia.
    + split; [done|]. exists (rest ++ [(x, y)]).
      split; [|split].
      * by rewrite Hperm, app_assoc.
      * rewrite !length_app. simpl. lia.
      * intros a b Ha [Hb|Hb]%elem_of_app; [by apply Hord|].
        apply list_elem_of_singleton in Hb. subst. simpl.
        specialize (Hmax _ Ha). lia.
Qed.

Lemma insert_all_k_smallest k seen h xs :
  1 ≤ k → Heap.max_size h = k → k_smallest k seen (Heap.items h) →
  Heap.max_size (Heap.insert_all Z.ltb xs h) = k
  ∧ k_smallest k (seen ++ xs) (Heap.items (Heap.insert_all Z.ltb xs h)).
Proof.
  intros Hk. revert seen h. induction xs as [|[x y] xs IH]; intros seen h Hcap Hinv.
  - by rewrite app_nil_r.
  - destruct (insert_k_smallest k seen h x y Hk Hcap Hinv) as [Hcap' Hinv'].
    unfold Heap.insert_all. simpl. fold (Heap.insert_all Z.ltb).
    rewrite (cons_middle _ seen xs), app_assoc. by apply IH.
Qed.

Lemma empty_k_smallest k : 0 ≤ k → k_smallest k [] (Heap.items (Heap.empty k)).
Proof.
  intros. exists []. simpl. split; [done|]. split; [lia|].
  by intros a b ?%elem_of_nil.
Qed.

(** C2: a heap of capacity [k >= 1] that has received the inserts [xs]
    never holds more than [k] pairs; when it holds [k] pairs, an insert
    whose score is not below the current maximum changes nothing, and
    another insert puts its pair in the place of a pair that holds the
    maximum; and the pairs held are a [k]-smallest-by-score subset of
    [xs]. *)
Theorem fixed_min_pair_heap_holds_k_smallest (k : Z) (xs : list (Z * Z)) :
  1 ≤ k →
  let h := Heap.insert_all Z.ltb xs (Heap.empty k) in
  Z.of_nat (length (Heap.items h)) ≤ k
  ∧ (Z.of_nat (length (Heap.items h)) = k →
     ∃ m, is_max m (Heap.items h)
          ∧ ∀ x y,
              (m.1 ≤ x → Heap.insert Z.ltb x y h = h)
              ∧ (x < m.1 →
                 Heap.items (Heap.insert Z.ltb x y h) ++ [m]
                 ≡ₚ Heap.items h ++ [(x, y)]))
  ∧ k_smallest k xs (Heap.items h).
Proof.
  intros Hk h.
  destruct (insert_all_k_smallest k [] (Heap.empty k) xs Hk eq_refl
              (empty_k_smallest k ltac:(lia))) as [Hcap Hsm].
  fold h in Hcap, Hsm. simpl in Hsm.
  split; [|split; [|done]].
  - destruct Hsm as (rest & _ & Hlen & _). lia.
  - intros Hfull.
    destruct (worst_is_max (Heap.items h)) as (m & Hw & Hin & Hmax).
    { destruct (Heap.items h); [simpl in *; lia|done]. }
    exists m. split; [done|]. intros x y. unfold Heap.insert.
    rewrite Hcap, Hw, bool_decide_eq_false_2 by lia. split; intros Hx.
    + by rewrite (proj2 (Z.ltb_ge x m.1)) by lia.
    + rewrite (proj2 (Z.ltb_lt x m.1)) by lia. simpl.
      etrans; [|apply Permutation_app_tail; symmetry;
                apply (remove_first_Permutation _ _ Hin)].
      simpl. symmetry. apply Permutation_cons_append.
Qed.

Lemma fixed_min_pair_heap_holds_k_smallest_witness :
  let h := Heap.insert_all Z.ltb [(5, 0); (4, 1); (3, 2); (2, 3); (1, 4)] (Heap.empty 2) in
  Z.of_nat (length (Heap.items h)) ≤ 2
  ∧ (Z.of_nat (length (Heap.items h)) = 2 →
     ∃ m, is_max m (Heap.items h)
          ∧ ∀ x y,
              (m.1 ≤ x → Heap.insert Z.ltb x y h = h)
              ∧ (x < m.1 →
                 Heap.items (Heap.insert Z.ltb x y h) ++ [m]
                 ≡ₚ Heap.items h ++ [(x, y)]))
  ∧ k_smallest 2 [(5, 0); (4, 1); (3, 2); (2, 3); (1, 4)] (Heap.items h).
Proof.
  apply (fixed_min_pair_heap_holds_k_smallest 2 [(5, 0); (4, 1); (3, 2); (2, 3); (1, 4)]).
  lia.
Defined.

(** ** Random initialisation *)

Section RandomInit.
Variable dis : nat → Z.
Variable n : Z.
Hypothesis Hn : 1 ≤ n < 2 ^ 31.
Hypothesis Hrange : in_range dis n.

Lemma draw_unvisited_sound fuel visited g res :
  Z.of_nat (length visited) = n →
  KMeans.draw_unvisited dis fuel visited g = Some res →
  ∃ index g', res = Returned (index, g') ∧ 0 ≤ index < n
              ∧ vec_at visited index = Some false.
Proof.
  intros Hlen. revert g. induction fuel as [|fuel IH]; intros g; simpl; [done|].
  pose proof (Hrange g) as Hg. rewrite wrap64_small by lia.
  destruct (lookup_lt_is_Some_2 visited (Z.to_nat (dis g))) as [b Hb]; [lia|].
  rewrite vec_at_lookup, Hb by lia. destruct b; [apply IH|].
  intros [= <-]. exists (dis g), (S g). rewrite vec_at_lookup by lia. auto.
Qed.

Lemma draw_unvisited_terminates visited g (d : nat) :
  Z.of_nat (length visited) = n →
  vec_at visited (dis (g + d)%nat) = Some false →
  ∃ index g', ∀ fuel, (d < fuel)%nat →
    KMeans.draw_unvisited dis fuel visited g = Some (Returned (index, g')).
Proof.
  intros Hlen. revert g. induction d as [|d IH]; intros g Hd.
  - rewrite Nat.add_0_r in Hd. exists (dis g), (S g). intros [|fuel] ?; [lia|]. simpl.
    pose proof (Hrange g). by rewrite wrap64_small, Hd by lia.
  - pose proof (Hrange g) as Hg.
    destruct (lookup_lt_is_Some_2 visited (Z.to_nat (dis g))) as [b Hb]; [lia|].
    destruct b.
    + destruct (IH (S g)) as (index & g' & Hdraw).
      { by replace (S g + d)%nat with (g + S d)%nat by lia. }
      exists index, g'. intros [|fuel] ?; [lia|]. simpl.
      rewrite wrap64_small, vec_at_lookup, Hb by lia. apply Hdraw. lia.
    + exists (dis g), (S g). intros [|fuel] ?; [lia|]. simpl.
      by rewrite wrap64_small, vec_at_lookup, Hb by lia.
Qed.

Lemma marks_insert visited chosen index :
  0 ≤ index → marks visited chosen →
  marks (<[Z.to_nat index := true]> visited) (chosen ++ [index]).
Proof.
  intros Hi Hm v b Hv. apply vec_at_Some in Hv as [Hv0 Hv].
  rewrite elem_of_app, list_elem_of_singleton.
  destruct (decide (v = index)) as [->|Hne].
  - apply list_lookup_insert_Some in Hv as [(_ & <- & _)|[? _]]; [|done].
    split; [by right|done].
  - rewrite list_lookup_insert_ne in Hv by lia.
    rewrite (Hm v b) by (by apply vec_at_Some).
    split; [by left|]. by intros [?|?].
Qed.

Lemma insert_chosen (chosen : list Z) (r : nat) index :
  <[Z.to_nat (Z.of_nat (length chosen)) := index]> (chosen ++ replicate (S r) 0)
  = (chosen ++ [index]) ++ replicate r 0.
Proof.
  rewrite Nat2Z.id, insert_app_r_alt, Nat.sub_diag by lia. simpl.
  by rewrite <- app_assoc.
Qed.

(** Every result of the loop is a list of distinct columns. *)
Lemma choose_sound fuel (r : nat) chosen visited g res :
  Z.of_nat (length visited) = n →
  NoDup chosen → Forall (λ v, 0 ≤ v < n) chosen → marks visited chosen →
  KMeans.choose dis fuel (seqZ (Z.of_nat (length chosen)) (Z.of_nat r))
    (chosen ++ replicate r 0) visited g = Some res →
  ∃ chosen' g', res = Returned (chosen', g') ∧ NoDup chosen'
                ∧ length chosen' = (length chosen + r)%nat
                ∧ Forall (λ v, 0 ≤ v < n) chosen'.
Proof.
  revert chosen visited g. induction r as [|r IH]; intros chosen visited g Hlen Hnd Hin Hm.
  - simpl. rewrite app_nil_r. intros [= <-]. exists chosen, g. by rewrite Nat.add_0_r.
  - rewrite seqZ_cons by lia. cbn [KMeans.choose].
    destruct (KMeans.draw_unvisited dis fuel visited g) as [res'|] eqn:Hdraw; [|done].
    destruct (draw_unvisited_sound _ _ _ _ Hlen Hdraw) as (index & g' & -> & Hi & Hv).
    rewrite insert_chosen.
    replace (Z.succ (Z.of_nat (length chosen))) with (Z.of_nat (length (chosen ++ [index])))
      by (rewrite length_app; simpl; lia).
    replace (Z.pred (Z.of_nat (S r))) with (Z.of_nat r) by lia.
    intros Hres. apply IH in Hres as (chosen' & g'' & -> & ? & Hl & ?).
    + exists chosen', g''. rewrite length_app in Hl. simpl in Hl.
      repeat split; auto. lia.
    + by rewrite length_insert.
    + apply NoDup_app. split; [done|]. split; [|apply NoDup_singleton].
      intros v Hvc ->%list_elem_of_singleton.
      by apply (Hm _ _ Hv) in Hvc.
    + apply Forall_app. split; [done|]. by apply Forall_singleton.
    + apply marks_insert; [lia|done].
Qed.

(** A column that is not chosen yet. *)
Lemma unvisited_exists chosen :
  NoDup chosen → Forall (λ v, 0 ≤ v < n) chosen → Z.of_nat (length chosen) < n →
  ∃ v, 0 ≤ v < n ∧ v ∉ chosen.
Proof.
  intros Hnd Hin Hlt.
  destruct (decide (Forall (λ v, v ∈ chosen) (seqZ 0 n))) as [Hall|Hex].
  - exfalso. rewrite Forall_forall in Hall.
    pose proof (submseteq_length _ _ (NoDup_submseteq _ _ (NoDup_seqZ 0 n) Hall)) as Hle.
    rewrite length_seqZ in Hle. lia.
  - apply not_Forall_Exists in Hex; [|apply _].
    apply Exists_exists in Hex as (v & Hv & Hnot).
    apply elem_of_seqZ in Hv. exists v. split; [lia|done].
Qed.

(** With a fair generator the loop ends, whatever the fuel above some
    bound. *)
Lemma choose_terminates (r : nat) chosen visited g :
  fair dis n →
  Z.of_nat (length visited) = n →
  NoDup chosen → Forall (λ v, 0 ≤ v < n) chosen → marks visited chosen →
  Z.of_nat (length chosen + r) ≤ n →
  ∃ fuel0 res, ∀ fuel, (fuel0 ≤ fuel)%nat →
    KMeans.choose dis fuel (seqZ (Z.of_nat (length chosen)) (Z.of_nat r))
      (chosen ++ replicate r 0) visited g = Some res.
Proof.
  intros Hfair. revert chosen visited g.
  induction r as [|r IH]; intros chosen visited g Hlen Hnd Hin Hm Hle.
  - exists O, (Returned (chosen ++ replicate 0 0, g)). by intros.
  - destruct (unvisited_exists chosen Hnd Hin) as (v & Hv & Hnot); [lia|].
    destruct (Hfair g v Hv) as (g1 & Hg1 & Hdis).
    destruct (lookup_lt_is_Some_2 visited (Z.to_nat v)) as [b Hb]; [lia|].
    assert (Hvf : vec_at visited v = Some false).
    { rewrite vec_at_lookup, Hb by lia. destruct b; [|done].
      exfalso. apply Hnot. apply (Hm v true); [|done]. by rewrite vec_at_lookup by lia. }
    destruct (draw_unvisited_terminates visited g (g1 - g) Hlen) as (index & g' & Hdraw).
    { by replace (g + (g1 - g))%nat with g1 by lia; rewrite Hdis. }
    destruct (draw_unvisited_sound _ _ _ _ Hlen (Hdraw (S (g1 - g)) ltac:(lia)))
      as (index' & g'' & [= <- <-] & Hi & Hiv).
    destruct (IH (chosen ++ [index]) (<[Z.to_nat index := true]> visited) g')
      as (fuel0 & res & Hres).
    + by rewrite length_insert.
    + apply NoDup_app. split; [done|]. split; [|apply NoDup_singleton].
      intros w Hwc ->%list_elem_of_singleton. by apply (Hm _ _ Hiv) in Hwc.
    + apply Forall_app. split; [done|]. by apply Forall_singleton.
    + apply marks_insert; [lia|done].
    + rewrite length_app. simpl. lia.
    + exists (fuel0 `max` S (g1 - g))%nat, res. intros fuel Hfuel.
      rewrite seqZ_cons by lia. cbn [KMeans.choose]. rewrite Hdraw by lia.
      rewrite insert_chosen.
      replace (Z.succ (Z.of_nat (length chosen)))
        with (Z.of_nat (length (chosen ++ [index]))) by (rewrite length_app; simpl; lia).
      replace (Z.pred (Z.of_nat (S r))) with (Z.of_nat r) by lia.
      apply Hres. lia.
Qed.
End RandomInit.

(** The second loop of [kmeans_random_init] copies the chosen columns. *)
Lemma copy_columns {T : Type} (training_set : list (list T)) (indices : list Z)
    (r : nat) (i0 : nat) (centroids : list (list T)) :
  Forall (λ v, 0 ≤ v < Z.of_nat (length training_set)) indices →
  (i0 + r ≤ length indices)%nat → (i0 + r ≤ length centroids)%nat →
  ∃ centroids',
    for_each (seqZ (Z.of_nat i0) (Z.of_nat r)) (λ i centroids,
      index ⟵ read indices i;
      col ⟵ read training_set index;
      _ ⟵ read centroids i;
      Returned (<[Z.to_nat i := col]> centroids)) centroids = Returned centroids'
    ∧ length centroids' = length centroids
    ∧ ∀ (i : nat) index,
        indices !! i = Some index →
        centroids' !! i =
          if bool_decide (i0 ≤ i < i0 + r)%nat then training_set !! Z.to_nat index
          else centroids !! i.
Proof.
  intros Hin. revert i0 centroids. induction r as [|r IH]; intros i0 centroids Hi Hc.
  - exists centroids. simpl. repeat split; auto. intros i index _.
    by rewrite bool_decide_eq_false_2 by lia.
  - rewrite seqZ_cons by lia. cbn [for_each].
    destruct (lookup_lt_is_Some_2 indices i0) as [index Hindex]; [lia|].
    destruct (lookup_lt_is_Some_2 centroids i0) as [old Hold]; [lia|].
    rewrite Forall_forall in Hin.
    pose proof (Hin _ (list_elem_of_lookup_2 _ _ _ Hindex)) as Hidx.
    destruct (lookup_lt_is_Some_2 training_set (Z.to_nat index)) as [col Hcol]; [lia|].
    unfold read at 1. rewrite vec_at_of_nat, Hindex. cbn [bind].
    unfold read at 1. rewrite vec_at_lookup, Hcol by lia. cbn [bind].
    unfold read at 1. rewrite vec_at_of_nat, Hold. cbn [bind].
    rewrite Nat2Z.id.
    replace (Z.succ (Z.of_nat i0)) with (Z.of_nat (S i0)) by lia.
    replace (Z.pred (Z.of_nat (S r))) with (Z.of_nat r) by lia.
    destruct (IH (S i0) (<[i0 := col]> centroids)) as (cs' & -> & Hlen & Hcs').
    { lia. } { rewrite length_insert. lia. }
    exists cs'. rewrite length_insert in Hlen. repeat split; auto.
    intros i index' Hi'. rewrite (Hcs' _ _ Hi').
    destruct (decide (i = i0)) as [->|Hne].
    + rewrite bool_decide_eq_false_2, bool_decide_eq_true_2 by lia.
      rewrite list_lookup_insert_eq by lia. congruence.
    + rewrite list_lookup_insert_ne by done.
      case_bool_decide; case_bool_decide; try lia; done.
Qed.



Lemma example_dis_fair : fair example_dis 3.
Proof.
  intros g v Hv. exists (3 * g + Z.to_nat v)%nat. split; [lia|].
  unfold example_dis.
  replace (Z.of_nat (3 * g + Z.to_nat v)) with (v + Z.of_nat g * 3) by lia.
  rewrite Z.mod_add by lia. apply Z.mod_small. lia.
Qed.

Lemma example_dis_in_range : in_range example_dis 3.
Proof. intros g. unfold example_dis. apply Z.mod_pos_bound. lia. Qed.


(** ** Training: the reassignment *)

Lemma bind_Returned {A B : Type} (o : outcome A) (f : A → outcome B) b :
  bind o f = Returned b ↔ ∃ a, o = Returned a ∧ f a = Returned b.
Proof.
  destruct o as [a| |]; simpl; split; try done.
  - intros. by exists a.
  - by intros (a' & [= ->] & ?).
  - by intros (? & ? & ?).
  - by intros (? & ? & ?).
Qed.

Lemma read_Returned {A : Type} (v : list A) i a :
  read v i = Returned a ↔ vec_at v i = Some a.
Proof. unfold read. destruct (vec_at v i); split; congruence. Qed.

Lemma insert_read_alter {A : Type} (l : list A) i x (f : A → A) :
  vec_at l i = Some x → <[Z.to_nat i := f x]> l = alter f (Z.to_nat i) l.
Proof.
  intros [_ Hx]%vec_at_Some. apply list_eq. intros j.
  destruct (decide (j = Z.to_nat i)) as [->|Hne].
  - rewrite list_lookup_alter_eq, Hx. simpl.
    apply list_lookup_insert_eq. by eapply lookup_lt_Some.
  - by rewrite list_lookup_insert_ne, list_lookup_alter_ne by done.
Qed.

Section Reassign.
Context {T D : Type} `{!Arith T D}.
Implicit Types (st : KMeans.sums T) (training_set : list (list T)).

Lemma reassign_step_pair training_set parts (low high : Z * Z) st st' :
  KMeans.reassign_step training_set parts low.2 high.2 st = Returned st' →
  st' = reassign_pair training_set parts st low high.
Proof.
  unfold KMeans.reassign_step, reassign_pair.
  intros (_ & _ & Hb)%bind_Returned.
  apply bind_Returned in Hb as (vector & Hv%read_Returned & Hb).
  apply bind_Returned in Hb as (part & Hp%read_Returned & Hb).
  apply bind_Returned in Hb as (col & Hc%read_Returned & Hb).
  apply bind_Returned in Hb as (dz & Hdz%read_Returned & Hb).
  apply bind_Returned in Hb as (dp & Hdp%read_Returned & Hb).
  injection Hb as <-. rewrite Hv, Hp. simpl.
  f_equal.
  - by rewrite (insert_read_alter _ _ _ (λ sum, zip_with tsub sum vector) Hc).
  - rewrite (insert_read_alter _ _ _ (λ d, wrap64 (d + 1)) Hdz) in Hdp |- *.
    by rewrite (insert_read_alter _ _ _ (λ d, wrap64 (d - 1)) Hdp).
Qed.

(** The loop of the source does what the claim says. *)
Lemma reassign_refines training_set parts low_degrees high_scores bound (n i : nat) st st' :
  (i + n)%nat = length low_degrees →
  KMeans.reassign training_set parts low_degrees high_scores bound
    (seqZ (Z.of_nat i) (Z.of_nat n)) st = Returned st' →
  st' = foldl (λ st lh, reassign_pair training_set parts st lh.1 lh.2) st
          (zip (eligible bound (drop i low_degrees)) (drop i high_scores)).
Proof.
  revert i st. induction n as [|n IH]; intros i st Hlen.
  - simpl. intros [= <-]. by rewrite drop_ge by lia.
  - rewrite seqZ_cons by lia. cbn [KMeans.reassign].
    destruct (lookup_lt_is_Some_2 low_degrees i) as [low Hlow]; [lia|].
    rewrite vec_at_of_nat, Hlow, (drop_S _ _ _ Hlow). cbn [eligible].
    case_bool_decide; [|by intros [= <-]].
    intros (high & Hhigh%read_Returned & Hb)%bind_Returned.
    apply bind_Returned in Hb as (st1 & Hstep & Hb).
    rewrite vec_at_of_nat in Hhigh. rewrite (drop_S _ _ _ Hhigh). simpl.
    rewrite <- (reassign_step_pair _ _ _ _ _ _ Hstep).
    replace (Z.succ (Z.of_nat i)) with (Z.of_nat (S i)) in Hb by lia.
    replace (Z.pred (Z.of_nat (S n))) with (Z.of_nat n) in Hb by lia.
    apply IH in Hb; [done|lia].
Qed.
End Reassign.

(** ** Training: the iterations *)

Section Lloyd.
Context {SH : Heap.SortHeap} {SHL : Heap.SortHeapLaws}.
Context {T D : Type} {HA : Arith T D}.
Variable ceil_ratio : Z → Z.
Variable qv_partition_with_scores : list (list T) → list (list T) → list Z * list Z.
Implicit Types (x : KMeans.kmeans_index T D) (training_set centroids : list (list T)).


(** What one iteration that returns has done. *)
Lemma lloyd_Returned x training_set iter centroids it :
  KMeans.lloyd ceil_ratio qv_partition_with_scores x training_set iter centroids = Returned it →
  let scores := (qv_partition_with_scores centroids training_set).1 in
  let parts := (qv_partition_with_scores centroids training_set).2 in
  let heap_size := ceil_ratio (KMeans.nlist_ x) + 5 in
  ∃ high_heap deg,
    KMeans.accumulate training_set scores parts
      ({| KMeans.new_centroids :=
            replicate (Z.to_nat (KMeans.nlist_ x))
              (replicate (Z.to_nat (KMeans.dimension_ x)) tzero);
          KMeans.degrees := replicate (Z.to_nat (KMeans.nlist_ x)) 0 |},
       Heap.empty heap_size)
    = Returned (KMeans.it_before it, high_heap)
    ∧ KMeans.scan_degrees (KMeans.nlist_ x) (KMeans.degrees (KMeans.it_before it))
        (0, Heap.empty heap_size) = Returned deg
    ∧ KMeans.it_iter it = iter
    ∧ KMeans.it_reassigned it = negb (bool_decide (iter = wrap64 (KMeans.max_iter_ x - 1)))
    ∧ KMeans.it_parts it = parts
    ∧ KMeans.it_old_centroids it = centroids
    ∧ KMeans.it_lower_degree_bound it = ceil_ratio deg.1
    ∧ KMeans.it_low_degrees it = Heap.sort_heap Heap.tuple_lt (Heap.items deg.2)
    ∧ KMeans.it_high_scores it = Heap.sort_heap Heap.score_gt (Heap.items high_heap)
    ∧ (if KMeans.it_reassigned it
       then KMeans.reassign training_set parts (KMeans.it_low_degrees it)
              (KMeans.it_high_scores it) (KMeans.it_lower_degree_bound it)
              (seqZ 0 (Z.of_nat (length (KMeans.it_low_degrees it)))) (KMeans.it_before it)
            = Returned (KMeans.it_after it)
       else KMeans.it_after it = KMeans.it_before it)
    ∧ KMeans.finish (KMeans.nlist_ x) centroids (KMeans.it_after it)
      = Returned (KMeans.it_new_centroids it, KMeans.it_max_diff it, KMeans.it_total_weight it)
    ∧ KMeans.it_converged it
      = dlt (KMeans.it_max_diff it) (dmul (KMeans.tol_ x) (KMeans.it_total_weight it)).
Proof.
  unfold KMeans.lloyd.
  destruct (qv_partition_with_scores centroids training_set) as [scores parts]. simpl.
  intros ([before high_heap] & Hacc & Hb)%bind_Returned.
  apply bind_Returned in Hb as (deg & Hdeg & Hb).
  apply bind_Returned in Hb as (st & Hst & Hb).
  apply bind_Returned in Hb as ([[nc max_diff] total_weight] & Hfin & Hb).
  injection Hb as <-. simpl in *.
  exists high_heap, deg. repeat split; try done.
  destruct (negb _); [done|]. by injection Hst as <-.
Qed.

(** The iterations of a run, one after the other: each comes from the
    body of the loop, and the run stops at the first that converges. *)
Lemma iterate_trace x training_set iters centroids centroids' trace :
  KMeans.iterate ceil_ratio qv_partition_with_scores x training_set iters centroids
  = Returned (centroids', trace) →
  (length trace ≤ length iters)%nat
  ∧ (trace = [] ↔ iters = [])
  ∧ ∀ (i : nat) it, trace !! i = Some it →
      ∃ iter centroids_i,
        iters !! i = Some iter
        ∧ KMeans.lloyd ceil_ratio qv_partition_with_scores x training_set iter centroids_i
          = Returned it
        ∧ (S i = length trace ↔ KMeans.it_converged it = true ∨ S i = length iters).
Proof.
  revert centroids centroids' trace.
  induction iters as [|iter iters IH]; intros centroids centroids' trace; simpl.
  - intros [= <- <-]. split; [done|]. split; [done|]. intros i it. by rewrite lookup_nil.
  - intros (it0 & Hit0 & Hb)%bind_Returned.
    destruct (KMeans.it_converged it0) eqn:Hconv.
    + injection Hb as <- <-. simpl. split; [lia|]. split; [done|].
      intros [|i] it; simpl; [|by rewrite lookup_nil].
      intros [= <-]. exists iter, centroids. repeat split; auto.
    + apply bind_Returned in Hb as ([c1 tr1] & Hrest & Hb). injection Hb as <- <-.
      destruct (IH _ _ _ Hrest) as (Hlen & Hnil & Hall). simpl.
      split; [lia|]. split; [done|].
      intros [|i] it; simpl.
      * intros [= <-]. exists iter, centroids. repeat split; auto.
        -- intros Hl. right. assert (tr1 = []) as -> by (destruct tr1; [done|simpl in *; lia]).
           by rewrite (proj1 Hnil eq_refl).
        -- intros [?|Hl]; [congruence|].
           assert (iters = []) as -> by (destruct iters; [done|simpl in *; lia]).
           by rewrite (proj2 Hnil eq_refl).
      * intros Hi. destruct (Hall _ _ Hi) as (iter' & c' & ? & ? & Hlast).
        exists iter', c'. repeat split; auto.
        -- intros Hl. destruct (proj1 Hlast) as [?|?]; [lia|by left|right; lia].
        -- intros [?|?]; [|assert (S i = length tr1) by (apply Hlast; right; lia); lia].
           assert (S i = length tr1) by (apply Hlast; by left). lia.
Qed.

(** The loop over the centroids computes the largest degree and inserts
    the pairs (degree, centroid) in order. *)
Lemma scan_degrees_spec (degrees : list Z) (n i : nat) m h r :
  for_each (seqZ (Z.of_nat i) (Z.of_nat n)) (λ i st,
    degree ⟵ read degrees i;
    Returned (Z.max st.1 degree, Heap.insert Z.ltb degree i st.2)) (m, h) = Returned r →
  r.1 = foldl Z.max m (take n (drop i degrees))
  ∧ r.2 = Heap.insert_all Z.ltb
            (zip (take n (drop i degrees)) (seqZ (Z.of_nat i) (Z.of_nat n))) h.
Proof.
  revert i m h. induction n as [|n IH]; intros i m h.
  - simpl. by intros [= <-].
  - rewrite seqZ_cons by lia. cbn [for_each].
    intros (st1 & Hb & Hrest)%bind_Returned.
    apply bind_Returned in Hb as (degree & Hd%read_Returned & Hb).
    injection Hb as <-. rewrite vec_at_of_nat in Hd.
    rewrite (drop_S _ _ _ Hd). cbn [take zip zip_with foldl Heap.insert_all].
    replace (Z.succ (Z.of_nat i)) with (Z.of_nat (S i)) in * by lia.
    replace (Z.pred (Z.of_nat (S n))) with (Z.of_nat n) in * by lia.
    by apply IH in Hrest.
Qed.
End Lloyd.

(** ** The sort of the heaps *)

Lemma tuple_lt_spec (a b : Z * Z) :
  Heap.tuple_lt a b = true ↔ a.1 < b.1 ∨ (a.1 = b.1 ∧ a.2 < b.2).
Proof.
  unfold Heap.tuple_lt.
  rewrite orb_true_iff, andb_true_iff, !bool_decide_eq_true. done.
Qed.

Lemma tuple_lt_false (a b : Z * Z) :
  Heap.tuple_lt a b = false ↔ b.1 < a.1 ∨ (a.1 = b.1 ∧ b.2 ≤ a.2).
Proof.
  rewrite <- not_true_iff_false, tuple_lt_spec. lia.
Qed.

Global Instance not_after_tuple_lt_total : Total (Heap.not_after Heap.tuple_lt).
Proof.
  intros a b. unfold Heap.not_after. rewrite !tuple_lt_false. lia.
Qed.

Global Instance not_after_score_gt_total : Total (Heap.not_after Heap.score_gt).
Proof.
  intros a b. unfold Heap.not_after, Heap.score_gt.
  destruct (decide (a.1 < b.1)); [right|left]; case_bool_decide; try done; lia.
Qed.

Lemma Sorted_weaken {A : Type} (R1 R2 : relation A) (l : list A) :
  (∀ a b, R1 a b → R2 a b) → Sorted R1 l → Sorted R2 l.
Proof.
  intros Himpl. induction 1 as [|a l _ IH Hhd]; constructor; [done|].
  destruct Hhd; constructor; auto.
Qed.

(** The merge sort keeps the laws of [std::sort_heap]. *)
Global Instance merge_sorter_laws : @Heap.SortHeapLaws Heap.merge_sorter.
Proof.
  split.
  - intros lt l. apply merge_sort_Permutation.
  - intros l.
    eapply Sorted_weaken; [|apply (Sorted_merge_sort (Heap.not_after Heap.tuple_lt))].
    intros a b. unfold Heap.not_after. rewrite tuple_lt_false. lia.
  - intros l.
    eapply Sorted_weaken; [|apply (Sorted_merge_sort (Heap.not_after Heap.score_gt))].
    intros a b. unfold Heap.not_after, Heap.score_gt. case_bool_decide; [done|lia].
Qed.

Lemma sort_heap_tuple_lt_sorted {SH : Heap.SortHeap} {SHL : Heap.SortHeapLaws}
    (l : list (Z * Z)) :
  Sorted (λ a b, a.1 ≤ b.1) (Heap.sort_heap Heap.tuple_lt l).
Proof. apply Heap.sort_heap_tuple_lt. Qed.

Lemma sort_heap_score_gt_sorted {SH : Heap.SortHeap} {SHL : Heap.SortHeapLaws}
    (l : list (Z * Z)) :
  Sorted (λ a b, b.1 ≤ a.1) (Heap.sort_heap Heap.score_gt l).
Proof. apply Heap.sort_heap_score_gt. Qed.


(** ** The bounded heap, for any comparison *)

Section HeapAny.
Variable compare_ : Z → Z → bool.

Lemma worst_elem_of (l : list (Z * Z)) m :
  Heap.worst compare_ l = Some m → m ∈ l.
Proof.
  revert m. induction l as [|e l IH]; intros m; simpl; [done|].
  destruct (Heap.worst compare_ l) as [m'|].
  - destruct (compare_ e.1 m'.1); intros [= <-]; [right; by apply IH|by left].
  - intros [= <-]. by left.
Qed.

Lemma worst_is_Some (l : list (Z * Z)) : l ≠ [] → is_Some (Heap.worst compare_ l).
Proof.
  destruct l as [|e l]; [done|]. intros _. simpl.
  destruct (Heap.worst compare_ l); [destruct (compare_ _ _)|]; eauto.
Qed.

Lemma remove_first_sublist m (l : list (Z * Z)) : Heap.remove_first m l `sublist_of` l.
Proof.
  induction l as [|e l IH]; simpl; [done|].
  case_bool_decide; [by apply sublist_cons|by apply sublist_skip].
Qed.

Lemma remove_first_length m (l : list (Z * Z)) :
  m ∈ l → S (length (Heap.remove_first m l)) = length l.
Proof.
  induction l as [|e l IH]; simpl; [by intros ?%elem_of_nil|].
  case_bool_decide as Heq; [done|].
  intros [->|Hin]%elem_of_cons; [done|]. simpl. by rewrite IH.
Qed.

Lemma insert_sublist x y h :
  Heap.items (Heap.insert compare_ x y h) `sublist_of` Heap.items h ++ [(x, y)].
Proof.
  unfold Heap.insert. case_bool_decide; [done|].
  destruct (Heap.worst compare_ (Heap.items h)) as [m|].
  - destruct (compare_ x m.1); simpl.
    + apply sublist_app; [apply remove_first_sublist|done].
    + by apply sublist_inserts_r.
  - by apply sublist_inserts_r.
Qed.

Lemma insert_length x y h :
  length (Heap.items (Heap.insert compare_ x y h))
  = if bool_decide (Z.of_nat (length (Heap.items h)) < Heap.max_size h)
    then S (length (Heap.items h)) else length (Heap.items h).
Proof.
  unfold Heap.insert. case_bool_decide; simpl.
  - rewrite length_app. simpl. lia.
  - destruct (Heap.worst compare_ (Heap.items h)) as [m|] eqn:Hw; [|done].
    destruct (compare_ x m.1); [|done]. simpl.
    rewrite length_app. simpl.
    pose proof (remove_first_length m _ (worst_elem_of _ _ Hw)). lia.
Qed.

Lemma insert_max_size x y h :
  Heap.max_size (Heap.insert compare_ x y h) = Heap.max_size h.
Proof.
  unfold Heap.insert. case_bool_decide; [done|].
  destruct (Heap.worst compare_ (Heap.items h)) as [m|]; [|done].
  by destruct (compare_ x m.1).
Qed.

Lemma insert_all_snoc l e h :
  Heap.insert_all compare_ (l ++ [e]) h
  = Heap.insert compare_ e.1 e.2 (Heap.insert_all compare_ l h).
Proof. unfold Heap.insert_all. by rewrite foldl_app. Qed.

(** After the inserts [l] into an empty heap of capacity [k]: the pairs
    held are some of [l], in the order of [l], and they are [k] or all. *)
Lemma insert_all_empty k l :
  0 ≤ k →
  let h := Heap.insert_all compare_ l (Heap.empty k) in
  Heap.max_size h = k
  ∧ Heap.items h `sublist_of` l
  ∧ Z.of_nat (length (Heap.items h)) = Z.min k (Z.of_nat (length l)).
Proof.
  intros Hk. induction l as [|e l IH] using rev_ind; simpl.
  - repeat split; [done|simpl; lia].
  - destruct IH as (Hcap & Hsub & Hlen).
    rewrite insert_all_snoc, insert_max_size. split; [done|]. split.
    + etrans; [apply insert_sublist|]. destruct e. by apply sublist_app.
    + rewrite insert_length, Hcap, length_app. simpl. case_bool_decide; lia.
Qed.
End HeapAny.

Lemma sort_heap_Permutation {SH : Heap.SortHeap} {SHL : Heap.SortHeapLaws} lt (l : list (Z * Z)) :
  Heap.sort_heap lt l ≡ₚ l.
Proof. apply Heap.sort_heap_rearranges. Qed.

Lemma sort_heap_nil {SH : Heap.SortHeap} {SHL : Heap.SortHeapLaws} lt :
  Heap.sort_heap lt [] = [].
Proof. apply Permutation_nil_r, sort_heap_Permutation. Qed.

(** The pairs that a loop has inserted with the ids [ids], once sorted:
    their ids are distinct ids of [ids], and they are [k] or all. *)
Lemma sorted_heap_ids {SH : Heap.SortHeap} {SHL : Heap.SortHeapLaws}
    compare_ lt k (xs ids : list Z) :
  0 ≤ k → length xs = length ids → NoDup ids →
  let l := Heap.sort_heap lt
             (Heap.items (Heap.insert_all compare_ (zip xs ids) (Heap.empty k))) in
  NoDup l.*2 ∧ l.*2 ⊆ ids ∧ Z.of_nat (length l) = Z.min k (Z.of_nat (length ids)).
Proof.
  intros Hk Hlen Hnd l.
  destruct (insert_all_empty compare_ k (zip xs ids) Hk) as (_ & Hsub & Hl).
  assert (Hsub2 : (Heap.items (Heap.insert_all compare_ (zip xs ids) (Heap.empty k))).*2
                  `sublist_of` ids).
  { rewrite <- (snd_zip xs ids) at 2 by lia. by apply fmap_sublist. }
  assert (Hperm : l.*2 ≡ₚ (Heap.items (Heap.insert_all compare_ (zip xs ids) (Heap.empty k))).*2).
  { apply fmap_Permutation, sort_heap_Permutation. }
  split; [|split].
  - rewrite Hperm. by eapply sublist_NoDup.
  - intros i Hi. rewrite Hperm in Hi. by eapply elem_of_sublist.
  - unfold l. rewrite sort_heap_Permutation, Hl, length_zip. lia.
Qed.

(** ** Sums of vectors *)

Section Vectors.
Context {T D : Type} {HA : Arith T D} {HL : ArithLaws T D}.
Implicit Types (a b c : list T).

Lemma vadd_swap a b c :
  zip_with tadd (zip_with tadd a b) c = zip_with tadd (zip_with tadd a c) b.
Proof.
  revert b c. induction a as [|x a IH]; intros [|y b] [|z c]; simpl; try done.
  by rewrite tadd_swap, IH.
Qed.

Lemma vsub_vadd a b :
  length a = length b → zip_with tsub (zip_with tadd a b) b = a.
Proof.
  revert b. induction a as [|x a IH]; intros [|y b]; simpl; try done.
  intros [= Hl]. by rewrite tsub_tadd, IH.
Qed.

Lemma foldl_vadd_swap a x (l : list (list T)) :
  foldl (zip_with tadd) (zip_with tadd a x) l
  = zip_with tadd (foldl (zip_with tadd) a l) x.
Proof.
  revert a. induction l as [|y l IH]; intros a; simpl; [done|].
  by rewrite vadd_swap, IH.
Qed.

Lemma foldl_vadd_length (dim : nat) a (l : list (list T)) :
  length a = dim → Forall (λ v, length v = dim) l →
  length (foldl (zip_with tadd) a l) = dim.
Proof.
  intros Ha Hl. revert a Ha. induction Hl as [|y l Hy Hl IH]; intros a Ha; simpl; [done|].
  apply IH. rewrite length_zip_with. lia.
Qed.

Lemma vsum_length (dim : nat) (l : list (list T)) :
  Forall (λ v, length v = dim) l → length (vsum dim l) = dim.
Proof. intros. apply foldl_vadd_length; [apply length_replicate|done]. Qed.

(** Taking a vector out of a sum. *)
Lemma vsum_remove (dim : nat) (l1 l2 : list (list T)) x :
  length x = dim → Forall (λ v, length v = dim) l1 → Forall (λ v, length v = dim) l2 →
  zip_with tsub (vsum dim (l1 ++ x :: l2)) x = vsum dim (l1 ++ l2).
Proof.
  intros Hx H1 H2. unfold vsum. rewrite !foldl_app. simpl.
  rewrite foldl_vadd_swap. apply vsub_vadd.
  rewrite Hx. apply foldl_vadd_length; [|done].
  apply foldl_vadd_length; [apply length_replicate|done].
Qed.

Lemma total_weight_zeros (w : D) (n : nat) :
  foldl (λ w e, dadd w (sq e)) w (replicate n tzero) = w.
Proof.
  induction n as [|n IH]; simpl; [done|]. by rewrite sq_tzero, dadd_dzero.
Qed.
End Vectors.

(** ** Training: the accumulation of the sums *)

Lemma members_S parts taken (m : nat) c :
  members parts taken (Z.of_nat (S m)) c
  = members parts taken (Z.of_nat m) c
    ++ (if bool_decide (vec_at parts (Z.of_nat m) = Some c ∧ Z.of_nat m ∉ taken)
        then [Z.of_nat m] else []).
Proof.
  unfold members. rewrite seqZ_S, filter_app. f_equal.
  rewrite Z.add_0_l, filter_cons, filter_nil.
  case_decide; [by rewrite bool_decide_eq_true_2|by rewrite bool_decide_eq_false_2].
Qed.

Lemma members_length_le parts taken (m : nat) c :
  (length (members parts taken (Z.of_nat m) c) ≤ m)%nat.
Proof.
  unfold members. etrans; [apply length_filter|]. rewrite length_seqZ. lia.
Qed.

Lemma filter_ne_id (v : Z) (l : list Z) : v ∉ l → filter (λ i, i ≠ v) l = l.
Proof.
  induction l as [|a l IH]; [done|].
  intros Hn. rewrite filter_cons. apply not_elem_of_cons in Hn as [Hne Hn].
  rewrite decide_True by done. by rewrite IH.
Qed.

Lemma take_out (v : Z) (l : list Z) :
  NoDup l → v ∈ l → ∃ l1 l2, l = l1 ++ v :: l2 ∧ filter (λ i, i ≠ v) l = l1 ++ l2.
Proof.
  intros Hnd (l1 & l2 & ->)%list_elem_of_split. exists l1, l2. split; [done|].
  apply NoDup_app in Hnd as (_ & H1 & [H2 _]%NoDup_cons).
  rewrite filter_app, filter_cons, decide_False by (intros ?; done).
  rewrite !filter_ne_id; [done|done|]. intros ?. by eapply H1; [|left].
Qed.

Lemma elem_of_members parts taken m c i :
  i ∈ members parts taken m c ↔ vec_at parts i = Some c ∧ (i ∉ taken) ∧ 0 ≤ i < m.
Proof. unfold members. rewrite list_elem_of_filter, elem_of_seqZ. intuition lia. Qed.

Lemma members_NoDup parts taken m c : NoDup (members parts taken m c).
Proof. apply NoDup_filter, NoDup_seqZ. Qed.

Lemma members_snoc parts taken v m c :
  members parts (taken ++ [v]) m c = filter (λ i, i ≠ v) (members parts taken m c).
Proof.
  unfold members. rewrite list_filter_filter. apply list_filter_iff. intros i.
  rewrite elem_of_app, list_elem_of_singleton. tauto.
Qed.

Section Accumulate.
Context {T D : Type} {HA : Arith T D}.
Variables (dim : nat) (nlist : Z) (training_set : list (list T)) (scores parts : list Z).
Hypothesis Hnlist : 0 ≤ nlist.
Hypothesis Hsmall : Z.of_nat (length training_set) < 2 ^ 63.
Hypothesis Hdim : Forall (λ v, length v = dim) training_set.
Hypothesis Hscores : length scores = length training_set.
Hypothesis Hparts : length parts = length training_set.
Hypothesis Hrange : Forall (λ p, 0 ≤ p < nlist) parts.

Lemma column_length (i : nat) :
  (i < length training_set)%nat →
  vec_at training_set (Z.of_nat i) = Some (column training_set (Z.of_nat i))
  ∧ length (column training_set (Z.of_nat i)) = dim.
Proof.
  intros Hi. destruct (lookup_lt_is_Some_2 training_set i Hi) as [v Hv].
  unfold column. rewrite vec_at_of_nat, Hv. simpl. split; [done|].
  rewrite Forall_forall in Hdim. apply Hdim. by eapply list_elem_of_lookup_2.
Qed.

Lemma accounts_zeroed :
  accounts dim nlist training_set parts [] [] 0
    {| KMeans.new_centroids := replicate (Z.to_nat nlist) (replicate dim tzero);
       KMeans.degrees := replicate (Z.to_nat nlist) 0 |}.
Proof.
  split; [apply length_replicate|]. split; [apply length_replicate|].
  intros c Hc. simpl. rewrite !vec_at_lookup by lia.
  rewrite !lookup_replicate_2 by lia. split.
  - done.
  - exists (replicate dim tzero). split; [done|]. split; [apply length_replicate|done].
Qed.

Lemma accumulate_accounts (r i : nat) st h :
  (i + r)%nat = length training_set →
  accounts dim nlist training_set parts [] [] (Z.of_nat i) st →
  ∃ st',
    for_each (seqZ (Z.of_nat i) (Z.of_nat r)) (λ i st,
      part ⟵ read parts i;
      centroid ⟵ read (KMeans.new_centroids st.1) part;
      vector ⟵ read training_set i;
      degree ⟵ read (KMeans.degrees st.1) part;
      score ⟵ read scores i;
      Returned ({| KMeans.new_centroids :=
                     <[Z.to_nat part := zip_with tadd centroid vector]> (KMeans.new_centroids st.1);
                   KMeans.degrees :=
                     <[Z.to_nat part := wrap64 (degree + 1)]> (KMeans.degrees st.1) |},
                Heap.insert Z.gtb score i st.2)) (st, h)
    = Returned (st', Heap.insert_all Z.gtb
                  (zip (drop i scores) (seqZ (Z.of_nat i) (Z.of_nat r))) h)
    ∧ accounts dim nlist training_set parts [] [] (Z.of_nat (length training_set)) st'.
Proof.
  revert i st h. induction r as [|r IH]; intros i st h Hlen Hacc.
  - exists st. simpl. split.
    + by destruct (drop i scores).
    + by replace (length training_set) with i by lia.
  - rewrite seqZ_cons by lia. cbn [for_each].
    destruct (lookup_lt_is_Some_2 parts i) as [c0 Hc0]; [lia|].
    destruct (lookup_lt_is_Some_2 scores i) as [score Hscore]; [lia|].
    assert (Hc0r : 0 ≤ c0 < nlist).
    { rewrite Forall_forall in Hrange. apply Hrange. by eapply list_elem_of_lookup_2. }
    destruct (column_length i) as [Hcol Hcoll]; [lia|].
    destruct Hacc as (Hln & Hld & Hall).
    destruct (Hall c0 Hc0r) as (Hdeg & col & Hnew & Hcl & Hsum).
    unfold read at 1. rewrite vec_at_of_nat, Hc0. cbn [bind fst snd].
    unfold read at 1. rewrite Hnew. cbn [bind].
    unfold read at 1. rewrite Hcol. cbn [bind].
    unfold read at 1. rewrite Hdeg. cbn [bind].
    unfold read at 1. rewrite vec_at_of_nat, Hscore. cbn [bind].
    rewrite (drop_S _ _ _ Hscore).
    replace (Z.succ (Z.of_nat i)) with (Z.of_nat (S i)) by lia.
    replace (Z.pred (Z.of_nat (S r))) with (Z.of_nat r) by lia.
    cbn [zip zip_with Heap.insert_all foldl fst snd].
    apply IH; [lia|].
    pose proof (members_length_le parts [] i c0) as Hml.
    rewrite bool_decide_eq_false_2 in Hdeg by (by intros ?%elem_of_nil).
    unfold accounts. simpl.
    split; [by rewrite length_insert|]. split; [by rewrite length_insert|].
    intros c Hc. rewrite members_S.
    destruct (decide (c = c0)) as [->|Hne].
    + rewrite bool_decide_eq_true_2
        by (split; [by rewrite vec_at_of_nat|by intros ?%elem_of_nil]).
      rewrite !vec_at_lookup by lia.
      rewrite !list_lookup_insert_eq by lia.
      rewrite length_app. simpl. split.
      * rewrite wrap64_small by lia. f_equal. lia.
      * eexists. split; [done|]. split; [rewrite length_zip_with; lia|].
        intros _. rewrite fmap_app. unfold vsum. rewrite foldl_app. simpl.
        f_equal. apply Hsum. by intros ?%elem_of_nil.
    + rewrite bool_decide_eq_false_2
        by (rewrite vec_at_of_nat, Hc0; intros [[= ?] _]; done).
      rewrite app_nil_r. rewrite !vec_at_lookup by lia.
      rewrite !list_lookup_insert_ne by lia.
      rewrite <- !vec_at_lookup by lia. by apply Hall.
Qed.

(** The first half of a reassignment step: the centroid [z] is overwritten
    with the vector [hv] and its degree incremented. *)
Lemma overwrite_accounts taken over st z hv dz :
  accounts dim nlist training_set parts taken over (Z.of_nat (length training_set)) st →
  0 ≤ z < nlist → z ∉ over → length hv = dim →
  vec_at (KMeans.degrees st) z = Some dz →
  accounts dim nlist training_set parts taken (over ++ [z]) (Z.of_nat (length training_set))
    {| KMeans.new_centroids := <[Z.to_nat z := hv]> (KMeans.new_centroids st);
       KMeans.degrees := <[Z.to_nat z := wrap64 (dz + 1)]> (KMeans.degrees st) |}.
Proof.
  intros (Hln & Hld & Hall) Hz Hzo Hhv Hdz. unfold accounts. simpl.
  split; [by rewrite length_insert|]. split; [by rewrite length_insert|].
  intros c Hc. destruct (Hall c Hc) as (Hdeg & col & Hnew & Hcl & Hsum).
  pose proof (members_length_le parts taken (length training_set) c) as Hml.
  destruct (decide (c = z)) as [->|Hne].
  - rewrite !vec_at_lookup by lia. rewrite !list_lookup_insert_eq by lia.
    rewrite Hdz in Hdeg. injection Hdeg as ->.
    rewrite bool_decide_eq_false_2 by done.
    rewrite bool_decide_eq_true_2 by (apply elem_of_app; right; by left).
    split; [rewrite wrap64_small by lia; f_equal; lia|].
    exists hv. split; [done|]. split; [done|].
    intros Hn. destruct Hn. apply elem_of_app. right. by left.
  - rewrite !vec_at_lookup by lia. rewrite !list_lookup_insert_ne by lia.
    rewrite <- !vec_at_lookup by lia.
    rewrite (bool_decide_ext (c ∈ over ++ [z]) (c ∈ over))
      by (rewrite elem_of_app, list_elem_of_singleton; tauto).
    split; [done|]. exists col. split; [done|]. split; [done|].
    intros Hn. apply Hsum. intros ?. apply Hn, elem_of_app. by left.
Qed.

(** The second half: the vector [v] is taken out of the sum of its
    centroid [p], whose degree is decremented. *)
Lemma takeaway_accounts {HL : ArithLaws T D} taken over st (v : nat) p col dp :
  accounts dim nlist training_set parts taken over (Z.of_nat (length training_set)) st →
  Z.of_nat v ∉ taken → (v < length training_set)%nat → parts !! v = Some p →
  vec_at (KMeans.new_centroids st) p = Some col →
  vec_at (KMeans.degrees st) p = Some dp →
  accounts dim nlist training_set parts (taken ++ [Z.of_nat v]) over
    (Z.of_nat (length training_set))
    {| KMeans.new_centroids :=
         <[Z.to_nat p := zip_with tsub col (column training_set (Z.of_nat v))]>
           (KMeans.new_centroids st);
       KMeans.degrees := <[Z.to_nat p := wrap64 (dp - 1)]> (KMeans.degrees st) |}.
Proof.
  intros (Hln & Hld & Hall) Hvt Hv Hp Hcol Hdp. unfold accounts. simpl.
  split; [by rewrite length_insert|]. split; [by rewrite length_insert|].
  assert (Hpr : 0 ≤ p < nlist).
  { rewrite Forall_forall in Hrange. apply Hrange. by eapply list_elem_of_lookup_2. }
  destruct (column_length v Hv) as [_ Hvl].
  intros c Hc. destruct (Hall c Hc) as (Hdeg & col' & Hnew & Hcl & Hsum).
  pose proof (members_length_le parts taken (length training_set) c) as Hml.
  rewrite members_snoc.
  destruct (decide (c = p)) as [->|Hne].
  - rewrite !vec_at_lookup by lia. rewrite !list_lookup_insert_eq by lia.
    rewrite Hdp in Hdeg. injection Hdeg as ->.
    rewrite Hcol in Hnew. injection Hnew as <-.
    destruct (take_out (Z.of_nat v) (members parts taken (Z.of_nat (length training_set)) p))
      as (l1 & l2 & Hm & ->).
    { apply members_NoDup. }
    { apply elem_of_members. rewrite vec_at_of_nat. split; [done|]. split; [done|lia]. }
    rewrite Hm in Hml, Hsum |- *. rewrite length_app in *. simpl in Hml.
    split.
    + rewrite length_cons, length_app.
      rewrite wrap64_small by (destruct (bool_decide (p ∈ over)); lia).
      f_equal. lia.
    + eexists. split; [done|]. split; [rewrite length_zip_with; lia|].
      intros Hn. rewrite (Hsum Hn), !fmap_app, fmap_cons.
      assert (Hcols : ∀ l : list Z, l ⊆ members parts taken (Z.of_nat (length training_set)) p →
                Forall (λ col, length col = dim) (column training_set <$> l)).
      { intros l Hl. apply Forall_fmap, Forall_forall. intros i Hi%Hl.
        apply elem_of_members in Hi as (_ & _ & Hi).
        replace i with (Z.of_nat (Z.to_nat i)) by lia. apply column_length. lia. }
      apply vsum_remove; [done|apply Hcols|apply Hcols];
        rewrite Hm; intros i Hi; apply elem_of_app; [by left|right; by right].
  - rewrite !vec_at_lookup by lia. rewrite !list_lookup_insert_ne by lia.
    rewrite <- !vec_at_lookup by lia.
    rewrite filter_ne_id.
    + split; [done|]. by exists col'.
    + intros (Hpv & _)%elem_of_members. rewrite vec_at_of_nat, Hp in Hpv. congruence.
Qed.

Lemma reassign_step_accounts {HL : ArithLaws T D} taken over st z (v : nat) :
  accounts dim nlist training_set parts taken over (Z.of_nat (length training_set)) st →
  0 ≤ z < nlist → z ∉ over → Z.of_nat v ∉ taken → (v < length training_set)%nat →
  ∃ st',
    KMeans.reassign_step training_set parts z (Z.of_nat v) st = Returned st'
    ∧ accounts dim nlist training_set parts (taken ++ [Z.of_nat v]) (over ++ [z])
        (Z.of_nat (length training_set)) st'.
Proof.
  intros Hacc Hz Hzo Hvt Hv.
  destruct (lookup_lt_is_Some_2 parts v) as [p Hp]; [lia|].
  assert (Hpr : 0 ≤ p < nlist).
  { rewrite Forall_forall in Hrange. apply Hrange. by eapply list_elem_of_lookup_2. }
  destruct (column_length v Hv) as [Hcol Hcoll].
  pose proof Hacc as (_ & _ & Hall).
  destruct (Hall z Hz) as (Hdz & colz & Hnewz & _).
  pose proof (overwrite_accounts _ _ _ _ _ _ Hacc Hz Hzo Hcoll Hdz) as Hacc1.
  pose proof Hacc1 as (_ & _ & Hall1).
  destruct (Hall1 p Hpr) as (Hdp & colp & Hnewp & _). simpl in Hdp, Hnewp.
  eexists. split.
  - unfold KMeans.reassign_step.
    unfold read at 1. rewrite Hnewz. cbn [bind].
    unfold read at 1. rewrite Hcol. cbn [bind].
    unfold read at 1. rewrite vec_at_of_nat, Hp. cbn [bind].
    unfold read at 1. rewrite Hnewp. cbn [bind].
    unfold read at 1. rewrite Hdz. cbn [bind].
    unfold read at 1. rewrite Hdp. cbn [bind]. done.
  - by apply (takeaway_accounts _ _ _ _ _ _ _ Hacc1).
Qed.

Lemma NoDup_lookup_not_in_take {A : Type} (l : list A) (i : nat) x :
  NoDup l → l !! i = Some x → x ∉ take i l.
Proof.
  intros Hnd Hi. rewrite <- (take_drop_middle l i x Hi) in Hnd.
  apply NoDup_app in Hnd as (_ & Hd & _). intros Hin. apply (Hd x Hin). by left.
Qed.

(** The loop of the reassignment returns, and keeps the account. *)
Lemma reassign_accounts {HL : ArithLaws T D} (low high : list (Z * Z)) bound (r i : nat) st :
  (i + r)%nat = length low → (length low ≤ length high)%nat →
  NoDup low.*2 → Forall (λ z, 0 ≤ z < nlist) low.*2 →
  NoDup high.*2 → Forall (λ v, 0 ≤ v < Z.of_nat (length training_set)) high.*2 →
  accounts dim nlist training_set parts (take i high).*2 (take i low).*2
    (Z.of_nat (length training_set)) st →
  ∃ st' taken over,
    KMeans.reassign training_set parts low high bound (seqZ (Z.of_nat i) (Z.of_nat r)) st
    = Returned st'
    ∧ accounts dim nlist training_set parts taken over (Z.of_nat (length training_set)) st'.
Proof.
  intros Hlen Hle Hlnd Hlr Hhnd Hhr. revert i st Hlen.
  induction r as [|r IH]; intros i st Hlen Hacc.
  - simpl. by eexists _, _, _.
  - rewrite seqZ_cons by lia. cbn [KMeans.reassign].
    destruct (lookup_lt_is_Some_2 low i) as [lo Hlo]; [lia|].
    destruct (lookup_lt_is_Some_2 high i) as [hi Hhi]; [lia|].
    rewrite vec_at_of_nat, Hlo. case_bool_decide; [|by eexists _, _, _].
    unfold read at 1. rewrite vec_at_of_nat, Hhi. cbn [bind].
    assert (Hlo2 : low.*2 !! i = Some lo.2) by (by rewrite list_lookup_fmap, Hlo).
    assert (Hhi2 : high.*2 !! i = Some hi.2) by (by rewrite list_lookup_fmap, Hhi).
    assert (Hz : 0 ≤ lo.2 < nlist).
    { rewrite Forall_forall in Hlr. apply Hlr. by eapply list_elem_of_lookup_2. }
    assert (Hv : 0 ≤ hi.2 < Z.of_nat (length training_set)).
    { rewrite Forall_forall in Hhr. apply Hhr. by eapply list_elem_of_lookup_2. }
    destruct (reassign_step_accounts _ _ _ lo.2 (Z.to_nat hi.2) Hacc) as (st1 & Hstep & Hacc1).
    { done. }
    { rewrite fmap_take. by apply NoDup_lookup_not_in_take. }
    { rewrite Z2Nat.id by lia. rewrite fmap_take. by apply NoDup_lookup_not_in_take. }
    { lia. }
    rewrite Z2Nat.id in Hstep, Hacc1 by lia. rewrite Hstep. cbn [bind].
    replace (Z.succ (Z.of_nat i)) with (Z.of_nat (S i)) by lia.
    replace (Z.pred (Z.of_nat (S r))) with (Z.of_nat r) by lia.
    apply IH; [lia|].
    by rewrite (take_S_r _ _ _ Hlo), (take_S_r _ _ _ Hhi), !fmap_app.
Qed.

Lemma accumulate_returns h :
  ∃ st',
    KMeans.accumulate training_set scores parts
      ({| KMeans.new_centroids := replicate (Z.to_nat nlist) (replicate dim tzero);
          KMeans.degrees := replicate (Z.to_nat nlist) 0 |}, h)
    = Returned (st', Heap.insert_all Z.gtb
                       (zip scores (seqZ 0 (Z.of_nat (length training_set)))) h)
    ∧ accounts dim nlist training_set parts [] [] (Z.of_nat (length training_set)) st'.
Proof.
  destruct (accumulate_accounts (length training_set) 0 _ h eq_refl accounts_zeroed)
    as (st' & Hrun & Hacc).
  exists st'. split; [|done]. by rewrite drop_0 in Hrun.
Qed.

(** A centroid whose degree is zero has the zero vector as its sum. *)
Lemma accounts_zero taken over st (j : nat) col :
  accounts dim nlist training_set parts taken over (Z.of_nat (length training_set)) st →
  KMeans.degrees st !! j = Some 0 → KMeans.new_centroids st !! j = Some col →
  ∃ m, col = replicate m tzero.
Proof.
  intros (Hln & Hld & Hall) Hd Hc.
  pose proof (lookup_lt_Some _ _ _ Hd) as Hj.
  destruct (Hall (Z.of_nat j)) as (Hdeg & col' & Hnew & _ & Hsum); [lia|].
  rewrite vec_at_of_nat, Hd in Hdeg. rewrite vec_at_of_nat, Hc in Hnew.
  injection Hnew as <-. injection Hdeg as Hdeg.
  case_bool_decide as Ho; [lia|].
  destruct (members parts taken (Z.of_nat (length training_set)) (Z.of_nat j)) as [|? ?];
    [|simpl in Hdeg; lia].
  exists dim. by apply Hsum.
Qed.
End Accumulate.

(** ** Training: the check for convergence *)

Lemma for_each_app {A S : Type} (l1 l2 : list A) (body : A → S → outcome S) (s : S) :
  for_each (l1 ++ l2) body s = bind (for_each l1 body s) (for_each l2 body).
Proof.
  revert s. induction l1 as [|a l1 IH]; intros s; simpl; [done|].
  destruct (body a s); simpl; [apply IH|done..].
Qed.

Lemma insert_take_drop {A : Type} (a b : list A) (k : nat) x :
  a !! k = Some x → (k < length b)%nat →
  <[k := x]> (take k a ++ drop k b) = take (S k) a ++ drop (S k) b.
Proof.
  intros Ha Hb. destruct (lookup_lt_is_Some_2 b k Hb) as [y Hy].
  pose proof (lookup_lt_Some _ _ _ Ha) as Hka.
  rewrite (drop_S _ _ _ Hy), (take_S_r _ _ _ Ha), <- app_assoc. simpl.
  rewrite insert_app_r_alt by (rewrite length_take; lia).
  rewrite length_take. by replace (k - k `min` length a)%nat with O by lia.
Qed.

Section Finish.
Context {T D : Type} {HA : Arith T D} {HL : ArithLaws T D}.
Variables (centroids : list (list T)) (st : KMeans.sums T) (n : nat).
Hypothesis Hcentroids : length centroids = n.
Hypothesis Hnew : length (KMeans.new_centroids st) = n.
Hypothesis Hdegrees : length (KMeans.degrees st) = n.
Hypothesis Hsmall : Z.of_nat n < 2 ^ 63.
Hypothesis Hzero : ∀ (j : nat) col,
  KMeans.degrees st !! j = Some 0 → KMeans.new_centroids st !! j = Some col →
  ∃ m, col = replicate m tzero.

Lemma divided_length : length (divided st) = n.
Proof. unfold divided. rewrite length_zip_with. lia. Qed.

Lemma finish_prefix (k : nat) :
  (k ≤ n)%nat →
  KMeans.finish (Z.of_nat k) centroids st
  = Returned (take k (divided st) ++ drop k (KMeans.new_centroids st),
              max_diff_of (take k centroids) (take k (divided st)),
              total_weight_of (take k (divided st))).
Proof.
  induction k as [|k IH]; intros Hk.
  - unfold KMeans.finish. simpl. by rewrite drop_0.
  - unfold KMeans.finish in *.
    rewrite seqZ_S, for_each_app, IH by lia. clear IH.
    rewrite Z.add_0_l. cbn [bind for_each].
    destruct (lookup_lt_is_Some_2 (KMeans.degrees st) k) as [d Hd]; [lia|].
    destruct (lookup_lt_is_Some_2 (KMeans.new_centroids st) k) as [col Hcol]; [lia|].
    destruct (lookup_lt_is_Some_2 centroids k) as [old Hold]; [lia|].
    set (col' := if bool_decide (d ≠ 0) then (λ c, tdiv c d) <$> col else col).
    assert (Hdiv : divided st !! k = Some col').
    { unfold divided. by rewrite lookup_zip_with, Hcol, Hd. }
    assert (Hlook : (take k (divided st) ++ drop k (KMeans.new_centroids st)) !! k = Some col).
    { rewrite lookup_app_r by (rewrite length_take, divided_length; lia).
      rewrite length_take, divided_length, lookup_drop.
      by replace (k + (k - k `min` n))%nat with k by lia. }
    unfold read at 1. rewrite vec_at_of_nat, Hd. cbn [bind].
    assert (Hmd : ∀ new, new = col' →
      dmax (max_diff_of (take k centroids) (take k (divided st)))
           (KMeans.sum_of_squares old new)
      = max_diff_of (take (S k) centroids) (take (S k) (divided st))).
    { intros ? ->. unfold max_diff_of.
      rewrite (take_S_r _ _ _ Hold), (take_S_r _ _ _ Hdiv).
      rewrite zip_with_app by (rewrite !length_take, divided_length; lia).
      by rewrite foldl_app. }
    assert (Htw : foldl (λ w c, dadd w (sq c)) (total_weight_of (take k (divided st))) col'
                  = total_weight_of (take (S k) (divided st))).
    { unfold total_weight_of. rewrite (take_S_r _ _ _ Hdiv), concat_app, foldl_app.
      simpl. by rewrite app_nil_r. }
    unfold col' in *. case_bool_decide as Hd0; cbn [bind fst snd].
    + unfold read at 1. rewrite vec_at_of_nat, Hlook. cbn [bind fst snd].
      unfold read at 1. rewrite vec_at_of_nat, Hold. cbn [bind].
      rewrite Nat2Z.id, (insert_take_drop _ _ _ _ Hdiv) by lia.
      unfold read at 1. rewrite vec_at_of_nat.
      rewrite lookup_app_l by (rewrite length_take, divided_length; lia).
      rewrite lookup_take_lt by lia. rewrite Hdiv. cbn [bind].
      by rewrite Hmd, Htw.
    + unfold read at 1. rewrite vec_at_of_nat, Hold. cbn [bind].
      unfold read at 1. rewrite vec_at_of_nat, Hlook. cbn [bind].
      rewrite (Hmd col eq_refl), <- Htw.
      assert (d = 0) as -> by (destruct (decide (d = 0)); [done|by destruct Hd0]).
      destruct (Hzero k col Hd Hcol) as [m ->]. rewrite total_weight_zeros.
      do 3 f_equal. rewrite <- (insert_take_drop _ _ _ _ Hdiv) by lia.
      symmetry. apply list_insert_id. done.
Qed.

(** The loop divides the sums, and computes [max_diff] and
    [total_weight] over all the centroids. *)
Lemma finish_spec :
  KMeans.finish (Z.of_nat n) centroids st
  = Returned (divided st, max_diff_of centroids (divided st), total_weight_of (divided st)).
Proof.
  rewrite finish_prefix by lia.
  rewrite !firstn_all2 by (rewrite ?divided_length; lia).
  by rewrite drop_ge, app_nil_r by lia.
Qed.
End Finish.

(** ** Training: a run returns *)

Lemma scan_degrees_returns (degrees : list Z) (n i : nat) m h :
  (i + n ≤ length degrees)%nat →
  for_each (seqZ (Z.of_nat i) (Z.of_nat n)) (λ i st,
    degree ⟵ read degrees i;
    Returned (Z.max st.1 degree, Heap.insert Z.ltb degree i st.2)) (m, h)
  = Returned (foldl Z.max m (take n (drop i degrees)),
              Heap.insert_all Z.ltb
                (zip (take n (drop i degrees)) (seqZ (Z.of_nat i) (Z.of_nat n))) h).
Proof.
  revert i m h. induction n as [|n IH]; intros i m h Hlen; [done|].
  rewrite seqZ_cons by lia. cbn [for_each].
  destruct (lookup_lt_is_Some_2 degrees i) as [d Hd]; [lia|].
  unfold read at 1. rewrite vec_at_of_nat, Hd. cbn [bind fst snd].
  rewrite (drop_S _ _ _ Hd). cbn [take zip zip_with foldl Heap.insert_all].
  replace (Z.succ (Z.of_nat i)) with (Z.of_nat (S i)) by lia.
  replace (Z.pred (Z.of_nat (S n))) with (Z.of_nat n) by lia.
  by rewrite IH by lia.
Qed.

Section Train.
Context {SH : Heap.SortHeap} {SHL : Heap.SortHeapLaws}.
Context {T D : Type} {HA : Arith T D} {HL : ArithLaws T D}.
Variable ceil_ratio : Z → Z.
Variable qv_partition_with_scores : list (list T) → list (list T) → list Z * list Z.
Variables (x : KMeans.kmeans_index T D) (training_set : list (list T)).
Hypothesis Hnlist : 0 ≤ KMeans.nlist_ x ≤ Z.of_nat (length training_set).
Hypothesis Hsmall : Z.of_nat (length training_set) < 2 ^ 63.
Hypothesis Hdim : Forall (λ v, length v = Z.to_nat (KMeans.dimension_ x)) training_set.
Hypothesis Hceil : ∀ n, 0 ≤ n → 0 ≤ ceil_ratio n.
Hypothesis Hpartition : ∀ centroids,
  length centroids = Z.to_nat (KMeans.nlist_ x) →
  length (qv_partition_with_scores centroids training_set).1 = length training_set
  ∧ length (qv_partition_with_scores centroids training_set).2 = length training_set
  ∧ Forall (λ p, 0 ≤ p < KMeans.nlist_ x) (qv_partition_with_scores centroids training_set).2.

Lemma lloyd_returns iter centroids :
  length centroids = Z.to_nat (KMeans.nlist_ x) →
  ∃ it,
    KMeans.lloyd ceil_ratio qv_partition_with_scores x training_set iter centroids
    = Returned it
    ∧ length (KMeans.it_new_centroids it) = Z.to_nat (KMeans.nlist_ x)
    ∧ KMeans.it_old_centroids it = centroids
    ∧ KMeans.it_max_diff it
      = max_diff_of (KMeans.it_old_centroids it) (KMeans.it_new_centroids it)
    ∧ KMeans.it_total_weight it = total_weight_of (KMeans.it_new_centroids it).
Proof.
  intros Hc. destruct (Hpartition centroids Hc) as (Hscores & Hparts & Hrange).
  unfold KMeans.lloyd.
  destruct (qv_partition_with_scores centroids training_set) as [scores parts].
  simpl in Hscores, Hparts, Hrange. cbv zeta.
  set (hs := ceil_ratio (KMeans.nlist_ x) + 5).
  assert (Hhs : 0 ≤ hs) by (pose proof (Hceil (KMeans.nlist_ x)); lia).
  destruct (accumulate_returns (Z.to_nat (KMeans.dimension_ x)) (KMeans.nlist_ x)
              training_set scores parts Hsmall Hdim Hscores Hparts Hrange
              (Heap.empty hs)) as (before & -> & Hacc).
  cbn [bind fst snd].
  pose proof Hacc as (Hln & Hld & _).
  unfold KMeans.scan_degrees.
  replace (seqZ 0 (KMeans.nlist_ x))
    with (seqZ (Z.of_nat 0) (Z.of_nat (Z.to_nat (KMeans.nlist_ x)))) by (f_equal; lia).
  rewrite scan_degrees_returns by (simpl; lia). cbn [bind fst snd].
  rewrite drop_0, firstn_all2 by lia.
  set (low := Heap.sort_heap Heap.tuple_lt _).
  set (high := Heap.sort_heap Heap.score_gt _).
  set (bound := ceil_ratio _).
  assert (∃ st taken over,
    (if negb (bool_decide (iter = wrap64 (KMeans.max_iter_ x - 1)))
     then KMeans.reassign training_set parts low high bound
            (seqZ 0 (Z.of_nat (length low))) before
     else Returned before) = Returned st
    ∧ accounts (Z.to_nat (KMeans.dimension_ x)) (KMeans.nlist_ x) training_set parts
        taken over (Z.of_nat (length training_set)) st) as (st & taken & over & -> & Hst).
  { destruct (negb _); [|by eexists _, _, _].
    destruct (sorted_heap_ids Z.ltb Heap.tuple_lt hs (KMeans.degrees before)
                (seqZ (Z.of_nat 0) (Z.of_nat (Z.to_nat (KMeans.nlist_ x)))))
      as (Hlnd & Hlsub & Hllen);
      [done|rewrite length_seqZ; lia|apply NoDup_seqZ|]. fold low in Hlnd, Hlsub, Hllen.
    destruct (sorted_heap_ids Z.gtb Heap.score_gt hs scores
                (seqZ 0 (Z.of_nat (length training_set))))
      as (Hhnd & Hhsub & Hhlen);
      [done|rewrite length_seqZ; lia|apply NoDup_seqZ|]. fold high in Hhnd, Hhsub, Hhlen.
    rewrite length_seqZ in Hllen, Hhlen.
    apply (reassign_accounts (Z.to_nat (KMeans.dimension_ x)) (KMeans.nlist_ x)
             training_set scores parts Hsmall Hdim Hscores Hparts Hrange low high bound (length low) 0);
      try done.
    - lia.
    - apply Forall_forall. intros z Hz%Hlsub. apply elem_of_seqZ in Hz. lia.
    - apply Forall_forall. intros v Hv%Hhsub. apply elem_of_seqZ in Hv. lia. }
  cbn [bind].
  pose proof Hst as (Hln' & Hld' & _).
  replace (KMeans.finish (KMeans.nlist_ x) centroids st)
    with (KMeans.finish (Z.of_nat (Z.to_nat (KMeans.nlist_ x))) centroids st)
    by (f_equal; lia).
  rewrite (finish_spec centroids st (Z.to_nat (KMeans.nlist_ x)) Hc Hln' Hld').
  - cbn [bind]. eexists. split; [done|]. simpl.
    split; [|done]. unfold divided. rewrite length_zip_with. lia.
  - intros j col. by eapply accounts_zero.
Qed.

Lemma iterate_returns iters centroids :
  length centroids = Z.to_nat (KMeans.nlist_ x) →
  ∃ centroids' trace,
    KMeans.iterate ceil_ratio qv_partition_with_scores x training_set iters centroids
    = Returned (centroids', trace)
    ∧ chained centroids trace
    ∧ Forall (λ it,
        KMeans.it_max_diff it
        = max_diff_of (KMeans.it_old_centroids it) (KMeans.it_new_centroids it)
        ∧ KMeans.it_total_weight it = total_weight_of (KMeans.it_new_centroids it)) trace.
Proof.
  revert centroids. induction iters as [|iter iters IH]; intros centroids Hc; simpl.
  - by eexists _, _.
  - destruct (lloyd_returns iter centroids Hc) as (it & -> & Hlen & Hold & Hmd & Htw).
    cbn [bind]. destruct (KMeans.it_converged it).
    + eexists _, _. split; [done|]. split; [done|]. by repeat constructor.
    + destruct (IH _ Hlen) as (c' & tr & -> & Hch & Hall). cbn [bind].
      eexists _, _. split; [done|]. split; [done|]. by constructor.
Qed.
End Train.

(** Integer arithmetic is exact. *)
Global Instance Z_arith_laws : ArithLaws Z Z.
Proof. split; simpl; intros; lia. Qed.

Lemma example_nearest_in_range (l : list (Z * list Z)) (v : list Z) :
  let r := foldr (λ c best,
                    if bool_decide (KMeans.sum_of_squares v c.2 ≤ best.1)
                    then (KMeans.sum_of_squares v c.2, c.1) else best) (2 ^ 62, 0) l in
  r.2 = 0 ∨ r.2 ∈ l.*1.
Proof.
  induction l as [|c l IH]; simpl; [by left|].
  case_bool_decide; simpl.
  - right. by left.
  - destruct IH as [?|?]; [by left|right; by right].
Qed.

Lemma example_partition_in_range (nlist : Z) (centroids training_set : list (list Z)) :
  0 < nlist → length centroids = Z.to_nat nlist →
  length (example_partition centroids training_set).1 = length training_set
  ∧ length (example_partition centroids training_set).2 = length training_set
  ∧ Forall (λ p, 0 ≤ p < nlist) (example_partition centroids training_set).2.
Proof.
  intros Hn Hc. unfold example_partition. simpl. rewrite !length_fmap.
  split; [done|]. split; [done|].
  apply Forall_fmap, Forall_fmap, Forall_forall. intros v _. simpl.
  destruct (example_nearest_in_range
              (zip (seqZ 0 (Z.of_nat (length centroids))) centroids) v) as [Hr|Hr];
    unfold example_nearest.
  - rewrite Hr. lia.
  - rewrite fst_zip in Hr by (rewrite length_seqZ; lia).
    apply elem_of_seqZ in Hr. lia.
Qed.

(** ** Training: a run returns, whatever the arithmetic *)

Section FinishAny.
Context {T D : Type} {HA : Arith T D}.
Variables (centroids : list (list T)) (st : KMeans.sums T) (n : nat).
Hypothesis Hcentroids : length centroids = n.
Hypothesis Hnew : length (KMeans.new_centroids st) = n.
Hypothesis Hdegrees : length (KMeans.degrees st) = n.

Lemma finish_prefix_any (k : nat) :
  (k ≤ n)%nat →
  KMeans.finish (Z.of_nat k) centroids st
  = Returned (take k (divided st) ++ drop k (KMeans.new_centroids st),
              max_diff_of (take k centroids) (take k (divided st)),
              total_weight_of (take k (populated (divided st) (KMeans.degrees st)))).
Proof.
  pose proof (divided_length centroids st n Hcentroids Hnew Hdegrees) as Hdl.
  induction k as [|k IH]; intros Hk.
  - unfold KMeans.finish. simpl. by rewrite drop_0.
  - unfold KMeans.finish in *.
    rewrite seqZ_S, for_each_app, IH by lia. clear IH.
    rewrite Z.add_0_l. cbn [bind for_each].
    destruct (lookup_lt_is_Some_2 (KMeans.degrees st) k) as [d Hd]; [lia|].
    destruct (lookup_lt_is_Some_2 (KMeans.new_centroids st) k) as [col Hcol]; [lia|].
    destruct (lookup_lt_is_Some_2 centroids k) as [old Hold]; [lia|].
    set (col' := if bool_decide (d ≠ 0) then (λ c, tdiv c d) <$> col else col).
    assert (Hdiv : divided st !! k = Some col').
    { unfold divided. by rewrite lookup_zip_with, Hcol, Hd. }
    assert (Hpop : populated (divided st) (KMeans.degrees st) !! k
                   = Some (if bool_decide (d ≠ 0) then col' else [])).
    { unfold populated. by rewrite lookup_zip_with, Hdiv, Hd. }
    assert (Hlook : (take k (divided st) ++ drop k (KMeans.new_centroids st)) !! k = Some col).
    { rewrite lookup_app_r by (rewrite length_take, Hdl; lia).
      rewrite length_take, Hdl, lookup_drop.
      by replace (k + (k - k `min` n))%nat with k by lia. }
    unfold read at 1. rewrite vec_at_of_nat, Hd. cbn [bind].
    assert (Hmd : ∀ new, new = col' →
      dmax (max_diff_of (take k centroids) (take k (divided st)))
           (KMeans.sum_of_squares old new)
      = max_diff_of (take (S k) centroids) (take (S k) (divided st))).
    { intros ? ->. unfold max_diff_of.
      rewrite (take_S_r _ _ _ Hold), (take_S_r _ _ _ Hdiv).
      rewrite zip_with_app by (rewrite !length_take, Hdl; lia).
      by rewrite foldl_app. }
    assert (Htw : total_weight_of (take (S k) (populated (divided st) (KMeans.degrees st)))
                  = foldl (λ w c, dadd w (sq c))
                      (total_weight_of (take k (populated (divided st) (KMeans.degrees st))))
                      (if bool_decide (d ≠ 0) then col' else [])).
    { unfold total_weight_of. rewrite (take_S_r _ _ _ Hpop), concat_app, foldl_app.
      simpl. by rewrite app_nil_r. }
    rewrite Htw. unfold col' in *. case_bool_decide as Hd0; cbn [bind fst snd].
    + unfold read at 1. rewrite vec_at_of_nat, Hlook. cbn [bind fst snd].
      unfold read at 1. rewrite vec_at_of_nat, Hold. cbn [bind].
      rewrite Nat2Z.id, (insert_take_drop _ _ _ _ Hdiv) by lia.
      unfold read at 1. rewrite vec_at_of_nat.
      rewrite lookup_app_l by (rewrite length_take, Hdl; lia).
      rewrite lookup_take_lt by lia. rewrite Hdiv. cbn [bind].
      by rewrite Hmd.
    + unfold read at 1. rewrite vec_at_of_nat, Hold. cbn [bind].
      unfold read at 1. rewrite vec_at_of_nat, Hlook. cbn [bind].
      rewrite (Hmd col eq_refl). simpl.
      do 3 f_equal. rewrite <- (insert_take_drop _ _ _ _ Hdiv) by lia.
      symmetry. apply list_insert_id. done.
Qed.

(** The loop divides the sums of the centroids of a degree that is not
    zero, and computes [max_diff] over all the centroids and
    [total_weight] over those. *)
Lemma finish_any :
  KMeans.finish (Z.of_nat n) centroids st
  = Returned (divided st, max_diff_of centroids (divided st),
              total_weight_of (populated (divided st) (KMeans.degrees st))).
Proof.
  pose proof (divided_length centroids st n Hcentroids Hnew Hdegrees) as Hdl.
  rewrite finish_prefix_any by lia.
  rewrite !firstn_all2; [|unfold populated; rewrite length_zip_with; lia|lia|lia].
  by rewrite drop_ge, app_nil_r by lia.
Qed.
End FinishAny.

Section Shape.
Context {T D : Type} {HA : Arith T D}.
Variables (nlist : Z) (training_set : list (list T)) (parts : list Z).
Hypothesis Hparts : length parts = length training_set.
Hypothesis Hrange : Forall (λ p, 0 ≤ p < nlist) parts.

(** A step of the reassignment on vectors of [nlist] slots returns, and
    keeps their lengths. *)
Lemma reassign_step_shape (st : KMeans.sums T) (z v : Z) :
  length (KMeans.new_centroids st) = Z.to_nat nlist →
  length (KMeans.degrees st) = Z.to_nat nlist →
  0 ≤ z < nlist → 0 ≤ v < Z.of_nat (length training_set) →
  ∃ st',
    KMeans.reassign_step training_set parts z v st = Returned st'
    ∧ length (KMeans.new_centroids st') = Z.to_nat nlist
    ∧ length (KMeans.degrees st') = Z.to_nat nlist.
Proof.
  intros Hln Hld Hz Hv.
  destruct (lookup_lt_is_Some_2 parts (Z.to_nat v)) as [p Hp]; [lia|].
  assert (Hpr : 0 ≤ p < nlist).
  { rewrite Forall_forall in Hrange. apply Hrange. by eapply list_elem_of_lookup_2. }
  destruct (lookup_lt_is_Some_2 training_set (Z.to_nat v)) as [hv Hhv]; [lia|].
  destruct (lookup_lt_is_Some_2 (KMeans.new_centroids st) (Z.to_nat z)) as [cz Hcz]; [lia|].
  destruct (lookup_lt_is_Some_2 (KMeans.degrees st) (Z.to_nat z)) as [dz Hdz]; [lia|].
  destruct (lookup_lt_is_Some_2 (<[Z.to_nat z := hv]> (KMeans.new_centroids st)) (Z.to_nat p))
    as [cp Hcp]; [rewrite length_insert; lia|].
  destruct (lookup_lt_is_Some_2 (<[Z.to_nat z := wrap64 (dz + 1)]> (KMeans.degrees st))
              (Z.to_nat p)) as [dp Hdp]; [rewrite length_insert; lia|].
  eexists. split.
  - unfold KMeans.reassign_step.
    unfold read at 1. rewrite vec_at_lookup, Hcz by lia. cbn [bind].
    unfold read at 1. rewrite vec_at_lookup, Hhv by lia. cbn [bind].
    unfold read at 1. rewrite vec_at_lookup, Hp by lia. cbn [bind].
    unfold read at 1. rewrite vec_at_lookup, Hcp by lia. cbn [bind].
    unfold read at 1. rewrite vec_at_lookup, Hdz by lia. cbn [bind].
    unfold read at 1. rewrite vec_at_lookup, Hdp by lia. cbn [bind]. done.
  - simpl. by rewrite !length_insert.
Qed.

(** The loop of the reassignment returns when [high_scores] has a pair for
    every pair of [low_degrees]. *)
Lemma reassign_shape (low high : list (Z * Z)) bound (r i : nat) (st : KMeans.sums T) :
  (i + r)%nat = length low → (length low ≤ length high)%nat →
  Forall (λ z, 0 ≤ z < nlist) low.*2 →
  Forall (λ v, 0 ≤ v < Z.of_nat (length training_set)) high.*2 →
  length (KMeans.new_centroids st) = Z.to_nat nlist →
  length (KMeans.degrees st) = Z.to_nat nlist →
  ∃ st',
    KMeans.reassign training_set parts low high bound (seqZ (Z.of_nat i) (Z.of_nat r)) st
    = Returned st'
    ∧ length (KMeans.new_centroids st') = Z.to_nat nlist
    ∧ length (KMeans.degrees st') = Z.to_nat nlist.
Proof.
  intros Hlen Hle Hlr Hhr. revert i st Hlen.
  induction r as [|r IH]; intros i st Hlen Hln Hld.
  - simpl. by eexists.
  - rewrite seqZ_cons by lia. cbn [KMeans.reassign].
    destruct (lookup_lt_is_Some_2 low i) as [lo Hlo]; [lia|].
    destruct (lookup_lt_is_Some_2 high i) as [hi Hhi]; [lia|].
    rewrite vec_at_of_nat, Hlo. case_bool_decide; [|by eexists].
    unfold read at 1. rewrite vec_at_of_nat, Hhi. cbn [bind].
    assert (Hz : 0 ≤ lo.2 < nlist).
    { rewrite Forall_forall in Hlr. apply Hlr.
      apply (list_elem_of_lookup_2 _ i). by rewrite list_lookup_fmap, Hlo. }
    assert (Hv : 0 ≤ hi.2 < Z.of_nat (length training_set)).
    { rewrite Forall_forall in Hhr. apply Hhr.
      apply (list_elem_of_lookup_2 _ i). by rewrite list_lookup_fmap, Hhi. }
    destruct (reassign_step_shape st lo.2 hi.2 Hln Hld Hz Hv) as (st1 & -> & Hln1 & Hld1).
    cbn [bind].
    replace (Z.succ (Z.of_nat i)) with (Z.of_nat (S i)) by lia.
    replace (Z.pred (Z.of_nat (S r))) with (Z.of_nat r) by lia.
    apply IH; [lia|done|done].
Qed.
End Shape.

Section TrainAny.
Context {SH : Heap.SortHeap} {SHL : Heap.SortHeapLaws}.
Context {T D : Type} {HA : Arith T D}.
Variable ceil_ratio : Z → Z.
Variable qv_partition_with_scores : list (list T) → list (list T) → list Z * list Z.
Variables (x : KMeans.kmeans_index T D) (training_set : list (list T)).
Hypothesis Hnlist : 0 ≤ KMeans.nlist_ x ≤ Z.of_nat (length training_set).
Hypothesis Hsmall : Z.of_nat (length training_set) < 2 ^ 63.
Hypothesis Hdim : Forall (λ v, length v = Z.to_nat (KMeans.dimension_ x)) training_set.
Hypothesis Hceil : ∀ n, 0 ≤ n → 0 ≤ ceil_ratio n.
Hypothesis Hpartition : ∀ centroids,
  length centroids = Z.to_nat (KMeans.nlist_ x) →
  length (qv_partition_with_scores centroids training_set).1 = length training_set
  ∧ length (qv_partition_with_scores centroids training_set).2 = length training_set
  ∧ Forall (λ p, 0 ≤ p < KMeans.nlist_ x) (qv_partition_with_scores centroids training_set).2.

Lemma lloyd_returns_any iter centroids :
  length centroids = Z.to_nat (KMeans.nlist_ x) →
  ∃ it,
    KMeans.lloyd ceil_ratio qv_partition_with_scores x training_set iter centroids
    = Returned it
    ∧ length (KMeans.it_new_centroids it) = Z.to_nat (KMeans.nlist_ x)
    ∧ KMeans.it_old_centroids it = centroids
    ∧ KMeans.it_max_diff it
      = max_diff_of (KMeans.it_old_centroids it) (KMeans.it_new_centroids it)
    ∧ KMeans.it_total_weight it
      = total_weight_of (populated (KMeans.it_new_centroids it)
                           (KMeans.degrees (KMeans.it_after it))).
Proof.
  intros Hc. destruct (Hpartition centroids Hc) as (Hscores & Hparts & Hrange).
  unfold KMeans.lloyd.
  destruct (qv_partition_with_scores centroids training_set) as [scores parts].
  simpl in Hscores, Hparts, Hrange. cbv zeta.
  set (hs := ceil_ratio (KMeans.nlist_ x) + 5).
  assert (Hhs : 0 ≤ hs) by (pose proof (Hceil (KMeans.nlist_ x)); lia).
  destruct (accumulate_returns (Z.to_nat (KMeans.dimension_ x)) (KMeans.nlist_ x)
              training_set scores parts Hsmall Hdim Hscores Hparts Hrange
              (Heap.empty hs)) as (before & -> & Hacc).
  cbn [bind fst snd].
  pose proof Hacc as (Hln & Hld & _).
  unfold KMeans.scan_degrees.
  replace (seqZ 0 (KMeans.nlist_ x))
    with (seqZ (Z.of_nat 0) (Z.of_nat (Z.to_nat (KMeans.nlist_ x)))) by (f_equal; lia).
  rewrite scan_degrees_returns by (simpl; lia). cbn [bind fst snd].
  rewrite drop_0, firstn_all2 by lia.
  set (low := Heap.sort_heap Heap.tuple_lt _).
  set (high := Heap.sort_heap Heap.score_gt _).
  set (bound := ceil_ratio _).
  assert (∃ st,
    (if negb (bool_decide (iter = wrap64 (KMeans.max_iter_ x - 1)))
     then KMeans.reassign training_set parts low high bound
            (seqZ 0 (Z.of_nat (length low))) before
     else Returned before) = Returned st
    ∧ length (KMeans.new_centroids st) = Z.to_nat (KMeans.nlist_ x)
    ∧ length (KMeans.degrees st) = Z.to_nat (KMeans.nlist_ x)) as (st & -> & Hln' & Hld').
  { destruct (negb _); [|by eexists].
    destruct (sorted_heap_ids Z.ltb Heap.tuple_lt hs (KMeans.degrees before)
                (seqZ (Z.of_nat 0) (Z.of_nat (Z.to_nat (KMeans.nlist_ x)))))
      as (Hlnd & Hlsub & Hllen);
      [done|rewrite length_seqZ; lia|apply NoDup_seqZ|]. fold low in Hlnd, Hlsub, Hllen.
    destruct (sorted_heap_ids Z.gtb Heap.score_gt hs scores
                (seqZ 0 (Z.of_nat (length training_set))))
      as (Hhnd & Hhsub & Hhlen);
      [done|rewrite length_seqZ; lia|apply NoDup_seqZ|]. fold high in Hhnd, Hhsub, Hhlen.
    rewrite length_seqZ in Hllen, Hhlen.
    apply (reassign_shape (KMeans.nlist_ x) training_set parts Hparts Hrange
             low high bound (length low) 0); try done.
    - lia.
    - apply Forall_forall. intros z Hz%Hlsub. apply elem_of_seqZ in Hz. lia.
    - apply Forall_forall. intros v Hv%Hhsub. apply elem_of_seqZ in Hv. lia. }
  cbn [bind].
  replace (KMeans.finish (KMeans.nlist_ x) centroids st)
    with (KMeans.finish (Z.of_nat (Z.to_nat (KMeans.nlist_ x))) centroids st)
    by (f_equal; lia).
  rewrite (finish_any centroids st (Z.to_nat (KMeans.nlist_ x)) Hc Hln' Hld').
  cbn [bind]. eexists. split; [done|]. simpl.
  split; [|done]. unfold divided. rewrite length_zip_with. lia.
Qed.

Lemma iterate_returns_any iters centroids :
  length centroids = Z.to_nat (KMeans.nlist_ x) →
  ∃ centroids' trace,
    KMeans.iterate ceil_ratio qv_partition_with_scores x training_set iters centroids
    = Returned (centroids', trace)
    ∧ chained centroids trace
    ∧ Forall (λ it,
        KMeans.it_max_diff it
        = max_diff_of (KMeans.it_old_centroids it) (KMeans.it_new_centroids it)
        ∧ KMeans.it_total_weight it
          = total_weight_of (populated (KMeans.it_new_centroids it)
                               (KMeans.degrees (KMeans.it_after it)))) trace.
Proof.
  revert centroids. induction iters as [|iter iters IH]; intros centroids Hc; simpl.
  - by eexists _, _.
  - destruct (lloyd_returns_any iter centroids Hc) as (it & -> & Hlen & Hold & Hmd & Htw).
    cbn [bind]. destruct (KMeans.it_converged it).
    + eexists _, _. split; [done|]. split; [done|]. by repeat constructor.
    + destruct (IH _ Hlen) as (c' & tr & -> & Hch & Hall). cbn [bind].
      eexists _, _. split; [done|]. split; [done|]. by constructor.
Qed.

(** C8, amended: a run of [train_no_init] on a training set of at least
    [nlist] vectors of the dimension of the index, with a partition
    function that assigns every vector to one of the [nlist] centroids,
    returns (no failure is reported, whether or not the run has converged)
    after at most [max_iter] iterations, and after at least one when
    [max_iter] is not zero, each starting from the centroids of the one
    before.  An iteration is the last one exactly when it is iteration
    [max_iter - 1] or [max_diff < tol * total_weight], where [max_diff] is
    the largest squared distance between an old and a new centroid and
    [total_weight] the sum of the squares of the entries of the new
    centroids whose degree is not zero.  When the arithmetic is exact
    ([ArithLaws]) a centroid of degree zero has a sum of zeros, and
    [total_weight] is the sum over all the new centroids. *)
Theorem training_stops_at_max_iter_or_on_convergence :
  0 ≤ KMeans.max_iter_ x < 2 ^ 64 →
  length (KMeans.centroids_ x) = Z.to_nat (KMeans.nlist_ x) →
  ∃ x' trace,
    KMeans.train_no_init ceil_ratio qv_partition_with_scores x training_set
    = Returned (x', trace)
    ∧ Z.of_nat (length trace) ≤ KMeans.max_iter_ x
    ∧ (1 ≤ KMeans.max_iter_ x → trace ≠ [])
    ∧ chained (KMeans.centroids_ x) trace
    ∧ ∀ (i : nat) it, trace !! i = Some it →
        KMeans.it_iter it = Z.of_nat i
        ∧ KMeans.it_max_diff it
          = max_diff_of (KMeans.it_old_centroids it) (KMeans.it_new_centroids it)
        ∧ KMeans.it_total_weight it
          = total_weight_of (populated (KMeans.it_new_centroids it)
                               (KMeans.degrees (KMeans.it_after it)))
        ∧ (ArithLaws T D →
           KMeans.it_total_weight it = total_weight_of (KMeans.it_new_centroids it))
        ∧ (S i = length trace ↔
           Z.of_nat i = KMeans.max_iter_ x - 1
           ∨ dlt (KMeans.it_max_diff it) (dmul (KMeans.tol_ x) (KMeans.it_total_weight it))
             = true).
Proof.
  intros Hmax Hc. unfold KMeans.train_no_init.
  destruct (iterate_returns_any (seqZ 0 (KMeans.max_iter_ x)) _ Hc)
    as (c' & trace & Hrun & Hch & Hall).
  rewrite Hrun. cbn [bind snd]. eexists _, trace. split; [done|].
  destruct (iterate_trace _ _ _ _ _ _ _ _ Hrun) as (Hlen & Hnil & Hlast).
  rewrite length_seqZ in Hlen. split; [lia|]. split; [|split; [done|]].
  { intros H1 Hn. apply Hnil in Hn. apply (f_equal length) in Hn.
    rewrite length_seqZ in Hn. simpl in Hn. lia. }
  intros i it Hi. destruct (Hlast _ _ Hi) as (iter & ci & Hiter & Hlloyd & Hiff).
  apply lookup_seqZ in Hiter as [-> Hilt]. rewrite length_seqZ in Hiff.
  destruct (lloyd_Returned _ _ _ _ _ _ _ Hlloyd)
    as (_ & _ & _ & _ & -> & _ & _ & _ & _ & _ & _ & _ & _ & Hconv).
  rewrite Forall_forall in Hall.
  destruct (Hall it) as [Hmd Htw]; [by eapply list_elem_of_lookup_2|].
  split; [lia|]. split; [done|]. split; [done|]. split.
  - intros HL.
    destruct (iterate_returns ceil_ratio qv_partition_with_scores x training_set
                Hnlist Hsmall Hdim Hceil Hpartition (seqZ 0 (KMeans.max_iter_ x)) _ Hc)
      as (c'' & trace' & Hrun' & _ & Hall').
    rewrite Hrun in Hrun'. injection Hrun' as _ <-.
    rewrite Forall_forall in Hall'.
    by destruct (Hall' it) as [_ ?]; [by eapply list_elem_of_lookup_2|].
  - rewrite Hiff, Hconv. split; (intros [?|?]; [right|left]; first [done|lia]).
Qed.
End TrainAny.

Lemma training_stops_at_max_iter_or_on_convergence_witness :
  ∃ x' trace,
    KMeans.train_no_init example_ceil_ratio example_partition
      (example_index 2 3) example_training_set
    = Returned (x', trace)
    ∧ Z.of_nat (length trace) ≤ 3
    ∧ trace ≠ []
    ∧ chained (replicate 2 [0]) trace
    ∧ ∀ (i : nat) it, trace !! i = Some it →
        KMeans.it_iter it = Z.of_nat i
        ∧ KMeans.it_max_diff it
          = max_diff_of (KMeans.it_old_centroids it) (KMeans.it_new_centroids it)
        ∧ KMeans.it_total_weight it
          = total_weight_of (populated (KMeans.it_new_centroids it)
                               (KMeans.degrees (KMeans.it_after it)))
        ∧ KMeans.it_total_weight it = total_weight_of (KMeans.it_new_centroids it)
        ∧ (S i = length trace ↔
           Z.of_nat i = 3 - 1
           ∨ Z.ltb (KMeans.it_max_diff it) (1 * KMeans.it_total_weight it) = true).
Proof.
  assert (H1 : 0 ≤ KMeans.nlist_ (example_index 2 3) ≤ Z.of_nat (length example_training_set))
    by (simpl; lia).
  assert (H2 : Z.of_nat (length example_training_set) < 2 ^ 63) by (simpl; lia).
  assert (H3 : Forall (λ v, length v = Z.to_nat (KMeans.dimension_ (example_index 2 3)))
                 example_training_set) by (by repeat constructor).
  assert (H4 : ∀ n, 0 ≤ n → 0 ≤ example_ceil_ratio n)
    by (intros n Hn; unfold example_ceil_ratio; apply Z.div_pos; lia).
  assert (H5 : 0 ≤ KMeans.max_iter_ (example_index 2 3) < 2 ^ 64) by (simpl; lia).
  destruct (training_stops_at_max_iter_or_on_convergence example_ceil_ratio example_partition
              (example_index 2 3) example_training_set H1 H2 H3 H4
              (λ centroids Hc, example_partition_in_range 2 centroids example_training_set
                                 ltac:(lia) Hc)
              H5 eq_refl) as (x' & trace & Hrun & Hlen & Hne & Hch & Hall).
  exists x', trace. split; [done|]. split; [done|].
  split; [apply Hne; simpl; lia|]. split; [done|].
  intros i it Hi. destruct (Hall i it Hi) as (Hi1 & Hi2 & Hi3 & Hi4 & Hi5).
  split; [done|]. split; [done|]. split; [done|]. split; [|done].
  apply Hi4, Z_arith_laws.
Defined.

(** C8, a counterexample, in the arithmetic of [float] and [double]: the
    vectors [2^25] and [2] are assigned to the centroid 0, the vector
    [-1000] to the centroid 1; the sum of the centroid 0 is [2^25] (in
    binary32 [2^25 + 2] rounds to [2^25]).  The first iteration moves both
    vectors of the centroid 0 to the centroids 2 and 1, which leaves the
    centroid 0 with the degree 0 and the sum [(2^25 - 2^25) - 2 = -2]: the
    new centroids are [-2], [1] and [2^25], and [total_weight] is
    [1 + 2^50], without the square of [-2].  The training set has as many
    vectors as there are centroids.  With fewer vectors than centroids a
    run need not return: the second run reads [high_scores] past its
    end. *)
Lemma total_weight_leaves_out_a_centroid_of_degree_zero :
  match KMeans.train_no_init example_ceil_ratio float_partition float_index
          float_training_set with
  | Returned (_, it :: _) =>
      KMeans.it_iter it = 0
      ∧ KMeans.degrees (KMeans.it_after it) = [0; 2; 1]
      ∧ map (map Z_of_float) (KMeans.it_new_centroids it) = [[-2]; [1]; [2 ^ 25]]
      ∧ KMeans.it_total_weight it = double_of_Z (2 ^ 50 + 1)
      ∧ total_weight_of (KMeans.it_new_centroids it) = double_of_Z (2 ^ 50 + 5)
      ∧ KMeans.it_total_weight it ≠ total_weight_of (KMeans.it_new_centroids it)
  | _ => False
  end
  ∧ KMeans.train_no_init example_ceil_ratio example_partition
      (example_index 5 3) example_training_set
    = Undefined.
Proof.
  split; [|by vm_compute].
  vm_compute. repeat split; congruence.
Qed.

(** ** Loops *)

(** A loop whose body returns, on every state that satisfies the
    invariant, the value of a function is a fold of that function. *)
Lemma for_each_pure {A S : Type} (I : S → Prop) (g : S → A → S)
    (xs : list A) (body : A → S → outcome S) (s : S) :
  I s →
  (∀ x s, x ∈ xs → I s → body x s = Returned (g s x) ∧ I (g s x)) →
  for_each xs body s = Returned (foldl g s xs) ∧ I (foldl g s xs).
Proof.
  revert s. induction xs as [|x xs IH]; intros s Hs Hbody; simpl; [done|].
  destruct (Hbody x s) as [-> Hs']; [by left|done|]. simpl.
  apply IH; [done|]. intros x' s' Hx'. apply Hbody. by right.
Qed.

(** A loop over the positions of a vector that reads the vector at its
    position is a loop over the elements. *)
Lemma for_each_read {A S : Type} (l0 l : list A) (f : A → S → outcome S) (s : S) :
  for_each (seqZ (Z.of_nat (length l0)) (Z.of_nat (length l)))
    (λ i s, a ⟵ read (l0 ++ l) i; f a s) s
  = for_each l f s.
Proof.
  revert l0 s. induction l as [|a l IH]; intros l0 s; [done|].
  rewrite seqZ_cons by (simpl; lia). cbn [for_each].
  unfold read at 1. rewrite vec_at_of_nat, list_lookup_middle by done. cbn [bind].
  destruct (f a s) as [s'| |]; cbn [bind]; [|done..].
  specialize (IH (l0 ++ [a]) s'). rewrite <- app_assoc in IH. simpl in IH.
  rewrite <- IH. f_equal. f_equal; rewrite ?length_app; simpl; lia.
Qed.

(** Inserts into one heap of a vector of heaps. *)
Lemma insert_all_app compare_ (l1 l2 : list (Z * Z)) h :
  Heap.insert_all compare_ (l1 ++ l2) h
  = Heap.insert_all compare_ l2 (Heap.insert_all compare_ l1 h).
Proof. unfold Heap.insert_all. by rewrite foldl_app. Qed.

Lemma foldl_alter {A B : Type} (F : B → A → A) (j : nat) (ms : list A) (cs : list B) :
  foldl (λ ms c, alter (F c) j ms) ms cs = alter (λ h, foldl (λ h c, F c h) h cs) j ms.
Proof.
  revert ms. induction cs as [|c cs IH]; intros ms; simpl.
  - symmetry. apply list_eq. intros i. destruct (decide (i = j)) as [->|].
    + rewrite list_lookup_alter_eq. by destruct (ms !! j).
    + by rewrite list_lookup_alter_ne.
  - rewrite IH. apply list_eq. intros i. destruct (decide (i = j)) as [->|].
    + rewrite !list_lookup_alter_eq. by destruct (ms !! j).
    + by rewrite !list_lookup_alter_ne.
Qed.

Lemma foldl_insert_all {B : Type} compare_ (bs : B → list (Z * Z)) (cs : list B) h :
  foldl (λ h c, Heap.insert_all compare_ (bs c) h) h cs
  = Heap.insert_all compare_ (concat (bs <$> cs)) h.
Proof.
  revert h. induction cs as [|c cs IH]; intros h; simpl; [done|].
  by rewrite IH, insert_all_app.
Qed.

Lemma foldl_alter_other {A : Type} (F : Z → A → A) (ms : list A) (k j : nat) :
  (k ≤ j)%nat →
  foldl (λ ms j, alter (F j) (Z.to_nat j) ms) ms (seqZ 0 (Z.of_nat k)) !! j = ms !! j.
Proof.
  revert ms. induction k as [|k IH]; intros ms Hk; [done|].
  rewrite seqZ_S, foldl_app. simpl. rewrite Z.add_0_l, Nat2Z.id.
  rewrite list_lookup_alter_ne by lia. apply IH. lia.
Qed.

(** Every position is altered once. *)
Lemma foldl_alter_each {A : Type} (F : Z → A → A) (ms : list A) (n : nat) (j : nat) :
  (j < n)%nat →
  foldl (λ ms j, alter (F j) (Z.to_nat j) ms) ms (seqZ 0 (Z.of_nat n)) !! j
  = F (Z.of_nat j) <$> ms !! j.
Proof.
  revert ms. induction n as [|n IH]; intros ms Hj; [lia|].
  rewrite seqZ_S, foldl_app. simpl. rewrite Z.add_0_l, Nat2Z.id.
  destruct (decide (j = n)) as [->|Hne].
  - rewrite list_lookup_alter_eq. f_equal. by apply foldl_alter_other.
  - rewrite list_lookup_alter_ne by done. apply IH. lia.
Qed.

Lemma for_each_ext {A S : Type} (xs : list A) (f g : A → S → outcome S) (s : S) :
  (∀ x s, x ∈ xs → f x s = g x s) → for_each xs f s = for_each xs g s.
Proof.
  revert s. induction xs as [|x xs IH]; intros s Hfg; simpl; [done|].
  rewrite Hfg by (by left). destruct (g x s); simpl; [|done..].
  apply IH. intros x' s' Hx'. apply Hfg. by right.
Qed.

Lemma insert_at_alter (j : Z) score id (ms : list Heap.fixed_min_pair_heap) :
  0 ≤ j < Z.of_nat (length ms) →
  Ivf.insert_at j score id ms
  = Returned (alter (Heap.insert Z.ltb score id) (Z.to_nat j) ms).
Proof.
  intros Hj. unfold Ivf.insert_at.
  destruct (lookup_lt_is_Some_2 ms (Z.to_nat j)) as [h Hh]; [lia|].
  unfold read. rewrite vec_at_lookup, Hh by lia. simpl. f_equal.
  apply (insert_read_alter _ _ _ (Heap.insert Z.ltb score id)).
  by rewrite vec_at_lookup by lia.
Qed.

Lemma insert_all_fmap {B : Type} compare_ (f : B → Z * Z) (l : list B) h :
  Heap.insert_all compare_ (f <$> l) h
  = foldl (λ h i, Heap.insert compare_ (f i).1 (f i).2 h) h l.
Proof. unfold Heap.insert_all. by rewrite foldl_fmap. Qed.

(** ** The arrays and the nearest centroids *)

Lemma length_read_all {A : Type} (d : dense_array A) :
  length (Ivf.read_all d) = Z.to_nat (Ivf.array_cols d).
Proof. unfold Ivf.read_all. by rewrite length_fmap, length_seqZ. Qed.

Lemma read_all_lookup {A : Type} (d : dense_array A) (i : Z) :
  0 ≤ i < Ivf.array_cols d → vec_at (Ivf.read_all d) i = Some (cell d i).
Proof.
  intros Hi. rewrite vec_at_lookup by lia. unfold Ivf.read_all.
  rewrite list_lookup_fmap, (lookup_seqZ_lt _ _ _) by lia. simpl. f_equal. f_equal. lia.
Qed.

Section QueryFacts.
Context {SH : Heap.SortHeap} {SHL : Heap.SortHeapLaws}.
Context {V : Type} (L2 : V → V → Z).
Variables (db : dense_array V) (ids : dense_array Z) (centroids q : list V).
Variables (indices : list Z) (nprobe : Z).
Hypothesis Hwf : query_wf db ids centroids q indices nprobe.

Lemma array_cols_db : Ivf.array_cols db = (col_domain db).2 - (col_domain db).1 + 1.
Proof.
  destruct Hwf as [_ Hint _ _ _ _ _ _]. unfold Ivf.array_cols.
  rewrite to_int_small, wrap64_small; lia.
Qed.

Lemma array_cols_ids : Ivf.array_cols ids = Ivf.array_cols db.
Proof.
  rewrite array_cols_db. destruct Hwf as [Hcols Hint _ _ _ _ _ _]. unfold Ivf.array_cols.
  rewrite <- Hcols, to_int_small, wrap64_small; lia.
Qed.

Lemma array_cols_bound : 0 ≤ Ivf.array_cols db < 2 ^ 31.
Proof. rewrite array_cols_db. by destruct Hwf. Qed.

(** The nearest centroids of a query: [nprobe] distinct centroids. *)
Lemma top_column (j : nat) col :
  Ivf.qv_query_nth L2 centroids q nprobe !! j = Some col →
  NoDup col ∧ Forall (λ c, 0 ≤ c < Z.of_nat (length centroids)) col
  ∧ length col = Z.to_nat nprobe.
Proof.
  destruct Hwf as [_ _ _ _ _ Hnprobe _ _].
  unfold Ivf.qv_query_nth. rewrite list_lookup_fmap.
  destruct (q !! j) as [q_vec|]; [|done]. simpl. intros [= <-].
  destruct (sorted_heap_ids Z.ltb Heap.tuple_lt nprobe (L2 q_vec <$> centroids)
              (seqZ 0 (Z.of_nat (length centroids)))) as (Hnd & Hsub & Hlen);
    [lia|by rewrite length_fmap, length_seqZ, Nat2Z.id|apply NoDup_seqZ|].
  split; [done|]. split.
  - apply Forall_forall. intros c Hc%Hsub. apply elem_of_seqZ in Hc. lia.
  - rewrite length_fmap. rewrite length_seqZ in Hlen. lia.
Qed.

Lemma length_top : length (Ivf.qv_query_nth L2 centroids q nprobe) = length q.
Proof. unfold Ivf.qv_query_nth. by rewrite length_fmap. Qed.

(** The reads of the boundaries of a partition. *)
Lemma read_boundaries (c : Z) :
  Z.of_nat (length indices) = Z.of_nat (length centroids) + 1 →
  0 ≤ c < Z.of_nat (length centroids) →
  vec_at indices c = Some (start_of indices c)
  ∧ vec_at indices (wrap64 (c + 1)) = Some (stop_of indices c)
  ∧ 0 ≤ start_of indices c ≤ stop_of indices c
  ∧ stop_of indices c ≤ Ivf.array_cols db.
Proof.
  intros Hlen Hc. destruct Hwf as [_ _ _ [_ Hnl] _ _ Hsorted Hrange].
  rewrite wrap64_small by lia. unfold start_of, stop_of.
  rewrite !vec_at_lookup by lia.
  destruct (lookup_lt_is_Some_2 indices (Z.to_nat c)) as [a Ha]; [lia|].
  destruct (lookup_lt_is_Some_2 indices (Z.to_nat (c + 1))) as [b Hb]; [lia|].
  rewrite Ha, Hb. simpl. split; [done|]. split; [done|].
  rewrite Forall_forall in Hrange.
  pose proof (Hrange a (list_elem_of_lookup_2 _ _ _ Ha)).
  pose proof (Hrange b (list_elem_of_lookup_2 _ _ _ Hb)).
  pose proof (StronglySorted_lookup_le _ (Z.to_nat c) (Z.to_nat (c + 1)) a b Hsorted
                ltac:(lia) Ha Hb).
  lia.
Qed.

(** *** The in-memory query *)

(** The loop over the columns of a partition. *)
Lemma infinite_partition_loop (j : Z) (q_vec : V) (c : Z)
    (ms : list Heap.fixed_min_pair_heap) :
  Z.of_nat (length indices) = Z.of_nat (length centroids) + 1 →
  0 ≤ c < Z.of_nat (length centroids) → 0 ≤ j < Z.of_nat (length ms) →
  for_each (seqZ (start_of indices c) (stop_of indices c - start_of indices c))
    (λ i ms,
       x ⟵ read (Ivf.read_all db) i;
       id ⟵ read (Ivf.read_all ids) i;
       Ivf.insert_at j (L2 q_vec x) id ms) ms
  = Returned (alter (Heap.insert_all Z.ltb (candidates L2 db ids indices q_vec c))
                (Z.to_nat j) ms).
Proof.
  intros Hlen Hc Hj. destruct (read_boundaries c Hlen Hc) as (_ & _ & Hss & HN).
  destruct (for_each_pure (λ ms', length ms' = length ms)
              (λ ms i, alter (Heap.insert Z.ltb (L2 q_vec (cell db i)) (cell ids i))
                         (Z.to_nat j) ms)
              (seqZ (start_of indices c) (stop_of indices c - start_of indices c))
              (λ i ms,
                 x ⟵ read (Ivf.read_all db) i;
                 id ⟵ read (Ivf.read_all ids) i;
                 Ivf.insert_at j (L2 q_vec x) id ms) ms) as [-> _]; [done| |].
  - intros i ms' Hi%elem_of_seqZ Hms'.
    unfold read. rewrite !read_all_lookup by (rewrite ?array_cols_ids; lia). simpl.
    rewrite insert_at_alter by lia. split; [done|]. by rewrite length_alter.
  - f_equal. unfold candidates, size_of.
    rewrite (foldl_alter (λ i, Heap.insert Z.ltb (L2 q_vec (cell db i)) (cell ids i))).
    apply list_alter_ext; [|done]. intros h _.
    by rewrite (insert_all_fmap Z.ltb (λ i, (L2 q_vec (cell db i), cell ids i))).
Qed.

(** The loop over the probed partitions of a query. *)
Lemma infinite_probe_loop (j : nat) (q_vec : V) col (ms : list Heap.fixed_min_pair_heap) :
  Z.of_nat (length indices) = Z.of_nat (length centroids) + 1 →
  Ivf.qv_query_nth L2 centroids q nprobe !! j = Some col → (j < length ms)%nat →
  for_each (seqZ 0 nprobe)
    (λ p ms,
       c ⟵ Ivf.mat_at (Ivf.qv_query_nth L2 centroids q nprobe) p (Z.of_nat j);
       start ⟵ read indices c;
       stop ⟵ read indices (wrap64 (c + 1));
       for_each (seqZ start (stop - start))
         (λ i ms,
            x ⟵ read (Ivf.read_all db) i;
            id ⟵ read (Ivf.read_all ids) i;
            Ivf.insert_at (Z.of_nat j) (L2 q_vec x) id ms) ms) ms
  = Returned (alter (Heap.insert_all Z.ltb (probed_candidates L2 db ids indices q_vec col))
                j ms).
Proof.
  intros Hlen Hcol Hj. destruct (top_column j col Hcol) as (_ & Hrange & Hcl).
  destruct Hwf as [_ _ _ _ _ Hnprobe _ _].
  replace (seqZ 0 nprobe) with (seqZ (Z.of_nat (length (@nil Z))) (Z.of_nat (length col)))
    by (simpl; f_equal; lia).
  erewrite for_each_ext; [rewrite (for_each_read [] col)|].
  2:{ intros p ms' _. unfold Ivf.mat_at. unfold read at 1.
      rewrite vec_at_of_nat, Hcol. cbn [bind]. done. }
  destruct (for_each_pure (λ ms', length ms' = length ms)
              (λ ms c, alter (Heap.insert_all Z.ltb (candidates L2 db ids indices q_vec c))
                         j ms)
              col
              (λ c ms,
                 start ⟵ read indices c;
                 stop ⟵ read indices (wrap64 (c + 1));
                 for_each (seqZ start (stop - start))
                   (λ i ms,
                      x ⟵ read (Ivf.read_all db) i;
                      id ⟵ read (Ivf.read_all ids) i;
                      Ivf.insert_at (Z.of_nat j) (L2 q_vec x) id ms) ms) ms)
    as [-> _]; [done| |].
  - intros c ms' Hc Hms'. rewrite Forall_forall in Hrange.
    destruct (read_boundaries c Hlen (Hrange c Hc)) as (Hstart & Hstop & _).
    unfold read at 1. rewrite Hstart. cbn [bind].
    unfold read at 1. rewrite Hstop. cbn [bind].
    rewrite infinite_partition_loop by (auto; lia).
    rewrite Nat2Z.id. split; [done|]. by rewrite length_alter.
  - f_equal. rewrite (foldl_alter (λ c, Heap.insert_all Z.ltb (candidates L2 db ids indices q_vec c))).
    unfold probed_candidates. apply list_alter_ext; [|done]. intros h _.
    apply (foldl_insert_all Z.ltb (candidates L2 db ids indices q_vec)).
Qed.

(** The in-memory query returns, for each query, the sorted ids of the
    heap that has received the candidates of its probed partitions. *)
Lemma infinite_spec (k_nn : Z) :
  Z.of_nat (length indices) = Z.of_nat (length centroids) + 1 →
  Ivf.qv_query_heap_infinite_ram L2 db ids centroids q indices nprobe k_nn
  = Returned (zip_with
                (λ q_vec col,
                   Ivf.top_k_column k_nn
                     (Heap.insert_all Z.ltb (probed_candidates L2 db ids indices q_vec col)
                        (Heap.empty k_nn)))
                q (Ivf.qv_query_nth L2 centroids q nprobe)).
Proof.
  intros Hlen. unfold Ivf.qv_query_heap_infinite_ram.
  pose proof array_cols_bound as HN. pose proof Hwf as [_ _ _ [_ Hnl] Hnq _ _ _].
  rewrite length_read_all, array_cols_ids.
  rewrite (bool_decide_eq_true_2 (Ivf.array_cols db = _)) by lia. cbn [negb].
  rewrite (bool_decide_eq_false_2 (Z.of_nat (length indices) = _)) by lia.
  rewrite (bool_decide_eq_true_2 (Z.of_nat (length indices) = _))
    by (rewrite wrap64_small; lia). cbn [negb].
  set (heap_of := λ (j : Z) (h : Heap.fixed_min_pair_heap),
         match vec_at q j, vec_at (Ivf.qv_query_nth L2 centroids q nprobe) j with
         | Some q_vec, Some col =>
             Heap.insert_all Z.ltb (probed_candidates L2 db ids indices q_vec col) h
         | _, _ => h
         end).
  match goal with |- bind (for_each ?xs ?body ?s) _ = _ =>
    destruct (for_each_pure (λ ms', length ms' = length q)
                (λ ms j, alter (heap_of j) (Z.to_nat j) ms) xs body s) as [-> _]
  end.
  - by rewrite length_replicate.
  - intros j ms Hj%elem_of_seqZ Hms.
    assert (∃ jn : nat, j = Z.of_nat jn) as [jn ->] by (exists (Z.to_nat j); lia).
    destruct (lookup_lt_is_Some_2 q jn) as [q_vec Hq]; [lia|].
    destruct (lookup_lt_is_Some_2 (Ivf.qv_query_nth L2 centroids q nprobe) jn)
      as [col Hcol]; [rewrite length_top; lia|].
    unfold read at 1. rewrite vec_at_of_nat, Hq. cbn [bind].
    rewrite (infinite_probe_loop _ _ col) by (auto; lia).
    split; [|by rewrite length_alter]. f_equal. unfold heap_of.
    rewrite Nat2Z.id. apply list_alter_ext; [|done]. intros h _.
    by rewrite !vec_at_of_nat, Hq, Hcol.
  - cbn [bind]. f_equal. apply list_eq. intros j.
    rewrite list_lookup_fmap, lookup_zip_with.
    destruct (decide (j < length q)%nat) as [Hj|Hj].
    + replace (seqZ 0 (Z.of_nat (length q))) with (seqZ 0 (Z.of_nat (length q))) by done.
      rewrite (foldl_alter_each heap_of) by done.
      rewrite lookup_replicate_2 by done.
      destruct (lookup_lt_is_Some_2 q j Hj) as [q_vec Hq].
      destruct (lookup_lt_is_Some_2 (Ivf.qv_query_nth L2 centroids q nprobe) j)
        as [col Hcol]; [by rewrite length_top|].
      rewrite Hq, Hcol. simpl. unfold heap_of. by rewrite !vec_at_of_nat, Hq, Hcol.
    + rewrite (lookup_ge_None_2 q) by lia. simpl.
      rewrite lookup_ge_None_2; [done|].
      assert (Hl : ∀ (xs : list Z) (ms : list Heap.fixed_min_pair_heap),
                length (foldl (λ ms j, alter (heap_of j) (Z.to_nat j) ms) ms xs) = length ms).
      { induction xs as [|x xs IH]; intros ms; simpl; [done|]. by rewrite IH, length_alter. }
      rewrite Hl, length_replicate. lia.
Qed.
End QueryFacts.

(** ** The set of the active partitions and the map of their queries *)

Lemma filter_none {A : Type} (P : A → Prop) `{!∀ x, Decision (P x)} (l : list A) :
  Forall (λ x, ¬ P x) l → filter P l = [].
Proof.
  induction 1 as [|x l Hx _ IH]; [done|]. by rewrite filter_cons, decide_False.
Qed.

Lemma filter_all {A : Type} (P : A → Prop) `{!∀ x, Decision (P x)} (l : list A) :
  Forall P l → filter P l = l.
Proof.
  induction 1 as [|x l Hx _ IH]; [done|]. by rewrite filter_cons, decide_True, IH.
Qed.

Lemma elem_of_set_emplace (k x : Z) (m : list Z) :
  x ∈ Ivf.set_emplace k m ↔ x = k ∨ x ∈ m.
Proof.
  induction m as [|e m IH]; simpl.
  - rewrite list_elem_of_singleton, elem_of_nil. tauto.
  - repeat case_bool_decide; rewrite ?elem_of_cons, ?IH; subst; tauto.
Qed.

Lemma set_emplace_sorted (k : Z) (m : list Z) :
  StronglySorted Z.lt m → StronglySorted Z.lt (Ivf.set_emplace k m).
Proof.
  induction 1 as [|e m Hm IH He]; simpl.
  - by repeat constructor.
  - repeat case_bool_decide.
    + constructor; [by constructor|]. constructor; [done|].
      eapply Forall_impl; [done|]. simpl. lia.
    + by constructor.
    + constructor; [done|]. apply Forall_forall. intros x [->|Hx]%elem_of_set_emplace.
      * lia.
      * rewrite Forall_forall in He. by apply He.
Qed.

Lemma elem_of_multimap_emplace (k v : Z) (e : Z * Z) (m : list (Z * Z)) :
  e ∈ Ivf.multimap_emplace k v m ↔ e = (k, v) ∨ e ∈ m.
Proof.
  induction m as [|e' m IH]; simpl.
  - rewrite list_elem_of_singleton, elem_of_nil. tauto.
  - case_bool_decide; rewrite ?elem_of_cons, ?IH; tauto.
Qed.

Lemma multimap_emplace_sorted (k v : Z) (m : list (Z * Z)) :
  StronglySorted (λ a b, a.1 ≤ b.1) m →
  StronglySorted (λ a b, a.1 ≤ b.1) (Ivf.multimap_emplace k v m).
Proof.
  induction 1 as [|e m Hm IH He]; simpl.
  - by repeat constructor.
  - case_bool_decide.
    + constructor; [by constructor|]. constructor; [simpl; lia|].
      eapply Forall_impl; [done|]. simpl. lia.
    + constructor; [done|]. apply Forall_forall.
      intros x [->|Hx]%elem_of_multimap_emplace.
      * simpl. lia.
      * rewrite Forall_forall in He. by apply He.
Qed.

(** An entry is placed after the entries of its key. *)
Lemma equal_range_multimap_emplace (c k v : Z) (m : list (Z * Z)) :
  StronglySorted (λ a b, a.1 ≤ b.1) m →
  Ivf.equal_range c (Ivf.multimap_emplace k v m)
  = Ivf.equal_range c m ++ (if bool_decide (k = c) then [(k, v)] else []).
Proof.
  unfold Ivf.equal_range. induction 1 as [|e m Hm IH He]; cbn [Ivf.multimap_emplace].
  - rewrite filter_cons, !filter_nil. cbn [fst app].
    case_bool_decide; [by rewrite decide_True|by rewrite decide_False].
  - destruct (decide (k < e.1)) as [Hlt|Hlt].
    + rewrite (bool_decide_eq_true_2 _ Hlt).
      rewrite (filter_cons _ (k, v)). cbn [fst]. case_bool_decide as Hkc.
      * rewrite decide_True by done. subst k.
        assert (filter (λ e0 : Z * Z, e0.1 = c) (e :: m) = []) as ->; [|done].
        apply filter_none. constructor; [lia|].
        eapply Forall_impl; [done|]. simpl. lia.
      * rewrite decide_False by done. by rewrite app_nil_r.
    + rewrite (bool_decide_eq_false_2 _ Hlt).
      rewrite !(filter_cons _ e), IH. by destruct (decide (e.1 = c)).
Qed.

(** The entries that one query adds to the map and to the set. *)
Lemma emplace_column (j : Z) (col : list Z) (cq : list (Z * Z)) (active : list Z) :
  NoDup col → StronglySorted Z.lt active → StronglySorted (λ a b, a.1 ≤ b.1) cq →
  ∃ cq' active',
    for_each col (λ c (maps : list (Z * Z) * list Z),
      Returned (Ivf.multimap_emplace c j maps.1, Ivf.set_emplace c maps.2)) (cq, active)
    = Returned (cq', active')
    ∧ StronglySorted Z.lt active'
    ∧ StronglySorted (λ a b, a.1 ≤ b.1) cq'
    ∧ (∀ x, x ∈ active' ↔ x ∈ col ∨ x ∈ active)
    ∧ ∀ c, Ivf.equal_range c cq'
           = Ivf.equal_range c cq ++ (if bool_decide (c ∈ col) then [(c, j)] else []).
Proof.
  intros Hnd. revert cq active.
  induction Hnd as [|c0 col Hc0 Hnd IH]; intros cq active Ha Hcq.
  - exists cq, active. split; [done|]. split; [done|]. split; [done|]. split.
    + intros x. rewrite elem_of_nil. tauto.
    + intros c. rewrite bool_decide_eq_false_2 by apply not_elem_of_nil.
      by rewrite app_nil_r.
  - cbn [for_each bind fst snd].
    destruct (IH (Ivf.multimap_emplace c0 j cq) (Ivf.set_emplace c0 active))
      as (cq' & active' & -> & Ha' & Hcq' & Hin & Her);
      [by apply set_emplace_sorted|by apply multimap_emplace_sorted|].
    exists cq', active'. split; [done|]. split; [done|]. split; [done|]. split.
    + intros x. rewrite Hin, elem_of_set_emplace, elem_of_cons. tauto.
    + intros c. rewrite Her, equal_range_multimap_emplace, <- app_assoc by done. f_equal.
      destruct (decide (c0 = c)) as [->|Hne].
      * rewrite bool_decide_eq_true_2 by done.
        rewrite (bool_decide_eq_false_2 (c ∈ col)) by done.
        by rewrite (bool_decide_eq_true_2 (c ∈ c :: col)) by (by left).
      * rewrite (bool_decide_eq_false_2 (c0 = c)) by done. simpl.
        apply (f_equal (λ b : bool, if b then [(c, j)] else [])).
        apply bool_decide_ext. rewrite elem_of_cons. split; [tauto|].
        intros [?|?]; [congruence|done].
Qed.

Section Maps.
Context {SH : Heap.SortHeap} {SHL : Heap.SortHeapLaws}.
Context {V : Type} (L2 : V → V → Z).
Variables (db : dense_array V) (ids : dense_array Z) (centroids q : list V).
Variables (indices : list Z) (nprobe : Z).
Hypothesis Hwf : query_wf db ids centroids q indices nprobe.

(** The loops that build [centroid_query] and [active_centroids]. *)
Lemma maps_loop :
  let top := Ivf.qv_query_nth L2 centroids q nprobe in
  ∃ cq active,
    for_each (seqZ 0 (Z.of_nat (length q))) (λ j maps,
      for_each (seqZ 0 nprobe) (λ p (maps : list (Z * Z) * list Z),
        c ⟵ Ivf.mat_at top p j;
        Returned (Ivf.multimap_emplace c j maps.1, Ivf.set_emplace c maps.2)) maps) ([], [])
    = Returned (cq, active)
    ∧ StronglySorted Z.lt active
    ∧ (∀ c, c ∈ active ↔ ∃ (j : nat) col, top !! j = Some col ∧ c ∈ col)
    ∧ ∀ c, Ivf.equal_range c cq = (λ j, (c, j)) <$> probes_of top c.
Proof.
  intros top. assert (Hlt : length top = length q) by apply length_top.
  unfold probes_of. rewrite Hlt.
  assert (Hgen : ∀ m : nat, (m ≤ length q)%nat →
    ∃ cq active,
      for_each (seqZ 0 (Z.of_nat m)) (λ j maps,
        for_each (seqZ 0 nprobe) (λ p (maps : list (Z * Z) * list Z),
          c ⟵ Ivf.mat_at top p j;
          Returned (Ivf.multimap_emplace c j maps.1, Ivf.set_emplace c maps.2)) maps) ([], [])
      = Returned (cq, active)
      ∧ StronglySorted Z.lt active
      ∧ StronglySorted (λ a b, a.1 ≤ b.1) cq
      ∧ (∀ c, c ∈ active ↔ ∃ (j : nat) col, (j < m)%nat ∧ top !! j = Some col ∧ c ∈ col)
      ∧ ∀ c, Ivf.equal_range c cq
             = (λ j, (c, j)) <$> filter (λ j, c ∈ default [] (top !! Z.to_nat j))
                                   (seqZ 0 (Z.of_nat m))).
  { induction m as [|m IH]; intros Hm.
    - exists [], []. split; [done|]. split; [constructor|]. split; [constructor|]. split.
      + intros c. rewrite elem_of_nil. split; [done|]. intros (? & ? & ? & _). lia.
      + done.
    - destruct IH as (cq & active & Hrun & Ha & Hcq & Hin & Her); [lia|].
      rewrite seqZ_S, for_each_app, Hrun, Z.add_0_l. cbn [bind for_each].
      destruct (lookup_lt_is_Some_2 top m) as [col Hcol]; [lia|].
      destruct (top_column L2 db ids centroids q indices nprobe Hwf m col Hcol)
        as (Hnd & _ & Hcl).
      pose proof Hwf as [_ _ _ _ _ Hnprobe _ _].
      replace (seqZ 0 nprobe)
        with (seqZ (Z.of_nat (length (@nil Z))) (Z.of_nat (length col)))
        by (simpl; f_equal; lia).
      erewrite for_each_ext; [rewrite (for_each_read [] col)|].
      2:{ intros p ms' _. unfold Ivf.mat_at. unfold read at 1.
          rewrite vec_at_of_nat, Hcol. cbn [bind]. done. }
      destruct (emplace_column (Z.of_nat m) col cq active Hnd Ha Hcq)
        as (cq' & active' & -> & Ha' & Hcq' & Hin' & Her').
      cbn [bind]. exists cq', active'. split; [done|]. split; [done|]. split; [done|]. split.
      + intros c. rewrite Hin', Hin. split.
        * intros [Hc|(j & col' & ? & ? & ?)]; [exists m, col|exists j, col'];
            (split; [lia|done]).
        * intros (j & col' & Hj & Hcol' & Hc).
          destruct (decide (j = m)) as [->|]; [left; congruence|].
          right. exists j, col'. split; [lia|done].
      + intros c. rewrite Her', Her, filter_app, fmap_app. f_equal.
        rewrite filter_cons, filter_nil, Nat2Z.id, Hcol. simpl.
        case_bool_decide; [by rewrite decide_True|by rewrite decide_False]. }
  destruct (Hgen (length q)) as (cq & active & Hrun & Ha & _ & Hin & Her); [done|].
  exists cq, active. split; [done|]. split; [done|]. split; [|done].
  intros c. rewrite Hin. split.
  - intros (j & col & _ & ?). by exists j, col.
  - intros (j & col & Hcol & ?). exists j, col. split; [|done].
    apply lookup_lt_Some in Hcol. lia.
Qed.
End Maps.

(** ** The offsets of the active partitions *)

Lemma new_indices_loop (indices parts : list Z) :
  static_wf indices parts → cols_of indices parts < 2 ^ 63 →
  for_each (seqZ 0 (Z.of_nat (length parts))) (λ i new_indices,
    a ⟵ read new_indices i;
    c ⟵ read parts i;
    stop ⟵ read indices (wrap64 (c + 1));
    start ⟵ read indices c;
    Returned (<[Z.to_nat (wrap64 (i + 1)) := wrap64 (wrap64 (a + stop) - start)]> new_indices))
    (replicate (S (length parts)) 0)
  = Returned (offsets indices parts).
Proof.
  intros Hst Htot.
  assert (Hgen : ∀ m : nat, (m ≤ length parts)%nat →
    for_each (seqZ 0 (Z.of_nat m)) (λ i new_indices,
      a ⟵ read new_indices i;
      c ⟵ read parts i;
      stop ⟵ read indices (wrap64 (c + 1));
      start ⟵ read indices c;
      Returned (<[Z.to_nat (wrap64 (i + 1)) := wrap64 (wrap64 (a + stop) - start)]> new_indices))
      (replicate (S (length parts)) 0)
    = Returned (((λ i : nat, cols_of indices (take i parts)) <$> seq 0 (S m))
                ++ replicate (length parts - m) 0)).
  { induction m as [|m IH]; intros Hm.
    - simpl. by rewrite Nat.sub_0_r.
    - rewrite seqZ_S, for_each_app, IH, Z.add_0_l by lia. cbn [bind for_each].
      destruct (lookup_lt_is_Some_2 parts m) as [c Hc]; [lia|].
      destruct (part_in_range indices parts c Hst (list_elem_of_lookup_2 _ _ _ Hc))
        as (start & stop & Hstart & Hstop & Hss & Hs31 & Hc0 & Hc63).
      pose proof (cols_of_take indices parts parts m Hst ltac:(done)) as Hpre.
      pose proof Hst as ([_ Hl2] & _).
      unfold read at 1. rewrite vec_at_of_nat.
      rewrite lookup_app_l by (rewrite length_fmap, length_seq; lia).
      rewrite list_lookup_fmap, lookup_seq_lt by lia. cbn [fmap option_fmap option_map bind].
      unfold read at 1. rewrite vec_at_of_nat, Hc. cbn [bind].
      unfold read at 1. rewrite wrap64_small, Hstop by lia. cbn [bind].
      unfold read at 1. rewrite Hstart. cbn [bind]. f_equal.
      assert (Hsz : size_of indices c = stop - start).
      { unfold size_of, start_of, stop_of. by rewrite Hstart, Hstop. }
      rewrite (wrap64_small (Z.of_nat m + 1)) by lia.
      change (0 + m)%nat with m. rewrite (wrap64_small (_ + stop)) by lia.
      rewrite (wrap64_small (_ - start)) by lia.
      replace (Z.to_nat (Z.of_nat m + 1)) with (S m) by lia.
      rewrite (seq_S (S m)), fmap_app, <- app_assoc. cbn [fmap list_fmap app plus].
      rewrite insert_app_r_alt by (rewrite length_fmap, length_seq; lia).
      rewrite length_fmap, length_seq, Nat.sub_diag.
      replace (length parts - m)%nat with (S (length parts - S m)) by lia.
      cbn [replicate]. rewrite (take_S_r _ _ _ Hc), cols_of_app, cols_of_cons.
      change (cols_of indices []) with 0. rewrite Hsz.
      cbn [insert list_insert]. do 3 f_equal. lia. }
  rewrite Hgen by done. by rewrite Nat.sub_diag, app_nil_r.
Qed.

Lemma length_offsets indices parts : length (offsets indices parts) = S (length parts).
Proof. unfold offsets. by rewrite length_fmap, length_seq. Qed.

Lemma lookup_offsets indices parts (i : nat) :
  (i ≤ length parts)%nat →
  offsets indices parts !! i = Some (cols_of indices (take i parts)).
Proof.
  intros Hi. unfold offsets. by rewrite list_lookup_fmap, lookup_seq_lt by lia.
Qed.

(** ** Heaps that hold the smallest candidates *)

Lemma holds_empty k : 0 ≤ k → holds k [] (Heap.empty k).
Proof. intros. split; [done|]. by apply empty_k_smallest. Qed.

Lemma holds_Permutation k C C' h : C ≡ₚ C' → holds k C h → holds k C' h.
Proof.
  intros HC (Hcap & rest & Hperm & Hlen & Hord). split; [done|].
  exists rest. rewrite <- HC. done.
Qed.

Lemma holds_insert_all k C b h :
  0 ≤ k → holds k C h → holds k (C ++ b) (Heap.insert_all Z.ltb b h).
Proof.
  intros Hk [Hcap Hsm]. destruct (decide (k = 0)) as [->|Hk0].
  - assert (Hnil : Heap.items h = []).
    { destruct Hsm as (rest & _ & Hlen & _). destruct (Heap.items h); [done|simpl in *; lia]. }
    assert (Hid : Heap.insert_all Z.ltb b h = h).
    { induction b as [|e b IH]; [done|]. unfold Heap.insert_all. simpl.
      unfold Heap.insert at 2. rewrite Hcap, Hnil. simpl. apply IH. }
    rewrite Hid. split; [done|]. rewrite Hnil. exists (C ++ b).
    split; [done|]. split; [simpl; lia|]. by intros ? ? ?%elem_of_nil.
  - by apply insert_all_k_smallest; [lia|..].
Qed.

Lemma submseteq_app_disjoint {A : Type} (l k1 k2 : list A) :
  l ⊆+ k1 ++ k2 → (∀ x, x ∈ l → x ∉ k2) → l ⊆+ k1.
Proof.
  revert l. induction k2 as [|y k2 IH]; intros l Hsub Hdis.
  - by rewrite app_nil_r in Hsub.
  - rewrite <- Permutation_middle in Hsub.
    apply submseteq_cons_r in Hsub as [Hsub|(l' & Hl & _)].
    + apply IH; [done|]. intros x Hx Hin. apply (Hdis x Hx). by right.
    + destruct (Hdis y); [rewrite Hl|]; by left.
Qed.

(** The smallest of a part may stand for the part. *)
Lemma k_smallest_merge k (xs0 xs1 held1 held : list (Z * Z)) :
  k_smallest k (xs0 ++ held1) held → k_smallest k xs1 held1 →
  k_smallest k (xs0 ++ xs1) held.
Proof.
  intros (rest & Hp & Hl & Ho) (rest1 & Hp1 & Hl1 & Ho1).
  pose proof (Permutation_length Hp) as Hpl. pose proof (Permutation_length Hp1) as Hpl1.
  rewrite !length_app in Hpl, Hpl1, Hl.
  exists (rest ++ rest1). split; [|split].
  - by rewrite Hp1, !app_assoc, Hp.
  - rewrite length_app. lia.
  - intros a b Ha [Hb|Hb]%elem_of_app; [by apply Ho|].
    destruct (decide (a.1 ≤ b.1)) as [|Hlt]; [done|]. exfalso.
    assert (Hsub : held1 ⊆+ held).
    { apply (submseteq_app_disjoint _ _ rest).
      - rewrite <- Hp. apply submseteq_inserts_l. done.
      - intros e He Her. specialize (Ho _ _ Ha Her). specialize (Ho1 _ _ He Hb). lia. }
    assert (Hperm : held1 ≡ₚ held).
    { apply submseteq_length_Permutation; [done|].
      pose proof (submseteq_length _ _ Hsub).
      destruct rest1; [by apply elem_of_nil in Hb|]. simpl in *. lia. }
    rewrite <- Hperm in Ha. specialize (Ho1 _ _ Ha Hb). lia.
Qed.

(** The pairs of another heap are inserted. *)
Lemma holds_merge k C0 C1 h0 h1 :
  0 ≤ k → holds k C0 h0 → holds k C1 h1 →
  holds k (C0 ++ C1) (Heap.insert_all Z.ltb (Heap.items h1) h0).
Proof.
  intros Hk H0 [_ H1].
  destruct (holds_insert_all k C0 (Heap.items h1) h0 Hk H0) as [Hcap Hsm].
  split; [done|]. by eapply k_smallest_merge.
Qed.

(** ** The streamer in the loop over the windows *)

Lemma read_ranges_cons {A : Type} (d : dense_array A) indices p ps :
  read_ranges d (ranges_of indices (p :: ps))
  = (cell d <$> seqZ (start_of indices p) (size_of indices p))
    ++ read_ranges d (ranges_of indices ps).
Proof.
  unfold read_ranges, ranges_of. rewrite filter_cons.
  destruct (decide (size_of indices p ≠ 0)) as [Hnz|Hz].
  - rewrite !fmap_cons. cbn [concat fst snd]. do 3 f_equal. unfold size_of. lia.
  - assert (size_of indices p = 0) as -> by lia. done.
Qed.

Lemma length_read_ranges {A : Type} (d : dense_array A) indices parts ps :
  static_wf indices parts → ps ⊆ parts →
  Z.of_nat (length (read_ranges d (ranges_of indices ps))) = cols_of indices ps.
Proof.
  intros Hst. induction ps as [|p ps IH]; intros Hsub; [done|].
  rewrite read_ranges_cons, length_app, length_fmap, length_seqZ, cols_of_cons.
  pose proof (size_of_range indices parts p Hst (Hsub p ltac:(by left))).
  rewrite Nat2Z.inj_add, IH; [lia|]. intros x Hx. apply Hsub. by right.
Qed.

(** The columns of a partition of the window, in the buffer. *)
Lemma read_ranges_lookup {A : Type} (d : dense_array A) indices parts l1 c l2 t :
  static_wf indices parts → l1 ++ c :: l2 ⊆ parts →
  0 ≤ t < size_of indices c →
  vec_at (read_ranges d (ranges_of indices (l1 ++ c :: l2))) (cols_of indices l1 + t)
  = Some (cell d (start_of indices c + t)).
Proof.
  intros Hst Hsub Ht.
  assert (Hp := length_read_ranges d indices parts).
  induction l1 as [|p l1 IH].
  - simpl. rewrite read_ranges_cons. change (cols_of indices []) with 0.
    rewrite vec_at_lookup, lookup_app_l by (rewrite ?length_fmap, ?length_seqZ; lia).
    rewrite list_lookup_fmap, lookup_seqZ_lt by lia. simpl. do 2 f_equal. lia.
  - simpl. rewrite read_ranges_cons, cols_of_cons.
    pose proof (size_of_range indices parts p Hst (Hsub p ltac:(by left))) as Hsz.
    assert (Hsub' : l1 ++ c :: l2 ⊆ parts) by (intros x Hx; apply Hsub; by right).
    assert (0 ≤ cols_of indices l1).
    { eapply cols_of_nonneg; [done|]. intros x Hx. apply Hsub'. apply elem_of_app. by left. }
    rewrite vec_at_lookup by lia.
    rewrite lookup_app_r by (rewrite length_fmap, length_seqZ; lia).
    rewrite length_fmap, length_seqZ.
    replace (Z.to_nat (size_of indices p + cols_of indices l1 + t) - Z.to_nat (size_of indices p))%nat
      with (Z.to_nat (cols_of indices l1 + t)) by lia.
    rewrite <- vec_at_lookup by lia. by apply IH.
Qed.

Lemma sum_parts_spec indices parts (n : nat) i acc :
  static_wf indices parts →
  0 ≤ i → (Z.to_nat i + n ≤ length parts)%nat →
  0 ≤ acc → acc + cols_of indices (slice parts i n) < 2 ^ 31 →
  Streamer.sum_parts indices parts (seqZ i (Z.of_nat n)) acc
  = Some (acc + cols_of indices (slice parts i n)).
Proof.
  intros Hst. revert i acc. induction n as [|n IH]; intros i acc Hi Hlen Hacc Hsum.
  - simpl. unfold slice. simpl. f_equal. unfold cols_of. simpl. lia.
  - rewrite seqZ_cons by lia. cbn [Streamer.sum_parts].
    destruct (lookup_lt_is_Some_2 parts (Z.to_nat i)) as [p Hp]; [lia|].
    rewrite (part_size_eq _ _ _ _ Hst Hi Hp). cbn [mbind option_bind].
    rewrite (slice_S _ _ _ _ Hi Hp), cols_of_cons in Hsum |- *.
    pose proof (size_of_range indices parts p Hst (list_elem_of_lookup_2 _ _ _ Hp)) as Hsz.
    assert (0 ≤ cols_of indices (slice parts (i + 1) n)).
    { eapply cols_of_nonneg; [done|]. apply slice_subseteq. }
    rewrite (wrap64_small acc), wrap64_small, to_int_small by lia.
    replace (Z.succ i) with (i + 1) by lia.
    replace (Z.pred (Z.of_nat (S n))) with (Z.of_nat n) by lia.
    rewrite IH by lia. f_equal. lia.
Qed.

(** The columns of distinct partitions in ascending order are columns of
    the array. *)
Lemma cols_of_sorted_le indices parts (M lo : Z) :
  static_wf indices parts → StronglySorted Z.lt parts →
  Forall (λ a, a ≤ M) indices → lo ≤ M →
  Forall (λ p, lo ≤ start_of indices p) parts →
  cols_of indices parts ≤ M - lo.
Proof.
  intros Hst Hsorted HM. revert lo.
  assert (Hgen : ∀ ps, ps ⊆ parts → StronglySorted Z.lt ps → ∀ lo, lo ≤ M →
            Forall (λ p, lo ≤ start_of indices p) ps → cols_of indices ps ≤ M - lo).
  { induction ps as [|p ps IH]; intros Hsub Hs lo Hlo Hall.
    - change (cols_of indices []) with 0. lia.
    - apply StronglySorted_inv in Hs as [Hs Hp]. apply Forall_cons in Hall as [Hp0 _].
      destruct (part_in_range indices parts p Hst (Hsub p ltac:(by left)))
        as (start & stop & Hstart & Hstop & Hss & _ & Hp1 & _).
      rewrite cols_of_cons. unfold size_of, start_of, stop_of in *.
      rewrite Hstart, Hstop in *. simpl in *.
      assert (Hstop' := Hstop). apply vec_at_Some in Hstop' as [_ Hstop'].
      rewrite Forall_forall in HM.
      pose proof (HM stop (list_elem_of_lookup_2 _ _ _ Hstop')).
      assert (cols_of indices ps ≤ M - stop); [|unfold cols_of, size_of, start_of, stop_of in *; lia].
      apply IH; [intros x Hx; apply Hsub; by right|done|lia|].
      apply Forall_forall. intros p' Hp'.
      destruct (part_in_range indices parts p' Hst (Hsub p' ltac:(by right)))
        as (start' & stop' & Hstart' & _ & _ & _ & Hp1' & _).
      rewrite Hstart'. simpl. rewrite Forall_forall in Hp. specialize (Hp p' Hp').
      apply vec_at_Some in Hstart' as [_ Hstart'].
      destruct Hst as (_ & Hsi & _).
      apply StronglySorted_Sorted in Hsi.
      assert (Hle : StronglySorted Z.le indices) by (by apply Sorted_StronglySorted; [apply _|]).
      by apply (StronglySorted_lookup_le indices (Z.to_nat (p + 1)) (Z.to_nat p') stop start' Hle
                  ltac:(lia)). }
  intros lo. by apply Hgen.
Qed.

Lemma length_overwrite {A : Type} (new old : list A) :
  (length new ≤ length old)%nat → length (overwrite new old) = length old.
Proof. intros. unfold overwrite. rewrite length_app, length_drop. lia. Qed.

Lemma overwrite_lookup {A : Type} (new old : list A) (i : Z) :
  0 ≤ i < Z.of_nat (length new) → vec_at (overwrite new old) i = vec_at new i.
Proof.
  intros Hi. unfold overwrite. rewrite !vec_at_lookup by lia.
  by rewrite lookup_app_l by lia.
Qed.

Lemma take_add_drop {A : Type} (l : list A) (b m : nat) :
  take (b + m) l = take b l ++ take m (drop b l).
Proof.
  revert l. induction b as [|b IH]; intros [|x l]; simpl; try done.
  - by rewrite take_nil.
  - by rewrite IH.
Qed.

Lemma take_length_take {A : Type} (l : list A) (n : nat) :
  take (length (take n l)) l = take n l.
Proof.
  rewrite length_take. destruct (decide (n ≤ length l)%nat).
  - by rewrite Nat.min_l.
  - rewrite Nat.min_r by lia. by rewrite !take_ge by lia.
Qed.

Section Window.
Context {T : Type}.
Variables (db : dense_array T) (ids : dense_array Z) (indices parts : list Z) (max_cols : Z).
Hypothesis Hdb : completes db = true.
Hypothesis Hids : completes ids = true.

Lemma window_at_length (e : nat) :
  (e + length (window_at indices parts max_cols e) ≤ length parts)%nat
  ∨ window_at indices parts max_cols e = [].
Proof.
  unfold window_at. destruct (decide (e ≤ length parts)%nat).
  - left. rewrite length_take, length_drop. lia.
  - right. by rewrite drop_ge by lia.
Qed.

Lemma next_window_at (a b : nat) (s : Streamer.t T) :
  window_inv db ids indices parts max_cols a b s →
  next_window s = window_at indices parts max_cols b.
Proof.
  intros Hinv. unfold next_window, unserved, window_at.
  rewrite (wi_indices _ _ _ _ _ _ _ _ Hinv), (wi_parts _ _ _ _ _ _ _ _ Hinv),
    (wi_max _ _ _ _ _ _ _ _ Hinv), (wi_part_view _ _ _ _ _ _ _ _ Hinv).
  cbn [snd]. by rewrite Nat2Z.id.
Qed.

(** [advance] at the end of the stream, and on a window of empty
    partitions. *)
Lemma advance_end (a b : nat) (s : Streamer.t T) :
  window_inv db ids indices parts max_cols a b s →
  cols_of indices (window_at indices parts max_cols b) = 0 →
  (Streamer.advance s).2
  = if bool_decide (window_at indices parts max_cols b = [])
    then Returned false else Thrown InvalidPartitioning.
Proof.
  intros Hinv Hz. rewrite (advance_spec s (wi_wf _ _ _ _ _ _ _ _ Hinv)).
  cbv zeta. rewrite (next_window_at a b s Hinv), (wi_indices _ _ _ _ _ _ _ _ Hinv).
  by rewrite (bool_decide_eq_true_2 _ Hz).
Qed.

(** [advance] on a window that has columns. *)
Lemma advance_inv (a b : nat) (s : Streamer.t T) :
  window_inv db ids indices parts max_cols a b s →
  cols_of indices (window_at indices parts max_cols b) ≠ 0 →
  (Streamer.advance s).2 = Returned true
  ∧ window_inv db ids indices parts max_cols b
      (b + length (window_at indices parts max_cols b)) (Streamer.advance s).1.
Proof.
  intros Hinv Hnz. pose proof Hinv as [Hwf Harr Hidarr Hidx Hparts Hmax Hb Hpv Hv Ho Hpo Hfit Hlen Hdata].
  pose proof (wf_static _ Hwf) as Hst. rewrite Hidx, Hparts in Hst.
  set (w := window_at indices parts max_cols b) in *.
  rewrite (advance_spec s Hwf). cbv zeta.
  rewrite (next_window_at a b s Hinv), Hidx, Harr, Hidarr, Hdb, Hids. fold w.
  rewrite (bool_decide_eq_false_2 _ Hnz). cbn [negb fst snd]. split; [done|].
  assert (Hw : w ≠ []) by (intros Hw; rewrite Hw in Hnz; by apply Hnz).
  destruct (window_at_length b) as [Hwl|Hwn]; [|by fold w in Hwn]. fold w in Hwl.
  assert (Hsub : w ⊆ parts).
  { unfold w, window_at. etrans; [apply subseteq_take|apply subseteq_drop]. }
  assert (Htake : take (b + length w) parts = take b parts ++ w).
  { rewrite take_add_drop. f_equal. unfold w, window_at. apply take_length_take. }
  assert (Hcols : cols_of indices (take (b + length w) parts)
                  = cols_of indices (take b parts) + cols_of indices w).
  { by rewrite Htake, cols_of_app. }
  assert (Hw0 : 0 ≤ cols_of indices w) by (by eapply cols_of_nonneg).
  assert (Hwfit : cols_of indices w ≤ max_cols).
  { unfold w, window_at, cols_of. rewrite fmap_take.
    destruct (greedy_fits max_cols (size_of indices <$> drop b parts)) as [Hle|Hgz]; [|done|].
    - apply Forall_fmap, Forall_forall. intros p Hp. simpl.
      eapply size_of_range; [done|]. by eapply subseteq_drop.
    - exfalso. apply Hw. unfold w, window_at. by rewrite Hgz. }
  pose proof (wf_max _ Hwf) as Hmc. rewrite Hmax in Hmc.
  pose proof (length_read_ranges db indices parts w Hst Hsub) as Hlr.
  pose proof (length_read_ranges ids indices parts w Hst Hsub) as Hlri.
  rewrite Hv, Hpv. cbn [fst snd].
  split; cbn [Streamer.with_ids Streamer.with_data Streamer.with_window
              Streamer.array_ Streamer.ids_array_ Streamer.indices_ Streamer.parts_
              Streamer.max_cols_ Streamer.col_part_view_ Streamer.col_view_
              Streamer.col_offset_ Streamer.col_part_offset_ Streamer.data_ Streamer.ids_
              fst snd]; try done.
  - destruct Hwf. split; cbn [Streamer.with_ids Streamer.with_data Streamer.with_window
              Streamer.array_ Streamer.ids_array_ Streamer.indices_ Streamer.parts_
              Streamer.max_cols_ Streamer.col_part_view_ Streamer.col_view_
              Streamer.total_num_parts_ fst snd]; try done.
    + rewrite Hparts. lia.
    + rewrite Hidx, Hparts, <- Nat2Z.inj_add, Nat2Z.id. by rewrite Hcols.
  - lia.
  - by rewrite Nat2Z.inj_add.
  - by rewrite Hcols.
  - lia.
  - destruct Hlen as [Hl1 Hl2]. rewrite Harr, Hidarr, !length_overwrite by lia. done.
  - intros i c t Hi Hc Ht.
    assert (Hlw : (length w ≤ greedy max_cols (size_of indices <$> drop b parts))%nat).
    { unfold w, window_at. rewrite length_take. lia. }
    assert (Hic : w !! (i - b)%nat = Some c).
    { unfold w, window_at. rewrite lookup_take_lt by lia.
      rewrite lookup_drop. by replace (b + (i - b))%nat with i by lia. }
    assert (Hsplit : w = take (i - b) w ++ c :: drop (S (i - b)) w)
      by (by rewrite take_drop_middle).
    assert (Hpre : cols_of indices (take i parts) - cols_of indices (take b parts)
                   = cols_of indices (take (i - b) w)).
    { replace i with (b + (i - b))%nat at 1 by lia.
      rewrite take_add_drop, cols_of_app. unfold w, window_at.
      rewrite take_take. replace ((i - b) `min` _)%nat with (i - b)%nat; lia. }
    rewrite Hpre.
    assert (Hpos : 0 ≤ cols_of indices (take (i - b) w) + t
                   ∧ cols_of indices (take (i - b) w) + t < cols_of indices w).
    { rewrite Hsplit at 3. rewrite cols_of_app, cols_of_cons.
      assert (0 ≤ cols_of indices (take (i - b) w)).
      { eapply cols_of_nonneg; [done|]. etrans; [apply subseteq_take|done]. }
      assert (0 ≤ cols_of indices (drop (S (i - b)) w)).
      { eapply cols_of_nonneg; [done|]. etrans; [apply subseteq_drop|done]. }
      lia. }
    rewrite Harr, Hidarr, !overwrite_lookup by lia.
    rewrite Hsplit at 1 3.
    split; apply (read_ranges_lookup _ indices parts); try done; by rewrite <- Hsplit.
Qed.

(** [advance] at the end of the stream leaves an empty window. *)
Lemma advance_stop (a b : nat) (s : Streamer.t T) :
  window_inv db ids indices parts max_cols a b s →
  window_at indices parts max_cols b = [] →
  (Streamer.advance s).2 = Returned false
  ∧ window_inv db ids indices parts max_cols b b (Streamer.advance s).1.
Proof.
  intros Hinv Hw.
  pose proof Hinv as [Hwf Harr Hidarr Hidx Hparts Hmax Hb Hpv Hv Ho Hpo Hfit Hlen Hdata].
  rewrite (advance_spec s Hwf). cbv zeta.
  rewrite (next_window_at a b s Hinv), Hidx, Hw.
  change (cols_of indices []) with 0. cbn [bool_decide decide_rel length].
  rewrite !bool_decide_eq_true_2 by done. cbn [fst snd]. split; [done|].
  pose proof (wf_max _ Hwf) as Hmc. rewrite Hmax in Hmc.
  rewrite Hv, Hpv. cbn [fst snd]. rewrite !Z.add_0_r.
  split; cbn [Streamer.with_window
              Streamer.array_ Streamer.ids_array_ Streamer.indices_ Streamer.parts_
              Streamer.max_cols_ Streamer.col_part_view_ Streamer.col_view_
              Streamer.col_offset_ Streamer.col_part_offset_ Streamer.data_ Streamer.ids_
              fst snd]; try done.
  - destruct Hwf. split; cbn [Streamer.with_window
              Streamer.array_ Streamer.ids_array_ Streamer.indices_ Streamer.parts_
              Streamer.max_cols_ Streamer.col_part_view_ Streamer.col_view_
              Streamer.total_num_parts_ fst snd]; try done.
    + rewrite Hparts. lia.
    + by rewrite Hidx, Hparts, Nat2Z.id.
  - lia.
  - lia.
  - intros i c t Hi. lia.
Qed.
End Window.

Section Make.
Context {T : Type} (junk : T).
Variables (db : dense_array T) (ids : dense_array Z).
Variables (in_indices indices parts : list Z) (upper_bound : Z).
Hypothesis Hflags : order_matches db = true ∧ type_matches db = true
                    ∧ completes db = true ∧ completes ids = true.
Hypothesis Hrepair : Streamer.repair_last in_indices (Ivf.array_cols db) = Returned indices.
Hypothesis Hst : static_wf indices parts.
Hypothesis Hcols : cols_of indices parts < 2 ^ 31.
Hypothesis Hub : 0 ≤ upper_bound.

(** The capacity that the constructor chooses. *)
Lemma max_cols_range :
  let max_cols :=
    if bool_decide (upper_bound = 0)
       || bool_decide (upper_bound > wrap64 (cols_of indices parts))
    then wrap64 (cols_of indices parts) else upper_bound in
  0 ≤ max_cols ≤ cols_of indices parts.
Proof.
  assert (0 ≤ cols_of indices parts) by (by eapply cols_of_nonneg).
  cbv zeta. rewrite wrap64_small by lia.
  do 2 case_bool_decide; simpl; lia.
Qed.

(** The constructor returns when its first window is not made of empty
    partitions only, and it holds this window. *)
Lemma make_spec :
  let max_cols :=
    if bool_decide (upper_bound = 0)
       || bool_decide (upper_bound > wrap64 (cols_of indices parts))
    then wrap64 (cols_of indices parts) else upper_bound in
  let w := window_at indices parts max_cols 0 in
  w = [] ∨ cols_of indices w ≠ 0 →
  ∃ s, Streamer.make junk db ids in_indices parts upper_bound = Returned s
       ∧ window_inv db ids indices parts max_cols 0 (length w) s.
Proof.
  intros max_cols w Hw. pose proof max_cols_range as Hmc. cbv zeta in Hmc.
  fold max_cols in Hmc.
  destruct Hflags as (Horder & Htype & Hcdb & Hcids).
  assert (H0 : 0 ≤ cols_of indices parts) by (by eapply cols_of_nonneg).
  unfold Streamer.make. rewrite Horder. cbn [negb].
  fold (Ivf.array_cols db). rewrite Hrepair.
  rewrite (sum_parts_spec indices parts (length parts) 0 0 Hst)
    by (unfold slice; rewrite ?drop_0, ?firstn_all; simpl; lia).
  unfold slice. rewrite drop_0, firstn_all, Z.add_0_l. fold max_cols.
  set (s0 := Streamer.fresh junk db ids indices parts (Ivf.array_cols db) max_cols).
  assert (Hinv : window_inv db ids indices parts max_cols 0 0 s0).
  { pose proof Hst as (Hl & Hs & Hb & Hp).
    split; try done; simpl; try lia;
      try (by rewrite !length_replicate); try (intros i c t Hi; lia).
    split; simpl; try done; lia. }
  destruct Hw as [Hnil|Hnz].
  - destruct (advance_stop db ids indices parts max_cols 0 0 s0 Hinv Hnil) as [Hres Hinv'].
    destruct (Streamer.advance s0) as [s' o]. simpl in Hres, Hinv'. subst o.
    exists s'. split; [done|]. fold w. by rewrite Hnil.
  - destruct (advance_inv db ids indices parts max_cols Hcdb Hcids 0 0 s0 Hinv Hnz)
      as [Hres Hinv'].
    destruct (Streamer.advance s0) as [s' o]. simpl in Hres, Hinv'. subst o.
    exists s'. split; [done|]. done.
Qed.
End Make.

(** ** The heaps in the loop over the windows *)

Lemma for_each_fmap {A B S : Type} (f : A → B) (l : list A) (body : B → S → outcome S) (s : S) :
  for_each (f <$> l) body s = for_each l (λ a, body (f a)) s.
Proof.
  revert s. induction l as [|a l IH]; intros s; simpl; [done|].
  destruct (body (f a) s); simpl; [apply IH|done..].
Qed.

Lemma concat_alter_app {A : Type} (Cs : list (list A)) (n : nat) (b : list A) :
  (n < length Cs)%nat → concat (alter (λ C, C ++ b) n Cs) ≡ₚ concat Cs ++ b.
Proof.
  revert n. induction Cs as [|C Cs IH]; intros n Hn; simpl in *; [lia|].
  destruct n as [|n]; simpl.
  - rewrite <- !app_assoc. apply Permutation_app_head, Permutation_app_comm.
  - change (list_alter (λ C0, C0 ++ b) n Cs) with (alter (λ C0, C0 ++ b) n Cs).
    rewrite IH by lia. by rewrite app_assoc.
Qed.

Lemma heaps_hold_ext k nthreads nq (D D' : nat → list (Z * Z)) ms :
  (∀ j, (j < nq)%nat → D j ≡ₚ D' j) →
  heaps_hold k nthreads nq D ms → heaps_hold k nthreads nq D' ms.
Proof.
  intros HD (Hlen & Hrows & Hall). split; [done|]. split; [done|].
  intros j Hj. destruct (Hall j Hj) as (Cs & Hfam & Hperm).
  exists Cs. split; [done|]. by rewrite Hperm, HD.
Qed.

(** The candidates [b] are inserted into the heap of thread [n] and
    query [j]. *)
Lemma heaps_hold_insert k nthreads nq (D : nat → list (Z * Z)) ms (n j : nat) b :
  0 ≤ k → heaps_hold k nthreads nq D ms → (n < nthreads)%nat → (j < nq)%nat →
  heaps_hold k nthreads nq (λ j', if decide (j' = j) then D j ++ b else D j')
    (alter (alter (Heap.insert_all Z.ltb b) j) n ms).
Proof.
  intros Hk (Hlen & Hrows & Hall) Hn Hj. split; [by rewrite length_alter|]. split.
  - apply Forall_forall. intros row Hrow.
    apply list_elem_of_lookup in Hrow as [i Hi].
    rewrite Forall_forall in Hrows.
    destruct (decide (i = n)) as [->|Hne].
    + rewrite list_lookup_alter_eq in Hi.
      destruct (ms !! n) as [row0|] eqn:Hrow0; [|done]. simpl in Hi. injection Hi as <-.
      rewrite length_alter. apply Hrows. by eapply list_elem_of_lookup_2.
    + rewrite list_lookup_alter_ne in Hi by done.
      apply Hrows. by eapply list_elem_of_lookup_2.
  - intros j' Hj'. destruct (Hall j' Hj') as (Cs & [HCl Hfam] & Hperm).
    destruct (decide (j' = j)) as [->|Hne].
    + exists (alter (λ C, C ++ b) n Cs). split; [split|].
      * by rewrite !length_alter.
      * intros n' C' HC'. destruct (decide (n' = n)) as [->|Hnn].
        -- rewrite list_lookup_alter_eq in HC'.
           destruct (Cs !! n) as [C|] eqn:HC; [|done]. simpl in HC'. injection HC' as <-.
           destruct (Hfam n C HC) as (row & h & Hrow & Hh & Hholds).
           exists (alter (Heap.insert_all Z.ltb b) j row), (Heap.insert_all Z.ltb b h).
           rewrite list_lookup_alter_eq, Hrow. split; [done|].
           rewrite list_lookup_alter_eq, Hh. split; [done|].
           by apply holds_insert_all.
        -- rewrite list_lookup_alter_ne in HC' by done.
           destruct (Hfam n' C' HC') as (row & h & Hrow & Hh & Hholds).
           exists row, h. by rewrite list_lookup_alter_ne by done.
      * rewrite concat_alter_app by lia. by rewrite Hperm.
    + exists Cs. split; [split|done].
      * by rewrite length_alter.
      * intros n' C' HC'. destruct (Hfam n' C' HC') as (row & h & Hrow & Hh & Hholds).
        destruct (decide (n' = n)) as [->|Hnn].
        -- exists (alter (Heap.insert_all Z.ltb b) j row), h.
           rewrite list_lookup_alter_eq, Hrow. split; [done|].
           by rewrite list_lookup_alter_ne by done.
        -- exists row, h. by rewrite list_lookup_alter_ne by done.
Qed.

Lemma insert_at2_alter (n j : Z) score id (ms : list (list Heap.fixed_min_pair_heap)) row :
  0 ≤ n → ms !! Z.to_nat n = Some row → 0 ≤ j < Z.of_nat (length row) →
  Ivf.insert_at2 n j score id ms
  = Returned (alter (alter (Heap.insert Z.ltb score id) (Z.to_nat j)) (Z.to_nat n) ms).
Proof.
  intros Hn Hrow Hj. unfold Ivf.insert_at2.
  unfold read. rewrite vec_at_lookup, Hrow by lia. cbn [bind].
  rewrite insert_at_alter by lia. cbn [bind]. f_equal.
  apply (insert_read_alter _ _ _ (alter (Heap.insert Z.ltb score id) (Z.to_nat j))).
  by rewrite vec_at_lookup by lia.
Qed.

Lemma rows_alter {A : Type} (f : A → A) (nq : nat) (ms : list (list A)) (n j : nat) :
  Forall (λ row, length row = nq) ms →
  Forall (λ row, length row = nq) (alter (alter f j) n ms).
Proof.
  intros Hrows. apply Forall_forall. intros row Hrow.
  apply list_elem_of_lookup in Hrow as [i Hi].
  rewrite Forall_forall in Hrows.
  destruct (decide (i = n)) as [->|Hne].
  - rewrite list_lookup_alter_eq in Hi.
    destruct (ms !! n) as [row0|] eqn:Hrow0; [|done]. simpl in Hi. injection Hi as <-.
    rewrite length_alter. apply Hrows. by eapply list_elem_of_lookup_2.
  - rewrite list_lookup_alter_ne in Hi by done.
    apply Hrows. by eapply list_elem_of_lookup_2.
Qed.

Lemma foldl_alter2 {A B : Type} (F : B → A → A) (n j : nat) (ms : list (list A)) (cs : list B) :
  foldl (λ ms c, alter (alter (F c) j) n ms) ms cs
  = alter (alter (λ h, foldl (λ h c, F c h) h cs) j) n ms.
Proof.
  rewrite (foldl_alter (λ c, alter (F c) j)).
  apply list_alter_ext; [|done]. intros row _.
  apply (foldl_alter F).
Qed.

Section ProcessWindow.
Context {SH : Heap.SortHeap} {SHL : Heap.SortHeapLaws}.
Context {V : Type} (L2 : V → V → Z).
Variables (db : dense_array V) (ids : dense_array Z).
Variables (indices_q indices_s parts : list Z) (max_cols : Z).
Variables (q : list V) (top : list (list Z)) (cq : list (Z * Z)).
Variables (k : Z) (nthreads : nat).
Hypothesis Hk : 0 ≤ k.
Hypothesis Hagree : agree indices_q indices_s parts.
Hypothesis Htop : length top = length q.
Hypothesis Hcq : ∀ c, Ivf.equal_range c cq = (λ j, (c, j)) <$> probes_of top c.
Hypothesis Hcols : cols_of indices_s parts < 2 ^ 31.

Variables (a b : nat) (s : Streamer.t V).
Hypothesis Hinv : window_inv db ids indices_s parts max_cols a b s.

Lemma offsets_step (p : nat) c :
  parts !! p = Some c →
  cols_of indices_q (take (S p) parts)
  = cols_of indices_q (take p parts) + size_of indices_q c.
Proof.
  intros Hc. rewrite (take_S_r _ _ _ Hc), cols_of_app, cols_of_cons.
  change (cols_of indices_q []) with 0. lia.
Qed.

(** The loop over the columns of the partition at position [p], for the
    query [j] and the thread [n]. *)
Lemma block_loop (n p : nat) c (j : nat) q_vec ms :
  (a ≤ p < b)%nat → parts !! p = Some c → q !! j = Some q_vec →
  length ms = nthreads → (n < nthreads)%nat →
  Forall (λ row, length row = length q) ms →
  for_each (seqZ (cols_of indices_q (take p parts))
              (cols_of indices_q (take (S p) parts) - cols_of indices_q (take p parts)))
    (λ k0 ms,
       x ⟵ read (Streamer.data_ s) (wrap64 (k0 - Streamer.col_offset s));
       id ⟵ read (Streamer.ids s) (wrap64 (k0 - Streamer.col_offset s));
       Ivf.insert_at2 (Z.of_nat n) (Z.of_nat j) (L2 q_vec x) id ms) ms
  = Returned (alter (alter (Heap.insert_all Z.ltb (candidates L2 db ids indices_q q_vec c)) j)
                n ms).
Proof.
  intros Hp Hc Hq Hlen Hn Hrows.
  pose proof Hinv as [Hwf _ _ Hidx Hparts _ Hb _ _ Ho _ Hfit _ Hdata].
  pose proof (wf_static _ Hwf) as Hst. rewrite Hidx, Hparts in Hst.
  destruct Hagree as [Hag1 Hag2].
  destruct (Hag1 c (list_elem_of_lookup_2 _ _ _ Hc)) as [Hstart Hsize].
  rewrite (offsets_step p c Hc).
  replace (cols_of indices_q (take p parts) + size_of indices_q c
           - cols_of indices_q (take p parts)) with (size_of indices_q c) by lia.
  rewrite Hag2 by (apply lookup_lt_Some in Hc; lia).
  set (start := cols_of indices_s (take p parts)).
  pose proof (cols_of_take indices_s parts parts p Hst ltac:(done)) as Hp0.
  pose proof (cols_of_take indices_s parts parts a Hst ltac:(done)) as Ha0.
  assert (Hap : cols_of indices_s (take a parts) ≤ start).
  { unfold start. replace p with (a + (p - a))%nat by lia.
    rewrite take_add_drop, cols_of_app.
    assert (0 ≤ cols_of indices_s (take (p - a) (drop a parts))); [|lia].
    eapply cols_of_nonneg; [done|]. etrans; [apply subseteq_take|apply subseteq_drop]. }
  pose proof (size_of_range indices_s parts c Hst (list_elem_of_lookup_2 _ _ _ Hc)) as Hsz.
  destruct (for_each_pure
              (λ ms', length ms' = nthreads ∧ Forall (λ row, length row = length q) ms')
              (λ ms k0,
                 alter (alter (Heap.insert Z.ltb
                                 (L2 q_vec (cell db (k0 - start + start_of indices_q c)))
                                 (cell ids (k0 - start + start_of indices_q c))) j) n ms)
              (seqZ start (size_of indices_q c))
              (λ k0 ms,
                 x ⟵ read (Streamer.data_ s) (wrap64 (k0 - Streamer.col_offset s));
                 id ⟵ read (Streamer.ids s) (wrap64 (k0 - Streamer.col_offset s));
                 Ivf.insert_at2 (Z.of_nat n) (Z.of_nat j) (L2 q_vec x) id ms) ms)
    as [-> _]; [done| |].
  - intros k0 ms' Hk0%elem_of_seqZ [Hl' Hr']. cbv zeta.
    unfold Streamer.col_offset, Streamer.ids. rewrite Ho.
    rewrite wrap64_small by lia.
    destruct (Hdata p c (k0 - start) Hp Hc ltac:(lia)) as [Hx Hid]. fold start in Hx, Hid.
    replace (start - cols_of indices_s (take a parts) + (k0 - start))
      with (k0 - cols_of indices_s (take a parts)) in Hx, Hid by lia.
    unfold read. rewrite Hx, Hid. cbn [bind].
    destruct (lookup_lt_is_Some_2 ms' n) as [row Hrow]; [lia|].
    rewrite Forall_forall in Hr'.
    pose proof (Hr' row (list_elem_of_lookup_2 _ _ _ Hrow)) as Hrl.
    pose proof (lookup_lt_Some _ _ _ Hq).
    rewrite (insert_at2_alter _ _ _ _ _ row) by (rewrite ?Nat2Z.id; done || lia).
    rewrite !Nat2Z.id, <- Hstart.
    replace (start_of indices_q c + (k0 - start)) with (k0 - start + start_of indices_q c) by lia.
    split; [done|]. split; [by rewrite length_alter|].
    apply rows_alter. by apply Forall_forall.
  - f_equal.
    rewrite (foldl_alter2 (λ k0, Heap.insert Z.ltb
                                   (L2 q_vec (cell db (k0 - start + start_of indices_q c)))
                                   (cell ids (k0 - start + start_of indices_q c)))).
    apply list_alter_ext; [|done]. intros row _.
    apply list_alter_ext; [|done]. intros h _.
    unfold candidates.
    replace (seqZ (start_of indices_q c) (size_of indices_q c))
      with ((λ k0, k0 - start + start_of indices_q c) <$> seqZ start (size_of indices_q c)).
    + rewrite <- list_fmap_compose.
      by rewrite (insert_all_fmap Z.ltb
                    (λ k0, (L2 q_vec (cell db (k0 - start + start_of indices_q c)),
                            cell ids (k0 - start + start_of indices_q c)))).
    + trans (Z.add (start_of indices_q c - start) <$> seqZ start (size_of indices_q c)).
      * apply list_fmap_ext. intros _ k0 _. lia.
      * rewrite fmap_add_seqZ. f_equal. lia.
Qed.

(** The loop over the queries that probe the partition at position [p]. *)
Lemma queries_loop (n p : nat) c (js : list Z) (D : nat → list (Z * Z)) ms :
  (a ≤ p < b)%nat → parts !! p = Some c → (n < nthreads)%nat →
  NoDup js → Forall (λ j, 0 ≤ j < Z.of_nat (length q)) js →
  heaps_hold k nthreads (length q) D ms →
  ∃ ms',
    for_each js (λ j ms,
      q_vec ⟵ read q j;
      for_each (seqZ (cols_of indices_q (take p parts))
                  (cols_of indices_q (take (S p) parts) - cols_of indices_q (take p parts)))
        (λ k0 ms,
           x ⟵ read (Streamer.data_ s) (wrap64 (k0 - Streamer.col_offset s));
           id ⟵ read (Streamer.ids s) (wrap64 (k0 - Streamer.col_offset s));
           Ivf.insert_at2 (Z.of_nat n) j (L2 q_vec x) id ms) ms) ms
    = Returned ms'
    ∧ heaps_hold k nthreads (length q)
        (λ j', D j' ++ (if bool_decide (Z.of_nat j' ∈ js)
                        then match q !! j' with
                             | Some q_vec => candidates L2 db ids indices_q q_vec c
                             | None => []
                             end
                        else [])) ms'.
Proof.
  intros Hp Hc Hn Hnd. revert D ms.
  induction Hnd as [|j0 js Hj0 Hnd IH]; intros D ms Hjs Hhold.
  - exists ms. split; [done|]. eapply heaps_hold_ext; [|done].
    intros j' _. rewrite bool_decide_eq_false_2 by apply not_elem_of_nil.
    by rewrite app_nil_r.
  - apply Forall_cons in Hjs as [Hj0r Hjs]. cbn [for_each].
    assert (∃ jn : nat, j0 = Z.of_nat jn) as [jn ->] by (exists (Z.to_nat j0); lia).
    destruct (lookup_lt_is_Some_2 q jn) as [q_vec Hq]; [lia|].
    unfold read at 1. rewrite vec_at_of_nat, Hq. cbn [bind].
    pose proof Hhold as (Hlen & Hrows & _).
    rewrite (block_loop n p c jn q_vec ms Hp Hc Hq Hlen Hn Hrows). cbn [bind].
    pose proof (heaps_hold_insert k nthreads (length q) D ms n jn
                  (candidates L2 db ids indices_q q_vec c) Hk Hhold Hn ltac:(lia)) as Hhold1.
    destruct (IH _ _ Hjs Hhold1) as (ms' & -> & Hhold').
    exists ms'. split; [done|]. eapply heaps_hold_ext; [|done].
    intros j' Hj'. cbv beta. destruct (decide (j' = jn)) as [->|Hne].
    + rewrite (bool_decide_eq_false_2 (Z.of_nat jn ∈ js)) by done.
      rewrite (bool_decide_eq_true_2 (Z.of_nat jn ∈ _ :: js)) by (by left).
      by rewrite Hq, app_nil_r.
    + apply Permutation_app_head.
      rewrite (bool_decide_ext (Z.of_nat j' ∈ Z.of_nat jn :: js) (Z.of_nat j' ∈ js)); [done|].
      rewrite elem_of_cons. split; [intros [?|?]; [lia|done]|by right].
Qed.

Lemma elem_of_probes_of (c : Z) (j : nat) :
  Z.of_nat j ∈ probes_of top c ↔ (j < length q)%nat ∧ c ∈ default [] (top !! j).
Proof.
  unfold probes_of. rewrite list_elem_of_filter, elem_of_seqZ, Nat2Z.id, Htop.
  split; [intros [? ?]; split; [lia|done]|intros [? ?]; split; [done|lia]].
Qed.

(** The body of the loop over the partitions of a thread: the partition
    at position [p] of the active partitions is served. *)
Lemma partition_step (n p : nat) (ps : list Z) ms :
  (a ≤ p < b)%nat → (n < nthreads)%nat →
  heaps_hold k nthreads (length q) (served_all L2 db ids indices_q q top parts ps) ms →
  ∃ ms',
    (let partno := wrap64 (Z.of_nat (p - a) + Streamer.col_part_offset s) in
     start ⟵ read (offsets indices_q parts) partno;
     stop ⟵ read (offsets indices_q parts) (wrap64 (partno + 1));
     c ⟵ read parts partno;
     for_each (Ivf.equal_range c cq) (λ e ms,
       let j := e.2 in
       q_vec ⟵ read q j;
       for_each (seqZ start (stop - start)) (λ k0 ms,
         let kp := wrap64 (k0 - Streamer.col_offset s) in
         x ⟵ read (Streamer.data_ s) kp;
         id ⟵ read (Streamer.ids s) kp;
         Ivf.insert_at2 (Z.of_nat n) j (L2 q_vec x) id ms) ms) ms)
    = Returned ms'
    ∧ heaps_hold k nthreads (length q)
        (served_all L2 db ids indices_q q top parts (ps ++ [Z.of_nat p])) ms'.
Proof.
  intros Hp Hn Hhold.
  pose proof Hinv as [Hwf _ _ Hidx Hparts _ Hb _ _ _ Hpo _ _ _].
  pose proof (wf_static _ Hwf) as Hst. rewrite Hidx, Hparts in Hst.
  pose proof Hst as ([_ Hl2] & _).
  destruct (lookup_lt_is_Some_2 parts p) as [c Hc]; [lia|].
  cbv zeta. unfold Streamer.col_part_offset. rewrite Hpo.
  replace (Z.of_nat (p - a) + Z.of_nat a) with (Z.of_nat p) by lia.
  rewrite (wrap64_small (Z.of_nat p)), (wrap64_small (Z.of_nat p + 1)) by lia.
  replace (Z.of_nat p + 1) with (Z.of_nat (S p)) by lia.
  unfold read at 1. rewrite vec_at_of_nat, lookup_offsets by lia. cbn [bind].
  unfold read at 1. rewrite vec_at_of_nat, lookup_offsets by lia. cbn [bind].
  unfold read at 1. rewrite vec_at_of_nat, Hc. cbn [bind].
  rewrite Hcq, for_each_fmap. cbn [snd].
  destruct (queries_loop n p c (probes_of top c)
              (served_all L2 db ids indices_q q top parts ps) ms Hp Hc Hn)
    as (ms' & Hrun & Hhold'); [apply NoDup_filter, NoDup_seqZ| |done|].
  { apply Forall_forall. intros j (_ & Hj)%list_elem_of_filter.
    apply elem_of_seqZ in Hj. lia. }
  cbv zeta. rewrite Hrun.
  exists ms'. split; [done|]. eapply heaps_hold_ext; [|done].
  intros j Hj. cbv beta. unfold served_all.
  rewrite fmap_app, concat_app. apply Permutation_app_head.
  simpl. rewrite app_nil_r. unfold served_candidates.
  rewrite vec_at_of_nat, Hc.
  destruct (lookup_lt_is_Some_2 q j Hj) as [q_vec ->].
  rewrite (bool_decide_ext (Z.of_nat j ∈ probes_of top c) (c ∈ default [] (top !! j)));
    [done|]. rewrite elem_of_probes_of. tauto.
Qed.

(** The work of a thread on its partitions of the window. *)
Lemma process_window_spec (n : nat) (r : nat) (first : Z) (ps : list Z) ms :
  0 ≤ first → first + Z.of_nat r ≤ Z.of_nat b - Z.of_nat a → (n < nthreads)%nat →
  heaps_hold k nthreads (length q) (served_all L2 db ids indices_q q top parts ps) ms →
  ∃ ms',
    Ivf.process_window L2 s q (offsets indices_q parts) parts cq (Z.of_nat n)
      first (first + Z.of_nat r) ms
    = Returned ms'
    ∧ heaps_hold k nthreads (length q)
        (served_all L2 db ids indices_q q top parts
           (ps ++ seqZ (Z.of_nat a + first) (Z.of_nat r))) ms'.
Proof.
  revert first ps ms. induction r as [|r IH]; intros first ps ms Hf Hl Hn Hhold.
  - exists ms. unfold Ivf.process_window.
    replace (first + Z.of_nat 0 - first) with 0 by lia. simpl.
    split; [done|]. by rewrite app_nil_r.
  - unfold Ivf.process_window in *.
    replace (first + Z.of_nat (S r) - first) with (Z.of_nat (S r)) by lia.
    rewrite seqZ_cons by lia. cbn [for_each].
    destruct (partition_step n (a + Z.to_nat first) ps ms ltac:(lia) Hn Hhold)
      as (ms1 & Hrun & Hhold1).
    replace (Z.of_nat (a + Z.to_nat first - a)) with first in Hrun by lia.
    cbv zeta in Hrun. cbv zeta. rewrite Hrun. cbn [bind].
    destruct (IH (first + 1) (ps ++ [Z.of_nat (a + Z.to_nat first)]) ms1
                ltac:(lia) ltac:(lia) Hn Hhold1) as (ms' & Hrun' & Hhold').
    replace (first + 1 + Z.of_nat r - (first + 1)) with (Z.of_nat r) in Hrun' by lia.
    cbv zeta in Hrun'.
    replace (Z.succ first) with (first + 1) by lia.
    replace (Z.pred (Z.of_nat (S r))) with (Z.of_nat r) by lia.
    rewrite Hrun'. exists ms'. split; [done|].
    rewrite <- app_assoc in Hhold'. cbn [app] in Hhold'.
    rewrite (seqZ_cons (Z.of_nat a + first)) by lia.
    replace (Z.succ (Z.of_nat a + first)) with (Z.of_nat a + (first + 1)) by lia.
    replace (Z.pred (Z.of_nat (S r))) with (Z.of_nat r) by lia.
    by replace (Z.of_nat a + first) with (Z.of_nat (a + Z.to_nat first)) at 1 by lia.
Qed.

(** The work of all the threads on the window: its partitions are
    served. *)
Lemma threads_spec (ps : list Z) ms :
  (0 < nthreads)%nat → Z.of_nat nthreads < 2 ^ 63 →
  heaps_hold k nthreads (length q) (served_all L2 db ids indices_q q top parts ps) ms →
  ∃ ms',
    for_each (seqZ 0 (Z.of_nat nthreads)) (λ n min_scores,
      let parts_per_thread :=
        wrap64 (wrap64 (Streamer.num_col_parts s + Z.of_nat nthreads) - 1)
          `div` Z.of_nat nthreads in
      let first_part :=
        Z.min (wrap64 (n * parts_per_thread)) (Streamer.num_col_parts s) in
      let last_part :=
        Z.min (wrap64 ((n + 1) * parts_per_thread)) (Streamer.num_col_parts s) in
      if bool_decide (first_part = last_part) then Returned min_scores
      else Ivf.process_window L2 s q (offsets indices_q parts) parts cq
             n first_part last_part min_scores) ms
    = Returned ms'
    ∧ heaps_hold k nthreads (length q)
        (served_all L2 db ids indices_q q top parts
           (ps ++ seqZ (Z.of_nat a) (Z.of_nat b - Z.of_nat a))) ms'.
Proof.
  intros HT0 HT Hhold.
  pose proof Hinv as [Hwf _ _ Hidx Hparts _ Hb Hpv _ _ _ _ _ _].
  pose proof (wf_static _ Hwf) as Hst. rewrite Hidx, Hparts in Hst.
  pose proof Hst as ([_ Hl2] & _).
  unfold Streamer.num_col_parts. rewrite Hpv. cbn [fst snd].
  set (ncp := Z.of_nat b - Z.of_nat a).
  rewrite (wrap64_small ncp) by (unfold ncp; lia).
  rewrite (wrap64_small (ncp + _)), (wrap64_small (_ - 1)) by (unfold ncp; lia).
  set (ppt := (ncp + Z.of_nat nthreads - 1) `div` Z.of_nat nthreads).
  assert (Hppt0 : 0 ≤ ppt) by (apply Z.div_pos; unfold ncp; lia).
  assert (Hppt1 : Z.of_nat nthreads * ppt ≤ ncp + Z.of_nat nthreads - 1)
    by (apply Z.mul_div_le; lia).
  assert (Hppt2 : ncp ≤ Z.of_nat nthreads * ppt).
  { pose proof (Z.div_mod (ncp + Z.of_nat nthreads - 1) (Z.of_nat nthreads) ltac:(lia)) as Hdm.
    pose proof (Z.mod_pos_bound (ncp + Z.of_nat nthreads - 1) (Z.of_nat nthreads) ltac:(lia)).
    fold ppt in Hdm. lia. }
  assert (Hgen : ∀ m : nat, (m ≤ nthreads)%nat →
    ∃ ms',
      for_each (seqZ 0 (Z.of_nat m)) (λ n min_scores,
        if bool_decide (Z.min (wrap64 (n * ppt)) ncp = Z.min (wrap64 ((n + 1) * ppt)) ncp)
        then Returned min_scores
        else Ivf.process_window L2 s q (offsets indices_q parts) parts cq n
               (Z.min (wrap64 (n * ppt)) ncp) (Z.min (wrap64 ((n + 1) * ppt)) ncp)
               min_scores) ms
      = Returned ms'
      ∧ heaps_hold k nthreads (length q)
          (served_all L2 db ids indices_q q top parts
             (ps ++ seqZ (Z.of_nat a) (Z.min (Z.of_nat m * ppt) ncp))) ms').
  { induction m as [|m IH]; intros Hm.
    - exists ms. split; [done|].
      rewrite (seqZ_nil (Z.of_nat a)) by lia. by rewrite app_nil_r.
    - destruct IH as (ms1 & Hrun & Hhold1); [lia|].
      rewrite seqZ_S, for_each_app, Hrun, Z.add_0_l. cbn [bind for_each].
      assert (Hm1 : 0 ≤ Z.of_nat m * ppt ≤ (Z.of_nat m + 1) * ppt) by nia.
      assert (Hm2 : (Z.of_nat m + 1) * ppt ≤ Z.of_nat nthreads * ppt) by nia.
      rewrite !wrap64_small by (unfold ncp in *; lia).
      set (first := Z.min (Z.of_nat m * ppt) ncp) in *.
      set (last := Z.min ((Z.of_nat m + 1) * ppt) ncp).
      replace (Z.of_nat (S m) * ppt) with ((Z.of_nat m + 1) * ppt) by lia. fold last.
      case_bool_decide as Heq.
      + exists ms1. split; [done|]. by rewrite <- Heq.
      + destruct (process_window_spec m (Z.to_nat (last - first)) first
                    (ps ++ seqZ (Z.of_nat a) first) ms1)
          as (ms' & Hrun' & Hhold'); [unfold first, ncp; lia|unfold first, last, ncp; lia|lia|done|].
        replace (first + Z.of_nat (Z.to_nat (last - first))) with last in Hrun'
          by (unfold first, last; lia).
        rewrite Hrun'. exists ms'. split; [done|].
        rewrite <- app_assoc in Hhold'.
        replace last with (first + Z.of_nat (Z.to_nat (last - first))) at 1
          by (unfold first, last; lia).
        rewrite seqZ_app by (unfold first, last, ncp; lia). done. }
  destruct (Hgen nthreads) as (ms' & Hrun & Hhold'); [done|].
  cbv zeta. rewrite Hrun. exists ms'. split; [done|].
  by replace (Z.min (Z.of_nat nthreads * ppt) ncp) with ncp in Hhold' by lia.
Qed.
End ProcessWindow.

Section Windows.
Context {SH : Heap.SortHeap} {SHL : Heap.SortHeapLaws}.
Context {V : Type} (L2 : V → V → Z).
Variables (db : dense_array V) (ids : dense_array Z).
Variables (indices_q indices_s parts : list Z) (max_cols : Z).
Variables (q : list V) (top : list (list Z)) (cq : list (Z * Z)).
Variables (k : Z) (nthreads : nat).
Hypothesis Hdb : completes db = true.
Hypothesis Hids : completes ids = true.
Hypothesis Hk : 0 ≤ k.
Hypothesis Hagree : agree indices_q indices_s parts.
Hypothesis Htop : length top = length q.
Hypothesis Hcq : ∀ c, Ivf.equal_range c cq = (λ j, (c, j)) <$> probes_of top c.
Hypothesis HT : (0 < nthreads)%nat ∧ Z.of_nat nthreads < 2 ^ 63.

(** The loop over the windows returns when the stream of windows ends,
    and the partitions before its end have been served. *)
Lemma windows_spec (fuel : nat) (a b : nat) (s : Streamer.t V) ms (e : nat) :
  window_inv db ids indices_s parts max_cols a b s →
  heaps_hold k nthreads (length q)
    (served_all L2 db ids indices_q q top parts (seqZ 0 (Z.of_nat a))) ms →
  serve indices_s parts max_cols fuel b = Some e →
  ∃ ms',
    Ivf.windows L2 fuel s q (offsets indices_q parts) parts cq (Z.of_nat nthreads) ms
    = Some (Returned ms')
    ∧ heaps_hold k nthreads (length q)
        (served_all L2 db ids indices_q q top parts (seqZ 0 (Z.of_nat e))) ms'.
Proof.
  revert a b s ms. induction fuel as [|fuel IH]; intros a b s ms Hinv Hhold Hserve; [done|].
  cbn [serve] in Hserve. cbn [Ivf.windows].
  rewrite bool_decide_eq_false_2 by lia.
  assert (Hcols : cols_of indices_s parts < 2 ^ 31).
  { pose proof (wf_cols _ (wi_wf _ _ _ _ _ _ _ _ Hinv)) as Hc.
    by rewrite (wi_indices _ _ _ _ _ _ _ _ Hinv), (wi_parts _ _ _ _ _ _ _ _ Hinv) in Hc. }
  destruct (threads_spec L2 db ids indices_q indices_s parts max_cols q top cq k nthreads
              Hk Hagree Htop Hcq Hcols a b s Hinv _ ms (proj1 HT) (proj2 HT) Hhold)
    as (ms1 & Hrun & Hhold1).
  cbv zeta in Hrun. cbv zeta. rewrite Hrun.
  pose proof (wi_bounds _ _ _ _ _ _ _ _ Hinv) as Hb.
  rewrite <- seqZ_app in Hhold1 by lia.
  replace (Z.of_nat a + (Z.of_nat b - Z.of_nat a)) with (Z.of_nat b) in Hhold1 by lia.
  case_bool_decide as Hw.
  - injection Hserve as <-.
    destruct (advance_stop db ids indices_s parts max_cols a b s Hinv Hw) as [Hres _].
    destruct (Streamer.advance s) as [s' o]. simpl in Hres. subst o.
    by exists ms1.
  - case_bool_decide as Hz; [done|].
    destruct (advance_inv db ids indices_s parts max_cols Hdb Hids a b s Hinv Hz)
      as [Hres Hinv'].
    destruct (Streamer.advance s) as [s' o]. simpl in Hres, Hinv'. subst o.
    by apply (IH b (b + length (window_at indices_s parts max_cols b))%nat s' ms1).
Qed.
End Windows.

(** ** The merge of the heaps of the threads *)

Section Merge.
Variables (k : Z) (nthreads nq : nat).
Hypothesis Hk : 0 ≤ k.
Hypothesis HT : (0 < nthreads)%nat.

Lemma merge_items (j : nat) (h : Heap.fixed_min_pair_heap)
    (ms : list (list Heap.fixed_min_pair_heap)) :
  length ms = nthreads → Forall (λ row, length row = nq) ms → (j < nq)%nat →
  for_each (Heap.items h) (λ e ms, Ivf.insert_at2 0 (Z.of_nat j) e.1 e.2 ms) ms
  = Returned (alter (alter (Heap.insert_all Z.ltb (Heap.items h)) j) 0%nat ms).
Proof.
  intros Hlen Hrows Hj.
  destruct (for_each_pure
              (λ ms', length ms' = nthreads ∧ Forall (λ row, length row = nq) ms')
              (λ ms (e : Z * Z), alter (alter (Heap.insert Z.ltb e.1 e.2) j) 0%nat ms)
              (Heap.items h)
              (λ e ms, Ivf.insert_at2 0 (Z.of_nat j) e.1 e.2 ms) ms) as [-> _]; [done| |].
  - intros e ms' _ [Hl' Hr'].
    destruct (lookup_lt_is_Some_2 ms' 0) as [row Hrow]; [lia|].
    rewrite Forall_forall in Hr'.
    pose proof (Hr' row (list_elem_of_lookup_2 _ _ _ Hrow)) as Hrl.
    rewrite (insert_at2_alter 0 _ _ _ _ row) by (done || lia).
    rewrite Nat2Z.id. change (Z.to_nat 0) with 0%nat.
    split; [done|]. split; [by rewrite length_alter|].
    apply rows_alter. by apply Forall_forall.
  - f_equal. by rewrite (foldl_alter2 (λ e : Z * Z, Heap.insert Z.ltb e.1 e.2)).
Qed.

Lemma alter_alter2 {A : Type} (f g : A → A) (n j : nat) (ms : list (list A)) :
  alter (alter g j) n (alter (alter f j) n ms) = alter (alter (g ∘ f) j) n ms.
Proof.
  rewrite list_alter_alter_eq. apply list_alter_ext; [|done]. intros row _.
  apply list_alter_alter_eq.
Qed.

(** The loop over the threads after the first, for the query [j]. *)
Lemma merge_threads (j : nat) (r n0 : nat) (ms : list (list Heap.fixed_min_pair_heap)) :
  length ms = nthreads → Forall (λ row, length row = nq) ms → (j < nq)%nat →
  (1 ≤ n0)%nat → (n0 + r = nthreads)%nat →
  for_each (seqZ (Z.of_nat n0) (Z.of_nat r)) (λ n ms,
    row ⟵ read ms n;
    h ⟵ read row (Z.of_nat j);
    for_each (Heap.items h) (λ e ms, Ivf.insert_at2 0 (Z.of_nat j) e.1 e.2 ms) ms) ms
  = Returned (alter (alter (Heap.insert_all Z.ltb (merged_items j (drop n0 ms))) j) 0%nat ms).
Proof.
  revert n0 ms. induction r as [|r IH]; intros n0 ms Hlen Hrows Hj Hn0 Hr.
  - simpl. rewrite drop_ge by lia. f_equal. symmetry.
    apply list_eq. intros i. destruct (decide (i = 0%nat)) as [->|].
    + rewrite list_lookup_alter_eq. destruct (ms !! 0%nat) as [row|]; [|done]. simpl. f_equal.
      apply list_eq. intros i'. destruct (decide (i' = j)) as [->|].
      * rewrite list_lookup_alter_eq. by destruct (row !! j).
      * by rewrite list_lookup_alter_ne.
    + by rewrite list_lookup_alter_ne.
  - rewrite seqZ_cons by lia. cbn [for_each].
    destruct (lookup_lt_is_Some_2 ms n0) as [row Hrow]; [lia|].
    pose proof Hrows as Hrows'. rewrite Forall_forall in Hrows'.
    pose proof (Hrows' row (list_elem_of_lookup_2 _ _ _ Hrow)) as Hrl.
    unfold read at 1. rewrite vec_at_of_nat, Hrow. cbn [bind].
    unfold read at 1. rewrite vec_at_of_nat, (list_lookup_lookup_total_lt row j) by lia.
    cbn [bind]. rewrite merge_items by done. cbn [bind].
    replace (Z.succ (Z.of_nat n0)) with (Z.of_nat (S n0)) by lia.
    replace (Z.pred (Z.of_nat (S r))) with (Z.of_nat r) by lia.
    rewrite IH; [|by rewrite length_alter|by apply rows_alter|done|lia|lia].
    f_equal. rewrite drop_alter_lt by lia. rewrite alter_alter2.
    apply list_alter_ext; [|done]. intros row0 _.
    apply list_alter_ext; [|done]. intros h _. cbn [compose].
    rewrite (drop_S _ _ _ Hrow). unfold merged_items. cbn [fmap list_fmap concat].
    by rewrite insert_all_app.
Qed.

Lemma holds_merge_all (j : nat) C0 h0 (Cs : list (list (Z * Z)))
    (rows : list (list Heap.fixed_min_pair_heap)) :
  holds k C0 h0 → Forall2 (λ C row, holds k C (row !!! j)) Cs rows →
  holds k (C0 ++ concat Cs) (Heap.insert_all Z.ltb (merged_items j rows) h0).
Proof.
  intros H0 Hall. revert C0 h0 H0.
  induction Hall as [|C row Cs rows HC _ IH]; intros C0 h0 H0.
  - simpl. by rewrite app_nil_r.
  - unfold merged_items. cbn [fmap list_fmap concat].
    rewrite insert_all_app, app_assoc. apply IH. by apply holds_merge.
Qed.

(** The merge: the heaps of the first thread hold the smallest
    candidates of every query. *)
Lemma merge_spec (D : nat → list (Z * Z)) (ms : list (list Heap.fixed_min_pair_heap)) :
  heaps_hold k nthreads nq D ms →
  ∃ merged row0,
    for_each (seqZ 0 (Z.of_nat nq)) (λ j ms,
      for_each (seqZ 1 (Z.of_nat nthreads - 1)) (λ n ms,
        row ⟵ read ms n;
        h ⟵ read row j;
        for_each (Heap.items h) (λ e ms, Ivf.insert_at2 0 j e.1 e.2 ms) ms) ms) ms
    = Returned merged
    ∧ merged !! 0%nat = Some row0
    ∧ length row0 = nq
    ∧ ∀ j, (j < nq)%nat → ∃ h, row0 !! j = Some h ∧ holds k (D j) h.
Proof.
  intros (Hlen & Hrows & Hall).
  set (G := λ (j : Z), Heap.insert_all Z.ltb (merged_items (Z.to_nat j) (drop 1 ms))).
  match goal with |- ∃ _ _, for_each ?xs ?body ?s = _ ∧ _ =>
    destruct (for_each_pure
                (λ ms', length ms' = nthreads ∧ Forall (λ row, length row = nq) ms'
                        ∧ drop 1 ms' = drop 1 ms)
                (λ ms j, alter (alter (G j) (Z.to_nat j)) 0%nat ms) xs body s)
      as [Hrun (_ & Hrows' & _)]
  end.
  - done.
  - intros j ms' Hj%elem_of_seqZ (Hl' & Hr' & Hd').
    assert (∃ jn : nat, j = Z.of_nat jn) as [jn ->] by (exists (Z.to_nat j); lia).
    replace (seqZ 1 (Z.of_nat nthreads - 1))
      with (seqZ (Z.of_nat 1) (Z.of_nat (nthreads - 1))) by (f_equal; lia).
    rewrite (merge_threads jn (nthreads - 1) 1 ms') by (done || lia).
    unfold G. rewrite Nat2Z.id, Hd'. split; [done|].
    split; [by rewrite length_alter|]. split; [by apply rows_alter|].
    by rewrite drop_alter_lt by lia.
  - destruct (lookup_lt_is_Some_2 ms 0) as [row0 Hrow0]; [lia|].
    rewrite (foldl_alter (λ j, alter (G j) (Z.to_nat j))) in Hrun, Hrows'.
    eexists _, _. split; [exact Hrun|].
    rewrite list_lookup_alter_eq, Hrow0. split; [done|].
    rewrite Forall_forall in Hrows, Hrows'. split.
    + apply Hrows'. eapply list_elem_of_lookup_2.
      by rewrite list_lookup_alter_eq, Hrow0.
    + intros j Hj. pose proof (Hrows row0 (list_elem_of_lookup_2 _ _ _ Hrow0)) as Hrl.
      rewrite (foldl_alter_each G) by done.
      destruct (lookup_lt_is_Some_2 row0 j) as [h0 Hh0]; [lia|].
      rewrite Hh0. eexists. split; [done|]. unfold G. rewrite Nat2Z.id.
      destruct (Hall j Hj) as (Cs & [HCl Hfam] & Hperm).
      destruct Cs as [|C0 Cs]; [simpl in HCl; lia|].
      destruct (Hfam 0%nat C0 eq_refl) as (row0' & h0' & Hrow0' & Hh0' & Hholds0).
      rewrite Hrow0 in Hrow0'. injection Hrow0' as <-.
      rewrite Hh0 in Hh0'. injection Hh0' as <-.
      eapply holds_Permutation; [exact Hperm|]. cbn [concat].
      apply holds_merge_all; [done|].
      apply Forall2_same_length_lookup_2.
      * rewrite length_drop. simpl in HCl. lia.
      * intros n C row HC Hrow. rewrite lookup_drop in Hrow.
        destruct (Hfam (S n) C HC) as (row' & h & Hrow' & Hh & Hholds).
        simpl in Hrow. rewrite Hrow in Hrow'. injection Hrow' as <-.
        by rewrite (list_lookup_total_correct _ _ _ Hh).
Qed.
End Merge.

(** ** The repair of the last slot of the indices *)

Lemma cols_of_ext indices1 indices2 ps :
  (∀ c, c ∈ ps → size_of indices1 c = size_of indices2 c) →
  cols_of indices1 ps = cols_of indices2 ps.
Proof.
  induction ps as [|p ps IH]; intros Hext; [done|].
  rewrite !cols_of_cons, IH, (Hext p) by (intros; try apply Hext; by constructor). done.
Qed.

Lemma StronglySorted_snoc_le (l : list Z) (x : Z) :
  StronglySorted Z.le l → Forall (λ a, a ≤ x) l → StronglySorted Z.le (l ++ [x]).
Proof.
  induction 1 as [|a l Hl IH Ha]; intros Hx; simpl.
  - by repeat constructor.
  - apply Forall_cons in Hx as [Hax Hx]. constructor; [by apply IH|].
    apply Forall_app. split; [done|]. by repeat constructor.
Qed.

Lemma StronglySorted_lt_NoDup (l : list Z) : StronglySorted Z.lt l → NoDup l.
Proof.
  induction 1 as [|a l Hl IH Ha]; constructor; [|done].
  intros Hin. rewrite Forall_forall in Ha. specialize (Ha a Hin). lia.
Qed.

Section Repair.
Variables (indices : list Z) (n : nat) (N : Z).
Hypothesis Hn : (0 < n)%nat ∧ Z.of_nat n < 2 ^ 31.
Hypothesis Hlen : length indices = S n.
Hypothesis Hsorted : StronglySorted Z.le indices.
Hypothesis Hrange : Forall (λ a, 0 ≤ a ≤ N) indices.

Lemma repair_last_spec :
  ∃ v before,
    indices !! n = Some v ∧ indices !! (n - 1)%nat = Some before
    ∧ Streamer.repair_last indices N
      = Returned (if bool_decide (v = before) then take n indices ++ [N] else indices).
Proof.
  destruct (lookup_lt_is_Some_2 indices n) as [v Hv]; [lia|].
  destruct (lookup_lt_is_Some_2 indices (n - 1)) as [before Hb]; [lia|].
  exists v, before. split; [done|]. split; [done|].
  unfold Streamer.repair_last. rewrite Hlen.
  rewrite !wrap64_small by lia.
  rewrite !vec_at_lookup by lia.
  replace (Z.to_nat (Z.of_nat (S n) - 1)) with n by lia.
  replace (Z.to_nat (Z.of_nat (S n) - 2)) with (n - 1)%nat by lia.
  rewrite Hv, Hb. case_bool_decide; [|done].
  rewrite Forall_forall in Hrange.
  pose proof (Hrange v (list_elem_of_lookup_2 _ _ _ Hv)).
  rewrite bool_decide_eq_false_2 by lia. f_equal.
  rewrite <- (take_drop_middle indices n v Hv) at 1.
  rewrite insert_app_r_alt by (rewrite length_take; lia).
  rewrite length_take, Hlen. replace (n - n `min` S n)%nat with 0%nat by lia.
  simpl. f_equal. f_equal. rewrite drop_ge by lia. done.
Qed.

(** The indices of the streamer, on the partitions [parts]. *)
Lemma repaired_agree (parts : list Z) (v before : Z) :
  N < 2 ^ 31 →
  indices !! n = Some v → indices !! (n - 1)%nat = Some before →
  StronglySorted Z.lt parts → Forall (λ p, 0 ≤ p < Z.of_nat n) parts →
  let indices_s := if bool_decide (v = before) then take n indices ++ [N] else indices in
  static_wf indices parts ∧ static_wf indices_s parts
  ∧ Forall (λ a, a ≤ N) indices_s
  ∧ agree indices indices_s parts.
Proof.
  intros HN Hv Hb Hps Hpr indices_s.
  assert (Hnd : NoDup parts) by (by apply StronglySorted_lt_NoDup).
  assert (Hpl : (length parts ≤ n)%nat).
  { rewrite <- (Nat2Z.id n), <- (length_seqZ 0 (Z.of_nat n)).
    apply submseteq_length, NoDup_submseteq; [done|].
    intros p Hp. rewrite Forall_forall in Hpr. apply elem_of_seqZ. specialize (Hpr p Hp). lia. }
  assert (Hr31 : Forall (λ a, 0 ≤ a < 2 ^ 31) indices).
  { eapply Forall_impl; [done|]. simpl. lia. }
  assert (Hst : static_wf indices parts).
  { split; [rewrite Hlen; lia|]. split; [done|]. split; [done|].
    eapply Forall_impl; [done|]. simpl. rewrite Hlen. lia. }
  assert (Hstart : ∀ c, c ∈ parts → start_of indices c = start_of indices_s c).
  { intros c Hc. rewrite Forall_forall in Hpr. specialize (Hpr c Hc).
    unfold indices_s. case_bool_decide; [|done]. unfold start_of.
    rewrite !vec_at_lookup by lia.
    by rewrite lookup_app_l, lookup_take_lt by (rewrite ?length_take; lia). }
  assert (Hstop : ∀ c, c ∈ parts → c + 1 < Z.of_nat n →
            stop_of indices c = stop_of indices_s c).
  { intros c Hc Hc1. rewrite Forall_forall in Hpr. specialize (Hpr c Hc).
    unfold indices_s. case_bool_decide; [|done]. unfold stop_of.
    rewrite !vec_at_lookup by lia.
    by rewrite lookup_app_l, lookup_take_lt by (rewrite ?length_take; lia). }
  assert (Hv0 : 0 ≤ v ≤ N).
  { rewrite Forall_forall in Hrange. apply Hrange. by eapply list_elem_of_lookup_2. }
  assert (Hstop' : ∀ c, c ∈ parts → stop_of indices c ≤ stop_of indices_s c).
  { intros c Hc. destruct (decide (c + 1 < Z.of_nat n)); [by rewrite Hstop|].
    rewrite Forall_forall in Hpr. specialize (Hpr c Hc).
    unfold indices_s. case_bool_decide; [|done]. unfold stop_of.
    rewrite !vec_at_lookup by lia. replace (Z.to_nat (c + 1)) with n by lia.
    rewrite Hv, lookup_app_r, length_take by (rewrite length_take; lia).
    replace (n - n `min` length indices)%nat with 0%nat by lia. simpl. lia. }
  assert (Hst_s : static_wf indices_s parts).
  { unfold indices_s. case_bool_decide; [|done].
    assert (Htake : indices = take n indices ++ [v]).
    { rewrite <- (take_drop_middle indices n v Hv) at 1. f_equal.
      rewrite drop_ge by lia. done. }
    split; [rewrite length_app, length_take; simpl; lia|]. split; [|split].
    - apply StronglySorted_snoc_le.
      + rewrite Htake in Hsorted. by apply StronglySorted_app_1_l in Hsorted.
      + apply Forall_forall. intros a Ha%subseteq_take.
        rewrite Forall_forall in Hrange. specialize (Hrange a Ha). lia.
    - apply Forall_app. split.
      + apply Forall_forall. intros a Ha%subseteq_take.
        rewrite Forall_forall in Hr31. by apply Hr31.
      + repeat constructor; lia.
    - eapply Forall_impl; [done|]. simpl.
      rewrite length_app, length_take. simpl. lia. }
  split; [done|]. split; [done|]. split; [|split].
  - unfold indices_s. case_bool_decide.
    + apply Forall_app. split; [|by repeat constructor].
      apply Forall_forall. intros a Ha%subseteq_take.
      rewrite Forall_forall in Hrange. specialize (Hrange a Ha). lia.
    + eapply Forall_impl; [exact Hrange|]. simpl. lia.
  - intros c Hc. split; [by apply Hstart|].
    pose proof (size_of_range indices parts c Hst Hc).
    unfold size_of in *. rewrite <- (Hstart c Hc). specialize (Hstop' c Hc). lia.
  - intros i Hi. apply cols_of_ext. intros c Hc.
    unfold size_of. rewrite <- Hstart by (by eapply subseteq_take).
    rewrite Hstop; [done|by eapply subseteq_take|].
    destruct (lookup_lt_is_Some_2 parts i Hi) as [c' Hc'].
    rewrite <- (take_drop i parts) in Hps.
    pose proof (StronglySorted_app_1_elem_of _ _ _ c c' Hps Hc) as Hlt.
    rewrite Forall_forall in Hpr.
    pose proof (Hpr c' (list_elem_of_lookup_2 _ _ _ Hc')).
    assert (c < c'); [|lia]. apply Hlt.
    apply list_elem_of_lookup. exists 0%nat. by rewrite lookup_drop, Nat.add_0_r.
Qed.
End Repair.

(** ** The stream of the windows *)

Lemma serve_S indices parts max_cols (fuel e x : nat) :
  serve indices parts max_cols fuel e = Some x →
  serve indices parts max_cols (S fuel) e = Some x.
Proof.
  revert e. induction fuel as [|fuel IH]; intros e; [done|].
  intros Hs. cbn [serve] in Hs |- *.
  case_bool_decide; [done|]. case_bool_decide; [done|]. by apply IH.
Qed.

Lemma serve_first indices parts max_cols (fuel e : nat) :
  serve indices parts max_cols fuel 0 = Some e →
  let w := window_at indices parts max_cols 0 in
  (w = [] ∨ cols_of indices w ≠ 0)
  ∧ serve indices parts max_cols fuel (length w) = Some e.
Proof.
  destruct fuel as [|fuel]; [done|]. intros Hs w. pose proof Hs as Hs'.
  cbn [serve] in Hs. fold w in Hs.
  case_bool_decide as Hw.
  - split; [by left|]. by rewrite Hw.
  - case_bool_decide as Hz; [done|]. split; [by right|]. by apply serve_S.
Qed.

(** ** The out-of-core query *)

Section Finite.
Context {SH : Heap.SortHeap} {SHL : Heap.SortHeapLaws}.
Context {V : Type} (L2 : V → V → Z) (junk : V).
Variables (db : dense_array V) (ids : dense_array Z) (centroids q : list V).
Variables (indices : list Z) (nprobe k_nn upper_bound : Z) (nthreads : nat).
Hypothesis Hwf : query_wf db ids centroids q indices nprobe.
Hypothesis Hlen : length indices = S (length centroids).
Hypothesis Hk : 0 ≤ k_nn.
Hypothesis Hub : 0 ≤ upper_bound.
Hypothesis HT : (0 < nthreads)%nat ∧ Z.of_nat nthreads < 2 ^ 63.

Lemma repaired_spec :
  Streamer.repair_last indices (Ivf.array_cols db)
  = Returned (repaired indices (Ivf.array_cols db)).
Proof.
  pose proof Hwf as [_ _ _ Hc _ _ Hs Hr].
  destruct (repair_last_spec indices (length centroids) (Ivf.array_cols db) Hc Hlen Hr)
    as (v & before & Hv & Hb & ->).
  f_equal. unfold repaired. rewrite Hlen.
  replace (S (length centroids) - 1)%nat with (length centroids) by lia.
  rewrite Hv, Hb. apply (f_equal (λ b : bool, if b then _ else _)).
  apply bool_decide_ext. split; congruence.
Qed.

(** The out-of-core query returns when the stream of the windows ends;
    the heaps then hold, for each query, the smallest candidates of the
    active partitions that have been served. *)
Lemma finite_spec :
  let top := Ivf.qv_query_nth L2 centroids q nprobe in
  let indices_s := repaired indices (Ivf.array_cols db) in
  ∃ active,
    StronglySorted Z.lt active
    ∧ (∀ c, c ∈ active ↔ ∃ (j : nat) col, top !! j = Some col ∧ c ∈ col)
    ∧ static_wf indices_s active
    ∧ agree indices indices_s active
    ∧ ∀ (fuel e : nat),
        serve indices_s active (capacity indices_s active upper_bound) fuel 0 = Some e →
        ∃ row0,
          Ivf.qv_query_heap_finite_ram L2 junk fuel db ids centroids q indices
            nprobe k_nn upper_bound (Z.of_nat nthreads)
          = Some (Returned (Ivf.top_k_column k_nn <$> row0))
          ∧ length row0 = length q
          ∧ ∀ j, (j < length q)%nat →
              ∃ h, row0 !! j = Some h
                   ∧ holds k_nn (served_all L2 db ids indices q top active
                                   (seqZ 0 (Z.of_nat e)) j) h.
Proof.
  intros top indices_s.
  pose proof Hwf as [_ _ (Horder & Htype & Hcdb & Hcids) Hc Hq Hnprobe Hs Hr].
  pose proof (array_cols_bound db ids centroids q indices nprobe Hwf) as HN.
  destruct (maps_loop L2 db ids centroids q indices nprobe Hwf)
    as (cq & active & Hmaps & Hactive & Hin & Her). fold top in Hmaps, Hin, Her.
  assert (Hpr : Forall (λ p, 0 ≤ p < Z.of_nat (length centroids)) active).
  { apply Forall_forall. intros c (j & col & Hcol & Hcin)%Hin.
    destruct (top_column L2 db ids centroids q indices nprobe Hwf j col Hcol) as (_ & Hcr & _).
    rewrite Forall_forall in Hcr. by apply Hcr. }
  destruct (repair_last_spec indices (length centroids) (Ivf.array_cols db) Hc Hlen Hr)
    as (v & before & Hv & Hb & _).
  destruct (repaired_agree indices (length centroids) (Ivf.array_cols db) Hc Hlen Hs Hr
              active v before ltac:(lia) Hv Hb Hactive Hpr)
    as (Hst & Hst_s & HsN & Hagree).
  assert (Hrep : (if bool_decide (v = before)
                  then take (length centroids) indices ++ [Ivf.array_cols db]
                  else indices) = indices_s).
  { unfold indices_s, repaired. rewrite Hlen.
    replace (S (length centroids) - 1)%nat with (length centroids) by lia.
    rewrite Hv, Hb. apply (f_equal (λ b : bool, if b then _ else _)).
    apply bool_decide_ext. split; congruence. }
  rewrite Hrep in Hst_s, HsN, Hagree.
  exists active. split; [done|]. split; [done|]. split; [done|]. split; [done|].
  intros fuel e Hserve.
  assert (Hcols_s : cols_of indices_s active ≤ Ivf.array_cols db).
  { pose proof (cols_of_sorted_le indices_s active (Ivf.array_cols db) 0 Hst_s Hactive HsN
                  ltac:(lia)) as Hle.
    rewrite Z.sub_0_r in Hle. apply Hle. apply Forall_forall. intros p Hp.
    destruct (part_in_range indices_s active p Hst_s Hp) as (st & ? & Hstp & _ & ? & _).
    unfold start_of. rewrite Hstp. simpl. lia. }
  assert (Hcols_q : cols_of indices active ≤ cols_of indices_s active).
  { destruct Hagree as [Hag _]. clear -Hag.
    induction active as [|c cs IH]; [done|]. rewrite !cols_of_cons.
    destruct (Hag c ltac:(by left)) as [_ ?].
    assert (cols_of indices cs ≤ cols_of indices_s cs); [|lia].
    apply IH. intros c' Hc'. apply Hag. by right. }
  destruct (serve_first _ _ _ _ _ Hserve) as [Hw0 Hserve'].
  destruct (make_spec junk db ids indices indices_s active upper_bound
              ltac:(done) repaired_spec Hst_s ltac:(lia) Hub Hw0) as (s & Hmake & Hinv).
  fold (capacity indices_s active upper_bound) in Hinv.
  assert (Htop : length top = length q) by apply length_top.
  assert (Hhold0 : heaps_hold k_nn nthreads (length q)
            (served_all L2 db ids indices q top active (seqZ 0 (Z.of_nat 0)))
            (replicate nthreads (replicate (length q) (Heap.empty k_nn)))).
  { split; [by rewrite length_replicate|]. split.
    - apply Forall_replicate. by rewrite length_replicate.
    - intros j Hj. exists (replicate nthreads []). split; [split|].
      + by rewrite !length_replicate.
      + intros n C [-> Hn]%lookup_replicate.
        exists (replicate (length q) (Heap.empty k_nn)), (Heap.empty k_nn).
        rewrite !lookup_replicate_2 by done. split; [done|]. split; [done|].
        by apply holds_empty.
      + unfold served_all. simpl. clear. induction nthreads; [done|]. done. }
  destruct (windows_spec L2 db ids indices indices_s active
              (capacity indices_s active upper_bound) q top cq k_nn nthreads
              Hcdb Hcids Hk Hagree Htop Her HT fuel 0 _ s _ e Hinv Hhold0 Hserve')
    as (ms & Hwin & Hhold).
  destruct (merge_spec k_nn nthreads (length q) Hk (proj1 HT) _ ms Hhold)
    as (merged & row0 & Hmerge & Hrow0 & Hrl & Hall).
  exists row0. split; [|split; [done|done]].
  unfold Ivf.qv_query_heap_finite_ram. fold top. rewrite Hmaps.
  rewrite (bool_decide_eq_true_2 (Z.of_nat (length indices) = _))
    by (rewrite wrap64_small; lia). cbn [negb].
  rewrite new_indices_loop by (done || lia).
  rewrite Hmake, Nat2Z.id, Hwin, Hmerge. cbn [bind].
  unfold read. change 0 with (Z.of_nat 0). by rewrite (vec_at_of_nat merged 0), Hrow0.
Qed.
End Finite.

(** ** The query on indices without their last slot *)

Lemma serve_le indices parts max_cols (fuel fuel' e x : nat) :
  (fuel ≤ fuel')%nat →
  serve indices parts max_cols fuel e = Some x →
  serve indices parts max_cols fuel' e = Some x.
Proof.
  induction 1 as [|fuel' _ IH]; [done|]. intros Hs. by apply serve_S, IH.
Qed.

(** When no active partition is empty the stream of windows ends. *)
Lemma serve_nonempty indices parts max_cols (r e : nat) :
  static_wf indices parts → Forall (λ p, size_of indices p ≠ 0) parts →
  (length parts - e ≤ r)%nat →
  ∃ x, serve indices parts max_cols (S r) e = Some x.
Proof.
  intros Hst Hne. revert e. induction r as [|r IH]; intros e Hr.
  - cbn [serve]. case_bool_decide as Hw; [by eexists|].
    destruct Hw. unfold window_at. by rewrite drop_ge, take_nil by lia.
  - cbn [serve]. case_bool_decide as Hw; [by eexists|].
    set (w := window_at indices parts max_cols e) in *.
    assert (Hsub : w ⊆ parts).
    { unfold w, window_at. etrans; [apply subseteq_take|apply subseteq_drop]. }
    rewrite bool_decide_eq_false_2.
    + apply IH. destruct w; [done|]. simpl. lia.
    + rewrite (cols_of_zero indices parts w Hst Hsub). intros Hall.
      destruct w as [|p w']; [done|]. apply Forall_cons in Hall as [Hp _].
      rewrite Forall_forall in Hne. apply (Hne p); [|done]. apply Hsub. by left.
Qed.

Section MissingSentinel.
Context {SH : Heap.SortHeap} {SHL : Heap.SortHeapLaws}.
Context {V : Type} (L2 : V → V → Z) (junk : V).
Variables (db : dense_array V) (ids : dense_array Z) (centroids q : list V).
Variables (indices : list Z) (nprobe k_nn upper_bound : Z) (nthreads : nat).
Hypothesis Hlen : length indices = length centroids.

(** The in-memory query appends the number of columns. *)
Lemma infinite_missing_sentinel :
  Ivf.qv_query_heap_infinite_ram L2 db ids centroids q indices nprobe k_nn
  = Ivf.qv_query_heap_infinite_ram L2 db ids centroids q
      (indices ++ [Ivf.array_cols db]) nprobe k_nn.
Proof.
  unfold Ivf.qv_query_heap_infinite_ram.
  rewrite (bool_decide_eq_true_2 (Z.of_nat (length indices) = Z.of_nat (length centroids)))
    by lia.
  rewrite (bool_decide_eq_false_2
             (Z.of_nat (length (indices ++ _)) = Z.of_nat (length centroids)))
    by (rewrite length_app; simpl; lia).
  done.
Qed.

(** The out-of-core query appends a copy of the last slot. *)
Lemma finite_missing_sentinel (fuel : nat) (v : Z) :
  Z.of_nat (length centroids) < 2 ^ 31 → last indices = Some v →
  Ivf.qv_query_heap_finite_ram L2 junk fuel db ids centroids q indices
    nprobe k_nn upper_bound (Z.of_nat nthreads)
  = Ivf.qv_query_heap_finite_ram L2 junk fuel db ids centroids q (indices ++ [v])
      nprobe k_nn upper_bound (Z.of_nat nthreads).
Proof.
  intros Hc Hv. unfold Ivf.qv_query_heap_finite_ram.
  destruct (for_each _ _ _) as [[cq active]| |]; [|done..].
  assert (Hn : (0 < length indices)%nat) by (destruct indices; [done|simpl; lia]).
  rewrite (wrap64_small (_ + 1)) by lia.
  rewrite (bool_decide_eq_false_2 (Z.of_nat (length indices) = _)) by lia.
  rewrite (bool_decide_eq_true_2 (Z.of_nat (length (indices ++ _)) = _))
    by (rewrite length_app; simpl; lia).
  cbn [negb].
  rewrite take_ge by lia.
  replace (Z.to_nat (Z.of_nat (length centroids) + 1) - length indices)%nat with 1%nat by lia.
  rewrite !wrap64_small by lia. cbn [replicate].
  rewrite vec_at_lookup by lia.
  rewrite lookup_app_l by lia.
  replace (Z.to_nat (Z.of_nat (length centroids) + 1 - 2)) with (length indices - 1)%nat by lia.
  rewrite last_lookup in Hv. replace (pred (length indices)) with (length indices - 1)%nat in Hv by lia.
  rewrite Hv.
  rewrite insert_app_r_alt by lia.
  replace (Z.to_nat (Z.of_nat (length centroids) + 1 - 1) - length indices)%nat with 0%nat by lia.
  done.
Qed.
End MissingSentinel.



Lemma elem_of_concat {A : Type} (x : A) (ls : list (list A)) :
  x ∈ concat ls ↔ ∃ l, x ∈ l ∧ l ∈ ls.
Proof.
  induction ls as [|l ls IH]; simpl.
  - rewrite elem_of_nil. split; [done|]. by intros (? & _ & ?%elem_of_nil).
  - rewrite elem_of_app, IH. split.
    + intros [?|(l' & ? & ?)]; [exists l; split; [done|by left]|].
      exists l'. split; [done|by right].
    + intros (l' & ? & [->|?]%elem_of_cons); [by left|right; by exists l'].
Qed.

Lemma repaired_missing (indices : list Z) (v N : Z) :
  last indices = Some v → repaired (indices ++ [v]) N = indices ++ [N].
Proof.
  intros Hv. unfold repaired. rewrite length_app. simpl.
  assert (Hn : (0 < length indices)%nat) by (destruct indices; [done|simpl; lia]).
  replace (length indices + 1 - 1)%nat with (length indices) by lia.
  rewrite lookup_app_r, Nat.sub_diag by lia. simpl.
  rewrite lookup_app_l by lia.
  rewrite last_lookup in Hv.
  replace (pred (length indices)) with (length indices - 1)%nat in Hv by lia.
  rewrite Hv, bool_decide_eq_true_2 by done.
  by rewrite take_app_length.
Qed.

Lemma sorted_last_max (l : list Z) (v : Z) :
  StronglySorted Z.le l → last l = Some v → Forall (λ a, a ≤ v) l.
Proof.
  intros Hs Hv. apply last_Some in Hv as [l' ->].
  apply Forall_app. split; [|by repeat constructor].
  apply Forall_forall. intros a Ha.
  apply (StronglySorted_app_1_elem_of _ _ _ a v Hs Ha). by left.
Qed.

(** C9, amended: a query whose [indices] have [nlist] entries, the last
    slot missing, and which is well formed once the number [N] of columns
    is appended.  The in-memory query appends [N] and returns what it
    returns with the slot.  The out-of-core query appends a copy of the
    last entry; the constructor of the streamer replaces this copy by [N];
    and the query returns a result when no probed partition is empty. *)
Theorem missing_sentinel_is_extended {SH : Heap.SortHeap} {SHL : Heap.SortHeapLaws}
    {V : Type} (L2 : V → V → Z) (junk : V)
    (db : dense_array V) (ids : dense_array Z) (centroids q : list V)
    (indices : list Z) (nprobe k_nn upper_bound : Z) (nthreads : nat) :
  query_wf db ids centroids q (indices ++ [Ivf.array_cols db]) nprobe →
  length indices = length centroids →
  0 ≤ k_nn → 0 ≤ upper_bound → (0 < nthreads)%nat → Z.of_nat nthreads < 2 ^ 63 →
  Forall (λ c, size_of (indices ++ [Ivf.array_cols db]) c ≠ 0)
    (concat (Ivf.qv_query_nth L2 centroids q nprobe)) →
  (Ivf.qv_query_heap_infinite_ram L2 db ids centroids q indices nprobe k_nn
   = Ivf.qv_query_heap_infinite_ram L2 db ids centroids q
       (indices ++ [Ivf.array_cols db]) nprobe k_nn
   ∧ ∃ r, Ivf.qv_query_heap_infinite_ram L2 db ids centroids q indices nprobe k_nn
          = Returned r)
  ∧ ∃ v, last indices = Some v
      ∧ (∀ fuel,
           Ivf.qv_query_heap_finite_ram L2 junk fuel db ids centroids q indices
             nprobe k_nn upper_bound (Z.of_nat nthreads)
           = Ivf.qv_query_heap_finite_ram L2 junk fuel db ids centroids q (indices ++ [v])
               nprobe k_nn upper_bound (Z.of_nat nthreads))
      ∧ Streamer.repair_last (indices ++ [v]) (Ivf.array_cols db)
        = Returned (indices ++ [Ivf.array_cols db])
      ∧ ∃ fuel r,
          Ivf.qv_query_heap_finite_ram L2 junk fuel db ids centroids q indices
            nprobe k_nn upper_bound (Z.of_nat nthreads)
          = Some (Returned r).
Proof.
  intros Hwf Hlen Hk Hub HT0 HT Hne.
  pose proof Hwf as [Hcols Hint Hflags Hc Hq Hnprobe Hs Hr].
  split.
  - rewrite (infinite_missing_sentinel L2 db ids centroids q indices nprobe k_nn Hlen).
    split; [done|]. eexists. apply (infinite_spec L2 db ids centroids q _ nprobe Hwf).
    rewrite length_app. simpl. lia.
  - assert (Hn : (0 < length indices)%nat) by lia.
    destruct (last indices) as [v|] eqn:Hv;
      [|apply last_None in Hv; subst; simpl in Hn; lia].
    exists v. split; [done|].
    assert (Hs' : StronglySorted Z.le indices) by (by apply StronglySorted_app_1_l in Hs).
    assert (Hr' : Forall (λ a, 0 ≤ a ≤ Ivf.array_cols db) indices)
      by (by apply Forall_app in Hr as [? _]).
    assert (Hv0 : 0 ≤ v ≤ Ivf.array_cols db).
    { rewrite Forall_forall in Hr'. apply Hr'. rewrite last_lookup in Hv.
      by eapply list_elem_of_lookup_2. }
    assert (Hwf' : query_wf db ids centroids q (indices ++ [v]) nprobe).
    { split; try done.
      - apply StronglySorted_snoc_le; [done|]. by apply sorted_last_max.
      - apply Forall_app. split; [done|]. constructor; [done|constructor]. }
    assert (Hfin : ∀ fuel,
      Ivf.qv_query_heap_finite_ram L2 junk fuel db ids centroids q indices
        nprobe k_nn upper_bound (Z.of_nat nthreads)
      = Ivf.qv_query_heap_finite_ram L2 junk fuel db ids centroids q (indices ++ [v])
          nprobe k_nn upper_bound (Z.of_nat nthreads)).
    { intros fuel. apply finite_missing_sentinel; [done|lia|done]. }
    split; [done|].
    assert (Hlen' : length (indices ++ [v]) = S (length centroids))
      by (rewrite length_app; simpl; lia).
    split.
    { rewrite (repaired_spec db ids centroids q (indices ++ [v]) nprobe nthreads
                 Hwf' Hlen' (conj HT0 HT)).
      by rewrite repaired_missing. }
    destruct (finite_spec L2 junk db ids centroids q (indices ++ [v]) nprobe k_nn
                upper_bound nthreads Hwf' Hlen' Hk Hub (conj HT0 HT))
      as (active & Hactive & Hin & Hst & _ & Hrun).
    rewrite repaired_missing in Hst, Hrun by done.
    destruct (serve_nonempty (indices ++ [Ivf.array_cols db]) active
                (capacity (indices ++ [Ivf.array_cols db]) active upper_bound)
                (length active) 0 Hst) as [e He]; [|lia|].
    { apply Forall_forall. intros c (j & col & Hcol & Hc')%Hin.
      rewrite Forall_forall in Hne. apply Hne.
      apply elem_of_concat. exists col. split; [done|].
      by eapply list_elem_of_lookup_2. }
    destruct (Hrun _ _ He) as (row0 & Hres & _).
    exists (S (length active)). eexists. rewrite Hfin. exact Hres.
Qed.

(** C9, a counterexample: two centroids, [indices = [0; 0]] without the
    last slot, and a query whose nearest centroid is the first, an empty
    partition.  The in-memory query returns (a column of unwritten ids);
    the out-of-core query throws: the streamer raises
    [InvalidPartitioning] for its window of one empty partition. *)
Lemma missing_sentinel_invalid_partitioning :
  Ivf.qv_query_heap_infinite_ram example_L2 example_db example_ids
    [[0]; [100]] [[1]] [0; 0] 1 2
  = Returned [[None; None]]
  ∧ Ivf.qv_query_heap_finite_ram example_L2 [] 5 example_db example_ids
      [[0]; [100]] [[1]] [0; 0] 1 2 0 2
    = Some (Thrown InvalidPartitioning).
Proof. by vm_compute. Qed.

(** The offsets of the out-of-core query are computed before the repair:
    the last partition has no columns for it, and a query that probes the
    last partition only gets nothing, where the in-memory query finds the
    two nearest vectors. *)
Lemma missing_sentinel_skips_the_last_partition :
  Ivf.qv_query_heap_infinite_ram example_L2 example_db example_ids
    [[2]; [7]] [[8]] [0; 4] 1 2
  = Returned [[Some 1008; Some 1007]]
  ∧ Ivf.qv_query_heap_finite_ram example_L2 [] 5 example_db example_ids
      [[2]; [7]] [[8]] [0; 4] 1 2 0 2
    = Some (Returned [[None; None]]).
Proof. by vm_compute. Qed.

Lemma missing_sentinel_is_extended_witness :
  (Ivf.qv_query_heap_infinite_ram example_L2 example_db example_ids
     [[2]; [7]] [[1]; [8]] [0; 4] 1 2
   = Ivf.qv_query_heap_infinite_ram example_L2 example_db example_ids
       [[2]; [7]] [[1]; [8]] ([0; 4] ++ [Ivf.array_cols example_db]) 1 2
   ∧ ∃ r, Ivf.qv_query_heap_infinite_ram example_L2 example_db example_ids
            [[2]; [7]] [[1]; [8]] [0; 4] 1 2
          = Returned r)
  ∧ ∃ v, last [0; 4] = Some v
      ∧ (∀ fuel,
           Ivf.qv_query_heap_finite_ram example_L2 [] fuel example_db example_ids
             [[2]; [7]] [[1]; [8]] [0; 4] 1 2 0 (Z.of_nat 2)
           = Ivf.qv_query_heap_finite_ram example_L2 [] fuel example_db example_ids
               [[2]; [7]] [[1]; [8]] ([0; 4] ++ [v]) 1 2 0 (Z.of_nat 2))
      ∧ Streamer.repair_last ([0; 4] ++ [v]) (Ivf.array_cols example_db)
        = Returned ([0; 4] ++ [Ivf.array_cols example_db])
      ∧ ∃ fuel r,
          Ivf.qv_query_heap_finite_ram example_L2 [] fuel example_db example_ids
            [[2]; [7]] [[1]; [8]] [0; 4] 1 2 0 (Z.of_nat 2)
          = Some (Returned r).
Proof.
  apply (missing_sentinel_is_extended example_L2 [] example_db example_ids
           [[2]; [7]] [[1]; [8]] [0; 4] 1 2 0 2).
  - split; simpl; try done; try lia.
    + repeat constructor; vm_compute; congruence.
    + repeat constructor; vm_compute; congruence.
  - reflexivity.
  - lia.
  - lia.
  - lia.
  - simpl. lia.
  - vm_compute. repeat constructor; congruence.
Defined.

(** ** The two queries agree *)

Lemma active_partitions_sorted (top : list (list Z)) :
  StronglySorted Z.lt (active_partitions top).
Proof.
  unfold active_partitions. induction (concat top) as [|c cs IH]; simpl; [constructor|].
  by apply set_emplace_sorted.
Qed.

Lemma elem_of_active_partitions (top : list (list Z)) (c : Z) :
  c ∈ active_partitions top ↔ ∃ (j : nat) col, top !! j = Some col ∧ c ∈ col.
Proof.
  unfold active_partitions.
  trans (c ∈ concat top).
  - induction (concat top) as [|c' cs IH]; simpl; [done|].
    rewrite elem_of_set_emplace, elem_of_cons, IH. done.
  - rewrite elem_of_concat. split.
    + intros (col & Hc & [j Hj]%list_elem_of_lookup). by exists j, col.
    + intros (j & col & Hj & Hc). exists col. split; [done|].
      by eapply list_elem_of_lookup_2.
Qed.

Lemma sorted_lt_unique (l1 l2 : list Z) :
  StronglySorted Z.lt l1 → StronglySorted Z.lt l2 → (∀ x, x ∈ l1 ↔ x ∈ l2) → l1 = l2.
Proof.
  intros H1 H2 Hin. apply (StronglySorted_unique_strong Z.lt); [|done|done|].
  - intros x1 x2 _ _ ? ?. lia.
  - apply NoDup_Permutation; [by apply StronglySorted_lt_NoDup..|done].
Qed.

Lemma greedy_all (room : Z) (sizes : list Z) :
  Forall (λ sz, 0 ≤ sz) sizes → foldr Z.add 0 sizes ≤ room →
  greedy room sizes = length sizes.
Proof.
  intros Hall. revert room.
  induction Hall as [|sz sizes Hsz Hall IH]; intros room Hsum; [done|].
  simpl in *.
  assert (0 ≤ foldr Z.add 0 sizes).
  { clear -Hall. induction Hall; simpl; [done|lia]. }
  rewrite bool_decide_eq_true_2 by lia. f_equal. apply IH. lia.
Qed.

(** With a permissive [upper_bound] one window holds all the active
    partitions, and the stream ends after it. *)
Lemma serve_permissive indices parts (upper_bound : Z) (fuel : nat) :
  static_wf indices parts → cols_of indices parts < 2 ^ 31 →
  upper_bound = 0 ∨ cols_of indices parts ≤ upper_bound →
  parts = [] ∨ cols_of indices parts ≠ 0 →
  (2 ≤ fuel)%nat →
  serve indices parts (capacity indices parts upper_bound) fuel 0 = Some (length parts).
Proof.
  intros Hst H31 Hub Hne Hfuel.
  assert (H0 : 0 ≤ cols_of indices parts) by (by eapply cols_of_nonneg).
  assert (Hcap : capacity indices parts upper_bound = cols_of indices parts).
  { unfold capacity. rewrite wrap64_small by lia.
    do 2 case_bool_decide; simpl; lia. }
  rewrite Hcap. apply (serve_le _ _ _ 2); [done|].
  assert (Hw : window_at indices parts (cols_of indices parts) 0 = parts).
  { unfold window_at. rewrite drop_0, greedy_all.
    - by rewrite length_fmap, firstn_all.
    - apply Forall_fmap, Forall_forall. intros p Hp. simpl.
      by eapply size_of_range.
    - done. }
  cbn [serve]. rewrite Hw.
  destruct Hne as [->|Hne]; [done|].
  rewrite bool_decide_eq_false_2 by (intros ->; by apply Hne).
  rewrite (bool_decide_eq_false_2 _ Hne). simpl.
  assert (Hw' : window_at indices parts (cols_of indices parts) (length parts) = []).
  { unfold window_at. by rewrite drop_all, take_nil. }
  by rewrite Hw'.
Qed.

(** *** The candidates of the active partitions are those of the probed
    ones *)

Lemma fmap_vec_at {A B : Type} (g : option A → B) (l : list A) :
  (λ p, g (vec_at l p)) <$> seqZ 0 (Z.of_nat (length l)) = (λ c, g (Some c)) <$> l.
Proof.
  apply list_eq. intros i. rewrite !list_lookup_fmap.
  destruct (decide (i < length l)%nat) as [Hi|Hi].
  - rewrite lookup_seqZ_lt by lia. simpl. rewrite Z.add_0_l, vec_at_of_nat.
    by destruct (lookup_lt_is_Some_2 l i Hi) as [c ->].
  - rewrite lookup_seqZ_ge by lia. by rewrite lookup_ge_None_2 by lia.
Qed.

Lemma concat_filter {A B : Type} (P : A → Prop) `{!∀ x, Decision (P x)}
    (g : A → list B) (l : list A) :
  concat ((λ c, if bool_decide (P c) then g c else []) <$> l) = concat (g <$> filter P l).
Proof.
  induction l as [|c l IH]; [done|]. rewrite filter_cons, fmap_cons. cbn [concat].
  rewrite IH. destruct (decide (P c)) as [Hc|Hc].
  - by rewrite (bool_decide_eq_true_2 _ Hc).
  - by rewrite (bool_decide_eq_false_2 _ Hc).
Qed.

Lemma concat_fmap_Permutation {A B : Type} (g : A → list B) (l1 l2 : list A) :
  l1 ≡ₚ l2 → concat (g <$> l1) ≡ₚ concat (g <$> l2).
Proof.
  induction 1 as [|x l1 l2 _ IH|x y l|l1 l2 l3 _ IH1 _ IH2]; simpl.
  - done.
  - by rewrite IH.
  - rewrite !app_assoc. apply Permutation_app_tail, Permutation_app_comm.
  - by rewrite IH1.
Qed.

Lemma served_all_probed {V : Type} (L2 : V → V → Z) (db : dense_array V)
    (ids : dense_array Z) (indices : list Z) (q : list V) (top : list (list Z))
    (active : list Z) (j : nat) q_vec col :
  q !! j = Some q_vec → top !! j = Some col → NoDup col →
  StronglySorted Z.lt active → (∀ c, c ∈ col → c ∈ active) →
  served_all L2 db ids indices q top active (seqZ 0 (Z.of_nat (length active))) j
  ≡ₚ probed_candidates L2 db ids indices q_vec col.
Proof.
  intros Hq Hcol Hnd Hactive Hsub. unfold served_all, probed_candidates.
  unfold served_candidates. rewrite Hq, Hcol. simpl.
  rewrite (fmap_vec_at (λ o : option Z,
             match o with
             | Some c => if bool_decide (c ∈ col)
                         then candidates L2 db ids indices q_vec c else []
             | None => []
             end) active).
  rewrite (concat_filter (λ c, c ∈ col)).
  apply concat_fmap_Permutation, NoDup_Permutation; [|done|].
  - by apply NoDup_filter, StronglySorted_lt_NoDup.
  - intros c. rewrite list_elem_of_filter. split; [tauto|]. intros Hc. split; [done|auto].
Qed.

(** *** The k smallest of candidates with distinct scores *)

Lemma NoDup_fmap_eq {A B : Type} (f : A → B) (l : list A) (x y : A) :
  NoDup (f <$> l) → x ∈ l → y ∈ l → f x = f y → x = y.
Proof.
  induction l as [|z l IH]; [by intros _ ?%elem_of_nil|].
  rewrite fmap_cons, NoDup_cons, !elem_of_cons. intros [Hz Hnd] [->|Hx] [->|Hy] Heq.
  - done.
  - destruct Hz. rewrite Heq. by apply list_elem_of_fmap_2.
  - destruct Hz. rewrite <- Heq. by apply list_elem_of_fmap_2.
  - by apply IH.
Qed.

Lemma k_smallest_unique (k : Z) (C held1 held2 : list (Z * Z)) :
  NoDup C.*1 → k_smallest k C held1 → k_smallest k C held2 → held1 ≡ₚ held2.
Proof.
  intros Hnd (rest1 & HC1 & Hlen1 & Hle1) (rest2 & HC2 & Hlen2 & Hle2).
  assert (HndC : NoDup C) by (by eapply NoDup_fmap_1).
  assert (Hnd1 : NoDup held1).
  { rewrite HC1 in HndC. by apply NoDup_app in HndC as (? & _ & _). }
  assert (Hnd2 : NoDup held2).
  { rewrite HC2 in HndC. by apply NoDup_app in HndC as (? & _ & _). }
  assert (Hin1 : ∀ a, a ∈ C ↔ a ∈ held1 ∨ a ∈ rest1).
  { intros a. by rewrite HC1, elem_of_app. }
  assert (Hin2 : ∀ a, a ∈ C ↔ a ∈ held2 ∨ a ∈ rest2).
  { intros a. by rewrite HC2, elem_of_app. }
  destruct (decide (Forall (λ a, a ∈ held2) held1)) as [Hall|Hnot].
  - apply submseteq_length_Permutation; [|lia].
    apply NoDup_submseteq; [done|]. by apply Forall_forall.
  - apply not_Forall_Exists in Hnot; [|apply _].
    apply Exists_exists in Hnot as (a & Ha1 & Ha2). simpl in Ha2.
    assert (Har : a ∈ rest2).
    { destruct (proj1 (Hin2 a)); [apply Hin1; by left|done|done]. }
    symmetry. apply submseteq_length_Permutation; [|lia].
    apply NoDup_submseteq; [done|]. intros b Hb2.
    destruct (proj1 (Hin1 b)) as [|Hbr]; [apply Hin2; by left|done|].
    destruct Ha2. replace a with b; [done|].
    apply (NoDup_fmap_eq fst C); [done|apply Hin2; by left|apply Hin1; by left|].
    pose proof (Hle1 a b Ha1 Hbr). pose proof (Hle2 b a Hb2 Har). lia.
Qed.

(** Pairs of pairwise distinct scores have one arrangement by increasing
    score. *)
Lemma sorted_by_score_unique (l1 l2 : list (Z * Z)) :
  NoDup l1.*1 →
  Sorted (λ a b : Z * Z, a.1 ≤ b.1) l1 → Sorted (λ a b : Z * Z, a.1 ≤ b.1) l2 →
  l1 ≡ₚ l2 → l1 = l2.
Proof.
  intros Hnd H1 H2 Hp.
  assert (Htr : Transitive (λ a b : Z * Z, a.1 ≤ b.1)) by (intros a b c; lia).
  apply (Sorted_unique_strong (λ a b : Z * Z, a.1 ≤ b.1)); [|done..].
  intros a b Ha Hb Hab Hba.
  apply (NoDup_fmap_eq fst l1); [done|done|by rewrite Hp|lia].
Qed.

(** So [std::sort_heap] does not depend on the layout of a heap whose
    scores are pairwise distinct. *)
Lemma sort_heap_unique {SH : Heap.SortHeap} {SHL : Heap.SortHeapLaws} (l1 l2 : list (Z * Z)) :
  NoDup l1.*1 → l1 ≡ₚ l2 →
  Heap.sort_heap Heap.tuple_lt l1 = Heap.sort_heap Heap.tuple_lt l2.
Proof.
  intros Hnd Hp. apply sorted_by_score_unique.
  - by rewrite (sort_heap_Permutation Heap.tuple_lt l1).
  - apply sort_heap_tuple_lt_sorted.
  - apply sort_heap_tuple_lt_sorted.
  - by rewrite !sort_heap_Permutation.
Qed.

Lemma k_smallest_NoDup (k : Z) (C held : list (Z * Z)) :
  NoDup C.*1 → k_smallest k C held → NoDup held.*1.
Proof.
  intros Hnd (rest & HC & _). rewrite HC, fmap_app in Hnd.
  by apply NoDup_app in Hnd as (? & _ & _).
Qed.

Lemma top_k_column_unique {SH : Heap.SortHeap} {SHL : Heap.SortHeapLaws} (k : Z) (C : list (Z * Z))
    (h1 h2 : Heap.fixed_min_pair_heap) :
  NoDup C.*1 → holds k C h1 → holds k C h2 →
  Ivf.top_k_column k h1 = Ivf.top_k_column k h2.
Proof.
  intros Hnd [_ H1] [_ H2]. unfold Ivf.top_k_column.
  by rewrite (sort_heap_unique _ _ (k_smallest_NoDup k C _ Hnd H1)
                (k_smallest_unique k C _ _ Hnd H1 H2)).
Qed.

Lemma cols_of_int indices parts :
  static_wf indices parts → StronglySorted Z.lt parts → cols_of indices parts < 2 ^ 31.
Proof.
  intros Hst Hsorted.
  pose proof (cols_of_sorted_le indices parts (2 ^ 31 - 1) 0 Hst Hsorted) as Hle.
  rewrite Z.sub_0_r in Hle.
  enough (cols_of indices parts ≤ 2 ^ 31 - 1) by lia. apply Hle.
  - destruct Hst as (_ & _ & Hb & _). eapply Forall_impl; [exact Hb|]. simpl. intros. lia.
  - lia.
  - apply Forall_forall. intros p Hp.
    destruct (part_in_range indices parts p Hst Hp) as (st & ? & Hstp & _ & ? & _).
    unfold start_of. rewrite Hstp. simpl. lia.
Qed.

(** C1, amended.  On well-formed input (the indices have their last
    slot), with a permissive [upper_bound] (0, or at least the number of
    columns of the active partitions as the streamer counts them), when
    some active partition holds a column (or no partition is probed), and
    when the candidates of every query have pairwise distinct scores, the
    out-of-core query returns, with fuel for two windows, what the
    in-memory query returns, which is a matrix of ids. *)
Theorem finite_ram_equals_infinite_ram {SH : Heap.SortHeap} {SHL : Heap.SortHeapLaws}
    {V : Type} (L2 : V → V → Z) (junk : V)
    (db : dense_array V) (ids : dense_array Z) (centroids q : list V) (indices : list Z)
    (nprobe k_nn upper_bound : Z) (nthreads fuel : nat) :
  query_wf db ids centroids q indices nprobe →
  length indices = S (length centroids) →
  0 ≤ k_nn → (0 < nthreads)%nat → Z.of_nat nthreads < 2 ^ 63 →
  upper_bound = 0
  ∨ cols_of (repaired indices (Ivf.array_cols db))
      (active_partitions (Ivf.qv_query_nth L2 centroids q nprobe)) ≤ upper_bound →
  active_partitions (Ivf.qv_query_nth L2 centroids q nprobe) = []
  ∨ cols_of (repaired indices (Ivf.array_cols db))
      (active_partitions (Ivf.qv_query_nth L2 centroids q nprobe)) ≠ 0 →
  (∀ (j : nat) q_vec col,
     q !! j = Some q_vec → Ivf.qv_query_nth L2 centroids q nprobe !! j = Some col →
     NoDup (probed_candidates L2 db ids indices q_vec col).*1) →
  (2 ≤ fuel)%nat →
  Ivf.qv_query_heap_finite_ram L2 junk fuel db ids centroids q indices
    nprobe k_nn upper_bound (Z.of_nat nthreads)
  = Some (Ivf.qv_query_heap_infinite_ram L2 db ids centroids q indices nprobe k_nn)
  ∧ ∃ top_k,
      Ivf.qv_query_heap_infinite_ram L2 db ids centroids q indices nprobe k_nn
      = Returned top_k.
Proof.
  intros Hwf Hlen Hk HT0 HT Hub Hne Hties Hfuel.
  rewrite (infinite_spec L2 db ids centroids q indices nprobe Hwf k_nn) by lia.
  split; [|by eexists].
  assert (Hub0 : 0 ≤ upper_bound).
  { destruct Hub as [->|Hub]; [done|].
    destruct (finite_spec L2 junk db ids centroids q indices nprobe k_nn 0 nthreads
                Hwf Hlen Hk ltac:(done) (conj HT0 HT)) as (active & Hs & Hin & Hst & _).
    assert (Hact : active_partitions (Ivf.qv_query_nth L2 centroids q nprobe) = active).
    { apply sorted_lt_unique; [apply active_partitions_sorted|done|].
      intros c. by rewrite elem_of_active_partitions, Hin. }
    rewrite Hact in Hub.
    pose proof (cols_of_nonneg _ _ _ Hst (reflexivity _)). lia. }
  destruct (finite_spec L2 junk db ids centroids q indices nprobe k_nn upper_bound nthreads
              Hwf Hlen Hk Hub0 (conj HT0 HT)) as (active & Hs & Hin & Hst & _ & Hrun).
  assert (Hact : active_partitions (Ivf.qv_query_nth L2 centroids q nprobe) = active).
  { apply sorted_lt_unique; [apply active_partitions_sorted|done|].
    intros c. by rewrite elem_of_active_partitions, Hin. }
  rewrite Hact in Hub, Hne.
  destruct (Hrun fuel (length active)) as (row0 & -> & Hrl & Hrow).
  { apply serve_permissive; [done|by apply cols_of_int|done|done|done]. }
  do 2 f_equal. apply list_eq. intros j.
  rewrite list_lookup_fmap, lookup_zip_with.
  destruct (decide (j < length q)%nat) as [Hj|Hj].
  - destruct (Hrow j Hj) as (h & -> & Hh).
    destruct (lookup_lt_is_Some_2 q j Hj) as [q_vec Hq].
    destruct (lookup_lt_is_Some_2 (Ivf.qv_query_nth L2 centroids q nprobe) j) as [col Hcol].
    { by rewrite length_top. }
    rewrite Hq, Hcol. simpl. f_equal.
    destruct (top_column L2 db ids centroids q indices nprobe Hwf j col Hcol) as (Hnd & _).
    apply (top_k_column_unique k_nn (probed_candidates L2 db ids indices q_vec col)).
    + by eapply Hties.
    + eapply holds_Permutation; [|exact Hh].
      apply served_all_probed; [done|done|done|done|].
      intros c Hc. apply Hin. by exists j, col.
    + apply (holds_insert_all k_nn [] _ (Heap.empty k_nn)); [done|by apply holds_empty].
  - rewrite (lookup_ge_None_2 row0) by lia. by rewrite (lookup_ge_None_2 q) by lia.
Qed.

(** C1, a counterexample: ten vectors [0 .. 9] in two partitions of five,
    centroids 2 and 7, one query vector 5 that probes both partitions,
    [k_nn = 2], [upper_bound = 0].  The vectors 4 and 6 are at the same
    distance of the query.  The in-memory query visits the partitions
    from the nearest centroid on and keeps 6 (id 1006), seen first; the
    out-of-core query visits them in ascending order and keeps 4
    (id 1004). *)
Lemma finite_ram_differs_on_equal_scores :
  Ivf.qv_query_heap_infinite_ram example_L2 example_db example_ids
    [[2]; [7]] [[5]] [0; 5; 10] 2 2
  = Returned [[Some 1005; Some 1006]]
  ∧ Ivf.qv_query_heap_finite_ram example_L2 [] 5 example_db example_ids
      [[2]; [7]] [[5]] [0; 5; 10] 2 2 0 1
    = Some (Returned [[Some 1005; Some 1004]]).
Proof. by vm_compute. Qed.

Lemma finite_ram_equals_infinite_ram_witness :
  Ivf.qv_query_heap_finite_ram example_L2 [] 2 example_db example_ids
    [[2]; [7]] [[0]; [9]] [0; 5; 10] 2 3 0 (Z.of_nat 2)
  = Some (Ivf.qv_query_heap_infinite_ram example_L2 example_db example_ids
            [[2]; [7]] [[0]; [9]] [0; 5; 10] 2 3)
  ∧ ∃ top_k,
      Ivf.qv_query_heap_infinite_ram example_L2 example_db example_ids
        [[2]; [7]] [[0]; [9]] [0; 5; 10] 2 3
      = Returned top_k.
Proof.
  apply (finite_ram_equals_infinite_ram example_L2 [] example_db example_ids
           [[2]; [7]] [[0]; [9]] [0; 5; 10] 2 3 0 2 2).
  - split; simpl; try done; try lia.
    + repeat constructor; vm_compute; congruence.
    + repeat constructor; vm_compute; congruence.
  - reflexivity.
  - lia.
  - lia.
  - simpl. lia.
  - by left.
  - right. vm_compute. congruence.
  - intros [|[|j]] q_vec col Hq Hcol; simpl in Hq; [| |discriminate].
    + injection Hq as <-. vm_compute in Hcol. injection Hcol as <-.
      apply (bool_decide_unpack _). by vm_compute.
    + injection Hq as <-. vm_compute in Hcol. injection Hcol as <-.
      apply (bool_decide_unpack _). by vm_compute.
  - lia.
Defined.

(** * Further properties *)

(** ** The queries: what they return *)

Lemma repaired_last (indices : list Z) (N : Z) :
  last indices = Some N → repaired indices N = indices.
Proof.
  intros Hlast. unfold repaired. cbv zeta. case_bool_decide; [|done].
  rewrite last_lookup in Hlast.
  replace (Nat.pred (length indices)) with (length indices - 1)%nat in Hlast by lia.
  rewrite <- (take_drop_middle indices (length indices - 1) N Hlast) at 3.
  f_equal. f_equal. rewrite drop_ge; [done|].
  apply lookup_lt_Some in Hlast. lia.
Qed.

(** The column that the final loop writes for a heap that holds the
    smallest candidates. *)
Lemma top_k_column_holds {SH : Heap.SortHeap} {SHL : Heap.SortHeapLaws} (k : Z) (C : list (Z * Z))
    (h : Heap.fixed_min_pair_heap) :
  holds k C h →
  ∃ held,
    k_smallest k C held ∧ Sorted (λ a b : Z * Z, a.1 ≤ b.1) held
    ∧ Ivf.top_k_column k h = id_column k held.
Proof.
  intros [Hcap Hsm]. exists (Heap.sort_heap Heap.tuple_lt (Heap.items h)).
  assert (Hp : Heap.sort_heap Heap.tuple_lt (Heap.items h) ≡ₚ Heap.items h)
    by apply sort_heap_Permutation.
  split; [|split].
  - destruct Hsm as (rest & HC & Hlen & Hle). exists rest.
    split; [by rewrite Hp|]. split; [by rewrite Hp|].
    intros a b Ha. apply Hle. by rewrite <- Hp.
  - apply sort_heap_tuple_lt_sorted.
  - unfold Ivf.top_k_column, id_column, overwrite. f_equal.
    rewrite !length_fmap, drop_replicate. done.
Qed.

(** X1.  On well-formed input the in-memory query returns one column per
    query vector; the column of a query holds the ids of the [k_nn]
    candidates of its probed partitions that have the smallest scores (all
    the candidates when there are fewer), by increasing score (the order of the
    ids of equal score is the one that [std::sort_heap] leaves, whatever
    it is), and the slots after them are not written. *)
Theorem infinite_ram_returns_the_nearest_candidates {SH : Heap.SortHeap} {SHL : Heap.SortHeapLaws}
    {V : Type} (L2 : V → V → Z)
    (db : dense_array V) (ids : dense_array Z) (centroids q : list V) (indices : list Z)
    (nprobe k_nn : Z) :
  query_wf db ids centroids q indices nprobe →
  length indices = S (length centroids) →
  0 ≤ k_nn →
  ∃ top_k,
    Ivf.qv_query_heap_infinite_ram L2 db ids centroids q indices nprobe k_nn
    = Returned top_k
    ∧ length top_k = length q
    ∧ ∀ (j : nat) q_vec col,
        q !! j = Some q_vec →
        Ivf.qv_query_nth L2 centroids q nprobe !! j = Some col →
        ∃ held,
          k_smallest k_nn (probed_candidates L2 db ids indices q_vec col) held
          ∧ Sorted (λ a b : Z * Z, a.1 ≤ b.1) held
          ∧ top_k !! j = Some (id_column k_nn held).
Proof.
  intros Hwf Hlen Hk.
  rewrite (infinite_spec L2 db ids centroids q indices nprobe Hwf k_nn) by lia.
  eexists. split; [done|]. split.
  - rewrite length_zip_with, (length_top L2 centroids q nprobe). lia.
  - intros j q_vec col Hq Hcol.
    destruct (top_k_column_holds k_nn (probed_candidates L2 db ids indices q_vec col)
                (Heap.insert_all Z.ltb (probed_candidates L2 db ids indices q_vec col)
                   (Heap.empty k_nn))) as (held & Hsm & Hsorted & Heq).
    { apply (holds_insert_all k_nn [] _ (Heap.empty k_nn)); [done|by apply holds_empty]. }
    exists held. split; [done|]. split; [done|].
    by rewrite lookup_zip_with, Hq, Hcol, <- Heq.
Qed.

Lemma infinite_ram_returns_the_nearest_candidates_witness :
  ∃ top_k,
    Ivf.qv_query_heap_infinite_ram example_L2 example_db example_ids
      [[2]; [7]] [[0]; [9]] [0; 5; 10] 1 3
    = Returned top_k
    ∧ length top_k = length [[0]; [9]]
    ∧ ∀ (j : nat) q_vec col,
        [[0]; [9]] !! j = Some q_vec →
        Ivf.qv_query_nth example_L2 [[2]; [7]] [[0]; [9]] 1 !! j = Some col →
        ∃ held,
          k_smallest 3 (probed_candidates example_L2 example_db example_ids
                          [0; 5; 10] q_vec col) held
          ∧ Sorted (λ a b : Z * Z, a.1 ≤ b.1) held
          ∧ top_k !! j = Some (id_column 3 held).
Proof.
  apply (infinite_ram_returns_the_nearest_candidates example_L2 example_db example_ids
           [[2]; [7]] [[0]; [9]] [0; 5; 10] 1 3).
  - split; simpl; try done; try lia.
    + repeat constructor; vm_compute; congruence.
    + repeat constructor; vm_compute; congruence.
  - reflexivity.
  - lia.
Defined.

(** ** The out-of-core query: the stream of its windows *)

(** When every partition holds a column and fits in the capacity, the
    stream of the windows serves all the partitions. *)
Lemma serve_complete indices parts (max_cols : Z) (r e : nat) :
  static_wf indices parts →
  Forall (λ p, 0 < size_of indices p ≤ max_cols) parts →
  (e ≤ length parts)%nat → (length parts - e ≤ r)%nat →
  serve indices parts max_cols (S r) e = Some (length parts).
Proof.
  intros Hst Hall. revert e. induction r as [|r IH]; intros e He Hr.
  - assert (e = length parts) as -> by lia.
    cbn [serve]. unfold window_at. by rewrite drop_all.
  - cbn [serve].
    destruct (drop e parts) as [|p rest] eqn:Hdrop.
    { assert (e = length parts) as ->.
      { apply (f_equal length) in Hdrop. rewrite length_drop in Hdrop. simpl in Hdrop. lia. }
      unfold window_at. by rewrite drop_all. }
    assert (Hp : p ∈ parts).
    { apply (subseteq_drop e parts). rewrite Hdrop. left. }
    rewrite Forall_forall in Hall. pose proof (Hall p Hp) as Hsz.
    assert (Hw : ∃ w', window_at indices parts max_cols e = p :: w').
    { unfold window_at. rewrite Hdrop. simpl.
      rewrite bool_decide_eq_true_2 by lia. by eexists. }
    destruct Hw as [w' Hw]. rewrite Hw.
    rewrite bool_decide_eq_false_2 by done.
    assert (Hsub : p :: w' ⊆ parts).
    { rewrite <- Hw. unfold window_at. etrans; [apply subseteq_take|apply subseteq_drop]. }
    assert (0 ≤ cols_of indices w').
    { eapply cols_of_nonneg; [done|]. intros x Hx. apply Hsub. by right. }
    rewrite bool_decide_eq_false_2 by (rewrite cols_of_cons; lia).
    destruct (window_at_length indices parts max_cols e) as [Hle|Hnil];
      [|by rewrite Hw in Hnil].
    rewrite Hw in Hle. apply IH; [done|]. simpl in *. lia.
Qed.

(** The out-of-core query on indices that have their last slot: the
    streamer keeps them, and the heaps hold the smallest candidates of the
    active partitions that the stream has served. *)
Lemma finite_served {SH : Heap.SortHeap} {SHL : Heap.SortHeapLaws}
    {V : Type} (L2 : V → V → Z) (junk : V)
    (db : dense_array V) (ids : dense_array Z) (centroids q : list V) (indices : list Z)
    (nprobe k_nn upper_bound : Z) (nthreads : nat) :
  query_wf db ids centroids q indices nprobe →
  length indices = S (length centroids) →
  last indices = Some (Ivf.array_cols db) →
  0 ≤ k_nn → 0 ≤ upper_bound →
  (0 < nthreads)%nat → Z.of_nat nthreads < 2 ^ 63 →
  let top := Ivf.qv_query_nth L2 centroids q nprobe in
  let active := active_partitions top in
  static_wf indices active
  ∧ ∀ (fuel e : nat),
      serve indices active (capacity indices active upper_bound) fuel 0 = Some e →
      ∃ row0,
        Ivf.qv_query_heap_finite_ram L2 junk fuel db ids centroids q indices
          nprobe k_nn upper_bound (Z.of_nat nthreads)
        = Some (Returned (Ivf.top_k_column k_nn <$> row0))
        ∧ length row0 = length q
        ∧ ∀ j, (j < length q)%nat →
            ∃ h, row0 !! j = Some h
                 ∧ holds k_nn (served_all L2 db ids indices q top active
                                 (seqZ 0 (Z.of_nat e)) j) h.
Proof.
  intros Hwf Hlen Hlast Hk Hub HT0 HT top active.
  destruct (finite_spec L2 junk db ids centroids q indices nprobe k_nn upper_bound nthreads
              Hwf Hlen Hk Hub (conj HT0 HT)) as (active' & Hs & Hin & Hst & _ & Hrun).
  assert (Hact : active = active').
  { apply sorted_lt_unique; [apply active_partitions_sorted|done|].
    intros c. unfold active. by rewrite elem_of_active_partitions, Hin. }
  rewrite <- Hact in *. rewrite (repaired_last _ _ Hlast) in Hst, Hrun. by split.
Qed.

(** The capacity that the streamer chooses admits what [upper_bound]
    admits. *)
Lemma capacity_admits indices parts (upper_bound : Z) (p : Z) :
  static_wf indices parts → StronglySorted Z.lt parts → p ∈ parts →
  upper_bound = 0 ∨ size_of indices p ≤ upper_bound →
  size_of indices p ≤ capacity indices parts upper_bound.
Proof.
  intros Hst Hsorted Hp Hub.
  pose proof (cols_of_int indices parts Hst Hsorted) as H31.
  pose proof (cols_of_nonneg indices parts parts Hst (reflexivity _)) as H0.
  assert (Hle : size_of indices p ≤ cols_of indices parts).
  { apply list_elem_of_split in Hp as (l1 & l2 & ->).
    rewrite cols_of_app, cols_of_cons.
    assert (0 ≤ cols_of indices l1).
    { eapply cols_of_nonneg; [done|]. intros x Hx. apply elem_of_app. by left. }
    assert (0 ≤ cols_of indices l2).
    { eapply cols_of_nonneg; [done|]. intros x Hx. apply elem_of_app. right. by right. }
    lia. }
  unfold capacity. rewrite wrap64_small by lia.
  do 2 case_bool_decide; simpl; lia.
Qed.

(** X2.  On well-formed input whose indices have their last slot, when
    every active partition holds a column and fits in [upper_bound]
    (or [upper_bound] is 0), the out-of-core query returns once the fuel
    exceeds the number of active partitions.  The column of a query holds
    the ids of the [k_nn] candidates of its probed partitions that have
    the smallest scores, by increasing score (the order of the ids of
    equal score is the one that [std::sort_heap] leaves, whatever it is);
    the slots after them are not written.  The candidates of all probed partitions count,
    whatever the windows and the threads that served them. *)
Theorem finite_ram_returns_the_nearest_candidates {SH : Heap.SortHeap} {SHL : Heap.SortHeapLaws}
    {V : Type} (L2 : V → V → Z) (junk : V)
    (db : dense_array V) (ids : dense_array Z) (centroids q : list V) (indices : list Z)
    (nprobe k_nn upper_bound : Z) (nthreads fuel : nat) :
  query_wf db ids centroids q indices nprobe →
  length indices = S (length centroids) →
  last indices = Some (Ivf.array_cols db) →
  0 ≤ k_nn → 0 ≤ upper_bound →
  (0 < nthreads)%nat → Z.of_nat nthreads < 2 ^ 63 →
  Forall (λ c, 0 < size_of indices c
               ∧ (upper_bound = 0 ∨ size_of indices c ≤ upper_bound))
    (active_partitions (Ivf.qv_query_nth L2 centroids q nprobe)) →
  (length (active_partitions (Ivf.qv_query_nth L2 centroids q nprobe)) < fuel)%nat →
  ∃ top_k,
    Ivf.qv_query_heap_finite_ram L2 junk fuel db ids centroids q indices
      nprobe k_nn upper_bound (Z.of_nat nthreads)
    = Some (Returned top_k)
    ∧ length top_k = length q
    ∧ ∀ (j : nat) q_vec col,
        q !! j = Some q_vec →
        Ivf.qv_query_nth L2 centroids q nprobe !! j = Some col →
        ∃ held,
          k_smallest k_nn (probed_candidates L2 db ids indices q_vec col) held
          ∧ Sorted (λ a b : Z * Z, a.1 ≤ b.1) held
          ∧ top_k !! j = Some (id_column k_nn held).
Proof.
  intros Hwf Hlen Hlast Hk Hub HT0 HT Hall Hfuel.
  destruct (finite_served L2 junk db ids centroids q indices nprobe k_nn upper_bound nthreads
              Hwf Hlen Hlast Hk Hub HT0 HT) as [Hst Hrun].
  set (top := Ivf.qv_query_nth L2 centroids q nprobe) in *.
  set (active := active_partitions top) in *.
  pose proof (active_partitions_sorted top) as Hsorted. fold active in Hsorted.
  destruct (Hrun fuel (length active)) as (row0 & -> & Hrl & Hrow).
  { destruct fuel as [|r]; [lia|]. apply serve_complete; [done| |lia|lia].
    apply Forall_forall. intros c Hc. rewrite Forall_forall in Hall.
    destruct (Hall c Hc) as [H0 Hc']. split; [done|].
    by apply capacity_admits. }
  eexists. split; [done|]. split; [by rewrite length_fmap|].
  intros j q_vec col Hq Hcol.
  destruct (Hrow j) as (h & Hh & Hholds); [by eapply lookup_lt_Some|].
  destruct (top_column L2 db ids centroids q indices nprobe Hwf j col Hcol) as (Hnd & _).
  destruct (top_k_column_holds k_nn (probed_candidates L2 db ids indices q_vec col) h)
    as (held & Hsm & Hsd & Heq).
  { eapply holds_Permutation; [|exact Hholds].
    apply served_all_probed; [done|done|done|done|].
    intros c Hc. apply elem_of_active_partitions. by exists j, col. }
  exists held. split; [done|]. split; [done|].
  by rewrite list_lookup_fmap, Hh, <- Heq.
Qed.

Lemma finite_ram_returns_the_nearest_candidates_witness :
  ∃ top_k,
    Ivf.qv_query_heap_finite_ram example_L2 [] 3 example_db example_ids
      [[2]; [7]] [[0]; [9]] [0; 5; 10] 2 3 5 (Z.of_nat 2)
    = Some (Returned top_k)
    ∧ length top_k = length [[0]; [9]]
    ∧ ∀ (j : nat) q_vec col,
        [[0]; [9]] !! j = Some q_vec →
        Ivf.qv_query_nth example_L2 [[2]; [7]] [[0]; [9]] 2 !! j = Some col →
        ∃ held,
          k_smallest 3 (probed_candidates example_L2 example_db example_ids
                          [0; 5; 10] q_vec col) held
          ∧ Sorted (λ a b : Z * Z, a.1 ≤ b.1) held
          ∧ top_k !! j = Some (id_column 3 held).
Proof.
  apply (finite_ram_returns_the_nearest_candidates example_L2 [] example_db example_ids
           [[2]; [7]] [[0]; [9]] [0; 5; 10] 2 3 5 2 3).
  - split; simpl; try done; try lia.
    + repeat constructor; vm_compute; congruence.
    + repeat constructor; vm_compute; congruence.
  - reflexivity.
  - reflexivity.
  - lia.
  - lia.
  - lia.
  - simpl. lia.
  - replace (active_partitions _) with [0; 1] by (by vm_compute).
    repeat (apply Forall_cons; split; [split; [by vm_compute|right; by vm_compute]|]).
    constructor.
  - vm_compute. lia.
Defined.

(** X3.  With a bounded window the two queries still agree: on
    well-formed input whose indices have their last slot, when every
    active partition holds a column and fits in [upper_bound], and the
    candidates of every query have pairwise distinct scores, the
    out-of-core query returns, after any number of windows, the matrix
    that the in-memory query returns. *)
Theorem finite_ram_bounded_window_equals_infinite_ram {SH : Heap.SortHeap} {SHL : Heap.SortHeapLaws}
    {V : Type} (L2 : V → V → Z) (junk : V)
    (db : dense_array V) (ids : dense_array Z) (centroids q : list V) (indices : list Z)
    (nprobe k_nn upper_bound : Z) (nthreads fuel : nat) :
  query_wf db ids centroids q indices nprobe →
  length indices = S (length centroids) →
  last indices = Some (Ivf.array_cols db) →
  0 ≤ k_nn → 0 < upper_bound →
  (0 < nthreads)%nat → Z.of_nat nthreads < 2 ^ 63 →
  Forall (λ c, 0 < size_of indices c ≤ upper_bound)
    (active_partitions (Ivf.qv_query_nth L2 centroids q nprobe)) →
  (∀ (j : nat) q_vec col,
     q !! j = Some q_vec → Ivf.qv_query_nth L2 centroids q nprobe !! j = Some col →
     NoDup (probed_candidates L2 db ids indices q_vec col).*1) →
  (length (active_partitions (Ivf.qv_query_nth L2 centroids q nprobe)) < fuel)%nat →
  Ivf.qv_query_heap_finite_ram L2 junk fuel db ids centroids q indices
    nprobe k_nn upper_bound (Z.of_nat nthreads)
  = Some (Ivf.qv_query_heap_infinite_ram L2 db ids centroids q indices nprobe k_nn).
Proof.
  intros Hwf Hlen Hlast Hk Hub HT0 HT Hall Hties Hfuel.
  rewrite (infinite_spec L2 db ids centroids q indices nprobe Hwf k_nn) by lia.
  destruct (finite_served L2 junk db ids centroids q indices nprobe k_nn upper_bound nthreads
              Hwf Hlen Hlast Hk ltac:(lia) HT0 HT) as [Hst Hrun].
  set (top := Ivf.qv_query_nth L2 centroids q nprobe) in *.
  set (active := active_partitions top) in *.
  pose proof (active_partitions_sorted top) as Hsorted. fold active in Hsorted.
  destruct (Hrun fuel (length active)) as (row0 & -> & Hrl & Hrow).
  { destruct fuel as [|r]; [lia|]. apply serve_complete; [done| |lia|lia].
    apply Forall_forall. intros c Hc. rewrite Forall_forall in Hall.
    destruct (Hall c Hc) as [H0 Hc']. split; [done|].
    apply capacity_admits; auto. }
  do 2 f_equal. apply list_eq. intros j.
  rewrite list_lookup_fmap, lookup_zip_with.
  destruct (decide (j < length q)%nat) as [Hj|Hj].
  - destruct (Hrow j Hj) as (h & -> & Hh).
    destruct (lookup_lt_is_Some_2 q j Hj) as [q_vec Hq].
    destruct (lookup_lt_is_Some_2 top j) as [col Hcol].
    { unfold top. by rewrite length_top. }
    rewrite Hq, Hcol. simpl. f_equal.
    destruct (top_column L2 db ids centroids q indices nprobe Hwf j col Hcol) as (Hnd & _).
    apply (top_k_column_unique k_nn (probed_candidates L2 db ids indices q_vec col)).
    + by eapply Hties.
    + eapply holds_Permutation; [|exact Hh].
      apply served_all_probed; [done|done|done|done|].
      intros c Hc. apply elem_of_active_partitions. by exists j, col.
    + apply (holds_insert_all k_nn [] _ (Heap.empty k_nn)); [done|by apply holds_empty].
  - rewrite (lookup_ge_None_2 row0) by lia. by rewrite (lookup_ge_None_2 q) by lia.
Qed.

Lemma finite_ram_bounded_window_equals_infinite_ram_witness :
  Ivf.qv_query_heap_finite_ram example_L2 [] 3 example_db example_ids
    [[2]; [7]] [[0]; [9]] [0; 5; 10] 2 3 5 (Z.of_nat 2)
  = Some (Ivf.qv_query_heap_infinite_ram example_L2 example_db example_ids
            [[2]; [7]] [[0]; [9]] [0; 5; 10] 2 3).
Proof.
  apply (finite_ram_bounded_window_equals_infinite_ram example_L2 [] example_db example_ids
           [[2]; [7]] [[0]; [9]] [0; 5; 10] 2 3 5 2 3).
  - split; simpl; try done; try lia.
    + repeat constructor; vm_compute; congruence.
    + repeat constructor; vm_compute; congruence.
  - reflexivity.
  - reflexivity.
  - lia.
  - lia.
  - lia.
  - simpl. lia.
  - replace (active_partitions _) with [0; 1] by (by vm_compute).
    repeat (apply Forall_cons; split; [split; by vm_compute|]).
    constructor.
  - intros [|[|j]] q_vec col Hq Hcol; simpl in Hq; [| |discriminate].
    + injection Hq as <-. vm_compute in Hcol. injection Hcol as <-.
      apply (bool_decide_unpack _). by vm_compute.
    + injection Hq as <-. vm_compute in Hcol. injection Hcol as <-.
      apply (bool_decide_unpack _). by vm_compute.
  - vm_compute. lia.
Defined.

(** X4.  The out-of-core query with a first active partition that does
    not fit: on well-formed input whose first active partition has more
    columns than a non-zero [upper_bound], the stream of windows ends at
    once and the query returns, without an error, a matrix in which no id
    is written, whatever the candidates of the probed partitions. *)
Theorem finite_ram_oversize_partition_returns_nothing {SH : Heap.SortHeap} {SHL : Heap.SortHeapLaws}
    {V : Type} (L2 : V → V → Z) (junk : V)
    (db : dense_array V) (ids : dense_array Z) (centroids q : list V) (indices : list Z)
    (nprobe k_nn upper_bound : Z) (nthreads fuel : nat) (c : Z) :
  query_wf db ids centroids q indices nprobe →
  length indices = S (length centroids) →
  last indices = Some (Ivf.array_cols db) →
  0 ≤ k_nn → 0 < upper_bound →
  (0 < nthreads)%nat → Z.of_nat nthreads < 2 ^ 63 →
  active_partitions (Ivf.qv_query_nth L2 centroids q nprobe) !! 0%nat = Some c →
  upper_bound < size_of indices c →
  (0 < fuel)%nat →
  Ivf.qv_query_heap_finite_ram L2 junk fuel db ids centroids q indices
    nprobe k_nn upper_bound (Z.of_nat nthreads)
  = Some (Returned (replicate (length q) (replicate (Z.to_nat k_nn) None))).
Proof.
  intros Hwf Hlen Hlast Hk Hub HT0 HT Hc Hsz Hfuel.
  destruct (finite_served L2 junk db ids centroids q indices nprobe k_nn upper_bound nthreads
              Hwf Hlen Hlast Hk ltac:(lia) HT0 HT) as [Hst Hrun].
  set (top := Ivf.qv_query_nth L2 centroids q nprobe) in *.
  set (active := active_partitions top) in *.
  pose proof (active_partitions_sorted top) as Hsorted. fold active in Hsorted.
  assert (Hcap : capacity indices active upper_bound = upper_bound).
  { pose proof (cols_of_int indices active Hst Hsorted) as H31.
    pose proof (cols_of_nonneg indices active active Hst (reflexivity _)) as H0.
    assert (size_of indices c ≤ cols_of indices active).
    { destruct active as [|c' rest]; [done|]. simpl in Hc. injection Hc as ->.
      rewrite cols_of_cons.
      assert (0 ≤ cols_of indices rest); [|lia].
      eapply cols_of_nonneg; [done|]. intros x Hx. by right. }
    unfold capacity. rewrite wrap64_small by lia.
    rewrite !bool_decide_eq_false_2 by lia. done. }
  destruct (Hrun fuel 0%nat) as (row0 & -> & Hrl & Hrow).
  { destruct fuel as [|r]; [lia|]. cbn [serve]. rewrite Hcap.
    unfold window_at. rewrite drop_0.
    destruct active as [|c' rest]; [done|]. simpl in Hc. injection Hc as ->.
    rewrite fmap_cons. cbn [greedy].
    by rewrite (bool_decide_eq_false_2 (size_of indices c ≤ upper_bound)) by lia. }
  do 2 f_equal. apply list_eq. intros j. rewrite list_lookup_fmap.
  destruct (decide (j < length q)%nat) as [Hj|Hj].
  - destruct (Hrow j Hj) as (h & -> & [_ (rest & Hp & Hl & _)]).
    rewrite lookup_replicate_2 by done. simpl. f_equal.
    unfold served_all in Hl. simpl in Hl.
    assert (Heap.items h = []) as Hnil by (destruct (Heap.items h); [done|simpl in Hl; lia]).
    unfold Ivf.top_k_column. by rewrite Hnil, sort_heap_nil.
  - rewrite (lookup_ge_None_2 row0) by lia. simpl.
    symmetry. apply lookup_replicate_None. lia.
Qed.

Lemma finite_ram_oversize_partition_returns_nothing_witness :
  Ivf.qv_query_heap_finite_ram example_L2 [] 1 example_db example_ids
    [[2]; [7]] [[0]; [9]] [0; 5; 10] 1 3 4 (Z.of_nat 2)
  = Some (Returned (replicate (length [[0]; [9]]) (replicate (Z.to_nat 3) None))).
Proof.
  apply (finite_ram_oversize_partition_returns_nothing example_L2 [] example_db example_ids
           [[2]; [7]] [[0]; [9]] [0; 5; 10] 1 3 4 2 1 0).
  - split; simpl; try done; try lia.
    + repeat constructor; vm_compute; congruence.
    + repeat constructor; vm_compute; congruence.
  - reflexivity.
  - reflexivity.
  - lia.
  - lia.
  - lia.
  - simpl. lia.
  - reflexivity.
  - vm_compute. reflexivity.
  - lia.
Defined.

(** ** The out-of-core query: its errors *)

(** The constructor of the streamer throws when its first window is made
    of empty partitions only. *)
Lemma make_invalid {T : Type} (junk : T) (db : dense_array T) (ids : dense_array Z)
    (indices parts : list Z) (upper_bound : Z) :
  order_matches db = true ∧ type_matches db = true →
  Streamer.repair_last indices (Ivf.array_cols db) = Returned indices →
  static_wf indices parts → cols_of indices parts < 2 ^ 31 →
  0 ≤ upper_bound → parts ≠ [] → cols_of indices parts = 0 →
  Streamer.make junk db ids indices parts upper_bound = Thrown InvalidPartitioning.
Proof.
  intros [Horder Htype] Hrepair Hst Hcols Hub Hne Hz.
  unfold Streamer.make. rewrite Horder. cbn [negb].
  fold (Ivf.array_cols db). rewrite Hrepair.
  rewrite (sum_parts_spec indices parts (length parts) 0 0 Hst)
    by (unfold slice; rewrite ?drop_0, ?firstn_all; simpl; lia).
  unfold slice. rewrite drop_0, firstn_all, Z.add_0_l, Hz.
  change (wrap64 0) with 0.
  replace (if bool_decide (upper_bound = 0) || bool_decide (upper_bound > 0)
           then 0 else upper_bound) with 0
    by (do 2 case_bool_decide; simpl; lia).
  set (max_cols := 0).
  set (s0 := Streamer.fresh junk db ids indices parts (Ivf.array_cols db) max_cols).
  assert (Hwf : streamer_wf s0).
  { pose proof Hst as (Hl & Hs & Hb & Hp).
    split; simpl; try done; try lia. }
  assert (Hall : Forall (λ p, size_of indices p = 0) parts)
    by (by apply (cols_of_zero indices parts parts Hst (reflexivity _))).
  assert (Hw : next_window s0 = parts).
  { unfold next_window, unserved. simpl. rewrite drop_0.
    rewrite greedy_all.
    - by rewrite length_fmap, firstn_all.
    - apply Forall_fmap. eapply Forall_impl; [exact Hall|]. simpl. intros. lia.
    - fold (cols_of indices parts). lia. }
  pose proof (advance_spec s0 Hwf) as Hadv. cbv zeta in Hadv.
  rewrite Hw in Hadv. change (Streamer.indices_ s0) with indices in Hadv.
  rewrite (bool_decide_eq_true_2 _ Hz), (bool_decide_eq_false_2 _ Hne) in Hadv.
  by rewrite Hadv.
Qed.

(** X5.  The out-of-core query on probed partitions that are all empty:
    on well-formed input whose indices have their last slot, when some
    partition is probed and no probed partition holds a column, the
    constructor of the streamer throws [InvalidPartitioning] and so does
    the out-of-core query, for every [upper_bound], number of threads and
    fuel; on the same input the in-memory query returns a matrix in which
    no id is written. *)
Theorem finite_ram_empty_partitions_throw {SH : Heap.SortHeap} {SHL : Heap.SortHeapLaws}
    {V : Type} (L2 : V → V → Z) (junk : V)
    (db : dense_array V) (ids : dense_array Z) (centroids q : list V) (indices : list Z)
    (nprobe k_nn upper_bound nthreads : Z) (fuel : nat) :
  query_wf db ids centroids q indices nprobe →
  length indices = S (length centroids) →
  last indices = Some (Ivf.array_cols db) →
  0 ≤ upper_bound →
  active_partitions (Ivf.qv_query_nth L2 centroids q nprobe) ≠ [] →
  Forall (λ c, size_of indices c = 0)
    (active_partitions (Ivf.qv_query_nth L2 centroids q nprobe)) →
  Ivf.qv_query_heap_finite_ram L2 junk fuel db ids centroids q indices
    nprobe k_nn upper_bound nthreads
  = Some (Thrown InvalidPartitioning)
  ∧ Ivf.qv_query_heap_infinite_ram L2 db ids centroids q indices nprobe k_nn
    = Returned (replicate (length q) (replicate (Z.to_nat k_nn) None)).
Proof.
  intros Hwf Hlen Hlast Hub Hne Hall.
  pose proof Hwf as [_ _ (Horder & Htype & Hcdb & Hcids) Hc Hq Hnprobe Hs Hr].
  destruct (finite_served L2 junk db ids centroids q indices nprobe 0 0 1
              Hwf Hlen Hlast ltac:(lia) ltac:(lia) ltac:(lia) ltac:(lia)) as [Hst _].
  destruct (maps_loop L2 db ids centroids q indices nprobe Hwf)
    as (cq & active & Hmaps & Hactive & Hin & Her).
  set (top := Ivf.qv_query_nth L2 centroids q nprobe) in *.
  assert (Hact : active_partitions top = active).
  { apply sorted_lt_unique; [apply active_partitions_sorted|done|].
    intros c. by rewrite elem_of_active_partitions, Hin. }
  rewrite Hact in *.
  assert (Hz : cols_of indices active = 0)
    by (by apply (cols_of_zero indices active active Hst (reflexivity _))).
  split.
  - unfold Ivf.qv_query_heap_finite_ram. fold top. rewrite Hmaps.
    rewrite (bool_decide_eq_true_2 (Z.of_nat (length indices) = _))
      by (rewrite wrap64_small; lia). cbn [negb].
    rewrite new_indices_loop by (done || lia).
    rewrite (make_invalid junk db ids indices active upper_bound); try done; try lia.
    pose proof (repaired_spec db ids centroids q indices nprobe 1 Hwf Hlen ltac:(lia)) as Hrep.
    by rewrite (repaired_last _ _ Hlast) in Hrep.
  - rewrite (infinite_spec L2 db ids centroids q indices nprobe Hwf k_nn) by lia.
    fold top. f_equal. apply list_eq. intros j. rewrite lookup_zip_with.
    destruct (decide (j < length q)%nat) as [Hj|Hj].
    + destruct (lookup_lt_is_Some_2 q j Hj) as [q_vec Hqv].
      destruct (lookup_lt_is_Some_2 top j) as [col Hcol].
      { unfold top. by rewrite length_top. }
      rewrite Hqv, Hcol, lookup_replicate_2 by done. simpl. f_equal.
      assert (Hnil : probed_candidates L2 db ids indices q_vec col = []).
      { unfold probed_candidates. apply concat_nil_Forall, Forall_fmap, Forall_forall.
        intros c Hcin. simpl. unfold candidates.
        rewrite Forall_forall in Hall. rewrite (Hall c); [done|].
        apply Hin. by exists j, col. }
      rewrite Hnil. unfold Ivf.top_k_column. simpl. by rewrite sort_heap_nil.
    + rewrite (lookup_ge_None_2 q) by lia. simpl.
      symmetry. apply lookup_replicate_None. lia.
Qed.

Lemma finite_ram_empty_partitions_throw_witness :
  Ivf.qv_query_heap_finite_ram example_L2 [] 4 example_db example_ids
    [[2]; [7]] [[0]] [0; 0; 10] 1 3 0 2
  = Some (Thrown InvalidPartitioning)
  ∧ Ivf.qv_query_heap_infinite_ram example_L2 example_db example_ids
      [[2]; [7]] [[0]] [0; 0; 10] 1 3
    = Returned (replicate (length [[0]]) (replicate (Z.to_nat 3) None)).
Proof.
  apply (finite_ram_empty_partitions_throw example_L2 [] example_db example_ids
           [[2]; [7]] [[0]] [0; 0; 10] 1 3 0 2 4).
  - split; simpl; try done; try lia.
    + repeat constructor; vm_compute; congruence.
    + repeat constructor; vm_compute; congruence.
  - reflexivity.
  - reflexivity.
  - lia.
  - by vm_compute.
  - replace (active_partitions _) with [0] by (by vm_compute).
    repeat (apply Forall_cons; split; [by vm_compute|]). constructor.
Defined.

(** X6.  The out-of-core query with [nthreads = 0]: on well-formed input
    whose active partitions all hold a column, the constructor of the
    streamer returns and the first pass of the loop over the windows
    divides by [nthreads]: the behaviour of the call is undefined. *)
Theorem finite_ram_without_threads_is_undefined {SH : Heap.SortHeap} {SHL : Heap.SortHeapLaws}
    {V : Type} (L2 : V → V → Z) (junk : V)
    (db : dense_array V) (ids : dense_array Z) (centroids q : list V) (indices : list Z)
    (nprobe k_nn upper_bound : Z) (fuel : nat) :
  query_wf db ids centroids q indices nprobe →
  length indices = S (length centroids) →
  last indices = Some (Ivf.array_cols db) →
  0 ≤ upper_bound →
  Forall (λ c, 0 < size_of indices c)
    (active_partitions (Ivf.qv_query_nth L2 centroids q nprobe)) →
  (0 < fuel)%nat →
  Ivf.qv_query_heap_finite_ram L2 junk fuel db ids centroids q indices
    nprobe k_nn upper_bound 0
  = Some Undefined.
Proof.
  intros Hwf Hlen Hlast Hub Hall Hfuel.
  pose proof Hwf as [_ _ (Horder & Htype & Hcdb & Hcids) Hc Hq Hnprobe Hs Hr].
  destruct (finite_served L2 junk db ids centroids q indices nprobe 0 0 1
              Hwf Hlen Hlast ltac:(lia) ltac:(lia) ltac:(lia) ltac:(lia)) as [Hst _].
  destruct (maps_loop L2 db ids centroids q indices nprobe Hwf)
    as (cq & active & Hmaps & Hactive & Hin & Her).
  set (top := Ivf.qv_query_nth L2 centroids q nprobe) in *.
  assert (Hact : active_partitions top = active).
  { apply sorted_lt_unique; [apply active_partitions_sorted|done|].
    intros c. by rewrite elem_of_active_partitions, Hin. }
  rewrite Hact in *.
  pose proof (cols_of_int indices active Hst Hactive) as H31.
  pose proof (repaired_spec db ids centroids q indices nprobe 1 Hwf Hlen ltac:(lia)) as Hrep.
  rewrite (repaired_last _ _ Hlast) in Hrep.
  destruct (make_spec junk db ids indices indices active upper_bound
              ltac:(done) Hrep Hst H31 Hub) as (s & Hmake & _).
  { set (w := window_at indices active _ 0).
    destruct w as [|p w'] eqn:Hw; [by left|right].
    assert (Hsub : p :: w' ⊆ active).
    { rewrite <- Hw. unfold w, window_at. etrans; [apply subseteq_take|apply subseteq_drop]. }
    assert (0 ≤ cols_of indices w').
    { eapply cols_of_nonneg; [done|]. intros x Hx. apply Hsub. by right. }
    rewrite Forall_forall in Hall. pose proof (Hall p (Hsub p ltac:(left))).
    rewrite cols_of_cons. lia. }
  unfold Ivf.qv_query_heap_finite_ram. fold top. rewrite Hmaps.
  rewrite (bool_decide_eq_true_2 (Z.of_nat (length indices) = _))
    by (rewrite wrap64_small; lia). cbn [negb].
  rewrite new_indices_loop by (done || lia).
  rewrite Hmake. destruct fuel as [|r]; [lia|]. done.
Qed.

Lemma finite_ram_without_threads_is_undefined_witness :
  Ivf.qv_query_heap_finite_ram example_L2 [] 1 example_db example_ids
    [[2]; [7]] [[0]; [9]] [0; 5; 10] 1 3 0 0
  = Some Undefined.
Proof.
  apply (finite_ram_without_threads_is_undefined example_L2 [] example_db example_ids
           [[2]; [7]] [[0]; [9]] [0; 5; 10] 1 3 0 1).
  - split; simpl; try done; try lia.
    + repeat constructor; vm_compute; congruence.
    + repeat constructor; vm_compute; congruence.
  - reflexivity.
  - reflexivity.
  - lia.
  - replace (active_partitions _) with [0; 1] by (by vm_compute).
    repeat (apply Forall_cons; split; [by vm_compute|]). constructor.
  - lia.
Defined.

(** ** The streamer: what its buffers hold *)

(** The constructor keeps indices that end with the number of columns. *)
Lemma repair_last_kept (indices : list Z) (N : Z) :
  (2 ≤ length indices)%nat → Z.of_nat (length indices) < 2 ^ 63 →
  last indices = Some N →
  Streamer.repair_last indices N = Returned indices.
Proof.
  intros Hlen Hsmall Hlast. unfold Streamer.repair_last.
  rewrite !wrap64_small by lia. rewrite !vec_at_lookup by lia.
  rewrite last_lookup in Hlast.
  replace (Z.to_nat (Z.of_nat (length indices) - 1)) with (Nat.pred (length indices)) by lia.
  rewrite Hlast.
  destruct (lookup_lt_is_Some_2 indices (Z.to_nat (Z.of_nat (length indices) - 2)))
    as [before ->]; [lia|].
  case_bool_decide; [|done].
  rewrite bool_decide_eq_false_2 by lia. f_equal.
  by apply list_insert_id.
Qed.

(** X7.  A productive [advance] fills both buffers in step and within
    their bounds: on a well-formed streamer whose buffers have [max_cols_]
    slots, when [advance] returns [true] the window has between one and
    [max_cols_] columns, the buffers keep their length, and for every
    partition of the window its columns lie one after the other in the
    buffer of the columns, from the offset that is the number of columns of
    the partitions before it in the window, with the ids at the same
    positions of the buffer of the ids. *)
Theorem advance_fills_the_buffers_in_step {T : Type} (s : Streamer.t T) :
  streamer_wf s →
  length (Streamer.data_ s) = Z.to_nat (Streamer.max_cols_ s) →
  length (Streamer.ids s) = Z.to_nat (Streamer.max_cols_ s) →
  (Streamer.advance s).2 = Returned true →
  0 < Streamer.num_cols_ (Streamer.advance s).1 ≤ Streamer.max_cols_ s
  ∧ length (Streamer.data_ (Streamer.advance s).1) = length (Streamer.data_ s)
  ∧ length (Streamer.ids (Streamer.advance s).1) = length (Streamer.ids s)
  ∧ ∀ l1 c l2 t,
      window_of (Streamer.advance s).1 = l1 ++ c :: l2 →
      0 ≤ t < size_of (Streamer.indices_ s) c →
      vec_at (Streamer.data_ (Streamer.advance s).1)
        (cols_of (Streamer.indices_ s) l1 + t)
      = Some (cell (Streamer.array_ s) (start_of (Streamer.indices_ s) c + t))
      ∧ vec_at (Streamer.ids (Streamer.advance s).1)
          (cols_of (Streamer.indices_ s) l1 + t)
        = Some (cell (Streamer.ids_array_ s) (start_of (Streamer.indices_ s) c + t)).
Proof.
  intros Hwf Hdl Hil. pose proof (wf_static _ Hwf) as Hst.
  assert (Hsub : next_window s ⊆ Streamer.parts_ s).
  { unfold next_window, unserved. etrans; [apply subseteq_take|apply subseteq_drop]. }
  pose proof (cols_of_nonneg _ _ _ Hst Hsub) as Hnonneg.
  pose proof (wf_max _ Hwf) as Hmax.
  assert (Hfit : cols_of (Streamer.indices_ s) (next_window s) ≤ Streamer.max_cols_ s).
  { unfold next_window, cols_of. rewrite fmap_take.
    destruct (greedy_fits (Streamer.max_cols_ s)
                (size_of (Streamer.indices_ s) <$> unserved s)) as [Hle| ->]; [| |simpl; lia].
    - apply Forall_fmap, Forall_forall. intros p Hp. simpl.
      apply (size_of_range _ (Streamer.parts_ s)); [done|].
      revert Hp. unfold unserved. apply subseteq_drop.
    - done. }
  assert (Hlr : ∀ {A : Type} (d : dense_array A),
    Z.of_nat (length (read_ranges d (ranges_of (Streamer.indices_ s) (next_window s))))
    = cols_of (Streamer.indices_ s) (next_window s)).
  { intros A d. by eapply length_read_ranges. }
  rewrite (advance_spec s Hwf). cbv zeta.
  destruct (decide (cols_of (Streamer.indices_ s) (next_window s) = 0)) as [Hz|Hnz].
  { rewrite (bool_decide_eq_true_2 _ Hz). simpl. by case_bool_decide. }
  rewrite (bool_decide_eq_false_2 _ Hnz).
  destruct (completes (Streamer.array_ s)); simpl; [|done].
  destruct (completes (Streamer.ids_array_ s)); simpl; [|done].
  intros _.
  assert (Hwrap : wrap64 ((Streamer.col_view_ s).2
                          + cols_of (Streamer.indices_ s) (next_window s)
                          - (Streamer.col_view_ s).2)
                  = cols_of (Streamer.indices_ s) (next_window s))
    by (rewrite wrap64_small by lia; lia).
  rewrite Hwrap. split; [lia|].
  split; [apply length_overwrite; specialize (Hlr T (Streamer.array_ s)); lia|].
  split; [unfold Streamer.ids in *; apply length_overwrite;
          specialize (Hlr Z (Streamer.ids_array_ s)); lia|].
  intros l1 c l2 t Hw Ht.
  assert (Hwin : next_window s = l1 ++ c :: l2).
  { rewrite <- Hw. unfold window_of, slice. simpl.
    replace ((Streamer.col_part_view_ s).2 + Z.of_nat (length (next_window s))
             - (Streamer.col_part_view_ s).2)
      with (Z.of_nat (length (next_window s))) by lia.
    rewrite Nat2Z.id. fold (unserved s).
    unfold next_window. rewrite length_take, <- take_take. f_equal.
    symmetry. by apply take_ge. }
  assert (Hl1 : 0 ≤ cols_of (Streamer.indices_ s) l1).
  { eapply cols_of_nonneg; [done|]. intros x Hx. apply Hsub. rewrite Hwin.
    apply elem_of_app. by left. }
  assert (Hc : 0 ≤ size_of (Streamer.indices_ s) c < 2 ^ 31).
  { apply (size_of_range _ (Streamer.parts_ s)); [done|]. apply Hsub. rewrite Hwin.
    apply elem_of_app. right. left. }
  assert (Hl2 : 0 ≤ cols_of (Streamer.indices_ s) l2).
  { eapply cols_of_nonneg; [done|]. intros x Hx. apply Hsub. rewrite Hwin.
    apply elem_of_app. right. by right. }
  assert (Hpos : cols_of (Streamer.indices_ s) l1 + t
                 < cols_of (Streamer.indices_ s) (next_window s)).
  { rewrite Hwin, cols_of_app, cols_of_cons. lia. }
  unfold Streamer.ids.
  rewrite !overwrite_lookup by (rewrite Hlr; lia).
  rewrite Hwin in Hsub |- *.
  split; by apply (read_ranges_lookup _ _ (Streamer.parts_ s)).
Qed.

Lemma advance_fills_the_buffers_in_step_witness :
  let s := example_streamer [0; 1; 2; 3] 4 in
  0 < Streamer.num_cols_ (Streamer.advance s).1 ≤ Streamer.max_cols_ s
  ∧ length (Streamer.data_ (Streamer.advance s).1) = length (Streamer.data_ s)
  ∧ length (Streamer.ids (Streamer.advance s).1) = length (Streamer.ids s)
  ∧ ∀ l1 c l2 t,
      window_of (Streamer.advance s).1 = l1 ++ c :: l2 →
      0 ≤ t < size_of (Streamer.indices_ s) c →
      vec_at (Streamer.data_ (Streamer.advance s).1)
        (cols_of (Streamer.indices_ s) l1 + t)
      = Some (cell (Streamer.array_ s) (start_of (Streamer.indices_ s) c + t))
      ∧ vec_at (Streamer.ids (Streamer.advance s).1)
          (cols_of (Streamer.indices_ s) l1 + t)
        = Some (cell (Streamer.ids_array_ s) (start_of (Streamer.indices_ s) c + t)).
Proof.
  apply (advance_fills_the_buffers_in_step (example_streamer [0; 1; 2; 3] 4)).
  - solve_wf.
  - reflexivity.
  - reflexivity.
  - reflexivity.
Defined.

(** X8.  The constructor of six arguments called with [upper_bound = 0]:
    on well-formed input some partition of which holds a column, it returns
    a streamer whose capacity is the number of columns of all the active
    partitions and whose one window holds them all, the columns and the
    ids of every partition at the offset that is the number of columns of
    the partitions before it; the next [advance] returns [false].  With
    no active partition it returns a streamer with an empty window. *)
Theorem make_with_upper_bound_0_loads_every_partition {T : Type} (junk : T)
    (db : dense_array T) (ids : dense_array Z) (indices parts : list Z) :
  order_matches db = true ∧ type_matches db = true
  ∧ completes db = true ∧ completes ids = true →
  static_wf indices parts →
  (2 ≤ length indices)%nat → last indices = Some (Ivf.array_cols db) →
  cols_of indices parts < 2 ^ 31 →
  parts = [] ∨ cols_of indices parts ≠ 0 →
  ∃ s,
    Streamer.make junk db ids indices parts 0 = Returned s
    ∧ Streamer.max_cols_ s = cols_of indices parts
    ∧ window_of s = parts
    ∧ Streamer.col_offset s = 0 ∧ Streamer.col_part_offset s = 0
    ∧ (∀ (i : nat) c t,
         parts !! i = Some c → 0 ≤ t < size_of indices c →
         vec_at (Streamer.data_ s) (cols_of indices (take i parts) + t)
         = Some (cell db (start_of indices c + t))
         ∧ vec_at (Streamer.ids s) (cols_of indices (take i parts) + t)
           = Some (cell ids (start_of indices c + t)))
    ∧ (Streamer.advance s).2 = Returned false.
Proof.
  intros Hflags Hst Hlen Hlast Hcols Hne.
  pose proof (cols_of_nonneg indices parts parts Hst (reflexivity _)) as H0.
  pose proof Hst as ([Hl _] & _).
  pose proof (repair_last_kept indices _ Hlen Hl Hlast) as Hrep.
  assert (Hcap : (if bool_decide (0 = 0) || bool_decide (0 > wrap64 (cols_of indices parts))
                  then wrap64 (cols_of indices parts) else 0) = cols_of indices parts).
  { rewrite bool_decide_eq_true_2 by done. simpl. apply wrap64_small. lia. }
  assert (Hw : window_at indices parts (cols_of indices parts) 0 = parts).
  { unfold window_at. rewrite drop_0, greedy_all.
    - by rewrite length_fmap, firstn_all.
    - apply Forall_fmap, Forall_forall. intros p Hp. simpl. by eapply size_of_range.
    - done. }
  destruct (make_spec junk db ids indices indices parts 0 Hflags Hrep Hst Hcols ltac:(lia))
    as (s & Hmake & Hinv).
  { rewrite Hcap, Hw. done. }
  rewrite Hcap, Hw in Hinv.
  exists s. split; [done|].
  pose proof Hinv as [Hwf Harr Hidarr Hidx Hparts Hmax Hb Hpv Hv Ho Hpo Hfit Hlens Hdata].
  split; [done|]. split.
  { unfold window_of, slice. rewrite Hpv, Hparts. simpl. rewrite Z.sub_0_r, Nat2Z.id.
    by rewrite firstn_all. }
  split; [done|]. split; [done|]. split.
  - intros i c t Hi Ht. specialize (Hdata i c t).
    change (cols_of indices (take 0 parts)) with 0 in Hdata. rewrite Z.sub_0_r in Hdata.
    apply Hdata; [|done|done]. apply lookup_lt_Some in Hi. lia.
  - destruct Hflags as (_ & _ & Hcdb & Hcids).
    apply (advance_stop db ids indices parts (cols_of indices parts) 0 (length parts) s Hinv).
    unfold window_at. by rewrite drop_all.
Qed.

Lemma make_with_upper_bound_0_loads_every_partition_witness :
  ∃ s,
    Streamer.make [] example_db example_ids [0; 3; 3; 7; 10] [0; 1; 3] 0 = Returned s
    ∧ Streamer.max_cols_ s = cols_of [0; 3; 3; 7; 10] [0; 1; 3]
    ∧ window_of s = [0; 1; 3]
    ∧ Streamer.col_offset s = 0 ∧ Streamer.col_part_offset s = 0
    ∧ (∀ (i : nat) c t,
         [0; 1; 3] !! i = Some c → 0 ≤ t < size_of [0; 3; 3; 7; 10] c →
         vec_at (Streamer.data_ s) (cols_of [0; 3; 3; 7; 10] (take i [0; 1; 3]) + t)
         = Some (cell example_db (start_of [0; 3; 3; 7; 10] c + t))
         ∧ vec_at (Streamer.ids s) (cols_of [0; 3; 3; 7; 10] (take i [0; 1; 3]) + t)
           = Some (cell example_ids (start_of [0; 3; 3; 7; 10] c + t)))
    ∧ (Streamer.advance s).2 = Returned false.
Proof.
  apply (make_with_upper_bound_0_loads_every_partition [] example_db example_ids
           [0; 3; 3; 7; 10] [0; 1; 3]).
  - done.
  - repeat split; simpl; try lia; repeat constructor; lia.
  - simpl. lia.
  - reflexivity.
  - by vm_compute.
  - right. by vm_compute.
Defined.

(** ** The bounded heap with [std::greater] *)

Lemma negated_negated (e : Z * Z) : negated (negated e) = e.
Proof. destruct e as [x y]. unfold negated. simpl. f_equal. lia. Qed.

Lemma negated_inj (a b : Z * Z) : negated a = negated b → a = b.
Proof. intros H. by rewrite <- (negated_negated a), H, negated_negated. Qed.

Lemma fmap_negated_negated (l : list (Z * Z)) : negated <$> (negated <$> l) = l.
Proof.
  rewrite <- list_fmap_compose. rewrite <- (list_fmap_id l) at 2.
  apply list_fmap_ext. intros _ e _. apply negated_negated.
Qed.

Lemma worst_negated (l : list (Z * Z)) :
  Heap.worst Z.ltb (negated <$> l) = negated <$> Heap.worst Z.gtb l.
Proof.
  induction l as [|e l IH]; [done|]. rewrite fmap_cons. cbn [Heap.worst]. rewrite IH.
  destruct (Heap.worst Z.gtb l) as [m|]; simpl; [|done].
  rewrite Z.gtb_ltb.
  replace (- e.1 <? - m.1) with (m.1 <? e.1); [by destruct (m.1 <? e.1)|].
  destruct (Z.ltb_spec m.1 e.1), (Z.ltb_spec (- e.1) (- m.1)); (done || lia).
Qed.

Lemma remove_first_negated (m : Z * Z) (l : list (Z * Z)) :
  Heap.remove_first (negated m) (negated <$> l) = negated <$> Heap.remove_first m l.
Proof.
  induction l as [|e l IH]; [done|]. rewrite fmap_cons. cbn [Heap.remove_first].
  rewrite (bool_decide_ext (negated e = negated m) (e = m))
    by (split; [apply negated_inj|congruence]).
  case_bool_decide; [done|]. simpl. by rewrite IH.
Qed.

Lemma insert_negated (x y : Z) (h : Heap.fixed_min_pair_heap) :
  Heap.insert Z.ltb (- x) y
    {| Heap.max_size := Heap.max_size h; Heap.items := negated <$> Heap.items h |}
  = {| Heap.max_size := Heap.max_size (Heap.insert Z.gtb x y h);
       Heap.items := negated <$> Heap.items (Heap.insert Z.gtb x y h) |}.
Proof.
  unfold Heap.insert. simpl. rewrite length_fmap.
  case_bool_decide; simpl.
  { by rewrite fmap_app. }
  rewrite worst_negated. destruct (Heap.worst Z.gtb (Heap.items h)) as [m|]; simpl; [|done].
  rewrite Z.gtb_ltb.
  replace (- x <? - m.1) with (m.1 <? x)
    by (destruct (Z.ltb_spec m.1 x), (Z.ltb_spec (- x) (- m.1)); (done || lia)).
  destruct (m.1 <? x); simpl; [|done].
  by rewrite remove_first_negated, fmap_app.
Qed.

Lemma insert_all_negated (xs : list (Z * Z)) (h : Heap.fixed_min_pair_heap) :
  Heap.insert_all Z.ltb (negated <$> xs)
    {| Heap.max_size := Heap.max_size h; Heap.items := negated <$> Heap.items h |}
  = {| Heap.max_size := Heap.max_size (Heap.insert_all Z.gtb xs h);
       Heap.items := negated <$> Heap.items (Heap.insert_all Z.gtb xs h) |}.
Proof.
  revert h. induction xs as [|[x y] xs IH]; intros h; [done|].
  unfold Heap.insert_all in *. simpl. rewrite insert_negated. apply IH.
Qed.

Lemma k_smallest_negated (k : Z) (xs held : list (Z * Z)) :
  k_smallest k (negated <$> xs) (negated <$> held) ↔ k_largest k xs held.
Proof.
  split.
  - intros (rest & Hp & Hlen & Hle). exists (negated <$> rest).
    split; [|split].
    + apply (fmap_Permutation negated) in Hp.
      by rewrite fmap_app, !fmap_negated_negated in Hp.
    + by rewrite !length_fmap in Hlen.
    + intros a b Ha [b' [-> Hb']]%list_elem_of_fmap.
      specialize (Hle (negated a) b' (list_elem_of_fmap_2 _ _ _ Ha) Hb').
      simpl in *. lia.
  - intros (rest & Hp & Hlen & Hle). exists (negated <$> rest).
    split; [|split].
    + by rewrite Hp, fmap_app.
    + by rewrite !length_fmap.
    + intros a b [a' [-> Ha']]%list_elem_of_fmap [b' [-> Hb']]%list_elem_of_fmap.
      specialize (Hle a' b' Ha' Hb'). simpl. lia.
Qed.

(** The heap with [std::greater] holds the largest. *)
Lemma insert_all_k_largest (k : Z) (xs : list (Z * Z)) :
  0 ≤ k →
  Heap.max_size (Heap.insert_all Z.gtb xs (Heap.empty k)) = k
  ∧ k_largest k xs (Heap.items (Heap.insert_all Z.gtb xs (Heap.empty k))).
Proof.
  intros Hk.
  pose proof (holds_insert_all k [] (negated <$> xs) (Heap.empty k) Hk (holds_empty k Hk))
    as [Hcap Hsm].
  pose proof (insert_all_negated xs (Heap.empty k)) as Heq. simpl in Heq.
  change {| Heap.max_size := k; Heap.items := [] |} with (Heap.empty k) in Heq.
  rewrite Heq in Hcap, Hsm. simpl in Hcap, Hsm.
  split; [done|]. by apply k_smallest_negated.
Qed.

Lemma k_largest_unique (k : Z) (C held1 held2 : list (Z * Z)) :
  NoDup C.*1 → k_largest k C held1 → k_largest k C held2 → held1 ≡ₚ held2.
Proof.
  intros Hnd H1%k_smallest_negated H2%k_smallest_negated.
  assert (Hnd' : NoDup (negated <$> C).*1).
  { rewrite <- list_fmap_compose.
    replace (fst ∘ negated <$> C) with (Z.opp <$> C.*1)
      by (by rewrite <- list_fmap_compose).
    apply NoDup_fmap_2; [|done]. intros a b. lia. }
  pose proof (k_smallest_unique k _ _ _ Hnd' H1 H2) as Hp.
  apply (fmap_Permutation negated) in Hp. by rewrite !fmap_negated_negated in Hp.
Qed.

(** The first [k] of a list sorted by decreasing score are [k] largest. *)
Lemma take_sorted_k_largest (k : Z) (l : list (Z * Z)) :
  0 ≤ k → Sorted (λ a b, b.1 ≤ a.1) l → k_largest k l (take (Z.to_nat k) l).
Proof.
  intros Hk Hs. exists (drop (Z.to_nat k) l). split; [|split].
  - by rewrite take_drop.
  - rewrite length_take. lia.
  - assert (Htr : Transitive (λ a b : Z * Z, b.1 ≤ a.1)) by (intros a b c; lia).
    apply (Sorted_StronglySorted _) in Hs.
    rewrite <- (take_drop (Z.to_nat k) l) in Hs.
    intros a b Ha Hb.
    by eapply (StronglySorted_app_1_elem_of (λ a b : Z * Z, b.1 ≤ a.1)).
Qed.

(** X9.  A heap built with [std::greater] ([high_scores] in training,
    the "fixed_max_heap" test): after the inserts [xs] into a heap of
    capacity [k] it holds [min k (length xs)] pairs, they are a
    [k]-largest-by-score subset of [xs], and, when the scores of [xs] are
    pairwise distinct, sorting them by decreasing score gives the first
    [k] pairs of [xs] sorted by decreasing score. *)
Theorem fixed_max_pair_heap_holds_k_largest {SH : Heap.SortHeap} {SHL : Heap.SortHeapLaws}
    (k : Z) (xs : list (Z * Z)) :
  0 ≤ k →
  let h := Heap.insert_all Z.gtb xs (Heap.empty k) in
  Z.of_nat (length (Heap.items h)) = Z.min k (Z.of_nat (length xs))
  ∧ k_largest k xs (Heap.items h)
  ∧ (NoDup xs.*1 →
     Heap.sort_heap Heap.score_gt (Heap.items h)
     = take (Z.to_nat k) (Heap.sort_heap Heap.score_gt xs)).
Proof.
  intros Hk h. destruct (insert_all_k_largest k xs Hk) as [_ Hl]. fold h in Hl.
  split; [by destruct Hl as (rest & _ & Hlen & _)|]. split; [done|].
  intros Hnd.
  set (sorted := Heap.sort_heap Heap.score_gt xs).
  assert (Hp : sorted ≡ₚ xs) by apply sort_heap_Permutation.
  assert (Htake : k_largest k xs (take (Z.to_nat k) sorted)).
  { destruct (take_sorted_k_largest k sorted Hk (sort_heap_score_gt_sorted xs))
      as (rest & Hp' & Hlen & Hle).
    exists rest. split; [by rewrite <- Hp|]. split; [by rewrite <- Hp|done]. }
  pose proof (k_largest_unique k xs _ _ Hnd Hl Htake) as Hperm.
  assert (Htr : Transitive (λ a b : Z * Z, b.1 ≤ a.1)) by (intros a b c; lia).
  apply (Sorted_unique_strong (λ a b : Z * Z, b.1 ≤ a.1)).
  - intros a b Ha Hb Hab Hba.
    apply (NoDup_fmap_eq fst xs); [done| | |lia].
    + rewrite sort_heap_Permutation in Ha.
      destruct Hl as (rest & Hxs & _). rewrite Hxs. apply elem_of_app. by left.
    + rewrite <- Hp. revert Hb. apply subseteq_take.
  - apply sort_heap_score_gt_sorted.
  - pose proof (sort_heap_score_gt_sorted xs) as Hs. fold sorted in Hs.
    rewrite <- (take_drop (Z.to_nat k) sorted) in Hs.
    apply (Sorted_StronglySorted _) in Hs.
    apply StronglySorted_app_1_l in Hs. by apply StronglySorted_Sorted.
  - by rewrite sort_heap_Permutation.
Qed.

Lemma fixed_max_pair_heap_holds_k_largest_witness :
  Z.of_nat (length (Heap.items
      (Heap.insert_all Z.gtb [(10, 0); (11, 1); (12, 2); (13, 3); (14, 4); (15, 5); (16, 6)]
         (Heap.empty 3))))
  = Z.min 3 (Z.of_nat (length [(10, 0); (11, 1); (12, 2); (13, 3); (14, 4); (15, 5); (16, 6)]))
  ∧ k_largest 3 [(10, 0); (11, 1); (12, 2); (13, 3); (14, 4); (15, 5); (16, 6)]
      (Heap.items
         (Heap.insert_all Z.gtb [(10, 0); (11, 1); (12, 2); (13, 3); (14, 4); (15, 5); (16, 6)]
            (Heap.empty 3)))
  ∧ Heap.sort_heap Heap.score_gt
      (Heap.items
         (Heap.insert_all Z.gtb [(10, 0); (11, 1); (12, 2); (13, 3); (14, 4); (15, 5); (16, 6)]
            (Heap.empty 3)))
    = [(16, 6); (15, 5); (14, 4)].
Proof.
  destruct (fixed_max_pair_heap_holds_k_largest 3
              [(10, 0); (11, 1); (12, 2); (13, 3); (14, 4); (15, 5); (16, 6)])
    as (H1 & H2 & H3); [lia|].
  split; [exact H1|]. split; [exact H2|].
  rewrite H3; [by vm_compute|].
  apply (bool_decide_unpack _). by vm_compute.
Defined.

(** ** Training: the reassignment, in a run *)

Lemma zip_take_l {A B : Type} (l1 : list A) (l2 : list B) (n : nat) :
  (length l2 ≤ n)%nat → zip (take n l1) l2 = zip l1 l2.
Proof.
  revert l2 n. induction l1 as [|a l1 IH]; intros [|b l2] [|n] Hn; simpl in *;
    try done; try lia.
  f_equal. apply IH. lia.
Qed.

Section Reassignment.
Context {SH : Heap.SortHeap} {SHL : Heap.SortHeapLaws}.
Context {T D : Type} {HA : Arith T D}.
Variable ceil_ratio : Z → Z.
Variable qv_partition_with_scores : list (list T) → list (list T) → list Z * list Z.

(** The loop over the training set inserts the pairs (score, vector) in
    order. *)
Lemma accumulate_heap (training_set : list (list T)) (scores parts : list Z)
    (n i : nat) (st : KMeans.sums T) h r :
  for_each (seqZ (Z.of_nat i) (Z.of_nat n)) (λ i st,
    part ⟵ read parts i;
    centroid ⟵ read (KMeans.new_centroids st.1) part;
    vector ⟵ read training_set i;
    degree ⟵ read (KMeans.degrees st.1) part;
    score ⟵ read scores i;
    Returned ({| KMeans.new_centroids :=
                   <[Z.to_nat part := zip_with tadd centroid vector]> (KMeans.new_centroids st.1);
                 KMeans.degrees :=
                   <[Z.to_nat part := wrap64 (degree + 1)]> (KMeans.degrees st.1) |},
              Heap.insert Z.gtb score i st.2)) (st, h) = Returned r →
  r.2 = Heap.insert_all Z.gtb
          (zip (take n (drop i scores)) (seqZ (Z.of_nat i) (Z.of_nat n))) h.
Proof.
  revert i st h. induction n as [|n IH]; intros i st h.
  - simpl. by intros [= <-].
  - rewrite seqZ_cons by lia. cbn [for_each].
    intros (st1 & Hb & Hrest)%bind_Returned.
    apply bind_Returned in Hb as (part & _ & Hb).
    apply bind_Returned in Hb as (centroid & _ & Hb).
    apply bind_Returned in Hb as (vector & _ & Hb).
    apply bind_Returned in Hb as (degree & _ & Hb).
    apply bind_Returned in Hb as (score & Hs%read_Returned & Hb).
    injection Hb as <-. rewrite vec_at_of_nat in Hs.
    rewrite (drop_S _ _ _ Hs). cbn [take zip zip_with Heap.insert_all foldl fst snd].
    replace (Z.succ (Z.of_nat i)) with (Z.of_nat (S i)) in * by lia.
    replace (Z.pred (Z.of_nat (S n))) with (Z.of_nat n) in * by lia.
    by apply IH in Hrest.
Qed.

(** C7, amended: in a run of [train_no_init] the iteration number [i]
    performs the reassignment if and only if [i] is not [max_iter - 1]: it
    is skipped on the last iteration that the bound [max_iter] allows, and
    performed on an iteration that turns out to be the last because it
    converges.  The list [low_degrees] holds, by increasing degree, the
    [heap_size] pairs (degree, centroid) of the lowest degrees, and the
    list [high_scores], by decreasing score, the [heap_size] pairs (score,
    vector) of the highest scores that [qv_partition_with_scores] gave; a
    degree is the number of the vectors that it assigned to the centroid.
    When performed, the reassignment visits the first pairs of
    [low_degrees] whose degree is at most
    [lower_degree_bound = ceil(max_degree * reassign_ratio)] and, for the
    i-th of them, overwrites the centroid with the vector of the i-th pair
    of [high_scores], subtracts that vector from the sum of its previous
    centroid, increments the degree of the overwritten centroid and
    decrements the degree of the previous one. *)
Theorem reassignment_skipped_only_at_max_iter_minus_1
    (x x' : KMeans.kmeans_index T D) (training_set : list (list T))
    (trace : list (KMeans.iteration T D)) :
  KMeans.max_iter_ x < 2 ^ 64 →
  KMeans.train_no_init ceil_ratio qv_partition_with_scores x training_set
  = Returned (x', trace) →
  ∀ (i : nat) it, trace !! i = Some it →
    let heap_size := ceil_ratio (KMeans.nlist_ x) + 5 in
    let num_cols := Z.of_nat (length training_set) in
    let scores := (qv_partition_with_scores (KMeans.it_old_centroids it) training_set).1 in
    let parts := (qv_partition_with_scores (KMeans.it_old_centroids it) training_set).2 in
    let degrees := KMeans.degrees (KMeans.it_before it) in
    KMeans.it_iter it = Z.of_nat i
    ∧ (KMeans.it_reassigned it = true ↔ Z.of_nat i ≠ KMeans.max_iter_ x - 1)
    ∧ KMeans.it_parts it = parts
    ∧ KMeans.it_lower_degree_bound it
      = ceil_ratio (foldl Z.max 0 (take (Z.to_nat (KMeans.nlist_ x)) degrees))
    ∧ Sorted (λ a b, a.1 ≤ b.1) (KMeans.it_low_degrees it)
    ∧ Sorted (λ a b, b.1 ≤ a.1) (KMeans.it_high_scores it)
    ∧ (0 ≤ heap_size →
       k_smallest heap_size (zip degrees (seqZ 0 (KMeans.nlist_ x)))
         (KMeans.it_low_degrees it)
       ∧ k_largest heap_size (zip scores (seqZ 0 num_cols)) (KMeans.it_high_scores it))
    ∧ (0 ≤ KMeans.nlist_ x → num_cols < 2 ^ 63 →
       Forall (λ v, length v = Z.to_nat (KMeans.dimension_ x)) training_set →
       length scores = length training_set → length parts = length training_set →
       Forall (λ p, 0 ≤ p < KMeans.nlist_ x) parts →
       ∀ c, 0 ≤ c < KMeans.nlist_ x →
         vec_at degrees c = Some (Z.of_nat (length (members parts [] num_cols c))))
    ∧ KMeans.it_after it
      = if KMeans.it_reassigned it
        then reassign_spec training_set (KMeans.it_parts it) (KMeans.it_low_degrees it)
               (KMeans.it_high_scores it) (KMeans.it_lower_degree_bound it)
               (KMeans.it_before it)
        else KMeans.it_before it.
Proof.
  intros Hmax. unfold KMeans.train_no_init.
  intros ([c tr] & Hit & Hb)%bind_Returned. injection Hb as _ <-.
  destruct (iterate_trace _ _ _ _ _ _ _ _ Hit) as (Hlen & _ & Hall).
  intros i it Hi. destruct (Hall _ _ Hi) as (iter & ci & Hiter & Hlloyd & _).
  apply lookup_seqZ in Hiter as [-> Hilt]. rewrite Z.add_0_l in *.
  destruct (lloyd_Returned _ _ _ _ _ _ _ Hlloyd)
    as (high_heap & deg & Hacc & Hdeg & -> & Hre & Hparts & Hold & Hbound & Hlow & Hhigh
        & Hafter & _).
  rewrite wrap64_small in Hre by lia. rewrite Hold. cbv zeta.
  assert (Hscan : deg.1 = foldl Z.max 0
                            (take (Z.to_nat (KMeans.nlist_ x))
                               (KMeans.degrees (KMeans.it_before it)))
                  ∧ deg.2 = Heap.insert_all Z.ltb
                              (zip (KMeans.degrees (KMeans.it_before it))
                                 (seqZ 0 (KMeans.nlist_ x)))
                              (Heap.empty (ceil_ratio (KMeans.nlist_ x) + 5))).
  { unfold KMeans.scan_degrees in Hdeg.
    destruct (decide (0 ≤ KMeans.nlist_ x)).
    - replace (seqZ 0 (KMeans.nlist_ x))
        with (seqZ (Z.of_nat 0) (Z.of_nat (Z.to_nat (KMeans.nlist_ x)))) in Hdeg |- *
        by (f_equal; lia).
      apply scan_degrees_spec in Hdeg as [-> ->]. rewrite drop_0. split; [done|].
      by rewrite zip_take_l by (rewrite length_seqZ; lia).
    - rewrite seqZ_nil in Hdeg |- * by lia. simpl in Hdeg. injection Hdeg as <-.
      replace (Z.to_nat (KMeans.nlist_ x)) with O by lia.
      by rewrite zip_with_nil_r. }
  destruct Hscan as [Hmaxd Hheap].
  assert (Hhh : high_heap = Heap.insert_all Z.gtb
                  (zip (qv_partition_with_scores ci training_set).1
                     (seqZ 0 (Z.of_nat (length training_set))))
                  (Heap.empty (ceil_ratio (KMeans.nlist_ x) + 5))).
  { unfold KMeans.accumulate in Hacc.
    change (seqZ 0 (Z.of_nat (length training_set)))
      with (seqZ (Z.of_nat 0) (Z.of_nat (length training_set))) in Hacc |- *.
    apply accumulate_heap in Hacc. simpl in Hacc. rewrite Hacc, drop_0.
    by rewrite zip_take_l by (rewrite length_seqZ; lia). }
  split; [done|]. split; [|split; [done|split; [|split; [|split; [|split; [|split]]]]]].
  - rewrite Hre. case_bool_decide; simpl; split; try done; lia.
  - by rewrite Hbound, Hmaxd.
  - rewrite Hlow. apply sort_heap_tuple_lt_sorted.
  - rewrite Hhigh. apply sort_heap_score_gt_sorted.
  - intros Hhs. split.
    + rewrite Hlow, Hheap.
      destruct (holds_insert_all (ceil_ratio (KMeans.nlist_ x) + 5) []
                  (zip (KMeans.degrees (KMeans.it_before it)) (seqZ 0 (KMeans.nlist_ x)))
                  (Heap.empty _) Hhs (holds_empty _ Hhs)) as [_ (rest & Hp & Hl & Hle)].
      exists rest. rewrite sort_heap_Permutation. split; [done|]. split; [done|].
      intros a b Ha. apply Hle. by rewrite sort_heap_Permutation in Ha.
    + rewrite Hhigh, Hhh.
      destruct (insert_all_k_largest (ceil_ratio (KMeans.nlist_ x) + 5)
                  (zip (qv_partition_with_scores ci training_set).1
                     (seqZ 0 (Z.of_nat (length training_set)))) Hhs)
        as [_ (rest & Hp & Hl & Hle)].
      exists rest. rewrite sort_heap_Permutation. split; [done|]. split; [done|].
      intros a b Ha. apply Hle. by rewrite sort_heap_Permutation in Ha.
  - intros Hnl Hsmall Hdim Hscores Hps Hrange cc Hcc.
    destruct (accumulate_returns (Z.to_nat (KMeans.dimension_ x)) (KMeans.nlist_ x)
                training_set _ _ Hsmall Hdim Hscores Hps Hrange
                (Heap.empty (ceil_ratio (KMeans.nlist_ x) + 5)))
      as (st' & Hrun & _ & _ & Hall').
    rewrite Hrun in Hacc. injection Hacc as <- _.
    destruct (Hall' cc Hcc) as [-> _]. rewrite bool_decide_eq_false_2 by apply not_elem_of_nil.
    by rewrite Z.add_0_r.
  - rewrite Hparts. destruct (KMeans.it_reassigned it); [|done].
    apply (reassign_refines _ _ _ _ _ _ 0) in Hafter; [|done].
    by rewrite !drop_0 in Hafter.
Qed.
End Reassignment.

(** C7, a counterexample: with [max_iter = 3] the run on the example
    training set converges in its first iteration, which is therefore the
    final one, and this iteration has performed the reassignment (it has
    moved the vector [[20]] into the empty centroid 1). *)
Lemma reassignment_on_the_final_iteration :
  match KMeans.train_no_init example_ceil_ratio example_partition
          (example_index 2 3) example_training_set with
  | Returned (_, [it]) =>
      KMeans.it_iter it = 0
      ∧ KMeans.it_converged it = true
      ∧ KMeans.it_reassigned it = true
      ∧ KMeans.new_centroids (KMeans.it_before it) = [[24]; [0]]
      ∧ KMeans.new_centroids (KMeans.it_after it) = [[4]; [20]]
  | _ => False
  end.
Proof. vm_compute. by repeat split. Qed.

Lemma reassignment_skipped_only_at_max_iter_minus_1_witness :
  match KMeans.train_no_init example_ceil_ratio example_partition
          (KMeans.with_centroids (example_index 2 2) 0 [[2]; [20]]) example_training_set with
  | Returned (_, trace) =>
      ∀ (i : nat) it, trace !! i = Some it →
        KMeans.it_iter it = Z.of_nat i
        ∧ (KMeans.it_reassigned it = true ↔ Z.of_nat i ≠ 2 - 1)
        ∧ KMeans.it_parts it
          = (example_partition (KMeans.it_old_centroids it) example_training_set).2
        ∧ KMeans.it_lower_degree_bound it
          = example_ceil_ratio (foldl Z.max 0
              (take (Z.to_nat 2) (KMeans.degrees (KMeans.it_before it))))
        ∧ Sorted (λ a b, a.1 ≤ b.1) (KMeans.it_low_degrees it)
        ∧ Sorted (λ a b, b.1 ≤ a.1) (KMeans.it_high_scores it)
        ∧ (k_smallest 6 (zip (KMeans.degrees (KMeans.it_before it)) (seqZ 0 2))
             (KMeans.it_low_degrees it)
           ∧ k_largest 6
               (zip (example_partition (KMeans.it_old_centroids it) example_training_set).1
                  (seqZ 0 3))
               (KMeans.it_high_scores it))
        ∧ (∀ c, 0 ≤ c < 2 →
             vec_at (KMeans.degrees (KMeans.it_before it)) c
             = Some (Z.of_nat (length (members
                        (example_partition (KMeans.it_old_centroids it) example_training_set).2
                        [] 3 c))))
        ∧ KMeans.it_after it
          = if KMeans.it_reassigned it
            then reassign_spec example_training_set (KMeans.it_parts it)
                   (KMeans.it_low_degrees it) (KMeans.it_high_scores it)
                   (KMeans.it_lower_degree_bound it) (KMeans.it_before it)
            else KMeans.it_before it
  | _ => False
  end.
Proof.
  destruct (KMeans.train_no_init example_ceil_ratio example_partition
              (KMeans.with_centroids (example_index 2 2) 0 [[2]; [20]]) example_training_set)
    as [[x' trace]| |] eqn:Hrun; [|by vm_compute in Hrun..].
  intros i it Hi.
  destruct (reassignment_skipped_only_at_max_iter_minus_1 example_ceil_ratio example_partition
              (KMeans.with_centroids (example_index 2 2) 0 [[2]; [20]]) x'
              example_training_set trace ltac:(by vm_compute) Hrun i it Hi)
    as (H1 & H2 & H3 & H4 & H5 & H6 & H7 & H8 & H9).
  assert (Hlen : length (KMeans.it_old_centroids it) = 2%nat).
  { vm_compute in Hrun. injection Hrun as _ <-.
    destruct i as [|[|i]]; simpl in Hi; [by injection Hi as <-..|done]. }
  destruct (example_partition_in_range 2 (KMeans.it_old_centroids it) example_training_set
              ltac:(lia) Hlen) as (Hs & Hp & Hr).
  split; [done|]. split; [done|]. split; [done|]. split; [done|].
  split; [done|]. split; [done|]. split; [|split; [|done]].
  - apply H7. by vm_compute.
  - apply H8; [simpl; lia|simpl; lia|by repeat constructor|done..].
Defined.

(** ** Training: the centroids of the last iteration *)

Section LastIteration.
Context {SH : Heap.SortHeap} {SHL : Heap.SortHeapLaws}.
Context {T D : Type} {HA : Arith T D} {HL : ArithLaws T D}.
Variable ceil_ratio : Z → Z.
Variable qv_partition_with_scores : list (list T) → list (list T) → list Z * list Z.
Variables (x : KMeans.kmeans_index T D) (training_set : list (list T)).
Hypothesis Hnlist : 0 ≤ KMeans.nlist_ x ≤ Z.of_nat (length training_set).
Hypothesis Hsmall : Z.of_nat (length training_set) < 2 ^ 63.
Hypothesis Hdim : Forall (λ v, length v = Z.to_nat (KMeans.dimension_ x)) training_set.
Hypothesis Hceil : ∀ n, 0 ≤ n → 0 ≤ ceil_ratio n.
Hypothesis Hpartition : ∀ centroids,
  length centroids = Z.to_nat (KMeans.nlist_ x) →
  length (qv_partition_with_scores centroids training_set).1 = length training_set
  ∧ length (qv_partition_with_scores centroids training_set).2 = length training_set
  ∧ Forall (λ p, 0 ≤ p < KMeans.nlist_ x) (qv_partition_with_scores centroids training_set).2.

(** X10.  The iteration numbered [max_iter - 1] of [train_no_init]
    reassigns nothing and returns; its new centroid [c] is the sum of the
    training vectors that the partition assigns to [c], each entry divided
    by their number, and it is the zero vector (not the old centroid) when
    no vector is assigned to [c]. *)
Theorem last_iteration_takes_the_means (centroids : list (list T)) :
  length centroids = Z.to_nat (KMeans.nlist_ x) →
  ∃ it,
    KMeans.lloyd ceil_ratio qv_partition_with_scores x training_set
      (wrap64 (KMeans.max_iter_ x - 1)) centroids
    = Returned it
    ∧ KMeans.it_reassigned it = false
    ∧ KMeans.it_parts it = (qv_partition_with_scores centroids training_set).2
    ∧ ∀ c, 0 ≤ c < KMeans.nlist_ x →
        vec_at (KMeans.it_new_centroids it) c
        = Some (let assigned :=
                  members (KMeans.it_parts it) [] (Z.of_nat (length training_set)) c in
                if bool_decide (assigned = [])
                then replicate (Z.to_nat (KMeans.dimension_ x)) tzero
                else (λ a, tdiv a (Z.of_nat (length assigned)))
                       <$> vsum (Z.to_nat (KMeans.dimension_ x))
                             (column training_set <$> assigned)).
Proof.
  intros Hc.
  destruct (lloyd_returns ceil_ratio qv_partition_with_scores x training_set
              Hnlist Hsmall Hdim Hceil Hpartition (wrap64 (KMeans.max_iter_ x - 1))
              centroids Hc) as (it & Hit & _).
  exists it. split; [done|].
  destruct (lloyd_Returned _ _ _ _ _ _ _ Hit)
    as (high & deg & Hacc & _ & _ & Hre & Hparts & _ & _ & _ & _ & Hafter & Hfin & _).
  rewrite bool_decide_eq_true_2 in Hre by done. simpl in Hre.
  rewrite Hre in Hafter. split; [done|]. split; [done|].
  destruct (Hpartition centroids Hc) as (Hls & Hlp & Hrange).
  destruct (accumulate_returns (Z.to_nat (KMeans.dimension_ x)) (KMeans.nlist_ x)
              training_set _ _ Hsmall Hdim Hls Hlp Hrange
              (Heap.empty (ceil_ratio (KMeans.nlist_ x) + 5))) as (before & Hacc' & Hacct).
  rewrite Hacc' in Hacc. injection Hacc as Hb _. rewrite Hafter, <- Hb in Hfin.
  pose proof Hacct as (Hln & Hld & Hall).
  replace (KMeans.finish (KMeans.nlist_ x) centroids before)
    with (KMeans.finish (Z.of_nat (Z.to_nat (KMeans.nlist_ x))) centroids before) in Hfin
    by (f_equal; lia).
  rewrite (finish_spec centroids before (Z.to_nat (KMeans.nlist_ x)) Hc Hln Hld) in Hfin.
  2: { intros j col Hdj Hcj.
       eapply accounts_zero; [exact Hls|exact Hlp|exact Hacct|exact Hdj|exact Hcj]. }
  injection Hfin as Hnew _ _. rewrite <- Hnew, Hparts.
  intros c Hcr. destruct (Hall c Hcr) as (Hd & col & Hcol & Hcl & Hsum).
  cbv zeta. set (assigned := members _ [] _ c) in *.
  rewrite bool_decide_eq_false_2 in Hd by (by intros ?%elem_of_nil).
  rewrite Z.add_0_r in Hd. specialize (Hsum ltac:(by intros ?%elem_of_nil)).
  unfold divided. rewrite vec_at_lookup by lia.
  rewrite vec_at_lookup in Hd by lia. rewrite vec_at_lookup in Hcol by lia.
  rewrite lookup_zip_with, Hcol, Hd. simpl. f_equal.
  destruct assigned as [|i rest]; simpl.
  - by rewrite Hsum.
  - by rewrite Hsum.
Qed.
End LastIteration.

Lemma last_iteration_takes_the_means_witness :
  ∃ it,
    KMeans.lloyd example_ceil_ratio example_partition (example_index 2 3)
      example_training_set (wrap64 (3 - 1)) [[1]; [20]]
    = Returned it
    ∧ KMeans.it_reassigned it = false
    ∧ KMeans.it_parts it = (example_partition [[1]; [20]] example_training_set).2
    ∧ ∀ c, 0 ≤ c < 2 →
        vec_at (KMeans.it_new_centroids it) c
        = Some (let assigned :=
                  members (KMeans.it_parts it) [] (Z.of_nat (length example_training_set)) c in
                if bool_decide (assigned = [])
                then replicate (Z.to_nat 1) 0
                else (λ a, a `div` Z.of_nat (length assigned))
                       <$> vsum (Z.to_nat 1) (column example_training_set <$> assigned)).
Proof.
  assert (H1 : 0 ≤ KMeans.nlist_ (example_index 2 3) ≤ Z.of_nat (length example_training_set))
    by (simpl; lia).
  assert (H2 : Z.of_nat (length example_training_set) < 2 ^ 63) by (simpl; lia).
  assert (H3 : Forall (λ v, length v = Z.to_nat (KMeans.dimension_ (example_index 2 3)))
                 example_training_set) by (by repeat constructor).
  assert (H4 : ∀ n, 0 ≤ n → 0 ≤ example_ceil_ratio n)
    by (intros n Hn; unfold example_ceil_ratio; apply Z.div_pos; lia).
  exact (last_iteration_takes_the_means example_ceil_ratio example_partition
           (example_index 2 3) example_training_set H1 H2 H3 H4
           (λ centroids Hc, example_partition_in_range 2 centroids example_training_set
                              ltac:(lia) Hc)
           [[1]; [20]] eq_refl).
Defined.



(** ** The nearest centroid of every vector *)

(** A loop that writes, at every position, a function of the element of
    another vector at this position. *)
Lemma for_each_fill {A B : Type} (src : list A) (f : A → B) (dst : list B) (k : nat) :
  length dst = length src → (k ≤ length src)%nat →
  for_each (seqZ 0 (Z.of_nat k)) (λ j dst,
    a ⟵ read src j;
    _ ⟵ read dst j;
    Returned (<[Z.to_nat j := f a]> dst)) dst
  = Returned ((f <$> take k src) ++ drop k dst).
Proof.
  intros Hlen. induction k as [|k IH]; intros Hk; [by rewrite drop_0|].
  rewrite seqZ_S, for_each_app, IH by lia. rewrite Z.add_0_l. cbn [bind for_each].
  destruct (lookup_lt_is_Some_2 src k) as [a Ha]; [lia|].
  destruct (lookup_lt_is_Some_2 dst k) as [b Hb]; [lia|].
  unfold read at 1. rewrite vec_at_of_nat, Ha. cbn [bind].
  assert (Hlook : ((f <$> take k src) ++ drop k dst) !! k = Some b).
  { rewrite lookup_app_r by (rewrite length_fmap, length_take; lia).
    rewrite length_fmap, length_take, lookup_drop.
    by replace (k + (k - k `min` length src))%nat with k by lia. }
  unfold read at 1. rewrite vec_at_of_nat, Hlook. cbn [bind].
  rewrite Nat2Z.id. f_equal.
  rewrite !fmap_take.
  apply (insert_take_drop (f <$> src) dst k (f a)); [|lia].
  by rewrite list_lookup_fmap, Ha.
Qed.

Section PredictFacts.
Context {T D F : Type} {HA : Arith T D}.
Variables (to_float : D → F) (fzero : F) (flt : F → F → bool).

(** [flt] is a strict weak order: the order of floats that are not NaN. *)
Hypothesis Hirr : ∀ a, flt a a = false.
Hypothesis Htrans : ∀ a b c, flt a b = true → flt b c = true → flt a c = true.
Hypothesis Hcotrans : ∀ a b c, flt a b = true → flt a c = true ∨ flt c b = true.

(** The position that [std::min_element] returns. *)
Lemma min_element_from_spec (pre : list F) (smallest : nat) (m : F) (l : list F) :
  pre !! smallest = Some m →
  (∀ (i : nat) d, pre !! i = Some d →
     flt d m = false ∧ ((i < smallest)%nat → flt m d = true)) →
  ∃ (j : nat) dj,
    min_element_from flt (Z.of_nat smallest) m (Z.of_nat (length pre)) l = Z.of_nat j
    ∧ (pre ++ l) !! j = Some dj
    ∧ ∀ (i : nat) d, (pre ++ l) !! i = Some d →
        flt d dj = false ∧ ((i < j)%nat → flt dj d = true).
Proof.
  revert pre smallest m. induction l as [|d l IH]; intros pre smallest m Hm Hinv.
  - exists smallest, m. rewrite app_nil_r. split; [done|]. split; [done|]. exact Hinv.
  - cbn [min_element_from].
    replace (Z.of_nat (length pre) + 1) with (Z.of_nat (length (pre ++ [d])))
      by (rewrite length_app; simpl; lia).
    rewrite (cons_middle d pre l), app_assoc.
    destruct (flt d m) eqn:Hdm.
    + replace (Z.of_nat (length pre)) with (Z.of_nat (length pre + 0)) by (f_equal; lia).
      apply IH.
      * rewrite lookup_app_r by lia. by replace (length pre + 0 - length pre)%nat with 0%nat by lia.
      * intros i e Hi. apply lookup_app_Some in Hi as [Hi|[Hge Hi]].
        -- destruct (Hinv i e Hi) as [Hem Hme].
           pose proof (lookup_lt_Some _ _ _ Hi). split.
           ++ destruct (flt e d) eqn:Hed; [|done]. by rewrite (Htrans e d m) in Hem.
           ++ intros _. destruct (Hcotrans d m e Hdm) as [?|Hc]; [done|congruence].
        -- destruct (i - length pre)%nat as [|n] eqn:Hn; [|by destruct n].
           injection Hi as <-. split; [apply Hirr|lia].
    + apply IH.
      * by apply lookup_app_l_Some.
      * intros i e Hi. apply lookup_app_Some in Hi as [Hi|[Hge Hi]]; [by apply Hinv|].
        destruct (i - length pre)%nat as [|n] eqn:Hn; [|by destruct n].
        injection Hi as <-. split; [done|].
        pose proof (lookup_lt_Some _ _ _ Hm). lia.
Qed.

Lemma min_element_spec (l : list F) :
  l ≠ [] →
  ∃ (j : nat) dj,
    min_element flt l = Z.of_nat j ∧ l !! j = Some dj
    ∧ ∀ (i : nat) d, l !! i = Some d →
        flt d dj = false ∧ ((i < j)%nat → flt dj d = true).
Proof.
  destruct l as [|d l]; [done|]. intros _.
  apply (min_element_from_spec [d] 0 d l); [done|].
  intros [|i] e; [|done]. intros [= <-]. split; [apply Hirr|lia].
Qed.

(** X11.  [predict] returns (no access is out of range) one position per
    vector: 0 when there is no centroid, and otherwise the position of a
    centroid whose stored squared distance to the vector is the least,
    the first of them: no centroid is nearer, and every centroid before it
    is strictly farther. *)
Theorem predict_returns_the_first_nearest_centroid (centroids vectors : list (list T)) :
  ∃ indices,
    predict to_float fzero flt centroids vectors = Returned indices
    ∧ length indices = length vectors
    ∧ ∀ (i : nat) v, vectors !! i = Some v →
        ∃ j : nat,
          indices !! i = Some (Z.of_nat j)
          ∧ (centroids = [] → j = 0%nat)
          ∧ (centroids ≠ [] →
             ∃ cj, centroids !! j = Some cj
               ∧ ∀ (j' : nat) c, centroids !! j' = Some c →
                   flt (to_float (KMeans.sum_of_squares v c))
                       (to_float (KMeans.sum_of_squares v cj)) = false
                   ∧ ((j' < j)%nat →
                      flt (to_float (KMeans.sum_of_squares v cj))
                          (to_float (KMeans.sum_of_squares v c)) = true)).
Proof.
  set (dist := λ (v c : list T), to_float (KMeans.sum_of_squares v c)).
  set (nearest := λ v : list T, min_element flt (dist v <$> centroids)).
  assert (Hrun : ∀ k : nat, (k ≤ length vectors)%nat →
    ∃ distances,
      for_each (seqZ 0 (Z.of_nat k)) (λ i (st : list Z * list F),
        distances ⟵ for_each (seqZ 0 (Z.of_nat (length centroids))) (λ j distances,
            vector ⟵ read vectors i;
            centroid ⟵ read centroids j;
            _ ⟵ read distances j;
            Returned (<[Z.to_nat j := to_float (KMeans.sum_of_squares vector centroid)]>
                        distances)) st.2;
        _ ⟵ read st.1 i;
        Returned (<[Z.to_nat i := min_element flt distances]> st.1, distances))
        (replicate (length vectors) 0, replicate (length centroids) fzero)
      = Returned ((nearest <$> take k vectors) ++ drop k (replicate (length vectors) 0),
                  distances)
      ∧ length distances = length centroids).
  { induction k as [|k IH]; intros Hk.
    - eexists. split; [done|]. by rewrite length_replicate.
    - destruct IH as (distances & Hprev & Hdl); [lia|].
      rewrite seqZ_S, for_each_app, Hprev. rewrite Z.add_0_l. cbn [bind for_each fst snd].
      destruct (lookup_lt_is_Some_2 vectors k) as [v Hv]; [lia|].
      assert (Hinner :
        for_each (seqZ 0 (Z.of_nat (length centroids))) (λ j distances,
            vector ⟵ read vectors (Z.of_nat k);
            centroid ⟵ read centroids j;
            _ ⟵ read distances j;
            Returned (<[Z.to_nat j := to_float (KMeans.sum_of_squares vector centroid)]>
                        distances)) distances
        = Returned (dist v <$> centroids)).
      { etrans; [|etrans; [apply (for_each_fill centroids (dist v) distances
                                   (length centroids) Hdl (le_n _))|]].
        - apply for_each_ext. intros j ds _.
          unfold read at 1. by rewrite vec_at_of_nat, Hv.
        - by rewrite firstn_all, drop_ge, app_nil_r by lia. }
      rewrite Hinner. cbn [bind].
      assert (Hlook : ((nearest <$> take k vectors) ++ drop k (replicate (length vectors) 0))
                        !! k = Some 0).
      { rewrite lookup_app_r by (rewrite length_fmap, length_take; lia).
        rewrite length_fmap, length_take, lookup_drop.
        apply lookup_replicate_2. lia. }
      unfold read at 1. rewrite vec_at_of_nat, Hlook. cbn [bind].
      exists (dist v <$> centroids). split; [|by rewrite length_fmap].
      rewrite Nat2Z.id. do 2 f_equal.
      rewrite !fmap_take.
      apply (insert_take_drop (nearest <$> vectors) _ k (nearest v));
        [|rewrite length_replicate; lia].
      by rewrite list_lookup_fmap, Hv. }
  destruct (Hrun (length vectors) (le_n _)) as (distances & Hfin & _).
  unfold predict. rewrite Hfin. cbn [bind fst].
  rewrite firstn_all, drop_ge, app_nil_r by (rewrite length_replicate; lia).
  eexists. split; [done|]. split; [by rewrite length_fmap|].
  intros i v Hv. rewrite list_lookup_fmap, Hv. simpl. unfold nearest.
  destruct centroids as [|c0 cs] eqn:Hcs.
  - exists 0%nat. by repeat split.
  - rewrite <- Hcs.
    destruct (min_element_spec (dist v <$> centroids)) as (j & dj & Hj & Hdj & Hmin).
    { by rewrite Hcs. }
    exists j. split; [by rewrite Hj|]. split; [by rewrite Hcs|]. intros _.
    rewrite list_lookup_fmap in Hdj.
    destruct (centroids !! j) as [cj|] eqn:Hcj; [|done]. injection Hdj as <-.
    exists cj. split; [done|]. intros j' c Hc.
    apply (Hmin j' (dist v c)). by rewrite list_lookup_fmap, Hc.
Qed.
End PredictFacts.

Lemma predict_returns_the_first_nearest_centroid_witness :
  ∃ indices,
    predict (λ d : Z, d) 0 Z.ltb [[1]; [20]] example_training_set = Returned indices
    ∧ length indices = length example_training_set
    ∧ ∀ (i : nat) v, example_training_set !! i = Some v →
        ∃ j : nat,
          indices !! i = Some (Z.of_nat j)
          ∧ ([[1]; [20]] = [] → j = 0%nat)
          ∧ ([[1]; [20]] ≠ [] →
             ∃ cj, [[1]; [20]] !! j = Some cj
               ∧ ∀ (j' : nat) c, [[1]; [20]] !! j' = Some c →
                   Z.ltb (KMeans.sum_of_squares v c) (KMeans.sum_of_squares v cj) = false
                   ∧ ((j' < j)%nat →
                      Z.ltb (KMeans.sum_of_squares v cj) (KMeans.sum_of_squares v c) = true)).
Proof.
  apply (predict_returns_the_first_nearest_centroid (λ d : Z, d) 0 Z.ltb).
  - intros a. apply Z.ltb_irrefl.
  - intros a b c. rewrite !Z.ltb_lt. lia.
  - intros a b c. rewrite !Z.ltb_lt. lia.
Defined.



(** ** The initialisation by k-means++ *)

(** A loop that rewrites the entry of its position rewrites every entry
    once. *)
Lemma foldl_update_each {A : Type} (f : nat → A → A) (a0 : A) (l : list A) (k : nat) :
  (k ≤ length l)%nat →
  let l' := foldl (λ ds (i : Z),
                     <[Z.to_nat i := f (Z.to_nat i) (default a0 (ds !! Z.to_nat i))]> ds)
              l (seqZ 0 (Z.of_nat k)) in
  length l' = length l
  ∧ ∀ j : nat, l' !! j = if bool_decide (j < k)%nat then f j <$> (l !! j) else l !! j.
Proof.
  induction k as [|k IH]; intros Hk; cbv zeta.
  - simpl. split; [done|]. by intros j.
  - destruct IH as [Hlen Hall]; [lia|].
    rewrite seqZ_S, foldl_app. simpl. rewrite Z.add_0_l, Nat2Z.id.
    split; [by rewrite length_insert|].
    intros j. destruct (decide (j = k)) as [->|Hne].
    + rewrite list_lookup_insert_eq by lia.
      rewrite bool_decide_eq_true_2 by lia.
      rewrite (Hall k), bool_decide_eq_false_2 by lia.
      destruct (lookup_lt_is_Some_2 l k) as [a Ha]; [lia|]. by rewrite Ha.
    + rewrite list_lookup_insert_ne by done. rewrite (Hall j).
      case_bool_decide; case_bool_decide; try lia; done.
Qed.

(** Of fewer than [n] numbers, one of the numbers below [n] is none. *)
Lemma fresh_below (n : Z) (chosen : list Z) :
  Z.of_nat (length chosen) < n → ∃ j, 0 ≤ j < n ∧ j ∉ chosen.
Proof.
  intros Hlen.
  destruct (decide (Forall (λ j, j ∈ chosen) (seqZ 0 n))) as [Hall|Hex].
  - rewrite Forall_forall in Hall.
    pose proof (submseteq_length _ _ (NoDup_submseteq _ _ (NoDup_seqZ 0 n) Hall)) as Hl.
    rewrite length_seqZ in Hl. lia.
  - apply not_Forall_Exists in Hex; [|apply _].
    apply Exists_exists in Hex as (j & Hj%elem_of_seqZ & Hn).
    exists j. split; [lia|done].
Qed.

Lemma existsb_elem_of {A : Type} (f : A → bool) (l : list A) a :
  a ∈ l → f a = true → existsb f l = true.
Proof.
  intros Ha Hf. apply existsb_exists. exists a. split; [|done].
  by apply list_elem_of_In.
Qed.

Lemma existsb_none {A : Type} (f : A → bool) (l : list A) :
  Forall (λ a, f a = false) l → existsb f l = false.
Proof. induction 1 as [|a l Ha _ IH]; simpl; [done|]. by rewrite Ha, IH. Qed.

Section KMeansPP.
Context {T D : Type} {HA : Arith T D}.
Variables (dis : nat → Z) (pick : nat → list D → Z) (far : D).
Variables (x : KMeans.kmeans_index T D) (training_set : list (list T)).

(** The loop over the training set returns the smaller, for every vector,
    of its distance so far and of its distance to the newest centroid. *)
Lemma nearest_distances_returns (newest : list T) (distances : list D) :
  length distances = length training_set →
  ∃ distances',
    nearest_distances training_set newest distances = Returned distances'
    ∧ length distances' = length training_set
    ∧ ∀ (j : nat) vec dj,
        training_set !! j = Some vec → distances !! j = Some dj →
        distances' !! j
        = Some (if dlt (KMeans.sum_of_squares vec newest) dj
                then KMeans.sum_of_squares vec newest else dj).
Proof.
  intros Hlen. unfold nearest_distances.
  set (f := λ (j : nat) (dj : D),
              if dlt (KMeans.sum_of_squares (column training_set (Z.of_nat j)) newest) dj
              then KMeans.sum_of_squares (column training_set (Z.of_nat j)) newest
              else dj).
  destruct (for_each_pure (λ ds : list D, length ds = length training_set)
              (λ ds (j : Z), <[Z.to_nat j := f (Z.to_nat j) (default far (ds !! Z.to_nat j))]> ds)
              (seqZ 0 (Z.of_nat (length training_set)))
              (λ j distances,
                 vec ⟵ read training_set j;
                 dj ⟵ read distances j;
                 Returned (<[Z.to_nat j :=
                               if dlt (KMeans.sum_of_squares vec newest) dj
                               then KMeans.sum_of_squares vec newest else dj]> distances))
              distances Hlen) as [Hrun Hinv].
  - intros j ds Hj%elem_of_seqZ Hds.
    destruct (lookup_lt_is_Some_2 training_set (Z.to_nat j)) as [v Hv]; [lia|].
    destruct (lookup_lt_is_Some_2 ds (Z.to_nat j)) as [d Hd]; [lia|].
    unfold read, f, column. rewrite Z2Nat.id by lia.
    rewrite !vec_at_lookup by lia. rewrite Hv, Hd. simpl.
    split; [done|]. by rewrite length_insert.
  - eexists. split; [exact Hrun|]. split; [exact Hinv|].
    intros j vec dj Hvec Hdj.
    destruct (foldl_update_each f far distances (length training_set) ltac:(lia))
      as [_ Hall].
    rewrite (Hall j), bool_decide_eq_true_2 by (by eapply lookup_lt_Some).
    rewrite Hdj. simpl. unfold f, column. by rewrite vec_at_of_nat, Hvec.
Qed.

(** The loop of [kmeans_pp] that chooses the centroids after the first,
    on vectors at a distance above zero of one another: after [r] steps
    the first [1 + r] centroids are the columns drawn, and the vectors
    that have not been drawn have a weight above zero. *)
Lemma kmeans_pp_loop (r : nat) (col0 : list T) (index0 : Z) :
  let n := Z.of_nat (length training_set) in
  (∀ g w, length w = length training_set → existsb (dlt dzero) w = true →
     0 ≤ pick g w < n) →
  dlt dzero far = true →
  (∀ (i j : nat) vi vj,
     training_set !! i = Some vi → training_set !! j = Some vj → i ≠ j →
     dlt dzero (KMeans.sum_of_squares vi vj) = true) →
  training_set !! Z.to_nat index0 = Some col0 → 0 ≤ index0 < n →
  (S r ≤ length (KMeans.centroids_ x))%nat → (S r ≤ length training_set)%nat →
  ∃ centroids distances chosen,
    for_each (seqZ 1 (Z.of_nat r))
      (λ i (st : list (list T) * list D * nat),
         newest ⟵ read st.1.1 (i - 1);
         distances ⟵ nearest_distances training_set newest st.1.2;
         if negb (existsb (dlt dzero) distances) then Undefined else
         col ⟵ read training_set (pick st.2 distances);
         _ ⟵ read st.1.1 i;
         _ ⟵ read distances (pick st.2 distances);
         Returned (<[Z.to_nat i := col]> st.1.1,
                   <[Z.to_nat (pick st.2 distances) := dzero]> distances, S st.2))
      (<[0%nat := col0]> (KMeans.centroids_ x),
       replicate (length training_set) far, S (KMeans.gen x))
    = Returned (centroids, distances, (S (KMeans.gen x) + r)%nat)
    ∧ length centroids = length (KMeans.centroids_ x)
    ∧ length distances = length training_set
    ∧ length chosen = S r
    ∧ chosen !! 0%nat = Some index0
    ∧ Forall (λ v, 0 ≤ v < n) chosen
    ∧ (∀ (i : nat) index, chosen !! i = Some index →
         centroids !! i = training_set !! Z.to_nat index)
    ∧ (∀ i : nat, (S r ≤ i)%nat → centroids !! i = KMeans.centroids_ x !! i)
    ∧ ∀ (j : nat) d, distances !! j = Some d → Z.of_nat j ∉ chosen → dlt dzero d = true.
Proof.
  intros n Hpick Hfar Hsep Hcol0 Hi0. induction r as [|r IH]; intros Hr Hrn.
  - exists (<[0%nat := col0]> (KMeans.centroids_ x)), (replicate (length training_set) far),
      [index0].
    simpl. rewrite Nat.add_0_r. split; [done|].
    split; [by rewrite length_insert|]. split; [by rewrite length_replicate|].
    split; [done|]. split; [done|]. split; [by constructor|]. split; [|split].
    + intros [|i] index; [|done]. intros [= <-].
      rewrite list_lookup_insert_eq by lia. done.
    + intros i Hi. by rewrite list_lookup_insert_ne by lia.
    + intros j d [-> _]%lookup_replicate _. done.
  - destruct IH
      as (cs & ds & chosen & Hrun & Hcl & Hdl & Hchl & Hch0 & Hin & Hcols & Hrest & Hpos);
      [lia|lia|].
    rewrite seqZ_S, for_each_app, Hrun. cbn [bind for_each fst snd].
    replace (1 + Z.of_nat r - 1) with (Z.of_nat r) by lia.
    destruct (lookup_lt_is_Some_2 cs r) as [newest Hnewest]; [lia|].
    unfold read at 1. rewrite vec_at_of_nat, Hnewest. cbn [bind].
    destruct (nearest_distances_returns newest ds Hdl) as (ds' & -> & Hdl' & Hds').
    cbn [bind].
    destruct (lookup_lt_is_Some_2 chosen r) as [last_index Hlast]; [lia|].
    assert (Hlr : 0 ≤ last_index < n).
    { rewrite Forall_forall in Hin. apply Hin. by eapply list_elem_of_lookup_2. }
    pose proof (Hcols r last_index Hlast) as Hnew. rewrite Hnewest in Hnew. symmetry in Hnew.
    assert (Hpos' : ∀ (j : nat) d, ds' !! j = Some d → Z.of_nat j ∉ chosen →
                      dlt dzero d = true).
    { intros j d Hd Hj. pose proof (lookup_lt_Some _ _ _ Hd) as Hjl.
      destruct (lookup_lt_is_Some_2 training_set j) as [vec Hvec]; [lia|].
      destruct (lookup_lt_is_Some_2 ds j) as [dj Hdj]; [lia|].
      rewrite (Hds' j vec dj Hvec Hdj) in Hd. injection Hd as <-.
      destruct (dlt (KMeans.sum_of_squares vec newest) dj); [|by eapply Hpos].
      apply (Hsep j (Z.to_nat last_index)); [done|done|].
      intros ->. apply Hj. rewrite Z2Nat.id by lia. by eapply list_elem_of_lookup_2. }
    assert (Hex : existsb (dlt dzero) ds' = true).
    { destruct (fresh_below n chosen) as (j & Hj & Hjc); [lia|].
      destruct (lookup_lt_is_Some_2 ds' (Z.to_nat j)) as [d Hd]; [lia|].
      apply (existsb_elem_of _ _ d); [by eapply list_elem_of_lookup_2|].
      apply (Hpos' _ _ Hd). by rewrite Z2Nat.id by lia. }
    rewrite Hex. cbn [negb].
    set (next := pick (S (KMeans.gen x) + r)%nat ds').
    pose proof (Hpick (S (KMeans.gen x) + r)%nat ds' Hdl' Hex) as Hnext. fold next in Hnext.
    destruct (lookup_lt_is_Some_2 training_set (Z.to_nat next)) as [col Hcol]; [lia|].
    unfold read at 1. rewrite vec_at_lookup, Hcol by lia. cbn [bind].
    destruct (lookup_lt_is_Some_2 cs (S r)) as [old Hold]; [lia|].
    unfold read at 1.
    replace (1 + Z.of_nat r) with (Z.of_nat (S r)) by lia.
    rewrite vec_at_of_nat, Hold. cbn [bind].
    destruct (lookup_lt_is_Some_2 ds' (Z.to_nat next)) as [dn Hdn]; [lia|].
    unfold read at 1. rewrite vec_at_lookup, Hdn by lia. cbn [bind].
    rewrite Nat2Z.id.
    exists (<[S r := col]> cs), (<[Z.to_nat next := dzero]> ds'), (chosen ++ [next]).
    split; [do 2 f_equal; lia|].
    split; [by rewrite length_insert|]. split; [by rewrite length_insert|].
    split; [rewrite length_app; simpl; lia|].
    split; [by apply lookup_app_l_Some|].
    split; [apply Forall_app; split; [done|by constructor]|]. split; [|split].
    + intros i index Hi. apply lookup_app_Some in Hi as [Hi|[Hge Hi]].
      * pose proof (lookup_lt_Some _ _ _ Hi).
        rewrite list_lookup_insert_ne by lia. by apply Hcols.
      * rewrite Hchl in Hge, Hi.
        destruct (i - S r)%nat as [|m] eqn:Hm; [|by destruct m].
        injection Hi as <-. assert (i = S r) as -> by lia.
        rewrite list_lookup_insert_eq by lia. done.
    + intros i Hi. rewrite list_lookup_insert_ne by lia. apply Hrest. lia.
    + intros j d Hd Hj. apply not_elem_of_app in Hj as [Hjc Hjn].
      rewrite list_lookup_insert_ne in Hd.
      * by eapply Hpos'.
      * intros <-. apply Hjn. rewrite Z2Nat.id by lia. by left.
Qed.

(** [kmeans_pp] returns an index whose centroids are the columns drawn. *)
Lemma kmeans_pp_returns :
  let n := Z.of_nat (length training_set) in
  1 ≤ n < 2 ^ 31 → 1 ≤ KMeans.nlist_ x ≤ n →
  length (KMeans.centroids_ x) = Z.to_nat (KMeans.nlist_ x) →
  0 ≤ dis (KMeans.gen x) < n →
  (∀ g w, length w = length training_set → existsb (dlt dzero) w = true →
     0 ≤ pick g w < n) →
  dlt dzero far = true →
  (∀ (i j : nat) vi vj,
     training_set !! i = Some vi → training_set !! j = Some vj → i ≠ j →
     dlt dzero (KMeans.sum_of_squares vi vj) = true) →
  ∃ centroids chosen,
    kmeans_pp dis pick far x training_set
    = Returned (KMeans.with_centroids x (KMeans.gen x + Z.to_nat (KMeans.nlist_ x))%nat
                  centroids)
    ∧ length centroids = Z.to_nat (KMeans.nlist_ x)
    ∧ Z.of_nat (length chosen) = KMeans.nlist_ x
    ∧ chosen !! 0%nat = Some (dis (KMeans.gen x))
    ∧ Forall (λ v, 0 ≤ v < n) chosen
    ∧ Forall2 (λ c index, training_set !! Z.to_nat index = Some c) centroids chosen.
Proof.
  intros n Hn Hnl Hcl Hdis Hpick Hfar Hsep. unfold kmeans_pp. cbv zeta. fold n.
  rewrite wrap64_small, to_int_small, bool_decide_eq_false_2 by lia.
  rewrite wrap64_small by lia.
  destruct (lookup_lt_is_Some_2 training_set (Z.to_nat (dis (KMeans.gen x))))
    as [col0 Hcol0]; [lia|].
  unfold read at 1. rewrite vec_at_lookup, Hcol0 by lia. cbn [bind].
  destruct (lookup_lt_is_Some_2 (KMeans.centroids_ x) 0) as [old Hold]; [lia|].
  unfold read at 1. change 0 with (Z.of_nat 0). rewrite vec_at_of_nat, Hold. cbn [bind].
  destruct (kmeans_pp_loop (Z.to_nat (KMeans.nlist_ x - 1)) col0 (dis (KMeans.gen x))
              Hpick Hfar Hsep Hcol0 Hdis)
    as (cs & ds & chosen & Hrun & Hcsl & _ & Hchl & Hch0 & Hin & Hcols & _); [lia|lia|].
  rewrite Z2Nat.id in Hrun by lia. rewrite Hrun. cbn [bind fst snd].
  exists cs, chosen. split; [do 2 f_equal; lia|].
  split; [lia|]. split; [lia|]. split; [done|]. split; [done|].
  apply Forall2_same_length_lookup. split; [lia|].
  intros i c index Hc Hi. by rewrite <- (Hcols i index Hi).
Qed.


(** X22.  [kmeans_pp] on training vectors at the distance zero of one
    another (equal vectors), with [nlist >= 2]: after the first centroid
    every weight is zero, and the weighted draw has undefined behaviour
    ([std::discrete_distribution] needs weights whose sum is above
    zero). *)
Theorem kmeans_pp_on_equal_vectors_is_undefined :
  let n := Z.of_nat (length training_set) in
  1 ≤ n < 2 ^ 31 → 2 ≤ KMeans.nlist_ x →
  length (KMeans.centroids_ x) = Z.to_nat (KMeans.nlist_ x) →
  0 ≤ dis (KMeans.gen x) < n →
  dlt dzero far = true → dlt dzero dzero = false →
  (∀ vi vj, vi ∈ training_set → vj ∈ training_set →
     KMeans.sum_of_squares vi vj = dzero) →
  kmeans_pp dis pick far x training_set = Undefined.
Proof.
  intros n Hn Hnl Hcl Hdis Hfar Hzero Hsame. unfold kmeans_pp. cbv zeta. fold n.
  rewrite wrap64_small, to_int_small, bool_decide_eq_false_2 by lia.
  rewrite wrap64_small by lia.
  destruct (lookup_lt_is_Some_2 training_set (Z.to_nat (dis (KMeans.gen x))))
    as [col0 Hcol0]; [lia|].
  unfold read at 1. rewrite vec_at_lookup, Hcol0 by lia. cbn [bind].
  destruct (lookup_lt_is_Some_2 (KMeans.centroids_ x) 0) as [old Hold]; [lia|].
  unfold read at 1. change 0 with (Z.of_nat 0). rewrite vec_at_of_nat, Hold. cbn [bind].
  rewrite seqZ_cons by lia. cbn [for_each fst snd].
  unfold read at 1. change (1 - 1) with (Z.of_nat 0).
  rewrite vec_at_of_nat, list_lookup_insert_eq by lia. cbn [bind].
  destruct (nearest_distances_returns col0 (replicate (length training_set) far))
    as (ds' & -> & Hdl' & Hds'); [apply length_replicate|].
  cbn [bind].
  rewrite existsb_none; [done|].
  apply Forall_forall. intros d [j Hj]%list_elem_of_lookup.
  pose proof (lookup_lt_Some _ _ _ Hj) as Hjl.
  destruct (lookup_lt_is_Some_2 training_set j) as [vec Hvec]; [lia|].
  rewrite (Hds' j vec far Hvec) in Hj by (apply lookup_replicate_2; lia).
  injection Hj as <-.
  rewrite (Hsame vec col0) by (by eapply list_elem_of_lookup_2).
  by rewrite Hfar.
Qed.
End KMeansPP.

Lemma example_training_set_apart (i j : nat) (vi vj : list Z) :
  example_training_set !! i = Some vi → example_training_set !! j = Some vj → i ≠ j →
  Z.ltb 0 (KMeans.sum_of_squares vi vj) = true.
Proof.
  destruct i as [|[|[|i]]], j as [|[|[|j]]]; simpl; try done;
    by intros [= <-] [= <-].
Qed.


Lemma kmeans_pp_on_equal_vectors_is_undefined_witness :
  kmeans_pp example_dis (λ g _, example_dis g) (2 ^ 62) (example_index 2 3) [[7]; [7]; [7]]
  = Undefined.
Proof.
  apply (kmeans_pp_on_equal_vectors_is_undefined example_dis (λ g _, example_dis g) (2 ^ 62)
           (example_index 2 3) [[7]; [7]; [7]]);
    [simpl; lia|simpl; lia|reflexivity|apply example_dis_in_range|done|done|].
  intros vi vj Hi Hj.
  repeat (apply elem_of_cons in Hi as [->|Hi]); [| | |by apply elem_of_nil in Hi];
    (repeat (apply elem_of_cons in Hj as [->|Hj]); [| | |by apply elem_of_nil in Hj]);
    reflexivity.
Defined.

(** ** [train]: an initialisation, then the iterations *)

(** The random initialisation returns, for every fuel above some bound,
    an index whose centroids are columns of the training set. *)
Lemma random_init_returns {T D : Type} (dis : nat → Z) (x : KMeans.kmeans_index T D)
    (training_set : list (list T)) :
  let n := Z.of_nat (length training_set) in
  1 ≤ n < 2 ^ 31 → 0 ≤ KMeans.nlist_ x ≤ n →
  length (KMeans.centroids_ x) = Z.to_nat (KMeans.nlist_ x) →
  in_range dis n → fair dis n →
  ∃ fuel0 g' centroids' indices,
    (∀ fuel, (fuel0 ≤ fuel)%nat →
       KMeans.kmeans_random_init dis fuel x training_set
       = Some (Returned (KMeans.with_centroids x g' centroids', indices)))
    ∧ length centroids' = Z.to_nat (KMeans.nlist_ x)
    ∧ Forall (λ c, c ∈ training_set) centroids'.
Proof.
  intros n Hn Hnl Hcs Hrange Hfair.
  assert (Hseq : seqZ 0 (KMeans.nlist_ x)
                 = seqZ (Z.of_nat (length (@nil Z))) (Z.of_nat (Z.to_nat (KMeans.nlist_ x))))
    by (simpl; f_equal; lia).
  assert (Hmarks : marks (replicate (length training_set) false) []).
  { intros v b [_ Hv]%vec_at_Some. apply lookup_replicate in Hv as [-> _].
    split; [done|]. by intros ?%elem_of_nil. }
  assert (Hvl : Z.of_nat (length (replicate (length training_set) false)) = n)
    by (by rewrite length_replicate).
  destruct (choose_terminates dis n ltac:(lia) Hrange (Z.to_nat (KMeans.nlist_ x)) []
              (replicate (length training_set) false) (KMeans.gen x) Hfair Hvl
              (NoDup_nil_2) (Forall_nil_2 _) Hmarks) as (fuel0 & res & Hres).
  { simpl. lia. }
  destruct (choose_sound dis n ltac:(lia) Hrange _ _ _ _ _ _ Hvl (NoDup_nil_2)
              (Forall_nil_2 _) Hmarks (Hres fuel0 ltac:(lia)))
    as (indices & g' & -> & Hnd & Hlen & Hin).
  simpl in Hlen.
  destruct (copy_columns training_set indices (Z.to_nat (KMeans.nlist_ x)) 0
              (KMeans.centroids_ x) Hin) as (cs' & Hcopy & Hcl & Hcs'); [lia|lia|].
  exists fuel0, g', cs', indices. split; [|split; [lia|]].
  - intros fuel Hfuel. unfold KMeans.kmeans_random_init. fold n.
    rewrite wrap64_small, to_int_small, bool_decide_eq_false_2 by lia.
    pose proof (Hres fuel Hfuel) as Hr. rewrite <- Hseq in Hr.
    simpl app in Hr. rewrite Hr.
    rewrite Z2Nat.id in Hcopy by lia. change (Z.of_nat 0) with 0 in Hcopy.
    by rewrite Hcopy.
  - apply Forall_forall. intros c [i Hi]%list_elem_of_lookup.
    destruct (lookup_lt_is_Some_2 indices i) as [index Hindex].
    { apply lookup_lt_Some in Hi. lia. }
    rewrite (Hcs' _ _ Hindex) in Hi.
    rewrite bool_decide_eq_true_2 in Hi by (apply lookup_lt_Some in Hindex; lia).
    by eapply list_elem_of_lookup_2.
Qed.

Section TrainInit.
Context {SH : Heap.SortHeap} {SHL : Heap.SortHeapLaws}.
Context {T D : Type} {HA : Arith T D}.
Variables (dis : nat → Z) (pick : nat → list D → Z) (far : D).
Variable ceil_ratio : Z → Z.
Variable qv_partition_with_scores : list (list T) → list (list T) → list Z * list Z.
Variables (x : KMeans.kmeans_index T D) (training_set : list (list T)).
Hypothesis Hn : Z.of_nat (length training_set) < 2 ^ 31.
Hypothesis Hnlist : 1 ≤ KMeans.nlist_ x ≤ Z.of_nat (length training_set).
Hypothesis Hmax : 0 ≤ KMeans.max_iter_ x < 2 ^ 64.
Hypothesis Hcentroids : length (KMeans.centroids_ x) = Z.to_nat (KMeans.nlist_ x).
Hypothesis Hdim : Forall (λ v, length v = Z.to_nat (KMeans.dimension_ x)) training_set.
Hypothesis Hceil : ∀ n, 0 ≤ n → 0 ≤ ceil_ratio n.
Hypothesis Hpartition : ∀ centroids,
  length centroids = Z.to_nat (KMeans.nlist_ x) →
  length (qv_partition_with_scores centroids training_set).1 = length training_set
  ∧ length (qv_partition_with_scores centroids training_set).2 = length training_set
  ∧ Forall (λ p, 0 ≤ p < KMeans.nlist_ x) (qv_partition_with_scores centroids training_set).2.
Hypothesis Hdis : in_range dis (Z.of_nat (length training_set)).
Hypothesis Hfair : fair dis (Z.of_nat (length training_set)).
Hypothesis Hpick : ∀ g w,
  length w = length training_set → existsb (dlt dzero) w = true →
  0 ≤ pick g w < Z.of_nat (length training_set).
Hypothesis Hfar : dlt dzero far = true.
Hypothesis Hsep : ∀ (i j : nat) vi vj,
  training_set !! i = Some vi → training_set !! j = Some vj → i ≠ j →
  dlt dzero (KMeans.sum_of_squares vi vj) = true.

(** The centroids that the iterations return are the new centroids of
    the last one. *)
Lemma iterate_last (x0 : KMeans.kmeans_index T D) iters centroids centroids' trace :
  KMeans.iterate ceil_ratio qv_partition_with_scores x0 training_set iters centroids
  = Returned (centroids', trace) →
  centroids' = default centroids (KMeans.it_new_centroids <$> last trace).
Proof.
  revert centroids centroids' trace.
  induction iters as [|iter iters IH]; intros centroids centroids' trace; simpl.
  - by intros [= <- <-].
  - intros (it0 & Hit0 & Hb)%bind_Returned.
    destruct (KMeans.it_converged it0).
    + by injection Hb as <- <-.
    + apply bind_Returned in Hb as ([c1 tr1] & Hrest & Hb). injection Hb as <- <-.
      apply IH in Hrest. simpl in Hrest. simpl fst. simpl snd. rewrite Hrest.
      destruct tr1 as [|it1 tr1]; [done|].
      change (last (it0 :: it1 :: tr1)) with (last (it1 :: tr1)).
      destruct (last (it1 :: tr1)) eqn:Hl; [done|]. by apply last_None in Hl.
Qed.

(** The iterations return from any centroids of the right number. *)
Lemma train_no_init_returns (g : nat) (centroids : list (list T)) :
  length centroids = Z.to_nat (KMeans.nlist_ x) →
  ∃ x' trace,
    KMeans.train_no_init ceil_ratio qv_partition_with_scores
      (KMeans.with_centroids x g centroids) training_set
    = Returned (x', trace)
    ∧ Z.of_nat (length trace) ≤ KMeans.max_iter_ x
    ∧ (1 ≤ KMeans.max_iter_ x → trace ≠ [])
    ∧ chained centroids trace
    ∧ KMeans.centroids_ x' = default centroids (KMeans.it_new_centroids <$> last trace).
Proof.
  intros Hc. unfold KMeans.train_no_init.
  destruct (iterate_returns_any ceil_ratio qv_partition_with_scores
              (KMeans.with_centroids x g centroids) training_set
              ltac:(simpl; lia) ltac:(lia) Hdim Hceil Hpartition
              (seqZ 0 (KMeans.max_iter_ x)) centroids Hc)
    as (c' & trace & Hrun & Hch & _).
  simpl. rewrite Hrun. cbn [bind snd fst]. eexists _, trace. split; [done|].
  destruct (iterate_trace _ _ _ _ _ _ _ _ Hrun) as (Hlen & Hnil & _).
  rewrite length_seqZ in Hlen. split; [lia|]. split; [|split; [done|]].
  - intros H1 Hn0. apply Hnil in Hn0. apply (f_equal length) in Hn0.
    rewrite length_seqZ in Hn0. simpl in Hn0. lia.
  - simpl. by apply iterate_last in Hrun.
Qed.

(** X13.  [train] runs an initialisation and then the iterations, on a
    training set of [n] columns at a distance above zero of one another,
    with [1 <= nlist <= n], draws in range and a fair generator.  For each
    of the three initialisations and every fuel above some bound: the
    initialisation returns an index [x0] (the index itself without
    initialisation; with k-means++ or the random initialisation an index
    whose [nlist] centroids are columns of the training set); [train]
    returns what [train_no_init] returns on [x0]: at most [max_iter]
    iterations, at least one when [max_iter] is not zero, the first from
    the centroids of [x0], and an index whose centroids are the new
    centroids of the last iteration. *)
Theorem train_initialises_then_iterates (init : kmeans_init) :
  ∃ fuel0, ∀ fuel, (fuel0 ≤ fuel)%nat →
    ∃ x0 x' trace,
      match init with
      | none => x0 = x
      | kmeanspp => kmeans_pp dis pick far x training_set = Returned x0
      | random =>
          ∃ indices,
            KMeans.kmeans_random_init dis fuel x training_set = Some (Returned (x0, indices))
      end
      ∧ length (KMeans.centroids_ x0) = Z.to_nat (KMeans.nlist_ x)
      ∧ (init ≠ none → Forall (λ c, c ∈ training_set) (KMeans.centroids_ x0))
      ∧ KMeans.train_no_init ceil_ratio qv_partition_with_scores x0 training_set
        = Returned (x', trace)
      ∧ train dis pick far ceil_ratio qv_partition_with_scores fuel x training_set init
        = Some (Returned (x', trace))
      ∧ Z.of_nat (length trace) ≤ KMeans.max_iter_ x
      ∧ (1 ≤ KMeans.max_iter_ x → trace ≠ [])
      ∧ chained (KMeans.centroids_ x0) trace
      ∧ KMeans.centroids_ x'
        = default (KMeans.centroids_ x0) (KMeans.it_new_centroids <$> last trace).
Proof.
  destruct init.
  - exists 0%nat. intros fuel _.
    destruct (train_no_init_returns (KMeans.gen x) (KMeans.centroids_ x) Hcentroids)
      as (x' & trace & Hrun & Hlen & Hne & Hch & Hlast).
    replace (KMeans.with_centroids x (KMeans.gen x) (KMeans.centroids_ x)) with x in Hrun
      by (by destruct x).
    exists x, x', trace. simpl. by rewrite Hrun.
  - exists 0%nat. intros fuel _.
    destruct (kmeans_pp_returns dis pick far x training_set ltac:(lia) ltac:(lia)
                Hcentroids (Hdis _) Hpick Hfar Hsep)
      as (cs & chosen & Hpp & Hcl & _ & _ & _ & Hcols).
    destruct (train_no_init_returns (KMeans.gen x + Z.to_nat (KMeans.nlist_ x))%nat cs Hcl)
      as (x' & trace & Hrun & Hlen & Hne & Hch & Hlast).
    eexists _, x', trace. split; [exact Hpp|]. simpl. rewrite Hpp. cbn [bind]. rewrite Hrun.
    split; [done|]. split; [|done].
    intros _. apply Forall_forall. intros c [i Hi]%list_elem_of_lookup.
    destruct (Forall2_lookup_l _ _ _ _ _ Hcols Hi) as (index & _ & Hidx).
    by eapply list_elem_of_lookup_2.
  - destruct (random_init_returns dis x training_set ltac:(lia) ltac:(lia)
                Hcentroids Hdis Hfair) as (fuel0 & g' & cs & indices & Hrand & Hcl & Hin).
    exists fuel0. intros fuel Hfuel.
    destruct (train_no_init_returns g' cs Hcl) as (x' & trace & Hrun & Hlen & Hne & Hch & Hlast).
    eexists _, x', trace. split; [by eexists; apply (Hrand fuel Hfuel)|].
    simpl. rewrite (Hrand fuel Hfuel). cbn [bind fst]. by rewrite Hrun.
Qed.
End TrainInit.

Lemma train_initialises_then_iterates_witness :
  ∃ fuel0, ∀ fuel, (fuel0 ≤ fuel)%nat →
    ∃ x0 x' trace,
      kmeans_pp example_dis (λ g _, example_dis g) (2 ^ 62) (example_index 2 3)
        example_training_set = Returned x0
      ∧ length (KMeans.centroids_ x0) = Z.to_nat 2
      ∧ Forall (λ c, c ∈ example_training_set) (KMeans.centroids_ x0)
      ∧ KMeans.train_no_init example_ceil_ratio example_partition x0 example_training_set
        = Returned (x', trace)
      ∧ train example_dis (λ g _, example_dis g) (2 ^ 62) example_ceil_ratio example_partition
          fuel (example_index 2 3) example_training_set kmeanspp
        = Some (Returned (x', trace))
      ∧ Z.of_nat (length trace) ≤ 3
      ∧ trace ≠ []
      ∧ chained (KMeans.centroids_ x0) trace
      ∧ KMeans.centroids_ x'
        = default (KMeans.centroids_ x0) (KMeans.it_new_centroids <$> last trace).
Proof.
  assert (H0 : Z.of_nat (length example_training_set) < 2 ^ 31) by (simpl; lia).
  assert (H1 : 1 ≤ KMeans.nlist_ (example_index 2 3) ≤ Z.of_nat (length example_training_set))
    by (simpl; lia).
  assert (H2 : 0 ≤ KMeans.max_iter_ (example_index 2 3) < 2 ^ 64) by (simpl; lia).
  assert (H3 : Forall (λ v, length v = Z.to_nat (KMeans.dimension_ (example_index 2 3)))
                 example_training_set) by (by repeat constructor).
  assert (H4 : ∀ n, 0 ≤ n → 0 ≤ example_ceil_ratio n)
    by (intros n Hn; unfold example_ceil_ratio; apply Z.div_pos; lia).
  assert (H5 : Z.ltb 0 (2 ^ 62) = true) by done.
  destruct (train_initialises_then_iterates (HA := Z_arith)
              example_dis (λ g _, example_dis g) (2 ^ 62)
              example_ceil_ratio example_partition (example_index 2 3) example_training_set
              H0 H1 H2 eq_refl H3 H4
              (λ centroids Hc, example_partition_in_range 2 centroids example_training_set
                                 ltac:(lia) Hc)
              example_dis_in_range example_dis_fair
              (λ g w _ _, example_dis_in_range g) H5 example_training_set_apart kmeanspp)
    as [fuel0 Hall].
  exists fuel0. intros fuel Hfuel.
  destruct (Hall fuel Hfuel) as (x0 & x' & trace & G1 & G2 & G3 & G4 & G5 & G6 & G7 & G8 & G9).
  exists x0, x', trace.
  split; [done|]. split; [done|]. split; [by apply G3|]. split; [done|]. split; [done|].
  split; [done|]. split; [apply G7; simpl; lia|]. by split.
Defined.

(** * File names and addresses *)

Section UtilsFacts.
Import Ascii String.
Import Utils.

Lemma run_star_eq (f : nat) (r : regex) (pos : nat) (s : string) (caps : smatch)
    (k : nat → string → smatch → option smatch) :
  run (S f) (Star r) pos s caps k
  = match run f r pos s caps
            (λ pos' s' caps',
               if Nat.eqb pos' pos then None else run f (Star r) pos' s' caps' k) with
    | Some m => Some m
    | None => k pos s caps
    end.
Proof. reflexivity. Qed.

Lemma run_dot_eq (f pos : nat) (c : ascii) (s : string) (caps : smatch)
    (k : nat → string → smatch → option smatch) :
  run (S f) Dot pos (String c s) caps k
  = if line_terminator c then None else k (S pos) s caps.
Proof. reflexivity. Qed.

(** [.*] before the end of the pattern takes what is left of the input
    when it is one line, and fails otherwise. *)
Lemma run_star_dot (f pos : nat) (s : string) (caps : smatch)
    (k : nat → string → smatch → option smatch) :
  (String.length s < f)%nat →
  (∀ p c s' caps', k p (String c s') caps' = None) →
  run f (Star Dot) pos s caps k
  = if one_line s then k (pos + String.length s)%nat EmptyString caps else None.
Proof.
  revert f pos. induction s as [|c s IH]; intros f pos Hf Hk.
  - destruct f as [|f]; [simpl in Hf; lia|]. simpl.
    replace (pos + 0)%nat with pos by lia. by destruct f.
  - destruct f as [|[|f]]; [simpl in Hf; lia|simpl in Hf; lia|].
    rewrite run_star_eq, run_dot_eq. cbv beta. cbn [one_line String.length].
    destruct (line_terminator c); cbn [negb andb].
    + apply Hk.
    + replace (Nat.eqb (S pos) pos) with false
        by (symmetry; apply Nat.eqb_neq; lia).
      rewrite (IH (S f) (S pos)); [|simpl in Hf; lia|done].
      replace (S pos + String.length s)%nat with (pos + S (String.length s))%nat by lia.
      destruct (one_line s); [|apply Hk].
      by destruct (k _ _ _).
Qed.

Lemma run_cat_eq (f : nat) (r1 r2 : regex) (pos : nat) (s : string) (caps : smatch)
    (k : nat → string → smatch → option smatch) :
  run (S f) (Cat r1 r2) pos s caps k
  = run f r1 pos s caps (λ pos' s' caps', run f r2 pos' s' caps' k).
Proof. reflexivity. Qed.

Lemma strip_prefix_Some (p : list ascii) (s rest : string) :
  strip_prefix p s = Some rest ↔ s = (string_of_list_ascii p ++ rest)%string.
Proof.
  revert s. induction p as [|c p IH]; intros s; simpl.
  - split; [by intros [= ->]|by intros ->].
  - destruct s as [|c' s]; [done|].
    destruct (Ascii.eqb_spec c c') as [<-|Hne].
    + rewrite IH. split; [by intros ->|by intros [= ->]].
    + split; [done|]. intros [= -> _]. done.
Qed.

(** A run of characters in front of [tail]. *)
Lemma run_chars (p : list ascii) (tail : regex) (f' f pos : nat) (s : string) (caps : smatch)
    (k : nat → string → smatch → option smatch) :
  f' = (List.length p + f)%nat →
  run f' (foldr Cat tail (Chr <$> p)) pos s caps k
  = match strip_prefix p s with
    | Some rest => run f tail (pos + List.length p) rest caps k
    | None => None
    end.
Proof.
  revert f' pos s. induction p as [|c p IH]; intros f' pos s ->.
  - simpl. by replace (pos + 0)%nat with pos by lia.
  - cbn [fmap list_fmap foldr List.length Nat.add strip_prefix].
    rewrite run_cat_eq.
    destruct (List.length p + f)%nat as [|g] eqn:Hg.
    + destruct p; [|done]. simpl in Hg. subst f. simpl.
      destruct s as [|c' s]; [done|]. by destruct (Ascii.eqb c c').
    + destruct s as [|c' s]; [done|].
      change (run (S g) (Chr c) pos (String c' s) caps ?k')
        with (if Ascii.eqb c c' then k' (S pos) s caps else None).
      cbv beta. destruct (Ascii.eqb c c'); [|done].
      rewrite (IH (S g) (S pos) s) by done.
      by replace (S pos + List.length p)%nat with (pos + S (List.length p))%nat by lia.
Qed.

Lemma string_length_append (s1 s2 : string) :
  String.length (s1 ++ s2) = (String.length s1 + String.length s2)%nat.
Proof. induction s1 as [|c s1 IH]; simpl; [done|by rewrite IH]. Qed.

Lemma string_length_of_list (p : list ascii) :
  String.length (string_of_list_ascii p) = List.length p.
Proof. induction p as [|c p IH]; simpl; [done|by rewrite IH]. Qed.

Lemma substring_whole (s : string) : substring 0 (String.length s) s = s.
Proof. induction s as [|c s IH]; simpl; [done|by rewrite IH]. Qed.

(** [p] then [.*] then the end of the pattern. *)
Lemma run_chars_star_dot (p : list ascii) (f pos : nat) (s whole : string) (caps : smatch) :
  (List.length p + String.length s < f)%nat →
  run f (foldr Cat (Star Dot) (Chr <$> p)) pos s caps (at_end whole)
  = match strip_prefix p s with
    | Some rest => if one_line rest then Some (<[0%nat := Some whole]> caps) else None
    | None => None
    end.
Proof.
  intros Hf.
  rewrite (run_chars p (Star Dot) f (f - List.length p)) by lia.
  destruct (strip_prefix p s) as [rest|] eqn:Hp; [|done].
  apply strip_prefix_Some in Hp. subst s.
  rewrite run_star_dot; [done| |done].
  rewrite string_length_append, string_length_of_list in Hf. lia.
Qed.

Lemma run_bol_cat (f : nat) (r : regex) (s : string) (caps : smatch)
    (k : nat → string → smatch → option smatch) :
  run (S (S f)) (Cat Bol r) 0 s caps k = run (S f) r 0 s caps k.
Proof. reflexivity. Qed.

Lemma s3_match (s : string) :
  regex_match s3Regex s
  = match strip_prefix (list_ascii_of_string "s3://") s with
    | Some rest => if one_line rest then Some [Some s] else None
    | None => None
    end.
Proof.
  unfold regex_match.
  change (regex_size s3Regex + String.length s)%nat with (S (S (12 + String.length s))).
  change s3Regex
    with (Cat Bol (foldr Cat (Star Dot) (Chr <$> list_ascii_of_string "s3://"))).
  rewrite run_bol_cat.
  rewrite run_chars_star_dot; [done|]. simpl. lia.
Qed.

Lemma file_match (s : string) :
  regex_match fileRegex s
  = match strip_prefix (list_ascii_of_string "file://") s with
    | Some rest => if one_line rest then Some [Some s; Some rest] else None
    | None => None
    end.
Proof.
  unfold regex_match.
  change (regex_size fileRegex + String.length s)%nat with (S (S (17 + String.length s))).
  change fileRegex
    with (Cat Bol (foldr Cat (Group 1 (Star Dot)) (Chr <$> list_ascii_of_string "file://"))).
  rewrite run_bol_cat.
  rewrite (run_chars _ _ _ (S (10 + String.length s))) by (simpl; lia).
  destruct (strip_prefix _ s) as [rest|] eqn:Hp; [|done].
  apply strip_prefix_Some in Hp.
  change (run (S ?f) (Group 1 (Star Dot)) ?pos rest ?caps (at_end s))
    with (run f (Star Dot) pos rest caps
            (λ pos' s' caps',
               at_end s pos' s' (<[1%nat := Some (substring 0 (pos' - pos) rest)]> caps'))).
  rewrite run_star_dot; [| |done].
  - destruct (one_line rest); [|done]. simpl.
    by rewrite Nat.sub_0_r, substring_whole.
  - subst s. rewrite string_length_append. lia.
Qed.

Lemma http_match (s : string) :
  let tail (r : string) :=
    match strip_prefix (list_ascii_of_string "://") r with
    | Some rest => if one_line rest then Some [Some s] else None
    | None => None
    end in
  regex_match httpRegex s
  = match strip_prefix (list_ascii_of_string "http") s with
    | Some r1 =>
        match match r1 with
              | String c r2 => if Ascii.eqb "s" c then tail r2 else None
              | EmptyString => None
              end with
        | Some m => Some m
        | None => tail r1
        end
    | None => None
    end.
Proof.
  intros tail. unfold regex_match.
  change (regex_size httpRegex + String.length s)%nat with (S (S (19 + String.length s))).
  change httpRegex
    with (Cat Bol (foldr Cat
                     (Cat (Opt (Chr "s"))
                        (foldr Cat (Star Dot) (Chr <$> list_ascii_of_string "://")))
                     (Chr <$> list_ascii_of_string "http"))).
  rewrite run_bol_cat.
  rewrite (run_chars _ _ _ (S (S (14 + String.length s)))) by (simpl; lia).
  destruct (strip_prefix _ s) as [r1|] eqn:Hp; [|done].
  apply strip_prefix_Some in Hp.
  assert (Hlen : String.length s = (4 + String.length r1)%nat)
    by (subst s; by rewrite string_length_append).
  set (X := foldr Cat (Star Dot) (Chr <$> list_ascii_of_string "://")).
  assert (HX : ∀ pos r, (String.length r ≤ String.length r1)%nat →
            run (S (14 + String.length s)) X pos r (replicate 1 None) (at_end s) = tail r).
  { intros pos r Hr. unfold X. rewrite run_chars_star_dot; [done|]. simpl. lia. }
  change (run (S (S ?f)) (Cat (Opt (Chr "s")) X) ?pos r1 ?caps (at_end s))
    with (match run f (Chr "s") pos r1 caps
                  (λ pos' s' caps', run (S f) X pos' s' caps' (at_end s)) with
          | Some m => Some m
          | None => run (S f) X pos r1 caps (at_end s)
          end).
  rewrite (HX _ r1) by lia.
  destruct r1 as [|c r2]; [done|].
  change (run (14 + String.length s) (Chr "s") ?pos (String c r2) ?caps ?k)
    with (if Ascii.eqb "s" c then k (S pos) r2 caps else None).
  cbv beta. destruct (Ascii.eqb "s" c); [|done].
  rewrite (HX _ r2) by (simpl; lia). done.
Qed.

Lemma http_iff (filename : string) :
  is_http_address filename = true
  ↔ ∃ rest, (filename = ("http://" ++ rest)%string ∨ filename = ("https://" ++ rest)%string)
            ∧ one_line rest = true.
Proof.
  unfold is_http_address. rewrite bool_decide_eq_true, http_match. cbv zeta. split.
  - destruct (strip_prefix _ filename) as [r1|] eqn:Hp; [|by intros [? ?]].
    apply strip_prefix_Some in Hp. intros Hm.
    assert (Htail : ∀ r,
              is_Some (match strip_prefix (list_ascii_of_string "://") r with
                       | Some rest => if one_line rest then Some [Some filename] else None
                       | None => None
                       end) →
              ∃ rest, r = ("://" ++ rest)%string ∧ one_line rest = true).
    { intros r Hr. destruct (strip_prefix _ r) as [rest|] eqn:Hr'; [|by destruct Hr].
      apply strip_prefix_Some in Hr'. exists rest. split; [done|].
      destruct (one_line rest); [done|by destruct Hr]. }
    destruct r1 as [|c r2].
    + destruct (Htail EmptyString Hm) as (rest & ? & _). done.
    + destruct (Ascii.eqb_spec "s" c) as [<-|Hne].
      * destruct (Htail r2) as (rest' & -> & Hone).
        { revert Hm.
          destruct (match strip_prefix (list_ascii_of_string "://") r2 with
                    | Some rest => if one_line rest then Some [Some filename] else None
                    | None => None
                    end); [done|]. simpl. by intros [? ?]. }
        exists rest'. split; [right; by subst|done].
      * destruct (Htail _ Hm) as (rest' & Hr & Hone).
        exists rest'. split; [left; subst; by rewrite Hr|done].
  - intros (rest & [->| ->] & Hone); simpl; by rewrite Hone.
Qed.

Lemma s3_iff (filename : string) :
  is_s3_container filename = true
  ↔ ∃ rest, filename = ("s3://" ++ rest)%string ∧ one_line rest = true.
Proof.
  unfold is_s3_container. rewrite orb_diag, bool_decide_eq_true, s3_match. split.
  - destruct (strip_prefix _ filename) as [rest|] eqn:Hp; [|by intros [? ?]].
    apply strip_prefix_Some in Hp. intros Hm. exists rest. split; [done|].
    destruct (one_line rest); [done|by destruct Hm].
  - intros (rest & -> & Hone). simpl. by rewrite Hone.
Qed.

(** X14.  [is_http_address] holds exactly of the names that start with
    [http://] or [https://], in lower case, and have no line feed and no
    carriage return after it. *)
Theorem is_http_address_iff (filename : string) :
  is_http_address filename = true
  ↔ ∃ rest, (filename = ("http://" ++ rest)%string ∨ filename = ("https://" ++ rest)%string)
            ∧ one_line rest = true.
Proof. apply http_iff. Qed.

(** X15.  [is_s3_container] holds exactly of the names that start with
    [s3://] and have no line terminator after it; the pattern for the
    hosts of [s3.amazonaws.com] is built and never tried, and no name that
    it matches is taken for a container. *)
Theorem is_s3_container_iff (filename : string) :
  (is_s3_container filename = true
   ↔ ∃ rest, filename = ("s3://" ++ rest)%string ∧ one_line rest = true)
  ∧ (is_Some (regex_match awsRegex filename) → is_s3_container filename = false).
Proof.
  split; [apply s3_iff|].
  intros Haws. destruct (is_s3_container filename) eqn:Hs3; [|done].
  apply s3_iff in Hs3 as (rest & -> & _). exfalso.
  revert Haws. unfold regex_match. lazy. by intros [? ?].
Qed.

(** X16.  [get_filename] removes one leading [file://] from a name that
    has no line terminator after it, and returns every other name
    unchanged, in particular an http address and an s3 container. *)
Theorem get_filename_strips_one_file_prefix (filename : string) :
  (∀ rest, filename = ("file://" ++ rest)%string → one_line rest = true →
     get_filename filename = rest)
  ∧ ((¬ ∃ rest, filename = ("file://" ++ rest)%string ∧ one_line rest = true) →
     get_filename filename = filename)
  ∧ (is_http_address filename = true ∨ is_s3_container filename = true →
     get_filename filename = filename).
Proof.
  assert (Hnot : (¬ ∃ rest, filename = ("file://" ++ rest)%string ∧ one_line rest = true) →
                 get_filename filename = filename).
  { intros Hn. unfold get_filename. rewrite file_match.
    destruct (strip_prefix _ filename) as [rest|] eqn:Hp; [|done].
    apply strip_prefix_Some in Hp.
    destruct (one_line rest) eqn:Hone; [|done].
    destruct Hn. by exists rest. }
  split; [|split; [done|]].
  - intros rest -> Hone. unfold get_filename. rewrite file_match. simpl.
    by rewrite Hone.
  - intros H. apply Hnot. intros (rest & -> & _).
    destruct H as [(r & [Hr|Hr] & _)%http_iff|(r & Hr & _)%s3_iff]; discriminate.
Qed.


Lemma is_s3_container_iff_witness :
  Utils.is_s3_container "bucket.s3.amazonaws.com/key" = false.
Proof.
  apply (is_s3_container_iff "bucket.s3.amazonaws.com/key").
  apply (bool_decide_unpack _). by vm_compute.
Defined.

Lemma get_filename_strips_one_file_prefix_witness :
  Utils.get_filename "file:///tmp/array" = "/tmp/array"%string
  ∧ Utils.get_filename "file://file:///tmp/array" = "file:///tmp/array"%string
  ∧ Utils.get_filename "https://host/array" = "https://host/array"%string.
Proof.
  split; [|split].
  - by apply (get_filename_strips_one_file_prefix "file:///tmp/array").
  - by apply (get_filename_strips_one_file_prefix "file://file:///tmp/array").
  - apply (get_filename_strips_one_file_prefix "https://host/array").
    left. by vm_compute.
Defined.
End UtilsFacts.

(** * The reader of the corpus files *)

Section SiftDbFacts.
Import SiftDb.
Context {T : Type}.
Variables (sizeof : Z) (decode : list Z → T) (encode : T → list Z).
Hypothesis Hencode : ∀ t, Z.of_nat (length (encode t)) = sizeof.

Lemma bytes_at_app (pre mid post : list Z) :
  bytes_at (pre ++ mid ++ post) (Z.of_nat (length pre)) (Z.of_nat (length mid)) = Some mid.
Proof.
  unfold bytes_at. rewrite bool_decide_eq_true_2 by (rewrite !length_app; lia).
  rewrite !Nat2Z.id, drop_app_length, take_app_length. done.
Qed.

Lemma int_at_le32 (pre post : list Z) (d : Z) :
  0 ≤ d < 2 ^ 31 →
  int_at (pre ++ le32 d ++ post) (Z.of_nat (length pre)) = Some d.
Proof.
  intros Hd. unfold int_at.
  change 4 with (Z.of_nat (length (le32 d))). rewrite bytes_at_app.
  unfold le32. f_equal.
  change (2 ^ 8) with 256. change (2 ^ 16) with 65536. change (2 ^ 24) with 16777216.
  rewrite to_int_small; change (2 ^ 31) with 2147483648 in *.
  all: Z.to_euclidean_division_equations; lia.
Qed.

Lemma length_concat_encode (v : list T) :
  Z.of_nat (length (concat (encode <$> v))) = Z.of_nat (length v) * sizeof.
Proof.
  induction v as [|t v IH]; [simpl; lia|].
  rewrite fmap_cons. cbn [concat].
  rewrite length_app, length_cons, Nat2Z.inj_add, Nat2Z.inj_succ, IH, Hencode. lia.
Qed.

Lemma chunks_concat (v : list T) :
  chunks (Z.to_nat sizeof) (length v) (concat (encode <$> v)) = encode <$> v.
Proof.
  induction v as [|t v IH]; [done|].
  assert (Hl : Z.to_nat sizeof = length (encode t)) by (pose proof (Hencode t); lia).
  rewrite fmap_cons. cbn [concat chunks length].
  rewrite !Hl, take_app_length, drop_app_length, <- Hl. by rewrite IH.
Qed.

Lemma objects_at_concat (pre post : list Z) (v : list T) :
  Forall (λ t, decode (encode t) = t) v →
  objects_at sizeof decode (pre ++ concat (encode <$> v) ++ post)
    (Z.of_nat (length pre)) (Z.of_nat (length v)) = Some v.
Proof.
  intros Hdecode.
  unfold objects_at. rewrite <- length_concat_encode, bytes_at_app. simpl.
  rewrite Nat2Z.id, chunks_concat, <- list_fmap_compose. f_equal.
  rewrite <- (list_fmap_id v) at 2. apply list_fmap_ext. intros i t Ht.
  simpl. eapply (Forall_lookup_1 _ _ _ _ Hdecode Ht).
Qed.

Lemma length_record (d : Z) (v : list T) :
  Z.of_nat (length (record encode d v)) = 4 + Z.of_nat (length v) * sizeof.
Proof. unfold record. rewrite length_app, Nat2Z.inj_add, length_concat_encode. simpl. lia. Qed.

Lemma length_layout (d : Z) (vs : list (list T)) :
  Forall (λ v, Z.of_nat (length v) = d) vs →
  Z.of_nat (length (layout encode d vs)) = Z.of_nat (length vs) * (4 + d * sizeof).
Proof.
  induction 1 as [|v vs Hv _ IH]; [simpl; lia|].
  unfold layout in *. rewrite fmap_cons. cbn [concat].
  rewrite length_app, length_cons, Nat2Z.inj_add, Nat2Z.inj_succ, IH, length_record, Hv. lia.
Qed.

(** With objects of four bytes the loop walks the records of the layout. *)
Lemma records_layout (dimension : Z) (vs : list (list T)) (n : nat)
    (pre post : list Z) (out : list (list T)) :
  sizeof = 4 → 0 ≤ dimension < 2 ^ 31 →
  Forall (λ v, Z.of_nat (length v) = dimension) vs →
  Forall (Forall (λ t, decode (encode t) = t)) vs →
  records sizeof decode (pre ++ layout encode dimension vs ++ post) dimension
    (length vs + n) (Z.of_nat (length pre)) out
  = records sizeof decode (pre ++ layout encode dimension vs ++ post) dimension
      n (Z.of_nat (length (pre ++ layout encode dimension vs))) (out ++ vs).
Proof.
  intros Hfour Hd Hlen Hdec. revert pre out.
  induction vs as [|v vs IH]; intros pre out.
  - simpl. by rewrite !app_nil_r.
  - apply Forall_cons in Hlen as [Hv Hlen]. apply Forall_cons in Hdec as [Hvd Hdec].
    set (data := concat (encode <$> v)).
    assert (Hlayout : layout encode dimension (v :: vs)
                      = le32 dimension ++ data ++ layout encode dimension vs)
      by (unfold layout, record; rewrite fmap_cons; cbn [concat]; by rewrite <- (assoc_L (++))).
    rewrite Hlayout.
    remember (pre ++ (le32 dimension ++ data ++ layout encode dimension vs) ++ post)
      as mapped eqn:Hm.
    assert (Hint : int_at mapped (Z.of_nat (length pre)) = Some dimension).
    { rewrite Hm, <- (assoc_L (++) (le32 dimension)). by apply int_at_le32. }
    assert (Hobj : objects_at sizeof decode mapped (Z.of_nat (length pre) + sizeof) dimension
                   = Some v).
    { replace (Z.of_nat (length pre) + sizeof)
        with (Z.of_nat (length (pre ++ le32 dimension)))
        by (rewrite length_app; simpl; lia).
      rewrite Hm.
      replace (pre ++ (le32 dimension ++ data ++ layout encode dimension vs) ++ post)
        with ((pre ++ le32 dimension) ++ data ++ (layout encode dimension vs ++ post))
        by (by rewrite <- !(assoc_L (++))).
      pose proof (objects_at_concat (pre ++ le32 dimension)
                    (layout encode dimension vs ++ post) v Hvd) as Hobj.
      by rewrite Hv in Hobj. }
    cbn [length Nat.add records]. rewrite Hint. cbv zeta.
    rewrite wrap64_small by lia. rewrite bool_decide_eq_false_2 by (intros H; by apply H).
    rewrite Hobj.
    assert (Hm' : mapped = (pre ++ le32 dimension ++ data) ++ layout encode dimension vs ++ post)
      by (rewrite Hm; by rewrite <- !(assoc_L (++))).
    replace (Z.of_nat (length pre) + sizeof + dimension * sizeof)
      with (Z.of_nat (length (pre ++ le32 dimension ++ data))).
    2:{ rewrite !length_app, !Nat2Z.inj_add. unfold data.
        rewrite length_concat_encode. simpl. lia. }
    rewrite Hm' at 1. rewrite (IH Hlen Hdec). rewrite <- Hm'.
    rewrite <- !(assoc_L (++)). done.
Qed.

Lemma layout_cons (d : Z) (v : list T) (vs : list (list T)) :
  layout encode d (v :: vs) = record encode d v ++ layout encode d vs.
Proof. reflexivity. Qed.

(** X17.  Objects of four bytes (the [float]s and the [int]s of the
    corpus): on a file made of records of the given dimension, followed by
    less than a record of stray bytes, [sift_db] returns the vectors of the
    records, in their order. *)
Theorem sift_db_reads_four_byte_records (dimension : Z) (vs : list (list T))
    (tail : list Z) :
  sizeof = 4 → 0 ≤ dimension < 2 ^ 31 →
  Forall (λ v, Z.of_nat (length v) = dimension) vs →
  Forall (Forall (λ t, decode (encode t) = t)) vs →
  Z.of_nat (length tail) < 4 + 4 * dimension →
  vs ≠ [] ∨ tail ≠ [] →
  Z.of_nat (length (layout encode dimension vs ++ tail)) < 2 ^ 63 →
  sift_db sizeof decode (Some (layout encode dimension vs ++ tail)) dimension = Ok vs.
Proof.
  intros Hfour Hd Hlen Hdec Htail Hne Hsize.
  pose proof (length_layout dimension vs Hlen) as Hl.
  rewrite length_app, Nat2Z.inj_add, Hl in Hsize.
  unfold sift_db. rewrite length_app, Nat2Z.inj_add, Hl.
  rewrite (wrap64_small (dimension * sizeof)) by lia. rewrite wrap64_small by lia.
  rewrite bool_decide_eq_false_2 by lia.
  rewrite Z.div_add_l, Z.div_small, Z.add_0_r by lia.
  rewrite bool_decide_eq_false_2.
  2:{ destruct Hne as [Hne|Hne]; [destruct vs|destruct tail]; simpl; try done; lia. }
  rewrite bool_decide_eq_false_2.
  2:{ replace ((2 ^ 63 - 1) `div` sizeof) with (2 ^ 61 - 1) by (by rewrite Hfour).
      rewrite wrap64_small by nia. nia. }
  rewrite Nat2Z.id.
  pose proof (records_layout dimension vs 0 [] tail [] Hfour Hd Hlen Hdec) as Hrec.
  rewrite Nat.add_0_r in Hrec. simpl app in Hrec.
  change (Z.of_nat (length [])) with 0 in Hrec. by rewrite Hrec.
Qed.

(** X18.  The ends of [sift_db] that are not the vectors of the file: an
    empty file is reported as a failure of [mmap]; a file shorter than one
    record gives an empty database and no error; with objects of four
    bytes, a record whose header is not the dimension is reported as a
    dimension mismatch, with the value of that header, whatever the
    records before it. *)
Theorem sift_db_errors (dimension : Z) :
  1 ≤ sizeof < 2 ^ 31 → 0 ≤ dimension < 2 ^ 31 →
  sift_db sizeof decode (Some []) dimension = MmapFailed
  ∧ (∀ bytes, bytes ≠ [] → Z.of_nat (length bytes) < 4 + dimension * sizeof →
       sift_db sizeof decode (Some bytes) dimension = Ok [])
  ∧ (sizeof = 4 →
     ∀ vs header rest,
       Forall (λ v, Z.of_nat (length v) = dimension) vs →
       Forall (Forall (λ t, decode (encode t) = t)) vs →
       0 ≤ header < 2 ^ 31 → header ≠ dimension →
       4 * dimension ≤ Z.of_nat (length rest) →
       Z.of_nat (length (layout encode dimension vs ++ le32 header ++ rest)) < 2 ^ 63 →
       sift_db sizeof decode (Some (layout encode dimension vs ++ le32 header ++ rest))
         dimension
       = DimensionMismatch header).
Proof.
  intros Hsz Hd.
  assert (Hrs : wrap64 (4 + wrap64 (dimension * sizeof)) = 4 + dimension * sizeof).
  { rewrite (wrap64_small (dimension * sizeof)) by nia. rewrite wrap64_small by nia. done. }
  split; [|split].
  - unfold sift_db. rewrite Hrs. rewrite bool_decide_eq_false_2 by nia. done.
  - intros bytes Hne Hshort. unfold sift_db. rewrite Hrs.
    rewrite bool_decide_eq_false_2 by nia.
    rewrite Z.div_small by lia.
    rewrite bool_decide_eq_false_2 by (destruct bytes; simpl; [done|lia]).
    rewrite bool_decide_eq_false_2; [done|].
    simpl. rewrite wrap64_small by lia.
    assert (0 ≤ (2 ^ 63 - 1) `div` sizeof) by (apply Z.div_pos; lia). lia.
  - intros Hfour vs header rest Hlen Hdec Hh Hneq Hrest Hsize.
    pose proof (length_layout dimension vs Hlen) as Hl.
    set (mapped := layout encode dimension vs ++ le32 header ++ rest) in *.
    assert (Hms : Z.of_nat (length mapped)
                  = Z.of_nat (length vs) * (4 + dimension * sizeof)
                    + (4 + Z.of_nat (length rest))).
    { unfold mapped. rewrite !length_app, !Nat2Z.inj_add, Hl. simpl. lia. }
    unfold sift_db. rewrite Hrs. rewrite bool_decide_eq_false_2 by nia.
    rewrite bool_decide_eq_false_2 by lia.
    set (num := Z.of_nat (length mapped) `div` (4 + dimension * sizeof)).
    assert (Hnum : Z.of_nat (length vs) + 1 ≤ num).
    { unfold num. apply Z.div_le_lower_bound; [lia|]. rewrite Hms, Hfour. lia. }
    assert (Hnum' : num * (4 + dimension * sizeof) ≤ Z.of_nat (length mapped)).
    { unfold num. rewrite Z.mul_comm. apply Z.mul_div_le. lia. }
    rewrite bool_decide_eq_false_2.
    2:{ rewrite Hfour in *. change ((2 ^ 63 - 1) `div` 4) with (2 ^ 61 - 1).
        rewrite wrap64_small by nia. nia. }
    replace (Z.to_nat num) with (length vs + S (Z.to_nat (num - Z.of_nat (length vs) - 1)))%nat
      by lia.
    pose proof (records_layout dimension vs
                  (S (Z.to_nat (num - Z.of_nat (length vs) - 1))) []
                  (le32 header ++ rest) [] Hfour Hd Hlen Hdec) as Hrec.
    rewrite !app_nil_l in Hrec. change (Z.of_nat (length [])) with 0 in Hrec.
    fold mapped in Hrec. rewrite Hrec. cbn [records].
    unfold mapped at 1. rewrite int_at_le32 by done.
    rewrite wrap64_small by lia. by rewrite bool_decide_eq_true_2.
Qed.

Lemma le32_range (d : Z) : Forall (λ b, 0 ≤ b < 256) (le32 d).
Proof. unfold le32. repeat constructor; apply Z.mod_pos_bound; lia. Qed.

(** X19.  Objects of one byte (the bytes of the [bvecs] files): [sift_ptr++]
    moves by one byte, not by the four bytes of the header, so the second
    header is read three bytes early.  On a well-formed file of two records
    or more, of a dimension below [2 ^ 24] that is not a multiple of 256
    (128 for the corpus), [sift_db] returns nothing: it ends by a dimension
    mismatch. *)
Theorem sift_db_misreads_one_byte_records (dimension : Z) (v0 v1 : list T)
    (vs : list (list T)) (tail : list Z) :
  sizeof = 1 → 1 ≤ dimension < 2 ^ 24 → dimension `mod` 256 ≠ 0 →
  Z.of_nat (length v0) = dimension → Z.of_nat (length v1) = dimension →
  Forall (λ t, Forall (λ b, 0 ≤ b < 256) (encode t)) v0 →
  Z.of_nat (length (layout encode dimension (v0 :: v1 :: vs) ++ tail)) < 2 ^ 63 →
  ∃ dim,
    sift_db sizeof decode (Some (layout encode dimension (v0 :: v1 :: vs) ++ tail)) dimension
    = DimensionMismatch dim
    ∧ dim ≠ dimension.
Proof.
  intros Hone Hd Hmod Hv0 Hv1 Hbytes Hsize.
  set (data0 := concat (encode <$> v0)).
  set (rest := concat (encode <$> v1) ++ layout encode dimension vs ++ tail).
  set (mapped := layout encode dimension (v0 :: v1 :: vs) ++ tail) in *.
  assert (Hm : mapped = (le32 dimension ++ data0) ++ le32 dimension ++ rest).
  { unfold mapped, rest, data0. rewrite !layout_cons. unfold record.
    by rewrite <- !(assoc_L (++)). }
  assert (Hd0 : Z.of_nat (length data0) = dimension)
    by (unfold data0; rewrite length_concat_encode; lia).
  assert (Hrest : dimension ≤ Z.of_nat (length rest)).
  { unfold rest. rewrite length_app, Nat2Z.inj_add, length_concat_encode. lia. }
  assert (Hms : Z.of_nat (length mapped) = 8 + dimension + Z.of_nat (length rest)).
  { rewrite Hm, !length_app, !Nat2Z.inj_add. simpl. lia. }
  unfold sift_db. rewrite Hone, Z.mul_1_r.
  rewrite (wrap64_small dimension) by lia. rewrite wrap64_small by lia.
  rewrite bool_decide_eq_false_2 by lia. rewrite bool_decide_eq_false_2 by lia.
  set (num := Z.of_nat (length mapped) `div` (4 + dimension)).
  assert (Hnum : 2 ≤ num) by (unfold num; apply Z.div_le_lower_bound; lia).
  assert (Hnum' : num * (4 + dimension) ≤ Z.of_nat (length mapped)).
  { unfold num. rewrite Z.mul_comm. apply Z.mul_div_le. lia. }
  rewrite bool_decide_eq_false_2.
  2:{ change ((2 ^ 63 - 1) `div` 1) with (2 ^ 63 - 1). rewrite wrap64_small by nia. nia. }
  replace (Z.to_nat num) with (S (S (Z.to_nat (num - 2)))) by lia.
  assert (Hint0 : int_at mapped 0 = Some dimension).
  { rewrite Hm, <- (assoc_L (++)).
    apply (int_at_le32 [] (data0 ++ le32 dimension ++ rest)). lia. }
  assert (Hobj : is_Some (objects_at 1 decode mapped 1 dimension)).
  { unfold objects_at, bytes_at. rewrite bool_decide_eq_true_2 by lia. by eexists. }
  destruct Hobj as [w Hobj].
  assert (Hint1 : ∃ dim, int_at mapped (1 + dimension) = Some dim ∧ wrap64 dim ≠ dimension).
  { unfold int_at, bytes_at. rewrite bool_decide_eq_true_2 by lia.
    rewrite Hm. rewrite drop_app_le by (rewrite length_app; simpl; lia).
    set (l3 := drop (Z.to_nat (1 + dimension)) (le32 dimension ++ data0)).
    assert (Hl3 : length l3 = 3%nat)
      by (unfold l3; rewrite length_drop, length_app; simpl; lia).
    assert (Hr3 : Forall (λ b, 0 ≤ b < 256) l3).
    { unfold l3. apply Forall_drop, Forall_app. split; [apply le32_range|].
      unfold data0. apply Forall_concat, Forall_fmap. exact Hbytes. }
    rewrite take_app_ge by lia. rewrite Hl3.
    destruct l3 as [|x [|y [|z [|? ?]]]]; try done.
    apply Forall_cons in Hr3 as [Hx Hr3]. apply Forall_cons in Hr3 as [Hy Hr3].
    apply Forall_cons in Hr3 as [Hz _].
    simpl. eexists. split; [done|].
    pose proof (Z.mod_pos_bound dimension 256 ltac:(lia)) as Hb.
    unfold wrap64, to_int.
    change (2 ^ 8) with 256. change (2 ^ 16) with 65536. change (2 ^ 24) with 16777216 in *.
    change (2 ^ 31) with 2147483648. change (2 ^ 32) with 4294967296.
    change (2 ^ 64) with 18446744073709551616.
    set (b3 := dimension `mod` 256) in *.
    Z.to_euclidean_division_equations. lia. }
  destruct Hint1 as (dim & Hint1 & Hdim).
  exists dim. split; [|intros ->; apply Hdim, wrap64_small; lia].
  cbn [records]. rewrite Hint0. cbv zeta.
  rewrite wrap64_small by lia. rewrite bool_decide_eq_false_2 by (intros H; by apply H).
  change (0 + 1) with 1. rewrite Hobj. rewrite Z.mul_1_r, Hint1.
  by rewrite bool_decide_eq_true_2.
Qed.
End SiftDbFacts.

Lemma sift_db_reads_four_byte_records_witness :
  SiftDb.sift_db 4 example_decode4
    (Some (SiftDb.layout SiftDb.le32 2 [[1; 2]; [3; 4]] ++ [7])) 2
  = SiftDb.Ok [[1; 2]; [3; 4]].
Proof.
  apply (sift_db_reads_four_byte_records 4 example_decode4 SiftDb.le32);
    [reflexivity|reflexivity|lia|by repeat constructor|by repeat constructor
    |simpl; lia|by left|simpl; lia].
Defined.

Lemma sift_db_errors_witness :
  SiftDb.sift_db 4 example_decode4 (Some []) 2 = SiftDb.MmapFailed
  ∧ SiftDb.sift_db 4 example_decode4 (Some [2; 0; 0]) 2 = SiftDb.Ok []
  ∧ SiftDb.sift_db 4 example_decode4
      (Some (SiftDb.layout SiftDb.le32 2 [[1; 2]] ++ SiftDb.le32 3
             ++ [1; 0; 0; 0; 2; 0; 0; 0; 3; 0; 0; 0])) 2
    = SiftDb.DimensionMismatch 3.
Proof.
  destruct (sift_db_errors 4 example_decode4 SiftDb.le32 ltac:(reflexivity) 2)
    as (H1 & H2 & H3); [lia|lia|].
  split; [exact H1|]. split; [apply H2; [done|simpl; lia]|].
  apply H3; [reflexivity|by repeat constructor|by repeat constructor|lia|lia
            |simpl; lia|simpl; lia].
Defined.

Lemma sift_db_misreads_one_byte_records_witness :
  ∃ dim,
    SiftDb.sift_db 1 example_decode1
      (Some (SiftDb.layout example_encode1 4 [[1; 2; 3; 4]; [5; 6; 7; 8]] ++ [])) 4
    = SiftDb.DimensionMismatch dim
    ∧ dim ≠ 4.
Proof.
  apply (sift_db_misreads_one_byte_records 1 example_decode1 example_encode1);
    [reflexivity|reflexivity|lia|by vm_compute|reflexivity|reflexivity| |simpl; lia].
  repeat constructor; simpl; lia.
Defined.

(** * Matrices over a flat storage *)

Section MatrixFacts.
Import Linalg.
Context {T : Type}.

Lemma operator_index_eq (L : layout) (m : Matrix T) (k : Z) :
  0 ≤ k < num_vectors L m → 0 < span L m →
  Z.of_nat (length (storage_ m)) = nrows_ m * ncols_ m →
  operator_index L m k
  = Returned (take (Z.to_nat (span L m)) (drop (Z.to_nat (k * span L m)) (storage_ m))).
Proof.
  intros Hk Hlen Hst. destruct L; simpl in *; unfold span_at, offset.
  - rewrite bool_decide_eq_true_2 by lia. rewrite bool_decide_eq_true_2 by nia.
    by rewrite Z.add_0_r.
  - rewrite bool_decide_eq_true_2 by lia. rewrite bool_decide_eq_true_2 by nia.
    by rewrite Z.add_0_l.
Qed.

Lemma concat_slices (len : nat) (l : list T) (n : nat) :
  length l = (n * len)%nat →
  concat ((λ k : Z, take len (drop (Z.to_nat (k * Z.of_nat len)) l)) <$> seqZ 0 (Z.of_nat n)) = l.
Proof.
  revert l. induction n as [|n IH] using nat_ind; intros l Hl.
  - simpl in *. by destruct l.
  - rewrite seqZ_S.
    rewrite fmap_app, concat_app. simpl. rewrite app_nil_r, Z.add_0_l.
    etrans; [|apply (take_drop (n * len) l)]. f_equal.
    + etrans; [|apply (IH (take (n * len) l)); rewrite length_take; lia].
      f_equal. apply list_fmap_ext. intros i k Hk. simpl.
      apply lookup_seqZ in Hk as [-> Hi].
      rewrite Z.add_0_l, <- Nat2Z.inj_mul, Nat2Z.id.
      rewrite !take_drop_commute, take_take. do 2 f_equal. nia.
    + rewrite <- Nat2Z.inj_mul, Nat2Z.id. apply take_ge. rewrite length_drop. lia.
Qed.

(** X20.  A matrix whose storage has [nrows * ncols] elements, seen
    through [m[k]]: for every vector [k] (a row of a row-major matrix, a
    column of a column-major one) [m[k]] is a span of [m.span()] elements
    whose element [e] is the element that [m(k, e)], respectively
    [m(e, k)], reads; the vectors, one after the other, are [m.raveled()];
    and [m[k]] outside the vectors is undefined. *)
Theorem matrix_vectors_tile_the_storage (L : layout) (m : Matrix T) :
  0 ≤ nrows_ m → 0 ≤ ncols_ m → nrows_ m * ncols_ m < 2 ^ 64 →
  Z.of_nat (length (storage_ m)) = nrows_ m * ncols_ m →
  0 < span L m →
  (∀ k, 0 ≤ k < num_vectors L m →
     ∃ v, operator_index L m k = Returned v
          ∧ Z.of_nat (length v) = span L m
          ∧ ∀ e, 0 ≤ e < span L m → element L m k e = read v e)
  ∧ (∃ vs, Forall2 (λ k v, operator_index L m k = Returned v)
             (seqZ 0 (num_vectors L m)) vs
           ∧ raveled m = Returned (concat vs))
  ∧ (∀ k, ¬ 0 ≤ k < num_vectors L m → operator_index L m k = Undefined).
Proof.
  intros Hr Hc Hsmall Hst Hspan.
  assert (Htotal : num_vectors L m * span L m = nrows_ m * ncols_ m)
    by (destruct L; simpl; lia).
  split; [|split].
  - intros k Hk. eexists. split; [by apply operator_index_eq|].
    assert (Hlen : Z.of_nat (length (take (Z.to_nat (span L m))
                                       (drop (Z.to_nat (k * span L m)) (storage_ m))))
                   = span L m).
    { rewrite length_take, length_drop. nia. }
    split; [done|]. intros e He.
    unfold read. rewrite (vec_at_lookup (take _ _)) by lia.
    rewrite lookup_take_lt by lia. rewrite lookup_drop.
    destruct L; simpl in *; unfold operator_call, offset.
    + rewrite bool_decide_eq_true_2 by lia. unfold read.
      assert (0 ≤ k * ncols_ m) by nia.
      rewrite vec_at_lookup by lia.
      by replace (Z.to_nat (k * ncols_ m + e))
        with (Z.to_nat (k * ncols_ m) + Z.to_nat e)%nat by lia.
    + rewrite bool_decide_eq_true_2 by lia. unfold read.
      assert (0 ≤ k * nrows_ m) by nia.
      rewrite vec_at_lookup by lia.
      by replace (Z.to_nat (e + k * nrows_ m))
        with (Z.to_nat (k * nrows_ m) + Z.to_nat e)%nat by lia.
  - exists ((λ k : Z, take (Z.to_nat (span L m))
                        (drop (Z.to_nat (k * span L m)) (storage_ m)))
            <$> seqZ 0 (num_vectors L m)).
    split.
    + apply Forall2_fmap_r, Forall_Forall2_diag, Forall_forall.
      intros k Hk%elem_of_seqZ. apply operator_index_eq; [lia|done|done].
    + unfold raveled. rewrite wrap64_small by nia.
      rewrite bool_decide_eq_true_2 by lia. f_equal.
      rewrite take_ge by lia.
      pose proof (concat_slices (Z.to_nat (span L m)) (storage_ m)
                    (Z.to_nat (num_vectors L m))) as Hcs.
      rewrite !Z2Nat.id in Hcs by (destruct L; simpl; lia).
      symmetry. apply Hcs. nia.
  - intros k Hk. destruct L; simpl in *; unfold span_at;
      by rewrite bool_decide_eq_false_2 by lia.
Qed.
End MatrixFacts.

Lemma matrix_vectors_tile_the_storage_witness :
  (∀ k, 0 ≤ k < 3 →
     ∃ v, Linalg.operator_index Linalg.layout_left example_matrix k = Returned v
          ∧ Z.of_nat (length v) = 2
          ∧ ∀ e, 0 ≤ e < 2 →
              Linalg.element Linalg.layout_left example_matrix k e = read v e)
  ∧ (∃ vs, Forall2 (λ k v, Linalg.operator_index Linalg.layout_left example_matrix k
                           = Returned v)
             (seqZ 0 3) vs
           ∧ Linalg.raveled example_matrix = Returned (concat vs))
  ∧ (∀ k, ¬ 0 ≤ k < 3 →
       Linalg.operator_index Linalg.layout_left example_matrix k = Undefined).
Proof.
  apply (matrix_vectors_tile_the_storage Linalg.layout_left example_matrix); simpl; lia.
Defined.

(** ** Training: fewer vectors than centroids *)

Lemma foldl_max_ge (m : Z) (l : list Z) : m ≤ foldl Z.max m l.
Proof.
  revert m. induction l as [|a l IH]; intros m; simpl; [lia|].
  etrans; [|apply IH]. lia.
Qed.

(** Of the pairs [xs], all of a score that is not negative, more than [n]
    have the score 0: the [n + 1] first pairs of the sorted heap of the
    lowest scores have the score 0. *)
Lemma low_degrees_start_with_zeros {SH : Heap.SortHeap} {SHL : Heap.SortHeapLaws}
    (hs : Z) (xs : list (Z * Z)) (n : nat) :
  1 ≤ hs → Z.of_nat n < hs →
  Forall (λ e, 0 ≤ e.1) xs →
  (n < length (filter (λ e : Z * Z, e.1 = 0%Z) xs))%nat →
  ∀ (j : nat) lo,
    (j ≤ n)%nat →
    Heap.sort_heap Heap.tuple_lt
      (Heap.items (Heap.insert_all Z.ltb xs (Heap.empty hs))) !! j = Some lo →
    lo.1 = 0.
Proof.
  intros Hhs Hn Hpos Hzeros j lo Hj Hlo.
  set (held := Heap.items (Heap.insert_all Z.ltb xs (Heap.empty hs))) in *.
  set (low := Heap.sort_heap Heap.tuple_lt held) in *.
  destruct (insert_all_k_smallest hs [] (Heap.empty hs) xs Hhs eq_refl
              (empty_k_smallest hs ltac:(lia))) as [_ (rest & Hperm & Hlen & Hle)].
  simpl in Hperm, Hlen. fold held in Hperm, Hlen, Hle.
  assert (Hheld_pos : Forall (λ e : Z * Z, 0 ≤ e.1) held).
  { rewrite Hperm in Hpos. by apply Forall_app in Hpos as [? _]. }
  assert (Hcount : (n < length (filter (λ e : Z * Z, e.1 = 0%Z) held))%nat).
  { pose proof (length_filter (λ e : Z * Z, e.1 = 0%Z) xs) as Hfl.
    destruct (filter (λ e : Z * Z, e.1 = 0%Z) rest) as [|b tl] eqn:Hrest.
    - rewrite Hperm, filter_app, Hrest, app_nil_r in Hzeros. done.
    - assert (Hb : b ∈ filter (λ e : Z * Z, e.1 = 0%Z) rest) by (rewrite Hrest; left).
      apply list_elem_of_filter in Hb as [Hb0 Hb].
      rewrite filter_all; [lia|].
      apply Forall_forall. intros a Ha.
      pose proof (Hle a b Ha Hb). rewrite Forall_forall in Hheld_pos.
      pose proof (Hheld_pos a Ha). simpl in *. lia. }
  assert (Hlow_count : (n < length (filter (λ e : Z * Z, e.1 = 0%Z) low))%nat).
  { unfold low. by rewrite sort_heap_Permutation. }
  assert (Hlow_pos : Forall (λ e : Z * Z, 0 ≤ e.1) low).
  { unfold low. by rewrite sort_heap_Permutation. }
  destruct (decide (lo.1 = 0)) as [|Hne]; [done|]. exfalso.
  assert (Hlo_pos : 0 < lo.1).
  { rewrite Forall_forall in Hlow_pos.
    pose proof (Hlow_pos lo (list_elem_of_lookup_2 _ _ _ Hlo)). simpl in *. lia. }
  pose proof (sort_heap_tuple_lt_sorted held) as Hsorted. fold low in Hsorted.
  assert (Htr : Transitive (λ a b : Z * Z, a.1 ≤ b.1)) by (intros a b c; lia).
  apply (Sorted_StronglySorted _) in Hsorted.
  rewrite <- (take_drop j low) in Hsorted, Hlow_count.
  rewrite (drop_S _ _ _ Hlo) in Hsorted, Hlow_count.
  apply StronglySorted_app_1_r in Hsorted. inversion Hsorted as [|? ? _ Hall]; subst.
  rewrite filter_app in Hlow_count.
  rewrite (filter_none _ (lo :: _)) in Hlow_count.
  - rewrite app_nil_r in Hlow_count.
    pose proof (length_filter (λ e : Z * Z, e.1 = 0%Z) (take j low)) as Hfl.
    rewrite length_take in Hfl. lia.
  - constructor; [done|]. eapply Forall_impl; [exact Hall|]. simpl. lia.
Qed.

(** After the sums, the degrees are not negative and at most as many
    centroids as there are training vectors have a degree that is not 0. *)
Lemma zero_degrees {T D : Type} `{!Arith T D} (dim : nat) (nlist : Z)
    (training_set : list (list T)) (parts : list Z) (st : KMeans.sums T) :
  0 ≤ nlist → length parts = length training_set →
  accounts dim nlist training_set parts [] [] (Z.of_nat (length training_set)) st →
  let xs := zip (KMeans.degrees st) (seqZ 0 nlist) in
  Forall (λ e, 0 ≤ e.1) xs
  ∧ (Z.to_nat nlist ≤ length training_set + length (filter (λ e : Z * Z, e.1 = 0%Z) xs))%nat.
Proof.
  intros Hnlist Hparts (Hln & Hld & Hall) xs.
  assert (Hxs : ∀ e, e ∈ xs →
            0 ≤ e.2 < nlist
            ∧ e.1 = Z.of_nat (length (members parts [] (Z.of_nat (length training_set)) e.2))).
  { intros [d c] [i Hi]%list_elem_of_lookup_1. apply lookup_zip_Some in Hi as [Hd Hc].
    apply lookup_seqZ in Hc as [-> Hi']. simpl.
    destruct (Hall (0 + Z.of_nat i)) as [Hdeg _]; [lia|].
    rewrite Z.add_0_l, vec_at_of_nat, Hd in Hdeg. injection Hdeg as ->.
    split; [lia|]. rewrite Z.add_0_l. lia. }
  split.
  - apply Forall_forall. intros e He. destruct (Hxs e He) as [_ ->]. lia.
  - pose proof (filter_app_complement (λ e : Z * Z, e.1 = 0%Z) xs) as Hperm.
    apply Permutation_length in Hperm. rewrite length_app in Hperm.
    assert (Hxl : length xs = Z.to_nat nlist).
    { unfold xs. rewrite length_zip, length_seqZ. lia. }
    assert (Hnz : (length (filter (λ e : Z * Z, ¬ e.1 = 0%Z) xs) ≤ length parts)%nat).
    { rewrite <- (length_fmap snd (filter _ xs)).
      apply submseteq_length, NoDup_submseteq.
      - apply (sublist_NoDup _ xs.*2); [|apply fmap_sublist, sublist_filter].
        unfold xs. rewrite snd_zip by (rewrite length_seqZ; lia). apply NoDup_seqZ.
      - intros c (e & -> & [Hne He]%list_elem_of_filter)%list_elem_of_fmap.
        destruct (Hxs e He) as [_ Hdeg].
        destruct (members parts [] (Z.of_nat (length training_set)) e.2) as [|i l] eqn:Hm;
          [simpl in Hdeg; lia|].
        assert (Hi : i ∈ members parts [] (Z.of_nat (length training_set)) e.2)
          by (rewrite Hm; left).
        apply list_elem_of_filter in Hi as [[Hi _] _].
        apply vec_at_Some in Hi as [_ Hi]. by eapply list_elem_of_lookup_2. }
    lia.
Qed.

Section Overrun.
Context {T D : Type} {HA : Arith T D} {HL : ArithLaws T D}.
Variables (dim : nat) (nlist : Z) (training_set : list (list T)) (scores parts : list Z).
Hypothesis Hsmall : Z.of_nat (length training_set) < 2 ^ 63.
Hypothesis Hdim : Forall (λ v, length v = dim) training_set.
Hypothesis Hscores : length scores = length training_set.
Hypothesis Hparts : length parts = length training_set.
Hypothesis Hrange : Forall (λ p, 0 ≤ p < nlist) parts.

(** The reassignment reads [high_scores] past its end when [low_degrees]
    is longer and all its pairs up to there are within the bound. *)
Lemma reassign_overrun (low high : list (Z * Z)) bound (r i : nat) st :
  (i + r)%nat = length high → (length high < length low)%nat →
  (∀ (j : nat) lo, (j ≤ length high)%nat → low !! j = Some lo → lo.1 ≤ bound) →
  NoDup low.*2 → Forall (λ z, 0 ≤ z < nlist) low.*2 →
  NoDup high.*2 → Forall (λ v, 0 ≤ v < Z.of_nat (length training_set)) high.*2 →
  accounts dim nlist training_set parts (take i high).*2 (take i low).*2
    (Z.of_nat (length training_set)) st →
  KMeans.reassign training_set parts low high bound
    (seqZ (Z.of_nat i) (Z.of_nat (length low - i))) st
  = Undefined.
Proof.
  intros Hlen Hlt Hle Hlnd Hlr Hhnd Hhr. revert i st Hlen.
  induction r as [|r IH]; intros i st Hlen Hacc.
  - rewrite seqZ_cons by lia. cbn [KMeans.reassign].
    destruct (lookup_lt_is_Some_2 low i) as [lo Hlo]; [lia|].
    rewrite vec_at_of_nat, Hlo.
    rewrite bool_decide_eq_true_2 by (apply (Hle i); [lia|done]).
    unfold read. rewrite vec_at_of_nat, lookup_ge_None_2 by lia. done.
  - rewrite seqZ_cons by lia. cbn [KMeans.reassign].
    destruct (lookup_lt_is_Some_2 low i) as [lo Hlo]; [lia|].
    destruct (lookup_lt_is_Some_2 high i) as [hi Hhi]; [lia|].
    rewrite vec_at_of_nat, Hlo.
    rewrite bool_decide_eq_true_2 by (apply (Hle i); [lia|done]).
    unfold read at 1. rewrite vec_at_of_nat, Hhi. cbn [bind].
    assert (Hlo2 : low.*2 !! i = Some lo.2) by (by rewrite list_lookup_fmap, Hlo).
    assert (Hhi2 : high.*2 !! i = Some hi.2) by (by rewrite list_lookup_fmap, Hhi).
    assert (Hz : 0 ≤ lo.2 < nlist).
    { rewrite Forall_forall in Hlr. apply Hlr. by eapply list_elem_of_lookup_2. }
    assert (Hv : 0 ≤ hi.2 < Z.of_nat (length training_set)).
    { rewrite Forall_forall in Hhr. apply Hhr. by eapply list_elem_of_lookup_2. }
    destruct (reassign_step_accounts dim nlist training_set scores parts
                Hsmall Hdim Hscores Hparts Hrange _ _ _ lo.2 (Z.to_nat hi.2) Hacc)
      as (st1 & Hstep & Hacc1).
    { done. }
    { rewrite fmap_take. by apply NoDup_lookup_not_in_take. }
    { rewrite Z2Nat.id by lia. rewrite fmap_take. by apply NoDup_lookup_not_in_take. }
    { lia. }
    rewrite Z2Nat.id in Hstep, Hacc1 by lia. rewrite Hstep. cbn [bind].
    replace (Z.succ (Z.of_nat i)) with (Z.of_nat (S i)) by lia.
    replace (Z.pred (Z.of_nat (length low - i))) with (Z.of_nat (length low - S i)) by lia.
    apply IH; [lia|].
    by rewrite (take_S_r _ _ _ Hlo), (take_S_r _ _ _ Hhi), !fmap_app.
Qed.
End Overrun.

Section FewVectors.
Context {SH : Heap.SortHeap} {SHL : Heap.SortHeapLaws}.
Context {T D : Type} {HA : Arith T D} {HL : ArithLaws T D}.
Variable ceil_ratio : Z → Z.
Variable qv_partition_with_scores : list (list T) → list (list T) → list Z * list Z.
Variables (x : KMeans.kmeans_index T D) (training_set : list (list T)).
Hypothesis Hfew : 2 * Z.of_nat (length training_set) < KMeans.nlist_ x.
Hypothesis Hheap : Z.of_nat (length training_set) < ceil_ratio (KMeans.nlist_ x) + 5.
Hypothesis Hnlist : KMeans.nlist_ x < 2 ^ 63.
Hypothesis Hdim : Forall (λ v, length v = Z.to_nat (KMeans.dimension_ x)) training_set.
Hypothesis Hceil : ∀ n, 0 ≤ n → 0 ≤ ceil_ratio n.
Hypothesis Hpartition : ∀ centroids,
  length centroids = Z.to_nat (KMeans.nlist_ x) →
  length (qv_partition_with_scores centroids training_set).1 = length training_set
  ∧ length (qv_partition_with_scores centroids training_set).2 = length training_set
  ∧ Forall (λ p, 0 ≤ p < KMeans.nlist_ x) (qv_partition_with_scores centroids training_set).2.

Lemma lloyd_overrun iter centroids :
  length centroids = Z.to_nat (KMeans.nlist_ x) →
  iter ≠ wrap64 (KMeans.max_iter_ x - 1) →
  KMeans.lloyd ceil_ratio qv_partition_with_scores x training_set iter centroids
  = Undefined.
Proof.
  intros Hc Hiter. destruct (Hpartition centroids Hc) as (Hscores & Hparts & Hrange).
  unfold KMeans.lloyd.
  destruct (qv_partition_with_scores centroids training_set) as [scores parts].
  simpl in Hscores, Hparts, Hrange. cbv zeta.
  assert (Hsmall : Z.of_nat (length training_set) < 2 ^ 63) by lia.
  set (hs := ceil_ratio (KMeans.nlist_ x) + 5).
  assert (Hhs : 1 ≤ hs) by (pose proof (Hceil (KMeans.nlist_ x)); lia).
  destruct (accumulate_returns (Z.to_nat (KMeans.dimension_ x)) (KMeans.nlist_ x)
              training_set scores parts Hsmall Hdim Hscores Hparts Hrange
              (Heap.empty hs)) as (before & -> & Hacc).
  cbn [bind fst snd].
  pose proof Hacc as (Hln & Hld & _).
  unfold KMeans.scan_degrees.
  replace (seqZ 0 (KMeans.nlist_ x))
    with (seqZ (Z.of_nat 0) (Z.of_nat (Z.to_nat (KMeans.nlist_ x)))) by (f_equal; lia).
  rewrite scan_degrees_returns by (simpl; lia). cbn [bind fst snd].
  rewrite drop_0, firstn_all2 by lia.
  set (low := Heap.sort_heap Heap.tuple_lt _).
  set (high := Heap.sort_heap Heap.score_gt _).
  set (bound := ceil_ratio _).
  rewrite bool_decide_eq_false_2 by done. cbn [negb].
  destruct (sorted_heap_ids Z.ltb Heap.tuple_lt hs (KMeans.degrees before)
              (seqZ (Z.of_nat 0) (Z.of_nat (Z.to_nat (KMeans.nlist_ x)))))
    as (Hlnd & Hlsub & Hllen);
    [lia|rewrite length_seqZ; lia|apply NoDup_seqZ|]. fold low in Hlnd, Hlsub, Hllen.
  destruct (sorted_heap_ids Z.gtb Heap.score_gt hs scores
              (seqZ 0 (Z.of_nat (length training_set))))
    as (Hhnd & Hhsub & Hhlen);
    [lia|rewrite length_seqZ; lia|apply NoDup_seqZ|]. fold high in Hhnd, Hhsub, Hhlen.
  rewrite length_seqZ in Hllen, Hhlen.
  assert (Hnl : 0 ≤ KMeans.nlist_ x) by lia.
  destruct (zero_degrees (Z.to_nat (KMeans.dimension_ x)) (KMeans.nlist_ x) training_set
              parts before Hnl Hparts Hacc) as [Hpos Hzeros].
  assert (Hbound : 0 ≤ bound).
  { apply Hceil. apply (foldl_max_ge 0). }
  assert (Hlow0 : ∀ (j : nat) lo, (j ≤ length high)%nat → low !! j = Some lo → lo.1 ≤ bound).
  { intros j lo Hj Hlo.
    rewrite (low_degrees_start_with_zeros hs
               (zip (KMeans.degrees before) (seqZ 0 (KMeans.nlist_ x)))
               (length training_set) Hhs Hheap Hpos ltac:(lia) j lo); [done|lia|].
    revert Hlo. unfold low. by rewrite Z2Nat.id by lia. }
  pose proof (reassign_overrun (Z.to_nat (KMeans.dimension_ x)) (KMeans.nlist_ x)
                training_set scores parts Hsmall Hdim Hscores Hparts Hrange
                low high bound (length high) 0 before) as Hover.
  rewrite Nat.sub_0_r in Hover. change (Z.of_nat 0) with 0 in Hover. rewrite Hover; [done|lia|lia|done|done| |done| |done].
  - apply Forall_forall. intros z Hz%Hlsub. apply elem_of_seqZ in Hz. lia.
  - apply Forall_forall. intros v Hv%Hhsub. apply elem_of_seqZ in Hv. lia.
Qed.

(** X21.  Training with few vectors: when the training set has [n]
    vectors, fewer than half the number of centroids and fewer than the
    size [ceil(reassign_ratio * nlist) + 5] of the heaps (an empty training
    set, for one), every iteration that reassigns reads [high_scores]
    past its end, since more than [n] centroids have the degree 0 and the
    loop of the reassignment follows [low_degrees]: the behaviour of
    [train_no_init] is undefined as soon as [max_iter] is 2 or more.  With
    [max_iter = 0] it returns at once. *)
Theorem train_no_init_with_few_vectors_is_undefined :
  length (KMeans.centroids_ x) = Z.to_nat (KMeans.nlist_ x) →
  (2 ≤ KMeans.max_iter_ x < 2 ^ 64 →
   KMeans.train_no_init ceil_ratio qv_partition_with_scores x training_set = Undefined)
  ∧ (KMeans.max_iter_ x ≤ 0 →
     KMeans.train_no_init ceil_ratio qv_partition_with_scores x training_set
     = Returned (x, [])).
Proof.
  intros Hc. split.
  - intros Hmax. unfold KMeans.train_no_init.
    rewrite seqZ_cons by lia. cbn [KMeans.iterate].
    rewrite lloyd_overrun; [done|done|].
    rewrite wrap64_small by lia. lia.
  - intros Hmax. unfold KMeans.train_no_init.
    replace (seqZ 0 (KMeans.max_iter_ x)) with (@nil Z)
      by (symmetry; apply seqZ_nil; lia).
    simpl. by destruct x.
Qed.
End FewVectors.

Lemma train_no_init_with_few_vectors_is_undefined_witness :
  KMeans.train_no_init example_ceil_ratio example_partition (example_index 3 3) [[1]]
  = Undefined.
Proof.
  assert (H4 : ∀ n, 0 ≤ n → 0 ≤ example_ceil_ratio n)
    by (intros n Hn; unfold example_ceil_ratio; apply Z.div_pos; lia).
  apply (train_no_init_with_few_vectors_is_undefined example_ceil_ratio example_partition
           (example_index 3 3) [[1]]);
    [simpl; lia|by vm_compute|simpl; lia|by repeat constructor|exact H4| |reflexivity
    |simpl; lia].
  intros centroids Hc.
  exact (example_partition_in_range 3 centroids [[1]] ltac:(lia) Hc).
Defined.
